(** * The filter-chain engine of module-filter-chain.c

    A shallow embedding of the graph builder ([find_port], [parse_link],
    [link_free], [load_node]), the control plane ([set_control_value],
    [parse_params], [get_props_param]), the planner ([setup_graph] with
    [find_next_node], [setup_input_port], [setup_output_port]) and the
    per-period executor ([capture_process]).

    Conventions of the embedding.
    - A [struct node *] is the position of the node in [graph->node_list]
      (nodes are only ever appended before the graph is torn down).
    - A [struct port *] is a [port_ref]: the node and the position in one of
      the four port arrays of that node; which array is fixed by the context
      (a link's [output] points into [output_port], its [input] into
      [input_port], [graph->control_port] into [control_port]).
    - [uint32_t] and [unsigned int] counters are [Z] with the wrap-around
      written out ([wrap32]).
    - [float] is an IEEE-754 binary32 datum, [spec_float] of the
      Standard Library at precision 24. *)

From Stdlib Require Import ZArith List Bool Lia Ascii SpecFloat.
From stdpp Require Import base list strings.

Open Scope Z_scope.

(** ** Machine integers and floats *)

Definition wrap32 (z : Z) : Z := z mod 2 ^ 32.

Definition SPA_ID_INVALID : Z := 4294967295.

Definition MAX_HNDL : Z := 64.
Definition MAX_SAMPLES : Z := 8192.
Definition sizeof_float : Z := 4.

Definition float32 := spec_float.

Definition f32_prec : Z := 24.
Definition f32_emax : Z := 128.

(** [a == b] on floats: false as soon as one side is a NaN. *)
Definition f32_eqb (a b : float32) : bool := SFeqb a b.

(** [a <= b] on floats. *)
Definition f32_leb (a b : float32) : bool := SFleb a b.

Definition f32_zero : float32 := S754_zero false.
Definition f32_one : float32 := binary_normalize f32_prec f32_emax 1 0 false.

(** [(float) i] for an [int32_t]. *)
Definition f32_of_int (i : Z) : float32 :=
  binary_normalize f32_prec f32_emax i 0 false.

(** [(float) d] for a [double], itself a [spec_float] at precision 53. *)
Definition f32_of_double (d : spec_float) : float32 :=
  match d with
  | S754_finite s m e =>
      binary_normalize f32_prec f32_emax (cond_Zopp s (Zpos m)) e s
  | _ => d
  end.

(** [(int32_t) f]: truncation toward zero.  C leaves the conversion of a
    NaN, an infinity or a value outside [int32_t] undefined: [None]. *)
Definition f32_to_int (f : float32) : option Z :=
  match f with
  | S754_zero _ => Some 0
  | S754_finite s m e =>
      let a := if (0 <=? e)%Z then Z.shiftl (Zpos m) e
               else Z.shiftr (Zpos m) (- e) in
      let v := cond_Zopp s a in
      if (- 2 ^ 31 <=? v) && (v <? 2 ^ 31) then Some v else None
  | _ => None
  end.

(** ** Error codes

    The functions return [0] or [-errno]; [res] keeps the errno by name.
    The specification calls them INVALID ([EINVAL]), NOT_FOUND ([ENOENT]),
    UNSUPPORTED ([ENOTSUP]), BUSY ([EBUSY]) and NO_MEM ([ENOMEM]).  The
    named codes are positive; [EOTHER code] is any other value of
    [errno], 0 when nothing set it. *)

Inductive errno := EINVAL | ENOENT | ENOTSUP | EBUSY | ENOMEM | EOTHER (code : Z).

Inductive res := Ok | Err (e : errno).

#[global] Instance errno_eq_dec : EqDecision errno.
Proof. solve_decision. Defined.
#[global] Instance res_eq_dec : EqDecision res.
Proof. solve_decision. Defined.

(** [res = -errno] where the code takes the errno from a call that
    failed: a value below 0 when the errno is positive, and else a value
    that every caller reads as success ([0] when the call left [errno]
    at 0). *)
Definition neg_errno (e : errno) : res :=
  match e with
  | EOTHER code => if code <=? 0 then Ok else Err e
  | _ => Err e
  end.

(** ** Data model *)

(** Modelled from the spec: the port flag bits of plugin.h (not among the
    sources): a direction IN or OUT and a kind AUDIO or CONTROL, tested by
    [FC_IS_PORT_INPUT] and friends with a bitwise and. *)
Definition FC_PORT_INPUT : Z := 1.
Definition FC_PORT_OUTPUT : Z := 2.
Definition FC_PORT_CONTROL : Z := 4.
Definition FC_PORT_AUDIO : Z := 8.

Definition FC_IS_PORT_INPUT (x : Z) : bool := negb (Z.land x FC_PORT_INPUT =? 0).
Definition FC_IS_PORT_OUTPUT (x : Z) : bool := negb (Z.land x FC_PORT_OUTPUT =? 0).
Definition FC_IS_PORT_CONTROL (x : Z) : bool := negb (Z.land x FC_PORT_CONTROL =? 0).
Definition FC_IS_PORT_AUDIO (x : Z) : bool := negb (Z.land x FC_PORT_AUDIO =? 0).

(** Modelled from the spec: the hint bits of plugin.h (BOOLEAN, INTEGER,
    SAMPLE_RATE) and the capability flag SUPPORTS_NULL_DATA. *)
Definition FC_HINT_BOOLEAN : Z := 4.
Definition FC_HINT_SAMPLE_RATE : Z := 8.
Definition FC_HINT_INTEGER : Z := 32.
Definition FC_DESCRIPTOR_SUPPORTS_NULL_DATA : Z := 1.

(** [struct fc_port]. *)
Record fc_port := {
  fp_name : string;
  fp_flags : Z;
  fp_hint : Z;
  fp_def : float32;
  fp_min : float32;
  fp_max : float32
}.

(** [struct fc_descriptor]: the plugin's own description. *)
Record fc_descriptor := {
  fc_name : string;
  fc_flags : Z;
  fc_ports : list fc_port;
  fc_activate : bool;      (* [d->activate] is set *)
  fc_deactivate : bool     (* [d->deactivate] is set *)
}.

(** [struct descriptor]: the four dense arrays of port numbers built by
    [descriptor_load]; [n_input] is the length of [d_input], and so on. *)
Record descriptor := {
  d_desc : fc_descriptor;
  d_input : list nat;
  d_output : list nat;
  d_control : list nat;
  d_notify : list nat;
  d_default_control : list float32
}.

Definition d_n_input (d : descriptor) : nat := length (d_input d).
Definition d_n_output (d : descriptor) : nat := length (d_output d).
Definition d_n_control (d : descriptor) : nat := length (d_control d).
Definition d_n_notify (d : descriptor) : nat := length (d_notify d).

Record port_ref := PortRef { pr_node : nat; pr_idx : nat }.

#[global] Instance port_ref_eq_dec : EqDecision port_ref.
Proof. solve_decision. Defined.

(** [struct link]: a link is identified by its two endpoints (an input port
    carries at most one link, so no two links of a graph are alike). *)
Record link := Link { l_output : port_ref; l_input : port_ref }.

#[global] Instance link_eq_dec : EqDecision link.
Proof. solve_decision. Defined.

(** A plugin instance: the handle [instantiate] returned for instance [i]
    of the node at position [n]. *)
Record handle := Handle { h_node : nat; h_inst : nat }.

#[global] Instance handle_eq_dec : EqDecision handle.
Proof. solve_decision. Defined.

(** The memory regions handed to [connect_port]. *)
Inductive pointer :=
| PNull
| PSilence                                   (* silence_data *)
| PDiscard                                   (* discard_data *)
| PControl (notify : bool) (q : port_ref)     (* &port->control_data *)
| PAudio (q : port_ref) (i : nat)             (* output port scratch buffer *)
| PData (base : Z) (offs : Z).                (* SPA_PTROFF(ds->data, offs) *)

(** [struct port]. *)
Record port := {
  port_idx : nat;
  port_p : nat;
  port_link_list : list link;
  port_n_links : Z;
  port_external : Z;
  port_control_data : float32;
  port_audio_data : list (option pointer)
}.

(** [struct node]; [node_hndl] holds [hndl[0..n_hndl)]. *)
Record node := {
  node_name : string;
  node_desc : descriptor;
  node_input_port : list port;
  node_output_port : list port;
  node_control_port : list port;
  node_notify_port : list port;
  node_hndl : list handle;
  node_n_deps : Z;
  node_visited : bool
}.

(** [struct graph_port] and [struct graph_hndl]. *)
Record graph_port := {
  gp_desc : option descriptor;
  gp_hndl : option handle;
  gp_port : nat
}.

Record graph_hndl := {
  gh_desc : descriptor;
  gh_hndl : handle
}.

(** [struct spa_chunk], [struct spa_data] and the data planes of a
    [struct pw_buffer]; [sd_data] is the address of the region. *)
Record spa_chunk := {
  chunk_offset : Z;
  chunk_size : Z;
  chunk_stride : Z
}.

Record spa_data := {
  sd_data : Z;
  sd_maxsize : Z;
  sd_chunk : spa_chunk
}.

Record pw_buffer := { datas : list spa_data }.

(** The calls made on plugins and streams, in the order they happen. *)
Inductive stream := Capture | Playback.

Inductive event :=
| EvInstantiate (h : handle)
| EvConnect (h : option handle) (p : nat) (ptr : pointer)
| EvActivate (h : handle)
| EvDeactivate (h : handle)
| EvCleanup (h : handle)
| EvRun (h : handle) (frames : Z)
| EvMemset (base : Z) (n : Z)
| EvQueue (s : stream) (b : pw_buffer)
| EvTrigger (s : stream).

(** [struct graph]; [g_calls] is the log of the calls made so far. *)
Record graph := {
  g_node_list : list node;
  g_link_list : list link;
  g_input : list graph_port;
  g_output : list graph_port;
  g_hndl : list graph_hndl;
  g_control_port : list port_ref;
  g_calls : list event
}.

Definition node_n_hndl (n : node) : Z := Z.of_nat (length (node_hndl n)).

Definition graph_n_input (g : graph) : Z := Z.of_nat (length (g_input g)).
Definition graph_n_output (g : graph) : Z := Z.of_nat (length (g_output g)).
Definition graph_n_hndl (g : graph) : Z := Z.of_nat (length (g_hndl g)).
Definition graph_n_control (g : graph) : Z := Z.of_nat (length (g_control_port g)).

(** ** Port lookup *)

(** [spa_streq] on two present strings. *)
Definition spa_streq (a b : string) : bool := String.eqb a b.

(** [strchr(str, ':')] followed by the cut: the text before the first
    colon and the text after it. *)
Fixpoint split_colon (s : string) : option (string * string) :=
  match s with
  | EmptyString => None
  | String c rest =>
      if Ascii.eqb c ":"%char then Some (EmptyString, rest)
      else match split_colon rest with
           | Some (a, b) => Some (String c a, b)
           | None => None
           end
  end.

Definition digit_of (c : Ascii.ascii) : option Z :=
  let n := Z.of_nat (Ascii.nat_of_ascii c) in
  if (48 <=? n) && (n <=? 57) then Some (n - 48) else None.

Fixpoint atou_digits (s : string) (acc : Z) : option Z :=
  match s with
  | EmptyString => Some acc
  | String c rest =>
      match digit_of c with
      | Some d => atou_digits rest (10 * acc + d)
      | None => None
      end
  end.

(** Modelled from the spec: [spa_atou32] of spa/utils/string.h (not among
    the sources) reads a dense numeric index: a non-empty run of decimal
    digits whose value fits [uint32_t]; anything else is not a number. *)
Definition spa_atou32 (s : string) : option Z :=
  match s with
  | EmptyString => None
  | _ => match atou_digits s 0 with
         | Some v => if v <? 2 ^ 32 then Some v else None
         | None => None
         end
  end.

(** [find_node]: the position of the first node with that name. *)
Fixpoint find_node_from (nodes : list node) (name : string) (k : nat) : option nat :=
  match nodes with
  | [] => None
  | n :: rest =>
      if spa_streq (node_name n) name then Some k
      else find_node_from rest name (S k)
  end.

(** [vis] is the number of nodes already appended to [graph->node_list]:
    all of them, except while [load_node] is still filling in a node. *)
Definition find_node (vis : nat) (g : graph) (name : string) : option nat :=
  find_node_from (take vis (g_node_list g)) name 0.

(** The name of port number [p] of the plugin, [d->ports[p].name]. *)
Definition port_name_of (d : descriptor) (p : nat) : option string :=
  fp_name <$> fc_ports (d_desc d) !! p.

(** The loop at the end of [find_port]: the first [i] with
    [i == port_id] or a matching name. *)
Fixpoint find_port_scan (d : descriptor) (ports : list port)
         (port_id : Z) (port_name : string) (i : nat) : option nat :=
  match ports with
  | [] => None
  | pt :: rest =>
      if (Z.of_nat i =? port_id)
         || match port_name_of d (port_p pt) with
            | Some nm => spa_streq nm port_name
            | None => false
            end
      then Some i
      else find_port_scan d rest port_id port_name (S i)
  end.

(** The port array [find_port] searches for a given [descriptor] flag
    word: control and notify ports for CONTROL, audio ports otherwise. *)
Definition select_ports (n : node) (descriptor : Z) : option (list port) :=
  if FC_IS_PORT_INPUT descriptor then
    if FC_IS_PORT_CONTROL descriptor then Some (node_control_port n)
    else Some (node_input_port n)
  else if FC_IS_PORT_OUTPUT descriptor then
    if FC_IS_PORT_CONTROL descriptor then Some (node_notify_port n)
    else Some (node_output_port n)
  else None.

(** [find_port]: ["<node_name>:<port>"] or ["<port>"], the port being a
    name or an index.  [nd] is the default node, absent when the node
    list is empty. *)
Definition find_port_in (g : graph) (nd : option nat) (port_name : string)
           (descriptor : Z) : option port_ref :=
  match nd with
  | None => None
  | Some k =>
      match g_node_list g !! k with
      | None => None
      | Some n =>
          let port_id := match spa_atou32 port_name with
                         | Some v => v
                         | None => SPA_ID_INVALID
                         end in
          match select_ports n descriptor with
          | None => None
          | Some ports =>
              PortRef k <$> find_port_scan (node_desc n) ports port_id port_name 0
          end
      end
  end.

Definition find_port_upto (vis : nat) (g : graph) (nd : option nat)
           (name : string) (descriptor : Z) : option port_ref :=
  match split_colon name with
  | Some (node_name, port_name) =>
      find_port_in g (find_node vis g node_name) port_name descriptor
  | None => find_port_in g nd name descriptor
  end.

Definition find_port (g : graph) (nd : option nat) (name : string)
           (descriptor : Z) : option port_ref :=
  find_port_upto (length (g_node_list g)) g nd name descriptor.

(** [spa_list_first] and [spa_list_last] of the node list. *)
Definition first_node (g : graph) : option nat :=
  match g_node_list g with [] => None | _ => Some 0%nat end.

Definition last_node (g : graph) : option nat :=
  match g_node_list g with [] => None | _ => Some (length (g_node_list g) - 1)%nat end.

(** ** Field updates *)

Definition port_set_links (ll : list link) (n : Z) (pt : port) : port :=
  {| port_idx := port_idx pt; port_p := port_p pt;
     port_link_list := ll; port_n_links := n;
     port_external := port_external pt;
     port_control_data := port_control_data pt;
     port_audio_data := port_audio_data pt |}.

Definition port_set_external (x : Z) (pt : port) : port :=
  {| port_idx := port_idx pt; port_p := port_p pt;
     port_link_list := port_link_list pt; port_n_links := port_n_links pt;
     port_external := x;
     port_control_data := port_control_data pt;
     port_audio_data := port_audio_data pt |}.

Definition port_set_control_data (v : float32) (pt : port) : port :=
  {| port_idx := port_idx pt; port_p := port_p pt;
     port_link_list := port_link_list pt; port_n_links := port_n_links pt;
     port_external := port_external pt;
     port_control_data := v;
     port_audio_data := port_audio_data pt |}.

Definition port_set_audio_data (a : list (option pointer)) (pt : port) : port :=
  {| port_idx := port_idx pt; port_p := port_p pt;
     port_link_list := port_link_list pt; port_n_links := port_n_links pt;
     port_external := port_external pt;
     port_control_data := port_control_data pt;
     port_audio_data := a |}.

Definition node_set_input_port (ps : list port) (n : node) : node :=
  {| node_name := node_name n; node_desc := node_desc n;
     node_input_port := ps; node_output_port := node_output_port n;
     node_control_port := node_control_port n;
     node_notify_port := node_notify_port n;
     node_hndl := node_hndl n; node_n_deps := node_n_deps n;
     node_visited := node_visited n |}.

Definition node_set_output_port (ps : list port) (n : node) : node :=
  {| node_name := node_name n; node_desc := node_desc n;
     node_input_port := node_input_port n; node_output_port := ps;
     node_control_port := node_control_port n;
     node_notify_port := node_notify_port n;
     node_hndl := node_hndl n; node_n_deps := node_n_deps n;
     node_visited := node_visited n |}.

Definition node_set_control_port (ps : list port) (n : node) : node :=
  {| node_name := node_name n; node_desc := node_desc n;
     node_input_port := node_input_port n;
     node_output_port := node_output_port n;
     node_control_port := ps;
     node_notify_port := node_notify_port n;
     node_hndl := node_hndl n; node_n_deps := node_n_deps n;
     node_visited := node_visited n |}.

Definition node_set_hndl (hs : list handle) (n : node) : node :=
  {| node_name := node_name n; node_desc := node_desc n;
     node_input_port := node_input_port n;
     node_output_port := node_output_port n;
     node_control_port := node_control_port n;
     node_notify_port := node_notify_port n;
     node_hndl := hs; node_n_deps := node_n_deps n;
     node_visited := node_visited n |}.

Definition node_set_n_deps (d : Z) (n : node) : node :=
  {| node_name := node_name n; node_desc := node_desc n;
     node_input_port := node_input_port n;
     node_output_port := node_output_port n;
     node_control_port := node_control_port n;
     node_notify_port := node_notify_port n;
     node_hndl := node_hndl n; node_n_deps := d;
     node_visited := node_visited n |}.

Definition node_set_visited (b : bool) (n : node) : node :=
  {| node_name := node_name n; node_desc := node_desc n;
     node_input_port := node_input_port n;
     node_output_port := node_output_port n;
     node_control_port := node_control_port n;
     node_notify_port := node_notify_port n;
     node_hndl := node_hndl n; node_n_deps := node_n_deps n;
     node_visited := b |}.

Definition graph_set_nodes (ns : list node) (g : graph) : graph :=
  {| g_node_list := ns; g_link_list := g_link_list g;
     g_input := g_input g; g_output := g_output g; g_hndl := g_hndl g;
     g_control_port := g_control_port g; g_calls := g_calls g |}.

Definition graph_set_links (ls : list link) (g : graph) : graph :=
  {| g_node_list := g_node_list g; g_link_list := ls;
     g_input := g_input g; g_output := g_output g; g_hndl := g_hndl g;
     g_control_port := g_control_port g; g_calls := g_calls g |}.

Definition graph_set_input (x : list graph_port) (g : graph) : graph :=
  {| g_node_list := g_node_list g; g_link_list := g_link_list g;
     g_input := x; g_output := g_output g; g_hndl := g_hndl g;
     g_control_port := g_control_port g; g_calls := g_calls g |}.

Definition graph_set_output (x : list graph_port) (g : graph) : graph :=
  {| g_node_list := g_node_list g; g_link_list := g_link_list g;
     g_input := g_input g; g_output := x; g_hndl := g_hndl g;
     g_control_port := g_control_port g; g_calls := g_calls g |}.

Definition graph_set_hndl (x : list graph_hndl) (g : graph) : graph :=
  {| g_node_list := g_node_list g; g_link_list := g_link_list g;
     g_input := g_input g; g_output := g_output g; g_hndl := x;
     g_control_port := g_control_port g; g_calls := g_calls g |}.

Definition graph_set_control_port (x : list port_ref) (g : graph) : graph :=
  {| g_node_list := g_node_list g; g_link_list := g_link_list g;
     g_input := g_input g; g_output := g_output g; g_hndl := g_hndl g;
     g_control_port := x; g_calls := g_calls g |}.

(** Append calls to the log. *)
Definition graph_log (evs : list event) (g : graph) : graph :=
  {| g_node_list := g_node_list g; g_link_list := g_link_list g;
     g_input := g_input g; g_output := g_output g; g_hndl := g_hndl g;
     g_control_port := g_control_port g; g_calls := g_calls g ++ evs |}.

(** Access to one port through a [struct port *]. *)
Definition input_port_at (nodes : list node) (q : port_ref) : option port :=
  nodes !! pr_node q ≫= λ n, node_input_port n !! pr_idx q.

Definition output_port_at (nodes : list node) (q : port_ref) : option port :=
  nodes !! pr_node q ≫= λ n, node_output_port n !! pr_idx q.

Definition control_port_at (nodes : list node) (q : port_ref) : option port :=
  nodes !! pr_node q ≫= λ n, node_control_port n !! pr_idx q.

Definition notify_port_at (nodes : list node) (q : port_ref) : option port :=
  nodes !! pr_node q ≫= λ n, node_notify_port n !! pr_idx q.

Definition upd_input_port (f : port → port) (q : port_ref)
           (nodes : list node) : list node :=
  alter (λ n, node_set_input_port (alter f (pr_idx q) (node_input_port n)) n)
        (pr_node q) nodes.

Definition upd_output_port (f : port → port) (q : port_ref)
           (nodes : list node) : list node :=
  alter (λ n, node_set_output_port (alter f (pr_idx q) (node_output_port n)) n)
        (pr_node q) nodes.

Definition upd_control_port (f : port → port) (q : port_ref)
           (nodes : list node) : list node :=
  alter (λ n, node_set_control_port (alter f (pr_idx q) (node_control_port n)) n)
        (pr_node q) nodes.

Definition upd_n_deps (f : Z → Z) (k : nat) (nodes : list node) : list node :=
  alter (λ n, node_set_n_deps (f (node_n_deps n)) n) k nodes.

Definition n_deps_at (nodes : list node) (k : nat) : option Z :=
  node_n_deps <$> nodes !! k.

Definition visited_at (nodes : list node) (k : nat) : option bool :=
  node_visited <$> nodes !! k.

(** ** Graph builder *)

(** The port numbers [p] of [d->ports] whose flags pass [sel], in order:
    one of the four dense arrays [descriptor_load] fills in. *)
Definition ports_where (sel : Z → bool) (ports : list fc_port) : list nat :=
  omap (λ '(p, fp), if sel (fp_flags fp) then Some p else None)
       (imap (λ p fp, (p, fp)) ports).

Definition is_audio_in (f : Z) : bool := FC_IS_PORT_AUDIO f && FC_IS_PORT_INPUT f.
Definition is_audio_out (f : Z) : bool :=
  FC_IS_PORT_AUDIO f && negb (FC_IS_PORT_INPUT f) && FC_IS_PORT_OUTPUT f.
Definition is_control_in (f : Z) : bool :=
  negb (FC_IS_PORT_AUDIO f) && FC_IS_PORT_CONTROL f && FC_IS_PORT_INPUT f.
Definition is_control_out (f : Z) : bool :=
  negb (FC_IS_PORT_AUDIO f) && FC_IS_PORT_CONTROL f
  && negb (FC_IS_PORT_INPUT f) && FC_IS_PORT_OUTPUT f.

(** [get_default]. *)
Definition get_default (d : fc_descriptor) (p : nat) : float32 :=
  default f32_zero (fp_def <$> fc_ports d !! p).

(** The part of [descriptor_load] that follows [make_desc]: sort the ports
    of the plugin into the four arrays and record the control defaults. *)
Definition descriptor_load (d : fc_descriptor) : res * option descriptor :=
  let inp := ports_where is_audio_in (fc_ports d) in
  let out := ports_where is_audio_out (fc_ports d) in
  let ctl := ports_where is_control_in (fc_ports d) in
  let ntf := ports_where is_control_out (fc_ports d) in
  if (length inp =? 0)%nat && (length out =? 0)%nat then (Err ENOTSUP, None)
  else (Ok, Some {| d_desc := d; d_input := inp; d_output := out;
                    d_control := ctl; d_notify := ntf;
                    d_default_control := get_default d <$> ctl |}).

(** A port as [load_node] initialises it in a zeroed array. *)
Definition new_port (cd : float32) (i p : nat) : port :=
  {| port_idx := i; port_p := p; port_link_list := []; port_n_links := 0;
     port_external := SPA_ID_INVALID; port_control_data := cd;
     port_audio_data := replicate (Z.to_nat MAX_HNDL) None |}.

Definition new_node (name : string) (d : descriptor) : node :=
  {| node_name := name; node_desc := d;
     node_input_port := imap (new_port f32_zero) (d_input d);
     node_output_port := imap (new_port f32_zero) (d_output d);
     node_control_port :=
       imap (λ i p, new_port (default f32_zero (d_default_control d !! i)) i p)
            (d_control d);
     node_notify_port := imap (new_port f32_zero) (d_notify d);
     node_hndl := []; node_n_deps := 0; node_visited := false |}.

(** [set_control_value]: returns 1 when the value changed, else 0. *)
Definition set_control_value_upto (vis : nat) (g : graph) (nd : option nat)
           (name : string) (value : option float32) : Z * graph :=
  match find_port_upto vis g nd name (Z.lor FC_PORT_INPUT FC_PORT_CONTROL) with
  | None => (0, g)
  | Some q =>
      match g_node_list g !! pr_node q with
      | None => (0, g)
      | Some n =>
          match node_control_port n !! pr_idx q with
          | None => (0, g)
          | Some pt =>
              let old := port_control_data pt in
              let new :=
                match value with
                | Some v => v
                | None => default f32_zero
                            (d_default_control (node_desc n) !! port_idx pt)
                end in
              (if f32_eqb old new then 0 else 1,
               graph_set_nodes
                 (upd_control_port (port_set_control_data new) q (g_node_list g)) g)
          end
      end
  end.

Definition set_control_value (g : graph) (nd : option nat)
           (name : string) (value : option float32) : Z * graph :=
  set_control_value_upto (length (g_node_list g)) g nd name value.

(** [parse_control]: the entries of the [control] object, each a key and
    the float its value parses to, if it does. *)
Fixpoint parse_control (vis : nat) (g : graph) (nd : nat)
         (control : list (string * option float32)) : graph :=
  match control with
  | [] => g
  | (key, None) :: rest => parse_control vis g nd rest
  | (key, Some fl) :: rest =>
      parse_control vis (snd (set_control_value_upto vis g (Some nd) key (Some fl)))
                    nd rest
  end.

(** [load_node] once [descriptor_load] has returned [d]: the node is
    created, its controls are set, and it is appended to the node list.
    While the controls are parsed the node is not yet in the list, so
    that [find_node] sees only the nodes before it. *)
Definition load_node (g : graph) (name : string) (d : descriptor)
           (control : option (list (string * option float32))) : res * graph :=
  let k := length (g_node_list g) in
  let g1 := graph_set_nodes (g_node_list g ++ [new_node name d]) g in
  (Ok, match control with
       | Some c => parse_control k g1 k c
       | None => g1
       end).

(** A value of the link object as the JSON reader delivers it. *)
Inductive jvalue :=
| JStr (s : string)    (* [spa_json_get_string] > 0 *)
| JSkip                (* not a string, [spa_json_next] >= 0 *)
| JErr.                (* [spa_json_next] < 0 *)

(** The key loop of [parse_link]: the last [output] and [input] strings,
    or [None] for the [-EINVAL] exits. *)
Fixpoint parse_link_keys (json : list (string * jvalue))
         (output input : string) : option (string * string) :=
  match json with
  | [] => Some (output, input)
  | (key, v) :: rest =>
      if spa_streq key "output" then
        match v with
        | JStr s => parse_link_keys rest s input
        | _ => None
        end
      else if spa_streq key "input" then
        match v with
        | JStr s => parse_link_keys rest output s
        | _ => None
        end
      else match v with
           | JErr => Some (output, input)
           | _ => parse_link_keys rest output input
           end
  end.

Definition port_add_link (l : link) (pt : port) : port :=
  port_set_links (port_link_list pt ++ [l]) (wrap32 (port_n_links pt + 1)) pt.

(** The tail of [parse_link], once the link is allocated. *)
Definition link_ports (g : graph) (out_port in_port : port_ref) : graph :=
  let l := Link out_port in_port in
  let ns := upd_output_port (port_add_link l) out_port (g_node_list g) in
  let ns := upd_input_port (port_add_link l) in_port ns in
  let ns := upd_n_deps (λ d, wrap32 (d + 1)) (pr_node in_port) ns in
  graph_set_links (g_link_list g ++ [l]) (graph_set_nodes ns g).

(** [parse_link]; [alloc_ok] tells whether [calloc] returns a link. *)
Definition parse_link (alloc_ok : bool) (g : graph)
           (json : list (string * jvalue)) : res * graph :=
  match g_node_list g with
  | [] => (Err EINVAL, g)
  | _ =>
    match parse_link_keys json "" "" with
    | None => (Err EINVAL, g)
    | Some (output, input) =>
      match find_port g (first_node g) output FC_PORT_OUTPUT with
      | None => (Err ENOENT, g)
      | Some out_port =>
        match find_port g (last_node g) input FC_PORT_INPUT with
        | None => (Err ENOENT, g)
        | Some in_port =>
          match input_port_at (g_node_list g) in_port with
          | None => (Err ENOENT, g)
          | Some pt =>
            if 0 <? port_n_links pt then (Err ENOTSUP, g)
            else if negb alloc_ok then (Err ENOMEM, g)
            else (Ok, link_ports g out_port in_port)
          end
        end
      end
    end
  end.

(** [spa_list_remove] of one link from a list. *)
Fixpoint remove_link (l : link) (ls : list link) : list link :=
  match ls with
  | [] => []
  | x :: rest => if decide (x = l) then rest else x :: remove_link l rest
  end.

Definition port_del_link (l : link) (pt : port) : port :=
  port_set_links (remove_link l (port_link_list pt))
                 (wrap32 (port_n_links pt - 1)) pt.

(** [link_free]. *)
Definition link_free (l : link) (g : graph) : graph :=
  let ns := upd_input_port (port_del_link l) (l_input l) (g_node_list g) in
  let ns := upd_n_deps (λ d, wrap32 (d - 1)) (pr_node (l_input l)) ns in
  let ns := upd_output_port (port_del_link l) (l_output l) ns in
  graph_set_links (remove_link l (g_link_list g)) (graph_set_nodes ns g).

(** ** Control plane *)

(** The values of a parameter struct as the pod parser reads them. *)
Inductive pod_value :=
| PodString (s : string)
| PodFloat (f : float32)
| PodDouble (d : spec_float)
| PodInt (i : Z)
| PodBool (b : bool)
| PodOther.

Inductive spa_pod :=
| PodStruct (items : list pod_value)
| PodNotStruct.

(** The loop of [parse_params]: a name, then a value.  A value that is
    no float, double, int or bool is skipped with [spa_pod_parser_get_pod]
    and [set_control_value] is called with a null [val]. *)
Fixpoint parse_params_loop (g : graph) (def_node : option nat)
         (items : list pod_value) (changed : Z) : Z * graph :=
  match items with
  | PodString name :: rest =>
      match rest with
      | PodFloat f :: rest' =>
          let r := set_control_value g def_node name (Some f) in
          parse_params_loop (snd r) def_node rest' (changed + fst r)
      | PodDouble d :: rest' =>
          let r := set_control_value g def_node name (Some (f32_of_double d)) in
          parse_params_loop (snd r) def_node rest' (changed + fst r)
      | PodInt i :: rest' =>
          let r := set_control_value g def_node name (Some (f32_of_int i)) in
          parse_params_loop (snd r) def_node rest' (changed + fst r)
      | PodBool b :: rest' =>
          let r := set_control_value g def_node name
                     (Some (if b then f32_one else f32_zero)) in
          parse_params_loop (snd r) def_node rest' (changed + fst r)
      | _ :: rest' =>
          let r := set_control_value g def_node name None in
          parse_params_loop (snd r) def_node rest' (changed + fst r)
      | [] =>
          let r := set_control_value g def_node name None in
          (changed + fst r, snd r)
      end
  | _ => (changed, g)
  end.

(** [parse_params]: the number of changed controls and the graph. *)
Definition parse_params (g : graph) (pod : spa_pod) : Z * graph :=
  match pod with
  | PodNotStruct => (0, g)
  | PodStruct items => parse_params_loop g (first_node g) items 0
  end.

(** A value of the parameter snapshot. *)
Inductive prop_value :=
| VBool (b : bool)
| VInt (i : option Z)
| VFloat (f : float32).

(** One entry of [get_props_param]: the name, cut by [snprintf] to the
    511 characters that fit [name[512]], and the current value of the
    control port [q]. *)
Definition props_entry (g : graph) (q : port_ref) : option (string * prop_value) :=
  n ← g_node_list g !! pr_node q;
  pt ← node_control_port n !! pr_idx q;
  fp ← fc_ports (d_desc (node_desc n)) !! port_p pt;
  let name := String.substring 0 511
                match node_name n with
                | EmptyString => fp_name fp
                | nm => nm +:+ ":" +:+ fp_name fp
                end in
  let v := port_control_data pt in
  Some (name,
        if negb (Z.land (fp_hint fp) FC_HINT_BOOLEAN =? 0)
        then VBool (negb (f32_leb v f32_zero))
        else if negb (Z.land (fp_hint fp) FC_HINT_INTEGER =? 0)
        then VInt (f32_to_int v)
        else VFloat v).

(** [get_props_param]: the snapshot, one entry per [graph->control_port]. *)
Definition get_props_param (g : graph) : option (list (string * prop_value)) :=
  mapM (props_entry g) (g_control_port g).

(** ** Per-period executor *)

Record process_state := {
  ps_outsize : Z;
  ps_stride : Z;
  ps_calls : list event
}.

(** The body of the loop over the input planes. *)
Definition process_input (gp : graph_port) (ds : spa_data) (i : nat)
           (st : process_state) : process_state :=
  let offs := Z.min (chunk_offset (sd_chunk ds)) (sd_maxsize ds) in
  let size := Z.min (chunk_size (sd_chunk ds)) (sd_maxsize ds - offs) in
  {| ps_outsize := if (i =? 0)%nat then size else Z.min (ps_outsize st) size;
     ps_stride := Z.max (ps_stride st) (chunk_stride (sd_chunk ds));
     ps_calls := ps_calls st ++
       match gp_desc gp with
       | Some _ => [EvConnect (gp_hndl gp) (gp_port gp) (PData (sd_data ds) offs)]
       | None => []
       end |}.

(** The body of the loop over the output planes: the calls and the plane
    with its chunk filled in. *)
Definition process_output (gp : graph_port) (dd : spa_data)
           (st : process_state) : process_state * spa_data :=
  let outsize := Z.min (ps_outsize st) (sd_maxsize dd) in
  ({| ps_outsize := outsize;
      ps_stride := ps_stride st;
      ps_calls := ps_calls st ++
        match gp_desc gp with
        | Some _ => [EvConnect (gp_hndl gp) (gp_port gp) (PData (sd_data dd) 0)]
        | None => [EvMemset (sd_data dd) outsize]
        end |},
   {| sd_data := sd_data dd; sd_maxsize := sd_maxsize dd;
      sd_chunk := {| chunk_offset := 0; chunk_size := outsize;
                     chunk_stride := ps_stride st |} |}).

(** The two loops.  [graph->input[i]] and [graph->output[i]] are read
    without a bound check: past the end of the array the behaviour of the
    C code is undefined, [None]. *)
Fixpoint process_inputs (ports : list graph_port) (ds : list spa_data)
         (i : nat) (st : process_state) : option process_state :=
  match ds with
  | [] => Some st
  | d :: rest =>
      match ports !! i with
      | None => None
      | Some gp => process_inputs ports rest (S i) (process_input gp d i st)
      end
  end.

Fixpoint process_outputs (ports : list graph_port) (dd : list spa_data)
         (i : nat) (st : process_state) : option (process_state * list spa_data) :=
  match dd with
  | [] => Some (st, [])
  | d :: rest =>
      match ports !! i with
      | None => None
      | Some gp =>
          let '(st', d') := process_output gp d st in
          match process_outputs ports rest (S i) st' with
          | None => None
          | Some (st'', rest') => Some (st'', d' :: rest')
          end
      end
  end.

Definition run_handles (hs : list graph_hndl) (outsize : Z) : list event :=
  (λ h, EvRun (gh_hndl h) (outsize / sizeof_float)) <$> hs.

(** The [done:] label: give back what was dequeued, then trigger. *)
Definition process_done (b_in b_out : option pw_buffer) : list event :=
  match b_in with Some b => [EvQueue Capture b] | None => [] end
  ++ match b_out with Some b => [EvQueue Playback b] | None => [] end
  ++ [EvTrigger Playback].

(** [capture_process]; [b_in] and [b_out] are what the two
    [pw_stream_dequeue_buffer] calls return. *)
Definition capture_process (g : graph) (b_in b_out : option pw_buffer)
  : option (list event) :=
  match b_in, b_out with
  | Some bi, Some bo =>
      st ← process_inputs (g_input g) (datas bi) 0
             {| ps_outsize := 0; ps_stride := 0; ps_calls := [] |};
      '(st', dd) ← process_outputs (g_output g) (datas bo) 0 st;
      Some (ps_calls st' ++ run_handles (g_hndl g) (ps_outsize st')
            ++ process_done (Some bi) (Some {| datas := dd |}))
  | _, _ => Some (process_done b_in b_out)
  end.

(** ** Graph planner *)

(** [struct impl]: the stream formats, the rate and the graph. *)
Record impl := {
  capture_info_channels : Z;
  playback_info_channels : Z;
  impl_rate : Z;
  capture_info_rate : Z;
  playback_info_rate : Z;
  impl_graph : graph
}.

(** What the planner cannot decide by itself: whether [instantiate] gives
    a handle for instance [i] of node [k] ([None]) or returns NULL, with
    the errno it leaves; the value the call leaves in [impl->rate], which
    it gets by pointer; and whether [calloc] gives the scratch buffer of
    instance [i] of an output port. *)
Record plugin_env := {
  env_instantiate : nat → nat → option errno;
  env_rate : nat → nat → Z → Z;
  env_alloc : port_ref → nat → bool
}.

(** Plugins whose [instantiate], when it fails, leaves a positive errno:
    [-errno] is then below 0. *)
Definition errno_reported (env : plugin_env) : Prop :=
  ∀ k i e, env_instantiate env k i = Some e → neg_errno e = Err e.

(** The leading strings of an [inputs] or [outputs] array: what the loops
    [while (spa_json_get_string(&it, v, sizeof(v)) > 0)] go through. *)
Fixpoint json_strings (json : list jvalue) : list string :=
  match json with
  | JStr s :: rest => s :: json_strings rest
  | _ => []
  end.

Definition count_array (json : list jvalue) : Z :=
  Z.of_nat (length (json_strings json)).

(** [find_next_node]: the first node with [n_deps == 0] not yet visited. *)
Fixpoint find_next_node_from (nodes : list node) (k : nat) : option nat :=
  match nodes with
  | [] => None
  | n :: rest =>
      if (node_n_deps n =? 0) && negb (node_visited n) then Some k
      else find_next_node_from rest (S k)
  end.

Definition find_next_node (g : graph) : option (nat * graph) :=
  match find_next_node_from (g_node_list g) 0 with
  | None => None
  | Some k =>
      Some (k, graph_set_nodes (alter (node_set_visited true) k (g_node_list g)) g)
  end.

(** The instances [0 .. n_hndl) of a node with their handles. *)
Definition instances (n : node) : list (nat * handle) :=
  imap (λ i h, (i, h)) (node_hndl n).

(** [setup_input_port]: connect every instance to the buffer of the peer. *)
Definition setup_input_port (g : graph) (q : port_ref) : graph :=
  match g_node_list g !! pr_node q, input_port_at (g_node_list g) q with
  | Some n, Some pt =>
      graph_log
        (l ← port_link_list pt;
         '(i, h) ← instances n;
         [EvConnect (Some h) (port_p pt)
            (default PNull
               (output_port_at (g_node_list g) (l_output l)
                  ≫= λ peer, mjoin (port_audio_data peer !! i)))]) g
  | _, _ => g
  end.

(** The inner loop of [setup_output_port] over the instances: allocate the
    buffer on first use, store it and connect it.  The loop is left at
    the first [calloc] that fails, with the buffers stored and the calls
    made for the instances before it: the result is [false] with those. *)
Fixpoint connect_output (env : plugin_env) (q : port_ref) (p : nat)
         (ins : list (nat * handle)) (audio : list (option pointer))
  : bool * list (option pointer) * list event :=
  match ins with
  | [] => (true, audio, [])
  | (i, h) :: rest =>
      match match mjoin (audio !! i) with
            | Some data => Some data
            | None => if env_alloc env q i then Some (PAudio q i) else None
            end with
      | None => (false, audio, [])
      | Some data =>
          let '(ok, audio', evs) :=
            connect_output env q p rest (<[i := Some data]> audio) in
          (ok, audio', EvConnect (Some h) p data :: evs)
      end
  end.

(** The outer loop of [setup_output_port] over the links of the port.
    When a [calloc] fails the function returns at once, after the
    connects of the instances before it and before the [n_deps--] of the
    link. *)
Fixpoint setup_output_links (env : plugin_env) (q : port_ref)
         (links : list link) (g : graph) : res * graph :=
  match links with
  | [] => (Ok, g)
  | l :: rest =>
      match g_node_list g !! pr_node q, output_port_at (g_node_list g) q with
      | Some n, Some pt =>
          match connect_output env q (port_p pt) (instances n) (port_audio_data pt) with
          | (false, audio, evs) =>
              let ns := upd_output_port (port_set_audio_data audio) q (g_node_list g) in
              (Err ENOMEM, graph_log evs (graph_set_nodes ns g))
          | (true, audio, evs) =>
              let ns := upd_output_port (port_set_audio_data audio) q (g_node_list g) in
              let ns := upd_n_deps (λ d, wrap32 (d - 1)) (pr_node (l_input l)) ns in
              setup_output_links env q rest (graph_log evs (graph_set_nodes ns g))
          end
      | _, _ => (Ok, g)
      end
  end.

Definition setup_output_port (env : plugin_env) (g : graph) (q : port_ref)
  : res * graph :=
  match output_port_at (g_node_list g) q with
  | Some pt => setup_output_links env q (port_link_list pt) g
  | None => (Ok, g)
  end.

(** The body of the ordering loop of [setup_graph] for the node [k] that
    [find_next_node] returned. *)
Definition order_node (env : plugin_env) (n_hndl : Z) (k : nat) (g : graph) : graph :=
  match g_node_list g !! k with
  | None => g
  | Some n =>
      let d := node_desc n in
      let g := foldl (λ g i, setup_input_port g (PortRef k i)) g
                     (seq 0 (d_n_input d)) in
      let g := graph_set_hndl
                 (g_hndl g ++ ((λ h, {| gh_desc := d; gh_hndl := h |})
                                 <$> take (Z.to_nat n_hndl) (node_hndl n))) g in
      let g := foldl (λ g i, snd (setup_output_port env g (PortRef k i))) g
                     (seq 0 (d_n_output d)) in
      graph_set_control_port
        (g_control_port g ++ (PortRef k <$> seq 0 (d_n_control d))) g
  end.

(** The ordering loop, [while (true)]: every round marks one more node
    visited, so [fuel] rounds with [fuel] the number of nodes reach the
    [break] (lemma [order_nodes_done]). *)
Fixpoint order_nodes (env : plugin_env) (n_hndl : Z) (fuel : nat) (g : graph) : graph :=
  match fuel with
  | O => g
  | S fuel' =>
      match find_next_node g with
      | None => g
      | Some (k, g') => order_nodes env n_hndl fuel' (order_node env n_hndl k g')
      end
  end.

(** The [error:] label: clean up every instance created so far. *)
Definition cleanup_graph (g : graph) : graph :=
  graph_log (n ← g_node_list g; EvCleanup <$> node_hndl n)
            (graph_set_nodes (node_set_hndl [] <$> g_node_list g) g).

(** [n_input] and [n_output]: the length of the explicit list, else the
    audio inputs of the first node and the audio outputs of the last. *)
Definition graph_dims (g : graph) (inputs outputs : option (list jvalue)) : Z * Z :=
  (match inputs with
   | Some a => count_array a
   | None => default 0 ((λ n, Z.of_nat (d_n_input (node_desc n)))
                          <$> (first_node g ≫= λ k, g_node_list g !! k))
   end,
   match outputs with
   | Some a => count_array a
   | None => default 0 ((λ n, Z.of_nat (d_n_output (node_desc n)))
                          <$> (last_node g ≫= λ k, g_node_list g !! k))
   end).

(** The channel check of [setup_graph], from [n_input == 0] down to the
    [n_hndl == 0] warning: the result, the two channel counts after
    defaulting, and [n_hndl]. *)
Definition setup_dimensions (capture playback n_input n_output : Z)
  : res * Z * Z * Z :=
  if n_input =? 0 then (Err EINVAL, capture, playback, 0)
  else if n_output =? 0 then (Err EINVAL, capture, playback, 0)
  else
    let capture := if capture =? 0 then n_input else capture in
    let playback := if playback =? 0 then n_output else playback in
    let n_hndl := capture / n_input in
    if negb (n_hndl =? playback / n_output) then (Err EINVAL, capture, playback, n_hndl)
    else if MAX_HNDL <? n_hndl then (Err EINVAL, capture, playback, n_hndl)
    else if n_hndl =? 0 then (Ok, capture, playback, 1)
    else (Ok, capture, playback, n_hndl).

(** A loop that is left at the first error. *)
Fixpoint try_fold {A} (f : A → graph → res * graph) (l : list A) (g : graph)
  : res * graph :=
  match l with
  | [] => (Ok, g)
  | a :: rest =>
      match f a g with
      | (Ok, g') => try_fold f rest g'
      | r => r
      end
  end.

(** One round of the instantiation loop: create instance [i] of node [k],
    bind its audio ports to the silence and discard buffers (to null when
    the plugin supports it), its control and notify ports to their
    [control_data], and activate it.  When [instantiate] returns NULL
    the loop is left for the [error:] label: [Err e] with the errno [e]
    the call left, of which [setup_graph] returns [-errno].  What the
    call leaves in [impl->rate] is followed by [instantiate_rate]. *)
Definition instantiate_one (env : plugin_env) (ki : nat * nat) (g : graph)
  : res * graph :=
  let '(k, i) := ki in
  match g_node_list g !! k with
  | None => (Ok, g)
  | Some n =>
      match env_instantiate env k i with
      | Some e => (Err e, g)
      | None =>
          let d := node_desc n in
          let h := Handle k i in
          let null := negb (Z.land (fc_flags (d_desc d))
                                   FC_DESCRIPTOR_SUPPORTS_NULL_DATA =? 0) in
          let sd := if null then PNull else PSilence in
          let dd := if null then PNull else PDiscard in
          (Ok,
           graph_log
             ([EvInstantiate h]
              ++ ((λ p, EvConnect (Some h) p sd) <$> d_input d)
              ++ ((λ p, EvConnect (Some h) p dd) <$> d_output d)
              ++ imap (λ j pt, EvConnect (Some h) (port_p pt)
                                 (PControl false (PortRef k j)))
                      (take (d_n_control d) (node_control_port n))
              ++ imap (λ j pt, EvConnect (Some h) (port_p pt)
                                 (PControl true (PortRef k j)))
                      (take (d_n_notify d) (node_notify_port n))
              ++ (if fc_activate (d_desc d) then [EvActivate h] else []))
             (graph_set_nodes
                (alter (λ n, node_set_hndl (node_hndl n ++ [h]) n) k (g_node_list g))
                g))
      end
  end.

(** The instantiation loop: every node in list order, and for each node
    the instances [0 .. n_hndl). *)
Definition instantiate_node (env : plugin_env) (n_hndl : Z) (k : nat) (g : graph)
  : res * graph :=
  try_fold (λ i, instantiate_one env (k, i)) (seq 0 (Z.to_nat n_hndl)) g.

Definition instantiate_nodes (env : plugin_env) (n_hndl : Z) (g : graph)
  : res * graph :=
  try_fold (instantiate_node env n_hndl) (seq 0 (length (g_node_list g))) g.

(** A slot of [graph->input] or [graph->output] left null. *)
Definition null_graph_port : graph_port :=
  {| gp_desc := None; gp_hndl := None; gp_port := 0 |}.

(** Without an [inputs] list: the audio inputs of the first node. *)
Definition bind_default_inputs (i : nat) (g : graph) : graph :=
  match first_node g ≫= λ k, g_node_list g !! k with
  | None => g
  | Some n =>
      graph_set_input
        (g_input g ++ ((λ p, {| gp_desc := Some (node_desc n);
                                gp_hndl := node_hndl n !! i;
                                gp_port := p |}) <$> d_input (node_desc n))) g
  end.

Definition bind_default_outputs (i : nat) (g : graph) : graph :=
  match last_node g ≫= λ k, g_node_list g !! k with
  | None => g
  | Some n =>
      graph_set_output
        (g_output g ++ ((λ p, {| gp_desc := Some (node_desc n);
                                 gp_hndl := node_hndl n !! i;
                                 gp_port := p |}) <$> d_output (node_desc n))) g
  end.

(** One entry [v] of the [inputs] list, in round [i]. *)
Definition bind_input (i : nat) (v : string) (g : graph) : res * graph :=
  if spa_streq v "null" then
    (Ok, graph_set_input (g_input g ++ [null_graph_port]) g)
  else
    match find_port g (first_node g) v FC_PORT_INPUT with
    | None => (Err ENOENT, g)
    | Some q =>
        match g_node_list g !! pr_node q, input_port_at (g_node_list g) q with
        | Some n, Some pt =>
            if (i =? 0)%nat && negb (port_external pt =? SPA_ID_INVALID)
            then (Err EBUSY, g)
            else if 0 <? port_n_links pt then (Err EBUSY, g)
            else
              (Ok,
               graph_set_input
                 (g_input g ++ [{| gp_desc := Some (node_desc n);
                                   gp_hndl := node_hndl n !! i;
                                   gp_port := port_p pt |}])
                 (graph_set_nodes
                    (upd_input_port (port_set_external (graph_n_input g)) q
                                    (g_node_list g)) g))
        | _, _ => (Err ENOENT, g)
        end
    end.

(** One entry [v] of the [outputs] list, in round [i]. *)
Definition bind_output (i : nat) (v : string) (g : graph) : res * graph :=
  if spa_streq v "null" then
    (Ok, graph_set_output (g_output g ++ [null_graph_port]) g)
  else
    match find_port g (last_node g) v FC_PORT_OUTPUT with
    | None => (Err ENOENT, g)
    | Some q =>
        match g_node_list g !! pr_node q, output_port_at (g_node_list g) q with
        | Some n, Some pt =>
            if (i =? 0)%nat && negb (port_external pt =? SPA_ID_INVALID)
            then (Err EBUSY, g)
            else if 0 <? port_n_links pt then (Err EBUSY, g)
            else
              (Ok,
               graph_set_output
                 (g_output g ++ [{| gp_desc := Some (node_desc n);
                                    gp_hndl := node_hndl n !! i;
                                    gp_port := port_p pt |}])
                 (graph_set_nodes
                    (upd_output_port (port_set_external (graph_n_output g)) q
                                     (g_node_list g)) g))
        | _, _ => (Err ENOENT, g)
        end
    end.

(** Round [i] of the loop that collects the external ports. *)
Definition bind_round (inputs outputs : option (list jvalue)) (i : nat)
           (g : graph) : res * graph :=
  match match inputs with
        | None => (Ok, bind_default_inputs i g)
        | Some a => try_fold (bind_input i) (json_strings a) g
        end with
  | (Ok, g') =>
      match outputs with
      | None => (Ok, bind_default_outputs i g')
      | Some a => try_fold (bind_output i) (json_strings a) g'
      end
  | r => r
  end.

Definition bind_ports (n_hndl : Z) (inputs outputs : option (list jvalue))
           (g : graph) : res * graph :=
  try_fold (bind_round inputs outputs) (seq 0 (Z.to_nat n_hndl)) g.

(** [impl->rate] after the calls of the instantiation loop, which is left
    at the first call that returns NULL. *)
Fixpoint instantiate_rate (env : plugin_env) (calls : list (nat * nat))
         (rate : Z) : Z :=
  match calls with
  | [] => rate
  | (k, i) :: rest =>
      let rate' := env_rate env k i rate in
      match env_instantiate env k i with
      | Some _ => rate'
      | None => instantiate_rate env rest rate'
      end
  end.

(** The calls of the instantiation loop, in order. *)
Definition instantiate_calls (n_hndl : Z) (g : graph) : list (nat * nat) :=
  k ← seq 0 (length (g_node_list g)); pair k <$> seq 0 (Z.to_nat n_hndl).

(** What [setup_graph] leaves in [impl]: the channel counts, the rate,
    the stream rates (set from [impl->rate] when they are 0, once the
    instantiation loop is through) and the graph. *)
Definition impl_update (capture playback rate : Z) (default_rates : bool)
           (g : graph) (im : impl) : impl :=
  {| capture_info_channels := capture;
     playback_info_channels := playback;
     impl_rate := rate;
     capture_info_rate :=
       if default_rates && (capture_info_rate im =? 0)
       then rate else capture_info_rate im;
     playback_info_rate :=
       if default_rates && (playback_info_rate im =? 0)
       then rate else playback_info_rate im;
     impl_graph := g |}.

(** [setup_graph].  The arrays [graph->input], [graph->output],
    [graph->hndl] and [graph->control_port] are kept as the lists of the
    entries filled in so far; their [calloc] is not checked by the code.
    A failed [instantiate] leaves through the [error:] label with
    [res = -errno], which is 0 when the plugin set no errno; the result
    of [setup_output_port] is not looked at. *)
Definition setup_graph (env : plugin_env) (im : impl)
           (inputs outputs : option (list jvalue)) : res * impl :=
  let g := impl_graph im in
  let '(n_input, n_output) := graph_dims g inputs outputs in
  match setup_dimensions (capture_info_channels im) (playback_info_channels im)
                         n_input n_output with
  | (Err e, capture, playback, _) =>
      (Err e, impl_update capture playback (impl_rate im) false (cleanup_graph g) im)
  | (Ok, capture, playback, n_hndl) =>
      let rate := instantiate_rate env (instantiate_calls n_hndl g) (impl_rate im) in
      match instantiate_nodes env n_hndl g with
      | (Err e, g1) =>
          (neg_errno e,
           impl_update capture playback rate false (cleanup_graph g1) im)
      | (Ok, g1) =>
          match bind_ports n_hndl inputs outputs
                           (graph_set_output [] (graph_set_input [] g1)) with
          | (Err e, g2) =>
              (Err e, impl_update capture playback rate true (cleanup_graph g2) im)
          | (Ok, g2) =>
              (Ok,
               impl_update capture playback rate true
                 (order_nodes env n_hndl (length (g_node_list g2))
                    (graph_set_control_port [] (graph_set_hndl [] g2))) im)
          end
      end
  end.

(** ** Invariants of the builder phase *)

Definition links_at_output (q : port_ref) (ls : list link) : list link :=
  filter (λ l, l_output l = q) ls.

Definition links_at_input (q : port_ref) (ls : list link) : list link :=
  filter (λ l, l_input l = q) ls.

Definition links_into (v : nat) (ls : list link) : list link :=
  filter (λ l, pr_node (l_input l) = v) ls.

(** The counters and the per-port lists agree with [graph->link_list], up
    to the width of the counters. *)
Record builder_inv (g : graph) : Prop := {
  bi_valid : ∀ l, l ∈ g_link_list g →
    is_Some (output_port_at (g_node_list g) (l_output l))
    ∧ is_Some (input_port_at (g_node_list g) (l_input l));
  bi_output : ∀ q pt, output_port_at (g_node_list g) q = Some pt →
    port_link_list pt = links_at_output q (g_link_list g)
    ∧ port_n_links pt = wrap32 (Z.of_nat (length (links_at_output q (g_link_list g))));
  bi_input : ∀ q pt, input_port_at (g_node_list g) q = Some pt →
    port_link_list pt = links_at_input q (g_link_list g)
    ∧ port_n_links pt = wrap32 (Z.of_nat (length (links_at_input q (g_link_list g))));
  bi_single : ∀ q, (length (links_at_input q (g_link_list g)) ≤ 1)%nat;
  bi_control : ∀ q pt,
    control_port_at (g_node_list g) q = Some pt
    ∨ notify_port_at (g_node_list g) q = Some pt →
    port_link_list pt = [] ∧ port_n_links pt = 0;
  bi_deps : ∀ v d, n_deps_at (g_node_list g) v = Some d →
    d = wrap32 (Z.of_nat (length (links_into v (g_link_list g))))
}.

Definition empty_graph : graph :=
  {| g_node_list := []; g_link_list := []; g_input := []; g_output := [];
     g_hndl := []; g_control_port := []; g_calls := [] |}.

(** The graphs the builder can reach: nodes loaded, links parsed (with or
    without success) and links freed. *)
Inductive builder_state : graph → Prop :=
| bs_empty : builder_state empty_graph
| bs_load_node g name d control :
    builder_state g → builder_state (snd (load_node g name d control))
| bs_parse_link g alloc_ok json :
    builder_state g → builder_state (snd (parse_link alloc_ok g json))
| bs_link_free g l :
    builder_state g → l ∈ g_link_list g → builder_state (link_free l g).

(** ** Example plugins and graphs

    Two plugins of the built-in catalog: [copy] ("In" to "Out") and a
    two-input [mixer] ("In 1", "In 2", each with a gain control, to
    "Out"). *)

Definition audio_in (name : string) : fc_port :=
  {| fp_name := name; fp_flags := Z.lor FC_PORT_INPUT FC_PORT_AUDIO;
     fp_hint := 0; fp_def := f32_zero; fp_min := f32_zero; fp_max := f32_zero |}.

Definition audio_out (name : string) : fc_port :=
  {| fp_name := name; fp_flags := Z.lor FC_PORT_OUTPUT FC_PORT_AUDIO;
     fp_hint := 0; fp_def := f32_zero; fp_min := f32_zero; fp_max := f32_zero |}.

Definition control_in (name : string) (def lo hi : float32) : fc_port :=
  {| fp_name := name; fp_flags := Z.lor FC_PORT_INPUT FC_PORT_CONTROL;
     fp_hint := 0; fp_def := def; fp_min := lo; fp_max := hi |}.

Definition copy_fc : fc_descriptor :=
  {| fc_name := "copy"; fc_flags := FC_DESCRIPTOR_SUPPORTS_NULL_DATA;
     fc_ports := [audio_out "Out"; audio_in "In"];
     fc_activate := false; fc_deactivate := false |}.

Definition mixer_fc : fc_descriptor :=
  {| fc_name := "mixer"; fc_flags := FC_DESCRIPTOR_SUPPORTS_NULL_DATA;
     fc_ports := [audio_out "Out"; audio_in "In 1"; audio_in "In 2";
                  control_in "Gain 1" f32_one f32_zero (f32_of_int 10);
                  control_in "Gain 2" f32_one f32_zero (f32_of_int 10)];
     fc_activate := false; fc_deactivate := false |}.

Definition copy_desc : descriptor :=
  {| d_desc := copy_fc; d_input := [1%nat]; d_output := [0%nat];
     d_control := []; d_notify := []; d_default_control := [] |}.

Definition mixer_desc : descriptor :=
  {| d_desc := mixer_fc; d_input := [1%nat; 2%nat]; d_output := [0%nat];
     d_control := [3%nat; 4%nat]; d_notify := [];
     d_default_control := [f32_one; f32_one] |}.

(** Two [copy] nodes ["a"] and ["b"], not linked. *)
Definition graph_a_b : graph :=
  snd (load_node (snd (load_node empty_graph "a" copy_desc None))
                 "b" copy_desc None).

Definition link_json (output input : string) : list (string * jvalue) :=
  [("output", JStr output); ("input", JStr input)].

(** ["a:Out"] linked to ["b:In"]. *)
Definition graph_a_to_b : graph :=
  snd (parse_link true graph_a_b (link_json "a:Out" "b:In")).

(** A cycle: ["a:Out"] to ["b:In"] and ["b:Out"] to ["a:In"]. *)
Definition graph_cycle : graph :=
  snd (parse_link true graph_a_to_b (link_json "b:Out" "a:In")).

(** One [mixer] node. *)
Definition graph_mixer : graph :=
  snd (load_node empty_graph "mixer" mixer_desc None).

(** Plugins that always instantiate and leave the rate alone, and an
    allocator that never fails. *)
Definition env_ok : plugin_env :=
  {| env_instantiate := λ _ _, None; env_rate := λ _ _ rate, rate;
     env_alloc := λ _ _, true |}.


(** Plugins that set the rate they want when they are instantiated. *)
Definition env_44100 : plugin_env :=
  {| env_instantiate := λ _ _, None; env_rate := λ _ _ _, 44100;
     env_alloc := λ _ _, true |}.

(** The module state around a graph, with the channel counts of the two
    streams; the rates are left to [setup_graph]. *)
Definition impl_of (g : graph) (capture playback : Z) : impl :=
  {| capture_info_channels := capture; playback_info_channels := playback;
     impl_rate := 48000; capture_info_rate := 0; playback_info_rate := 0;
     impl_graph := g |}.

(** The plan of ["a:Out"] to ["b:In"] for mono streams. *)
Definition planned_a_to_b : graph :=
  impl_graph (setup_graph env_ok (impl_of graph_a_to_b 1 1) None None).2.

(** A capture buffer of one plane holding 1024 bytes, and an empty
    playback buffer of one plane. *)
Definition buffer_in : pw_buffer :=
  {| datas := [{| sd_data := 4096; sd_maxsize := 4096;
                  sd_chunk := {| chunk_offset := 0; chunk_size := 1024;
                                 chunk_stride := 4 |} |}] |}.

Definition buffer_out : pw_buffer :=
  {| datas := [{| sd_data := 8192; sd_maxsize := 4096;
                  sd_chunk := {| chunk_offset := 0; chunk_size := 0;
                                 chunk_stride := 0 |} |}] |}.


(** Two updates of the first gain of the mixer, once by name and once by
    index. *)
Definition params_gain_twice : spa_pod :=
  PodStruct [PodString "Gain 1"; PodInt 2; PodString "0"; PodInt 3].

(** A pair whose value is not a number. *)
Definition params_gain_reset : spa_pod :=
  PodStruct [PodString "mixer:Gain 1"; PodString "loud"].

(** The mixer with its first gain set to 2. *)
Definition graph_mixer_gain_2 : graph :=
  (parse_params graph_mixer (PodStruct [PodString "Gain 1"; PodInt 2])).2.

(** ** Reset and teardown *)

(** [graph_reset]: every instance of the plan is deactivated and
    activated again, where the plugin has these hooks. *)
Definition graph_reset (g : graph) : graph :=
  graph_log
    (gh ← g_hndl g;
     (if fc_deactivate (d_desc (gh_desc gh)) then [EvDeactivate (gh_hndl gh)]
      else [])
     ++ (if fc_activate (d_desc (gh_desc gh)) then [EvActivate (gh_hndl gh)]
         else [])) g.

(** The plugin calls of [node_free]: every instance the node still holds
    is deactivated, where the plugin has the hook, and cleaned up.  (The
    [free] of the scratch buffers and of the node is no plugin call; the
    release of the descriptor is [Registry.descriptor_unref] below.) *)
Definition node_free_calls (n : node) : list event :=
  h ← node_hndl n;
  (if fc_deactivate (d_desc (node_desc n)) then [EvDeactivate h] else [])
  ++ [EvCleanup h].

(** [node_free] of the node at position [k]: it leaves the node list, so
    the nodes behind it move up by one. *)
Definition node_free (k : nat) (g : graph) : graph :=
  match g_node_list g !! k with
  | None => g
  | Some n =>
      graph_log (node_free_calls n)
                (graph_set_nodes (delete k (g_node_list g)) g)
  end.

(** [spa_list_consume(link, &graph->link_list, link) link_free(link)]:
    free the first link until none is left; [fuel] bounds the rounds. *)
Fixpoint free_links (fuel : nat) (g : graph) : graph :=
  match fuel with
  | O => g
  | S fuel' =>
      match g_link_list g with
      | [] => g
      | l :: _ => free_links fuel' (link_free l g)
      end
  end.

(** [spa_list_consume(node, &graph->node_list, link) node_free(node)]. *)
Fixpoint free_nodes (fuel : nat) (g : graph) : graph :=
  match fuel with
  | O => g
  | S fuel' =>
      match g_node_list g with
      | [] => g
      | _ :: _ => free_nodes fuel' (node_free 0 g)
      end
  end.

(** [graph_free]: all links, then all nodes.  Every round removes one
    element, so the lengths of the two lists are fuel enough. *)
Definition graph_free (g : graph) : graph :=
  let g1 := free_links (length (g_link_list g)) g in
  free_nodes (length (g_node_list g1)) g1.

(** ** Parameter and state events of the streams *)

(** The calls made on the two streams outside the process callback. *)
Inductive stream_call :=
| ScFlush (s : stream)
| ScUpdateParams (s : stream) (props : option (list (string * prop_value)))
| ScScheduleDestroy.

(** A property of a Props object: whether its key is [SPA_PROP_params],
    and its value. *)
Record spa_pod_prop := {
  prop_is_params : bool;
  prop_value_pod : spa_pod
}.

(** The loop of [param_props_changed] over the properties. *)
Fixpoint props_changed_loop (g : graph) (props : list spa_pod_prop) (changed : Z)
  : Z * graph :=
  match props with
  | [] => (changed, g)
  | p :: rest =>
      if prop_is_params p then
        let r := parse_params g (prop_value_pod p) in
        props_changed_loop r.2 rest (changed + r.1)
      else props_changed_loop g rest changed
  end.

(** [param_props_changed]: apply every [params] property; when a control
    changed, publish the snapshot on the capture stream. *)
Definition param_props_changed (g : graph) (props : list spa_pod_prop)
  : list stream_call * graph :=
  let r := props_changed_loop g props 0 in
  (if 0 <? r.1 then [ScUpdateParams Capture (get_props_param r.2)] else [],
   r.2).

(** Modelled from the spec: [enum pw_stream_state] of the stream API, which
    is not part of the module's file. *)
Inductive pw_stream_state :=
| PW_STREAM_STATE_ERROR
| PW_STREAM_STATE_UNCONNECTED
| PW_STREAM_STATE_CONNECTING
| PW_STREAM_STATE_PAUSED
| PW_STREAM_STATE_STREAMING.

(** [state_changed], the same for both streams. *)
Definition state_changed (g : graph) (state : pw_stream_state)
  : list stream_call * graph :=
  match state with
  | PW_STREAM_STATE_PAUSED =>
      ([ScFlush Playback; ScFlush Capture], graph_reset g)
  | PW_STREAM_STATE_UNCONNECTED => ([ScScheduleDestroy], g)
  | _ => ([], g)
  end.

(** ** Opening plugins *)

(** What the module cannot decide by itself when it loads a plugin:
    whether lv2 support is compiled in, what the loader of a plugin
    family returns for a path (an errno or the plugin, that is its
    [make_desc]), and whether [calloc] gives the [struct plugin] for
    the plugin that is opened as call number [k] of the registry's
    log. *)
Record loader := {
  ld_have_lilv : bool;
  ld_open : string → string → errno + (string → option fc_descriptor);
  ld_plugin_alloc : nat → bool
}.

(** The middle of [plugin_load], after the search of the list: the
    loader of the plugin family, or [EINVAL] for a type that has none. *)
Definition open_plugin (ld : loader) (type path : string)
  : errno + (string → option fc_descriptor) :=
  if spa_streq type "builtin" then ld_open ld type path
  else if spa_streq type "ladspa" then ld_open ld type path
  else if ld_have_lilv ld && spa_streq type "lv2" then ld_open ld type path
  else inl EINVAL.


(** A loader that knows the two built-in plugins. *)
Definition ld_builtin : loader :=
  {| ld_have_lilv := false;
     ld_open := λ type path,
       if spa_streq type "builtin"
       then inr (λ label,
                   if spa_streq label "copy" then Some copy_fc
                   else if spa_streq label "mixer" then Some mixer_fc
                   else None)
       else inl ENOENT;
     ld_plugin_alloc := λ _, true |}.

(** The same loader when [calloc] gives no [struct plugin]. *)
Definition ld_no_memory : loader :=
  {| ld_have_lilv := ld_have_lilv ld_builtin;
     ld_open := ld_open ld_builtin;
     ld_plugin_alloc := λ _, false |}.

(** ** The life of a module

    The callbacks of the two streams that reach the graph once it is
    planned: [capture_process], [state_changed], and [param_changed] with
    a Props object ([param_props_changed]) or with the format cleared
    ([graph_reset]). *)
Inductive graph_op :=
| OpProcess (b_in b_out : option pw_buffer)
| OpState (state : pw_stream_state)
| OpProps (props : list spa_pod_prop)
| OpFormatCleared.

(** One callback; the plugin calls of a period go to the log of the
    graph.  [None] where [capture_process] leaves the two arrays. *)
Definition run_op (op : graph_op) (g : graph) : option graph :=
  match op with
  | OpProcess b_in b_out =>
      calls ← capture_process g b_in b_out; Some (graph_log calls g)
  | OpState state => Some (state_changed g state).2
  | OpProps props => Some (param_props_changed g props).2
  | OpFormatCleared => Some (graph_reset g)
  end.

Fixpoint run_ops (ops : list graph_op) (g : graph) : option graph :=
  match ops with
  | [] => Some g
  | op :: rest => g' ← run_op op g; run_ops rest g'
  end.

(** Take one [h] out of a list of handles. *)
Fixpoint remove_one (h : handle) (l : list handle) : list handle :=
  match l with
  | [] => []
  | x :: rest => if decide (x = h) then rest else x :: remove_one h rest
  end.

(** Replay a log of plugin calls against the instances that are alive:
    [instantiate] adds one, [cleanup] takes one away, and every other call
    on an instance needs that instance alive.  [None] when a call is made
    on an instance that is not alive, or on no instance at all; else the
    instances alive at the end. *)
Fixpoint replay (alive : list handle) (calls : list event) : option (list handle) :=
  match calls with
  | [] => Some alive
  | e :: rest =>
      match e with
      | EvInstantiate h => replay (h :: alive) rest
      | EvCleanup h =>
          if decide (h ∈ alive) then replay (remove_one h alive) rest else None
      | EvConnect (Some h) _ _ | EvActivate h | EvDeactivate h | EvRun h _ =>
          if decide (h ∈ alive) then replay alive rest else None
      | EvConnect None _ _ => None
      | EvMemset _ _ | EvQueue _ _ | EvTrigger _ => replay alive rest
      end
  end.

(** ** The parameter snapshot as a pod *)

(** The struct that [get_props_param] builds from the snapshot: for each
    control a string and a bool, an int or a float.  There is none when
    the conversion of a value to [int32_t] is undefined. *)
Fixpoint params_items (snap : list (string * prop_value))
  : option (list pod_value) :=
  match snap with
  | [] => Some []
  | (name, v) :: rest =>
      pv ← match v with
           | VBool b => Some (PodBool b)
           | VInt i => PodInt <$> i
           | VFloat f => Some (PodFloat f)
           end;
      items ← params_items rest;
      Some (PodString name :: pv :: items)
  end.

(** The float that [parse_params] reads back from a value of the
    snapshot. *)
Definition restored (v : prop_value) : option float32 :=
  match v with
  | VBool b => Some (if b then f32_one else f32_zero)
  | VInt i => f32_of_int <$> i
  | VFloat f => Some f
  end.

(** The plan of one [mixer] node between a stereo capture stream and a
    mono playback stream, and the snapshot of its two gains. *)
Definition planned_mixer : graph :=
  impl_graph (setup_graph env_ok (impl_of graph_mixer 2 1) None None).2.

Definition mixer_snapshot : list (string * prop_value) :=
  [("mixer:Gain 1", VFloat f32_one); ("mixer:Gain 2", VFloat f32_one)].

(** ** The plugin registry

    [impl->plugin_list] with the reference counts of [plugin_load],
    [plugin_unref], [descriptor_load] and [descriptor_unref].  A
    [struct plugin *] is the type and path of the plugin and a
    [struct descriptor *] is that with the label: [plugin_load] and
    [descriptor_load] search the lists before they add to them, and the
    functions below take the first entry that matches.  The strings are
    the ones [load_node] passes, shorter than the buffers they are copied
    to.  [plugin_load] checks the [calloc] of its [struct plugin];
    [descriptor_load] does not check its own, which is taken to
    succeed. *)
Module Registry.

(** The port arrays of a descriptor, as defined above, under a name that
    the functions of this module do not take. *)
Definition port_arrays := descriptor_load.

Definition INT_MAX : Z := 2147483647.
Definition INT_MIN : Z := -2147483648.

(** The calls that create and free what the plugin code allocates. *)
Inductive reg_event :=
| EvPluginOpen (type path : string)
| EvPluginFree (type path : string)
| EvMakeDesc (type path label : string)
| EvDescriptorFree (type path label : string).

(** [struct descriptor]: the count, the label and the port arrays. *)
Record loaded := {
  dr_ref : Z;
  dr_label : string;
  dr_desc : descriptor
}.

(** [struct plugin]; [pl_plugin] is [hndl->plugin], that is its
    [make_desc]. *)
Record plugin := {
  pl_ref : Z;
  pl_type : string;
  pl_path : string;
  pl_plugin : string → option fc_descriptor;
  pl_descriptor_list : list loaded
}.

Record registry := {
  plugin_list : list plugin;
  reg_calls : list reg_event
}.

Definition is_plugin (type path : string) (p : plugin) : Prop :=
  Is_true (spa_streq (pl_type p) type && spa_streq (pl_path p) path).

Definition is_label (label : string) (d : loaded) : Prop :=
  Is_true (spa_streq (dr_label d) label).

Definition plugin_set_ref (n : Z) (p : plugin) : plugin :=
  {| pl_ref := n; pl_type := pl_type p; pl_path := pl_path p;
     pl_plugin := pl_plugin p; pl_descriptor_list := pl_descriptor_list p |}.

Definition plugin_set_descriptor_list (ds : list loaded) (p : plugin) : plugin :=
  {| pl_ref := pl_ref p; pl_type := pl_type p; pl_path := pl_path p;
     pl_plugin := pl_plugin p; pl_descriptor_list := ds |}.

Definition loaded_set_ref (n : Z) (d : loaded) : loaded :=
  {| dr_ref := n; dr_label := dr_label d; dr_desc := dr_desc d |}.

Definition registry_set_plugins (ps : list plugin) (r : registry) : registry :=
  {| plugin_list := ps; reg_calls := reg_calls r |}.

Definition registry_log (evs : list reg_event) (r : registry) : registry :=
  {| plugin_list := plugin_list r; reg_calls := reg_calls r ++ evs |}.

(** [plugin_unref]; [None] where the C code has no defined behaviour: the
    plugin is not in the list, or the count cannot be decremented. *)
Definition plugin_unref (type path : string) (r : registry) : option registry :=
  '(i, p) ← list_find (is_plugin type path) (plugin_list r);
  if pl_ref p =? INT_MIN then None
  else if 0 <? pl_ref p - 1 then
    Some (registry_set_plugins
            (alter (plugin_set_ref (pl_ref p - 1)) i (plugin_list r)) r)
  else
    Some (registry_log [EvPluginFree type path]
            (registry_set_plugins (delete i (plugin_list r)) r)).

(** [plugin_load]: the plugin is now in the list, or the errno.  When
    the [calloc] of the [struct plugin] fails the function returns NULL
    at once: the plugin has been opened and is neither listed nor
    freed. *)
Definition plugin_load (ld : loader) (type path : string) (r : registry)
  : option (res * registry) :=
  match list_find (is_plugin type path) (plugin_list r) with
  | Some (i, p) =>
      if pl_ref p =? INT_MAX then None
      else Some (Ok, registry_set_plugins
                       (alter (plugin_set_ref (pl_ref p + 1)) i (plugin_list r)) r)
  | None =>
      match open_plugin ld type path with
      | inl e => Some (Err e, r)
      | inr make_desc =>
          if ld_plugin_alloc ld (length (reg_calls r)) then
            Some (Ok,
                  registry_log [EvPluginOpen type path]
                    (registry_set_plugins
                       (plugin_list r
                        ++ [{| pl_ref := 1; pl_type := type; pl_path := path;
                               pl_plugin := make_desc;
                               pl_descriptor_list := [] |}]) r))
          else Some (Err ENOMEM, registry_log [EvPluginOpen type path] r)
      end
  end.


(** [descriptor_load]: the descriptor, new or found in the list of its
    plugin, or the errno. *)
Definition descriptor_load (ld : loader) (type path label : string)
           (r : registry) : option ((errno + descriptor) * registry) :=
  '(res, r1) ← plugin_load ld type path r;
  match res with
  | Err e => Some (inl e, r1)
  | Ok =>
      '(i, p) ← list_find (is_plugin type path) (plugin_list r1);
      match list_find (is_label label) (pl_descriptor_list p) with
      | Some (j, d) =>
          if dr_ref d =? INT_MAX then None
          else
            r2 ← plugin_unref type path
                   (registry_set_plugins
                      (alter (plugin_set_descriptor_list
                                (alter (loaded_set_ref (dr_ref d + 1)) j
                                       (pl_descriptor_list p)))
                             i (plugin_list r1)) r1);
            Some (inr (dr_desc d), r2)
      | None =>
          match pl_plugin p label with
          | None =>
              r2 ← plugin_unref type path r1; Some (inl ENOENT, r2)
          | Some d =>
              let r1 := registry_log [EvMakeDesc type path label] r1 in
              match port_arrays d with
              | (Ok, Some desc) =>
                  Some (inr desc,
                        registry_set_plugins
                          (alter (plugin_set_descriptor_list
                                    (pl_descriptor_list p
                                     ++ [{| dr_ref := 1; dr_label := label;
                                            dr_desc := desc |}]))
                                 i (plugin_list r1)) r1)
              | _ =>
                  r2 ← plugin_unref type path r1;
                  Some (inl ENOTSUP,
                        registry_log [EvDescriptorFree type path label] r2)
              end
          end
      end
  end.

(** A series of [descriptor_load] calls, one for each type, path and
    label: the references taken (a failed call takes none), latest
    first, and the registry. *)
Fixpoint load_all (ld : loader) (keys : list (string * string * string))
         (r : registry) : option (list (string * string * string) * registry) :=
  match keys with
  | [] => Some ([], r)
  | (type, path, label) :: rest =>
      '(res, r1) ← descriptor_load ld type path label r;
      '(refs, r2) ← load_all ld rest r1;
      Some (match res with
            | inr _ => refs ++ [(type, path, label)]
            | inl _ => refs
            end, r2)
  end.


Definition empty_registry : registry := {| plugin_list := []; reg_calls := [] |}.

End Registry.

(** * Proofs *)

(** ** Reading a port back after an update *)

(** Reading the port [r] of one array after an [alter] at [q] in the same
    array: split on the node, then on the index. *)
Ltac solve_port_access nodes :=
  match goal with
  | |- context [decide (?r = ?q)] =>
      destruct q as [v j], r as [w i]; simpl;
      destruct (decide (w = v)) as [->|Hn];
      [ rewrite list_lookup_alter_eq; destruct (nodes !! v) as [n|]; simpl;
        [ destruct (decide (i = j)) as [->|Hi];
          [ rewrite decide_True by done; by rewrite list_lookup_alter_eq
          | rewrite decide_False by congruence; by rewrite list_lookup_alter_ne ]
        | by case_decide ]
      | rewrite list_lookup_alter_ne by done;
        rewrite decide_False by congruence; done ]
  end.

Section port_access.
Implicit Types (nodes : list node) (q r : port_ref) (f : port → port).

Lemma input_upd_input f q r nodes :
  input_port_at (upd_input_port f q nodes) r
  = if decide (r = q) then f <$> input_port_at nodes q
    else input_port_at nodes r.
Proof. unfold input_port_at, upd_input_port. solve_port_access nodes. Qed.

Lemma output_upd_output f q r nodes :
  output_port_at (upd_output_port f q nodes) r
  = if decide (r = q) then f <$> output_port_at nodes q
    else output_port_at nodes r.
Proof. unfold output_port_at, upd_output_port. solve_port_access nodes. Qed.

Lemma control_upd_control f q r nodes :
  control_port_at (upd_control_port f q nodes) r
  = if decide (r = q) then f <$> control_port_at nodes q
    else control_port_at nodes r.
Proof. unfold control_port_at, upd_control_port. solve_port_access nodes. Qed.

(** An update of one array leaves the other arrays alone. *)
Lemma node_frame (F : node → node) (k : nat) nodes {A} (get : node → A) v :
  (∀ n, get (F n) = get n) →
  get <$> alter F k nodes !! v = get <$> nodes !! v.
Proof.
  intros HF. destruct (decide (k = v)) as [->|Hn].
  - rewrite list_lookup_alter_eq. destruct (nodes !! v); simpl; by rewrite ?HF.
  - by rewrite list_lookup_alter_ne.
Qed.

Lemma port_frame (F : node → node) (k : nat) nodes
      (get : node → list port) r :
  (∀ n, get (F n) = get n) →
  alter F k nodes !! pr_node r ≫= (λ n, get n !! pr_idx r)
  = nodes !! pr_node r ≫= (λ n, get n !! pr_idx r).
Proof.
  intros HF. destruct (decide (k = pr_node r)) as [->|Hn].
  - rewrite list_lookup_alter_eq. destruct (nodes !! pr_node r); simpl; by rewrite ?HF.
  - by rewrite list_lookup_alter_ne.
Qed.
End port_access.

(** Updates of one kind of port, or of a counter of the node, do not
    show through the accessors of another kind. *)
Ltac port_frame :=
  unfold input_port_at, output_port_at, control_port_at, notify_port_at,
         n_deps_at, visited_at,
         upd_input_port, upd_output_port, upd_control_port, upd_n_deps;
  first [ by apply (port_frame _ _ _ node_input_port)
        | by apply (port_frame _ _ _ node_output_port)
        | by apply (port_frame _ _ _ node_control_port)
        | by apply (port_frame _ _ _ node_notify_port)
        | by apply (node_frame _ _ _ node_n_deps)
        | by apply (node_frame _ _ _ node_visited) ].

Section frames.
Implicit Types (nodes : list node) (q r : port_ref) (f : port → port).

Lemma input_upd_output f q r nodes :
  input_port_at (upd_output_port f q nodes) r = input_port_at nodes r.
Proof. port_frame. Qed.
Lemma input_upd_control f q r nodes :
  input_port_at (upd_control_port f q nodes) r = input_port_at nodes r.
Proof. port_frame. Qed.
Lemma input_upd_n_deps F k r nodes :
  input_port_at (upd_n_deps F k nodes) r = input_port_at nodes r.
Proof. port_frame. Qed.

Lemma output_upd_input f q r nodes :
  output_port_at (upd_input_port f q nodes) r = output_port_at nodes r.
Proof. port_frame. Qed.
Lemma output_upd_control f q r nodes :
  output_port_at (upd_control_port f q nodes) r = output_port_at nodes r.
Proof. port_frame. Qed.
Lemma output_upd_n_deps F k r nodes :
  output_port_at (upd_n_deps F k nodes) r = output_port_at nodes r.
Proof. port_frame. Qed.

Lemma control_upd_input f q r nodes :
  control_port_at (upd_input_port f q nodes) r = control_port_at nodes r.
Proof. port_frame. Qed.
Lemma control_upd_output f q r nodes :
  control_port_at (upd_output_port f q nodes) r = control_port_at nodes r.
Proof. port_frame. Qed.
Lemma control_upd_n_deps F k r nodes :
  control_port_at (upd_n_deps F k nodes) r = control_port_at nodes r.
Proof. port_frame. Qed.

Lemma notify_upd_input f q r nodes :
  notify_port_at (upd_input_port f q nodes) r = notify_port_at nodes r.
Proof. port_frame. Qed.
Lemma notify_upd_output f q r nodes :
  notify_port_at (upd_output_port f q nodes) r = notify_port_at nodes r.
Proof. port_frame. Qed.
Lemma notify_upd_control f q r nodes :
  notify_port_at (upd_control_port f q nodes) r = notify_port_at nodes r.
Proof. port_frame. Qed.
Lemma notify_upd_n_deps F k r nodes :
  notify_port_at (upd_n_deps F k nodes) r = notify_port_at nodes r.
Proof. port_frame. Qed.

Lemma n_deps_upd_input f q v nodes :
  n_deps_at (upd_input_port f q nodes) v = n_deps_at nodes v.
Proof. port_frame. Qed.
Lemma n_deps_upd_output f q v nodes :
  n_deps_at (upd_output_port f q nodes) v = n_deps_at nodes v.
Proof. port_frame. Qed.
Lemma n_deps_upd_control f q v nodes :
  n_deps_at (upd_control_port f q nodes) v = n_deps_at nodes v.
Proof. port_frame. Qed.

Lemma n_deps_upd_n_deps F k v nodes :
  n_deps_at (upd_n_deps F k nodes) v
  = if decide (v = k) then F <$> n_deps_at nodes k else n_deps_at nodes v.
Proof.
  unfold n_deps_at, upd_n_deps. case_decide as Hv.
  - subst. rewrite list_lookup_alter_eq. by destruct (nodes !! k).
  - by rewrite list_lookup_alter_ne.
Qed.

Lemma visited_upd_input f q v nodes :
  visited_at (upd_input_port f q nodes) v = visited_at nodes v.
Proof. port_frame. Qed.
Lemma visited_upd_output f q v nodes :
  visited_at (upd_output_port f q nodes) v = visited_at nodes v.
Proof. port_frame. Qed.
Lemma visited_upd_n_deps F k v nodes :
  visited_at (upd_n_deps F k nodes) v = visited_at nodes v.
Proof. port_frame. Qed.
End frames.

Create Rewrite HintDb port_rw.
#[global] Hint Rewrite
  input_upd_output input_upd_control input_upd_n_deps
  output_upd_input output_upd_control output_upd_n_deps
  control_upd_input control_upd_output control_upd_n_deps
  notify_upd_input notify_upd_output notify_upd_control notify_upd_n_deps
  n_deps_upd_input n_deps_upd_output n_deps_upd_control
  visited_upd_input visited_upd_output visited_upd_n_deps
  input_upd_input output_upd_output control_upd_control
  n_deps_upd_n_deps : port_rw.

(** ** Counters and link lists *)

Lemma wrap32_succ a : wrap32 (wrap32 a + 1) = wrap32 (a + 1).
Proof. unfold wrap32. by rewrite Zplus_mod_idemp_l. Qed.

Lemma wrap32_pred a : wrap32 (wrap32 a - 1) = wrap32 (a - 1).
Proof. unfold wrap32. by rewrite Zminus_mod_idemp_l. Qed.

Lemma wrap32_small a : 0 ≤ a < 2 ^ 32 → wrap32 a = a.
Proof. intros. unfold wrap32. by apply Z.mod_small. Qed.

Section remove_link.
Context (P : link → Prop) `{!∀ x, Decision (P x)}.

Lemma filter_remove_link l ls :
  filter P (remove_link l ls)
  = if decide (P l) then remove_link l (filter P ls) else filter P ls.
Proof.
  induction ls as [|x ls IH]; simpl.
  - by case_decide.
  - destruct (decide (x = l)) as [->|Hx].
    + destruct (decide (P l)) as [Hl|Hl].
      * rewrite filter_cons_True by done. simpl. by rewrite decide_True.
      * by rewrite filter_cons_False.
    + rewrite !filter_cons. destruct (decide (P x)) as [Hp|Hp].
      * rewrite IH. case_decide; [|done]. simpl. by rewrite decide_False.
      * rewrite IH. by case_decide.
Qed.
End remove_link.

Lemma length_remove_link l ls :
  l ∈ ls → S (length (remove_link l ls)) = length ls.
Proof.
  induction ls as [|x ls IH]; [by intros ?%elem_of_nil|].
  intros Hin. apply elem_of_cons in Hin as [Heq|Hin]; simpl.
  - by rewrite decide_True.
  - case_decide; [done|]. simpl. by rewrite IH.
Qed.

Lemma length_remove_link_le l ls :
  (length (remove_link l ls) ≤ length ls)%nat.
Proof.
  induction ls as [|x ls IH]; simpl; [lia|]. case_decide; simpl; lia.
Qed.

Lemma elem_of_remove_link x l ls : x ∈ remove_link l ls → x ∈ ls.
Proof.
  induction ls as [|y ls IH]; simpl; [done|].
  case_decide; rewrite !elem_of_cons; [by right|].
  intros [Hx|Hx]; [by left|right; by apply IH].
Qed.

(** ** [find_port] returns a port of the array it searched *)

Lemma find_port_scan_Some d ports port_id port_name i0 i :
  find_port_scan d ports port_id port_name i0 = Some i →
  ∃ j, i = (i0 + j)%nat ∧ is_Some (ports !! j).
Proof.
  revert i0. induction ports as [|pt ports IH]; intros i0; simpl; [done|].
  case_match.
  - intros [= <-]. exists 0%nat. split; [lia|]. by eexists.
  - intros (j & -> & Hj)%IH. exists (S j). split; [lia|done].
Qed.

Lemma find_port_in_Some g nd port_name descriptor q :
  find_port_in g nd port_name descriptor = Some q →
  ∃ n ports, g_node_list g !! pr_node q = Some n
             ∧ select_ports n descriptor = Some ports
             ∧ is_Some (ports !! pr_idx q).
Proof.
  unfold find_port_in. destruct nd as [k|]; [|done].
  destruct (g_node_list g !! k) as [n|] eqn:Hn; [|done].
  destruct (select_ports n descriptor) as [ports|] eqn:Hp; [|done].
  destruct (find_port_scan _ _ _ _ _) as [i|] eqn:Hs; [|done].
  intros [= <-]. simpl. apply find_port_scan_Some in Hs as (j & -> & Hj).
  by exists n, ports.
Qed.

Lemma find_port_upto_Some vis g nd name descriptor q :
  find_port_upto vis g nd name descriptor = Some q →
  ∃ n ports, g_node_list g !! pr_node q = Some n
             ∧ select_ports n descriptor = Some ports
             ∧ is_Some (ports !! pr_idx q).
Proof.
  unfold find_port_upto.
  destruct (split_colon name) as [[node_name port_name]|];
    apply find_port_in_Some.
Qed.

Lemma find_port_output g nd name q :
  find_port g nd name FC_PORT_OUTPUT = Some q →
  is_Some (output_port_at (g_node_list g) q).
Proof.
  intros (n & ports & Hn & Hp & Hq)%find_port_upto_Some.
  unfold output_port_at. rewrite Hn. simpl. by injection Hp as <-.
Qed.

Lemma find_port_input g nd name q :
  find_port g nd name FC_PORT_INPUT = Some q →
  is_Some (input_port_at (g_node_list g) q).
Proof.
  intros (n & ports & Hn & Hp & Hq)%find_port_upto_Some.
  unfold input_port_at. rewrite Hn. simpl. by injection Hp as <-.
Qed.

Lemma find_port_control vis g nd name q :
  find_port_upto vis g nd name (Z.lor FC_PORT_INPUT FC_PORT_CONTROL) = Some q →
  is_Some (control_port_at (g_node_list g) q).
Proof.
  intros (n & ports & Hn & Hp & Hq)%find_port_upto_Some.
  unfold control_port_at. rewrite Hn. simpl. by injection Hp as <-.
Qed.

(** ** The builder keeps its invariants *)

Lemma builder_inv_empty : builder_inv empty_graph.
Proof.
  split; simpl.
  - by intros l ?%elem_of_nil.
  - by intros [v j] pt.
  - by intros [v j] pt.
  - intros q. cbn. lia.
  - by intros [v j] pt [?|?].
  - by intros v d.
Qed.

Lemma filter_snoc_length {A} (P : A → Prop) `{!∀ x, Decision (P x)} l x :
  length (filter P (l ++ [x]))
  = (length (filter P l) + if decide (P x) then 1 else 0)%nat.
Proof.
  rewrite filter_app, length_app. f_equal. rewrite filter_cons, filter_nil.
  by case_decide.
Qed.

Lemma builder_inv_link_ports g o i pt :
  builder_inv g →
  is_Some (output_port_at (g_node_list g) o) →
  input_port_at (g_node_list g) i = Some pt →
  (0 <? port_n_links pt) = false →
  builder_inv (link_ports g o i).
Proof.
  intros [Hval Hout Hin Hsingle Hctl Hdeps] [pto Ho] Hi Hn.
  assert (links_at_input i (g_link_list g) = []) as Hnil.
  { destruct (Hin _ _ Hi) as [_ Hc]. specialize (Hsingle i).
    destruct (links_at_input i (g_link_list g)) as [|x [|y l']]; [done| |simpl in *; lia].
    rewrite Hc in Hn. simpl in Hn. by vm_compute in Hn. }
  split; unfold link_ports; simpl.
  - intros l [Hl| ->%list_elem_of_singleton]%elem_of_app; simpl;
      autorewrite with port_rw.
    + destruct (Hval _ Hl) as [Ha Hb].
      split; case_decide; rewrite ?fmap_is_Some; eauto.
    + rewrite !decide_True by done. rewrite !fmap_is_Some. eauto.
  - intros q pt'. autorewrite with port_rw.
    unfold links_at_output. rewrite filter_snoc_length, filter_app, filter_cons, filter_nil.
    simpl. case_decide as Hq.
    + subst q. rewrite Ho. intros [= <-]. simpl.
      destruct (Hout _ _ Ho) as [-> ->]. unfold links_at_output.
      rewrite !decide_True by done.
      split; [done|]. rewrite wrap32_succ. f_equal. lia.
    + intros Hq'. destruct (Hout _ _ Hq') as [-> ->]. unfold links_at_output.
      rewrite !decide_False by congruence. rewrite app_nil_r. split; [done|].
      f_equal. lia.
  - intros q pt'. autorewrite with port_rw.
    unfold links_at_input. rewrite filter_snoc_length, filter_app, filter_cons, filter_nil.
    simpl. case_decide as Hq.
    + subst q. rewrite Hi. intros [= <-]. simpl.
      destruct (Hin _ _ Hi) as [-> ->]. unfold links_at_input.
      rewrite !decide_True by done.
      split; [done|]. rewrite wrap32_succ. f_equal. lia.
    + intros Hq'. destruct (Hin _ _ Hq') as [-> ->]. unfold links_at_input.
      rewrite !decide_False by congruence. rewrite app_nil_r. split; [done|].
      f_equal. lia.
  - intros q. unfold links_at_input in *. rewrite filter_snoc_length. simpl.
    case_decide as Hq.
    + subst q. rewrite Hnil. simpl. lia.
    + specialize (Hsingle q). lia.
  - intros q pt'. autorewrite with port_rw. apply Hctl.
  - intros v d. autorewrite with port_rw.
    unfold links_into. rewrite filter_snoc_length. simpl. case_decide as Hv.
    + subst v. destruct (n_deps_at (g_node_list g) (pr_node i)) as [d0|] eqn:Hd; [|done].
      intros [= <-]. rewrite (Hdeps _ _ Hd). rewrite decide_True by done.
      rewrite wrap32_succ. f_equal. unfold links_into. lia.
    + intros Hd. rewrite (Hdeps _ _ Hd). rewrite decide_False by congruence.
      f_equal. unfold links_into. lia.
Qed.

Lemma filter_remove_length (P : link → Prop) `{!∀ x, Decision (P x)} l ls :
  l ∈ ls →
  Z.of_nat (length (filter P (remove_link l ls)))
  = Z.of_nat (length (filter P ls)) - if decide (P l) then 1 else 0.
Proof.
  intros Hl. rewrite filter_remove_link. case_decide as Hp; [|lia].
  assert (l ∈ filter P ls) as Hf by (by apply list_elem_of_filter).
  apply length_remove_link in Hf. lia.
Qed.

Lemma builder_inv_link_free g l :
  builder_inv g → l ∈ g_link_list g → builder_inv (link_free l g).
Proof.
  intros [Hval Hout Hin Hsingle Hctl Hdeps] Hl.
  destruct (Hval _ Hl) as [[pto Ho] [pti Hi]].
  split; unfold link_free; simpl.
  - intros l' Hl'%elem_of_remove_link. autorewrite with port_rw.
    destruct (Hval _ Hl') as [Ha Hb].
    split; case_decide; rewrite ?fmap_is_Some; eauto.
  - intros q pt'. autorewrite with port_rw. unfold links_at_output.
    rewrite filter_remove_length by done. rewrite filter_remove_link.
    case_decide as Hq.
    + subst q. rewrite Ho. intros [= <-]. simpl.
      destruct (Hout _ _ Ho) as [-> ->]. unfold links_at_output.
      rewrite !decide_True by done. split; [done|]. by rewrite wrap32_pred.
    + intros Hq'. destruct (Hout _ _ Hq') as [-> ->]. unfold links_at_output.
      rewrite !decide_False by congruence. split; [done|]. f_equal. lia.
  - intros q pt'. autorewrite with port_rw. unfold links_at_input.
    rewrite filter_remove_length by done. rewrite filter_remove_link.
    case_decide as Hq.
    + subst q. rewrite Hi. intros [= <-]. simpl.
      destruct (Hin _ _ Hi) as [-> ->]. unfold links_at_input.
      rewrite !decide_True by done. split; [done|]. by rewrite wrap32_pred.
    + intros Hq'. destruct (Hin _ _ Hq') as [-> ->]. unfold links_at_input.
      rewrite !decide_False by congruence. split; [done|]. f_equal. lia.
  - intros q. specialize (Hsingle q). unfold links_at_input in *.
    pose proof (filter_remove_length (λ l0, l_input l0 = q) l _ Hl).
    case_decide; lia.
  - intros q pt'. autorewrite with port_rw. apply Hctl.
  - intros v d. autorewrite with port_rw. unfold links_into.
    rewrite filter_remove_length by done. case_decide as Hv.
    + subst v. destruct (n_deps_at (g_node_list g) (pr_node (l_input l))) as [d0|] eqn:Hd; [|done].
      intros [= <-]. rewrite (Hdeps _ _ Hd). rewrite decide_True by done.
      by rewrite wrap32_pred.
    + intros Hd. rewrite (Hdeps _ _ Hd). rewrite decide_False by congruence.
      f_equal. unfold links_into. lia.
Qed.

(** Writing a control value touches neither a link list nor a counter. *)
Lemma builder_inv_set_nodes g nodes :
  builder_inv g →
  (∀ q, port_link_list <$> input_port_at nodes q
        = port_link_list <$> input_port_at (g_node_list g) q) →
  (∀ q, port_n_links <$> input_port_at nodes q
        = port_n_links <$> input_port_at (g_node_list g) q) →
  (∀ q, port_link_list <$> output_port_at nodes q
        = port_link_list <$> output_port_at (g_node_list g) q) →
  (∀ q, port_n_links <$> output_port_at nodes q
        = port_n_links <$> output_port_at (g_node_list g) q) →
  (∀ q pt, control_port_at nodes q = Some pt ∨ notify_port_at nodes q = Some pt →
           port_link_list pt = [] ∧ port_n_links pt = 0) →
  (∀ v, n_deps_at nodes v = n_deps_at (g_node_list g) v) →
  builder_inv (graph_set_nodes nodes g).
Proof.
  intros [Hval Hout Hin Hsingle Hctl Hdeps] Hil Hin' Hol Hon Hc Hd.
  split; simpl.
  - intros l [Ha Hb]%Hval. split.
    + apply (fmap_is_Some port_link_list). rewrite Hol. by apply fmap_is_Some.
    + apply (fmap_is_Some port_link_list). rewrite Hil. by apply fmap_is_Some.
  - intros q pt Hq. specialize (Hol q). specialize (Hon q). rewrite Hq in Hol, Hon.
    destruct (output_port_at (g_node_list g) q) as [pt0|] eqn:Hq0; [|done].
    destruct (Hout _ _ Hq0) as [<- <-].
    simpl in *. split; congruence.
  - intros q pt Hq. specialize (Hil q). specialize (Hin' q). rewrite Hq in Hil, Hin'.
    destruct (input_port_at (g_node_list g) q) as [pt0|] eqn:Hq0; [|done].
    destruct (Hin _ _ Hq0) as [<- <-].
    simpl in *. split; congruence.
  - done.
  - done.
  - intros v d. rewrite Hd. apply Hdeps.
Qed.

Lemma builder_inv_set_control_value vis g nd name value :
  builder_inv g → builder_inv (snd (set_control_value_upto vis g nd name value)).
Proof.
  intros Hinv. unfold set_control_value_upto.
  destruct (find_port_upto _ _ _ _ _) as [q|]; [|done].
  destruct (g_node_list g !! pr_node q) as [n|]; [|done].
  destruct (node_control_port n !! pr_idx q) as [pt|]; [|done]. simpl.
  apply builder_inv_set_nodes; [done|intros; by autorewrite with port_rw..| |
                               intros; by autorewrite with port_rw].
  intros r pt'. autorewrite with port_rw. intros [Hc|Hn].
  - case_decide; [|apply (bi_control _ Hinv r); by left].
    subst r. destruct (control_port_at (g_node_list g) q) as [pt0|] eqn:H0; [|done].
    injection Hc as <-. simpl. apply (bi_control _ Hinv q). by left.
  - apply (bi_control _ Hinv r). by right.
Qed.

Lemma builder_inv_parse_control vis nd control g :
  builder_inv g → builder_inv (parse_control vis g nd control).
Proof.
  revert g. induction control as [|[key [fl|]] control IH]; intros g Hg; simpl; [done| |by apply IH].
  apply IH. by apply builder_inv_set_control_value.
Qed.

Lemma lookup_snoc_bind {A B} (l : list A) (x : A) (k : nat) (f : A → option B) :
  (l ++ [x]) !! k ≫= f
  = if decide (k = length l) then f x else l !! k ≫= f.
Proof.
  case_decide as Hk.
  - subst. by rewrite list_lookup_middle.
  - destruct (decide (k < length l)%nat).
    + by rewrite lookup_app_l.
    + rewrite !lookup_ge_None_2; [done|lia|rewrite length_app; simpl; lia].
Qed.

Lemma filter_nil_Forall {A} (P : A → Prop) `{!∀ x, Decision (P x)} (l : list A) :
  (∀ x, x ∈ l → ¬ P x) → filter P l = [].
Proof.
  induction l as [|x l IH]; intros Hl; [done|].
  rewrite filter_cons_False by (apply Hl; by left).
  apply IH. intros y Hy. apply Hl. by right.
Qed.

Lemma new_port_lookup (cd : nat → float32) (ps : list nat) j pt :
  imap (λ i p, new_port (cd i) i p) ps !! j = Some pt →
  port_link_list pt = [] ∧ port_n_links pt = 0.
Proof.
  rewrite list_lookup_imap. destruct (ps !! j); [|done]. by intros [= <-].
Qed.

Lemma port_at_Some_lt (get : node → list port) (nodes : list node) q :
  is_Some (nodes !! pr_node q ≫= λ n, get n !! pr_idx q) →
  (pr_node q < length nodes)%nat.
Proof.
  intros [pt H]. apply lookup_lt_is_Some.
  destruct (nodes !! pr_node q); [by eexists|done].
Qed.

Lemma builder_inv_new_node g name d :
  builder_inv g →
  builder_inv (graph_set_nodes (g_node_list g ++ [new_node name d]) g).
Proof.
  intros [Hval Hout Hin Hsingle Hctl Hdeps].
  assert (∀ q, pr_node q = length (g_node_list g) →
               links_at_output q (g_link_list g) = []) as Hno.
  { intros q Hq. apply filter_nil_Forall. intros l [Hl _]%Hval Heq. subst q.
    apply (port_at_Some_lt node_output_port) in Hl. lia. }
  assert (∀ q, pr_node q = length (g_node_list g) →
               links_at_input q (g_link_list g) = []) as Hni.
  { intros q Hq. apply filter_nil_Forall. intros l [_ Hl]%Hval Heq. subst q.
    apply (port_at_Some_lt node_input_port) in Hl. lia. }
  split; simpl; unfold input_port_at, output_port_at, control_port_at,
                       notify_port_at, n_deps_at in *.
  - intros l Hl. destruct (Hval _ Hl) as [Ha Hb].
    pose proof (port_at_Some_lt node_output_port _ _ Ha).
    pose proof (port_at_Some_lt node_input_port _ _ Hb).
    rewrite !lookup_app_l by done. done.
  - intros q pt. rewrite lookup_snoc_bind. case_decide as Hq; [|apply Hout].
    simpl. intros [-> ->]%(new_port_lookup (λ _, f32_zero)).
    by rewrite (Hno _ Hq).
  - intros q pt. rewrite lookup_snoc_bind. case_decide as Hq; [|apply Hin].
    simpl. intros [-> ->]%(new_port_lookup (λ _, f32_zero)).
    by rewrite (Hni _ Hq).
  - done.
  - intros q pt. rewrite !lookup_snoc_bind. case_decide as Hq; [|apply Hctl].
    simpl. intros [H|H].
    + by apply (new_port_lookup (λ i, default f32_zero (d_default_control d !! i))) in H.
    + by apply (new_port_lookup (λ _, f32_zero)) in H.
  - intros v dv. destruct (decide (v = length (g_node_list g))) as [->|Hv].
    + rewrite list_lookup_middle by done. simpl. intros [= <-].
      unfold links_into. rewrite filter_nil_Forall; [done|].
      intros l [_ Hl]%Hval Heq.
      apply (port_at_Some_lt node_input_port) in Hl. lia.
    + destruct (decide (v < length (g_node_list g))%nat).
      * rewrite lookup_app_l by done. apply Hdeps.
      * rewrite lookup_ge_None_2; [done|]. rewrite length_app. simpl. lia.
Qed.

Lemma builder_inv_load_node g name d control :
  builder_inv g → builder_inv (snd (load_node g name d control)).
Proof.
  intros Hg. unfold load_node. simpl. destruct control as [c|].
  - apply builder_inv_parse_control. by apply builder_inv_new_node.
  - by apply builder_inv_new_node.
Qed.

Lemma builder_inv_parse_link alloc_ok g json :
  builder_inv g → builder_inv (snd (parse_link alloc_ok g json)).
Proof.
  intros Hg. unfold parse_link.
  destruct (g_node_list g) eqn:Hnodes; [done|]. rewrite <-Hnodes.
  destruct (parse_link_keys json "" "") as [[output input]|]; [|done].
  destruct (find_port g (first_node g) output FC_PORT_OUTPUT) as [o|] eqn:Ho; [|done].
  destruct (find_port g (last_node g) input FC_PORT_INPUT) as [i|] eqn:Hi; [|done].
  destruct (input_port_at (g_node_list g) i) as [pt|] eqn:Hpt; [|done].
  destruct (0 <? port_n_links pt) eqn:Hn; [done|].
  destruct alloc_ok; [|done]. simpl.
  eapply builder_inv_link_ports; eauto using find_port_output.
Qed.

Lemma builder_state_inv g : builder_state g → builder_inv g.
Proof.
  induction 1;
    auto using builder_inv_empty, builder_inv_load_node,
               builder_inv_parse_link, builder_inv_link_free.
Qed.

(** ** Examples of the builder *)

Example descriptor_load_copy : descriptor_load copy_fc = (Ok, Some copy_desc).
Proof. reflexivity. Qed.

Example descriptor_load_mixer : descriptor_load mixer_fc = (Ok, Some mixer_desc).
Proof. reflexivity. Qed.

Example find_port_by_name :
  find_port graph_a_b (Some 0%nat) "b:In" FC_PORT_INPUT = Some (PortRef 1 0).
Proof. reflexivity. Qed.

Example find_port_by_index :
  find_port graph_mixer (Some 0%nat) "1" (Z.lor FC_PORT_INPUT FC_PORT_CONTROL)
  = Some (PortRef 0 1).
Proof. reflexivity. Qed.

Example graph_a_to_b_links :
  g_link_list graph_a_to_b = [Link (PortRef 0 0) (PortRef 1 0)]
  ∧ n_deps_at (g_node_list graph_a_to_b) 1 = Some 1
  ∧ n_deps_at (g_node_list graph_a_to_b) 0 = Some 0.
Proof. by vm_compute. Qed.

Example link_free_undoes_link :
  link_free (Link (PortRef 0 0) (PortRef 1 0)) graph_a_to_b = graph_a_b.
Proof. by vm_compute. Qed.

(** ** Links and counters during the builder phase *)

Lemma length_filter_bound {A} (P : A → Prop) `{!∀ x, Decision (P x)} (l : list A) :
  Z.of_nat (length l) < 2 ^ 32 →
  wrap32 (Z.of_nat (length (filter P l))) = Z.of_nat (length (filter P l)).
Proof.
  intros Hl. apply wrap32_small. pose proof (length_filter P l). lia.
Qed.

(** C10. Throughout the builder phase, that is in every graph reached by
    loading nodes, parsing links (with or without success) and freeing
    links, the [n_deps] of a node is the number of links whose input is
    one of its input ports, and the [n_links] of a port is the number of
    links incident on it (none for a control or notify port), as long as
    the number of links fits the 32-bit counters. *)
Theorem builder_counts (g : graph) :
  builder_state g →
  Z.of_nat (length (g_link_list g)) < 2 ^ 32 →
  (∀ v n, g_node_list g !! v = Some n →
          node_n_deps n = Z.of_nat (length (links_into v (g_link_list g))))
  ∧ (∀ q pt, input_port_at (g_node_list g) q = Some pt →
             port_n_links pt = Z.of_nat (length (links_at_input q (g_link_list g))))
  ∧ (∀ q pt, output_port_at (g_node_list g) q = Some pt →
             port_n_links pt = Z.of_nat (length (links_at_output q (g_link_list g))))
  ∧ (∀ q pt, control_port_at (g_node_list g) q = Some pt
             ∨ notify_port_at (g_node_list g) q = Some pt →
             port_n_links pt = 0).
Proof.
  intros Hg%builder_state_inv Hlen. destruct Hg as [_ Hout Hin _ Hctl Hdeps].
  repeat split.
  - intros v n Hn. rewrite (Hdeps v (node_n_deps n)).
    + by apply length_filter_bound.
    + unfold n_deps_at. by rewrite Hn.
  - intros q pt [_ ->]%Hin. by apply length_filter_bound.
  - intros q pt [_ ->]%Hout. by apply length_filter_bound.
  - intros q pt [_ ->]%Hctl. done.
Qed.

Lemma builder_counts_witness :
  ∃ n, g_node_list graph_a_to_b !! 1%nat = Some n
       ∧ node_n_deps n = Z.of_nat (length (links_into 1 (g_link_list graph_a_to_b))).
Proof.
  assert (builder_state graph_a_to_b) as Hs
    by (apply bs_parse_link, bs_load_node, bs_load_node, bs_empty).
  assert (Z.of_nat (length (g_link_list graph_a_to_b)) < 2 ^ 32) as Hl
    by (vm_compute; reflexivity).
  destruct (builder_counts graph_a_to_b Hs Hl) as [Hd _].
  eexists. split; [reflexivity|]. apply Hd. reflexivity.
Defined.

(** C6 as stated fails: the second link into ["b:In"] is refused with
    [ENOTSUP], not with [EBUSY]. *)
Lemma parse_link_second_not_busy :
  links_at_input (PortRef 1 0) (g_link_list graph_a_to_b) ≠ []
  ∧ parse_link true graph_a_to_b (link_json "a:Out" "b:In")
    = (Err ENOTSUP, graph_a_to_b)
  ∧ fst (parse_link true graph_a_to_b (link_json "a:Out" "b:In")) ≠ Err EBUSY.
Proof. by vm_compute. Qed.

(** C6, amended. Creating a link whose input port already has an incoming
    link fails with [ENOTSUP] and leaves the whole graph, so also its link
    lists and its [n_links] and [n_deps] counters, as it was; after any
    [parse_link] an input port has at most one incoming link. *)
Theorem parse_link_input_taken (alloc_ok : bool) (g : graph)
        (json : list (string * jvalue)) :
  builder_state g →
  (∀ output input i,
     parse_link_keys json "" "" = Some (output, input) →
     is_Some (find_port g (first_node g) output FC_PORT_OUTPUT) →
     find_port g (last_node g) input FC_PORT_INPUT = Some i →
     links_at_input i (g_link_list g) ≠ [] →
     parse_link alloc_ok g json = (Err ENOTSUP, g))
  ∧ (∀ q, (length (links_at_input q
                     (g_link_list (snd (parse_link alloc_ok g json)))) ≤ 1)%nat).
Proof.
  intros Hs. split.
  - intros output input i Hk [o Ho] Hi Hlinks.
    pose proof (builder_state_inv _ Hs) as Hinv.
    destruct (find_port_input _ _ _ _ Hi) as [pt Hpt].
    destruct (bi_input _ Hinv _ _ Hpt) as [_ Hn].
    pose proof (bi_single _ Hinv i) as Hone.
    unfold parse_link. rewrite Hk, Ho, Hi, Hpt.
    destruct (g_node_list g) eqn:Hnodes.
    { unfold input_port_at in Hpt. by rewrite lookup_nil in Hpt. }
    destruct (links_at_input i (g_link_list g)) as [|l0 [|l1 ls]];
      [done| |simpl in Hone; lia].
    rewrite Hn. done.
  - apply bi_single, builder_state_inv. by apply bs_parse_link.
Qed.

Lemma parse_link_input_taken_witness :
  parse_link true graph_a_to_b (link_json "a:Out" "b:In")
  = (Err ENOTSUP, graph_a_to_b).
Proof.
  assert (builder_state graph_a_to_b) as Hs
    by (apply bs_parse_link, bs_load_node, bs_load_node, bs_empty).
  destruct (parse_link_input_taken true graph_a_to_b
              (link_json "a:Out" "b:In") Hs) as [H _].
  apply (H "a:Out"%string "b:In"%string (PortRef 1 0)).
  - reflexivity.
  - vm_compute. by eexists.
  - reflexivity.
  - by vm_compute.
Defined.

(** ** Dimensioning *)

(** The channel counts the division uses: a count of 0 stands for the
    number of graph ports. *)
Definition effective_channels (channels n_ports : Z) : Z :=
  if channels =? 0 then n_ports else channels.

Lemma setup_dimensions_spec capture playback n_input n_output :
  n_input ≠ 0 → n_output ≠ 0 →
  let c := effective_channels capture n_input in
  let p := effective_channels playback n_output in
  setup_dimensions capture playback n_input n_output
  = if decide (c / n_input ≠ p / n_output ∨ MAX_HNDL < c / n_input)
    then (Err EINVAL, c, p, c / n_input)
    else (Ok, c, p, if decide (c / n_input = 0) then 1 else c / n_input).
Proof.
  intros Hi Ho c p. unfold setup_dimensions.
  rewrite (proj2 (Z.eqb_neq _ _) Hi), (proj2 (Z.eqb_neq _ _) Ho).
  fold (effective_channels capture n_input) (effective_channels playback n_output).
  fold c p.
  destruct (Z.eqb_spec (c / n_input) (p / n_output)) as [He|He]; simpl.
  - destruct (Z.ltb_spec MAX_HNDL (c / n_input)).
    + rewrite decide_True by (by right). done.
    + rewrite decide_False by (intros [?|?]; [done|lia]).
      destruct (Z.eqb_spec (c / n_input) 0); by case_decide.
  - rewrite decide_True by (by left). done.
Qed.

Lemma setup_graph_dimension_error env im inputs outputs e capture playback n_hndl :
  setup_dimensions (capture_info_channels im) (playback_info_channels im)
                   (graph_dims (impl_graph im) inputs outputs).1
                   (graph_dims (impl_graph im) inputs outputs).2
  = (Err e, capture, playback, n_hndl) →
  setup_graph env im inputs outputs
  = (Err e, impl_update capture playback (impl_rate im) false
              (cleanup_graph (impl_graph im)) im).
Proof.
  unfold setup_graph. destruct (graph_dims _ _ _) as [n_input n_output]. simpl.
  by intros ->.
Qed.

(** C2 as stated fails: with 65 capture and 65 playback channels on one
    input and one output the two quotients agree, yet the step fails
    with [EINVAL]. *)
Lemma setup_dimensions_equal_quotients_fail :
  65 / 1 = 65 / 1
  ∧ setup_dimensions 65 65 1 1 = (Err EINVAL, 65, 65, 65).
Proof. by vm_compute. Qed.

(** C2, amended. The planner computes [n_hndl] as the capture channels
    divided by [n_input] and fails with [EINVAL] exactly when this
    differs from the playback channels divided by [n_output] or exceeds
    [MAX_HNDL]; a quotient of 0 does not fail and gives [n_hndl = 1].
    A failure of this step is the result of [setup_graph]. *)
Theorem setup_dimensions_n_hndl (capture playback n_input n_output : Z) :
  n_input ≠ 0 → n_output ≠ 0 →
  let c := effective_channels capture n_input in
  let p := effective_channels playback n_output in
  let r := setup_dimensions capture playback n_input n_output in
  (r.1.1.1 = Err EINVAL ↔ c / n_input ≠ p / n_output ∨ MAX_HNDL < c / n_input)
  ∧ (r.1.1.1 = Ok ∨ r.1.1.1 = Err EINVAL)
  ∧ (r.1.1.1 = Ok → c / n_input ≠ 0 → r.2 = c / n_input)
  ∧ (c / n_input = 0 → p / n_output = 0 → r = (Ok, c, p, 1))
  ∧ (∀ env im inputs outputs,
       capture_info_channels im = capture →
       playback_info_channels im = playback →
       graph_dims (impl_graph im) inputs outputs = (n_input, n_output) →
       r.1.1.1 = Err EINVAL →
       (setup_graph env im inputs outputs).1 = Err EINVAL).
Proof.
  intros Hi Ho c p r.
  pose proof (setup_dimensions_spec capture playback n_input n_output Hi Ho) as Hr.
  fold c p r in Hr. simpl in Hr.
  repeat split.
  - rewrite Hr. by case_decide.
  - rewrite Hr. by case_decide.
  - rewrite Hr. case_decide; [by right|by left].
  - rewrite Hr. case_decide; [done|]. simpl. intros _ Hz. by rewrite decide_False.
  - intros Hc Hp. rewrite Hr. rewrite decide_False.
    + by rewrite decide_True.
    + rewrite Hc, Hp. intros [?|?]; [done|]. unfold MAX_HNDL in *. lia.
  - intros env im inputs outputs <- <- Hd He.
    destruct r as [[[e' c'] p'] n'] eqn:Er. simpl in He. subst e'.
    erewrite setup_graph_dimension_error; [done|]. rewrite Hd. simpl. apply Er.
Qed.

Lemma setup_dimensions_n_hndl_witness :
  setup_dimensions 4 4 2 2 = (Ok, 4, 4, 2)
  ∧ setup_dimensions 1 1 2 2 = (Ok, 1, 1, 1)
  ∧ ((setup_dimensions 4 2 2 2).1.1.1 = Err EINVAL ↔
     effective_channels 4 2 / 2 ≠ effective_channels 2 2 / 2
     ∨ MAX_HNDL < effective_channels 4 2 / 2).
Proof.
  repeat split; try reflexivity;
    apply (setup_dimensions_n_hndl 4 2 2 2); lia.
Defined.

(** C7 as stated fails: with 65 channels on a graph of one input and one
    output, [n_hndl] would be 65; the planner does not go on with 64
    instances, it returns [EINVAL] and creates no instance. *)
Lemma setup_graph_65_channels_rejected :
  (setup_graph env_ok (impl_of graph_a_to_b 65 65) None None).1 = Err EINVAL
  ∧ g_hndl (impl_graph (setup_graph env_ok (impl_of graph_a_to_b 65 65) None None).2) = []
  ∧ g_calls (impl_graph (setup_graph env_ok (impl_of graph_a_to_b 65 65) None None).2) = [].
Proof. by vm_compute. Qed.

(** C7, amended. When the channel-duplication factor exceeds [MAX_HNDL]
    the planner fails with [EINVAL]: nothing is instantiated, the graph
    only goes through the clean-up of the error path. *)
Theorem setup_graph_too_many_channels (env : plugin_env) (im : impl)
        (inputs outputs : option (list jvalue)) (n_input n_output : Z) :
  graph_dims (impl_graph im) inputs outputs = (n_input, n_output) →
  n_input ≠ 0 → n_output ≠ 0 →
  let c := effective_channels (capture_info_channels im) n_input in
  let p := effective_channels (playback_info_channels im) n_output in
  MAX_HNDL < c / n_input →
  setup_graph env im inputs outputs
  = (Err EINVAL, impl_update c p (impl_rate im) false
                   (cleanup_graph (impl_graph im)) im).
Proof.
  intros Hd Hi Ho c p Hmax.
  pose proof (setup_dimensions_spec (capture_info_channels im)
                (playback_info_channels im) n_input n_output Hi Ho) as Hr.
  simpl in Hr. fold c p in Hr. rewrite decide_True in Hr by (by right).
  eapply setup_graph_dimension_error. rewrite Hd. simpl. apply Hr.
Qed.

Lemma setup_graph_too_many_channels_witness :
  setup_graph env_ok (impl_of graph_a_to_b 65 65) None None
  = (Err EINVAL,
     impl_update 65 65 48000 false (cleanup_graph graph_a_to_b)
                 (impl_of graph_a_to_b 65 65)).
Proof.
  apply (setup_graph_too_many_channels env_ok (impl_of graph_a_to_b 65 65)
           None None 1 1).
  - reflexivity.
  - lia.
  - lia.
  - by vm_compute.
Defined.

(** ** The executor *)

(** The bytes of an input plane that can be read: [size] in the loop of
    [capture_process], with the chunk offset clipped to [maxsize]. *)
Definition slot_size (ds : spa_data) : Z :=
  Z.min (chunk_size (sd_chunk ds))
        (sd_maxsize ds - Z.min (chunk_offset (sd_chunk ds)) (sd_maxsize ds)).

Definition is_connect (ev : event) : Prop :=
  ∃ h p ptr, ev = EvConnect h p ptr.

(** [m] is [a] clipped by the values of [l]. *)
Definition clipped_by (a : Z) (l : list Z) (m : Z) : Prop :=
  m ≤ a ∧ (∀ x, x ∈ l → m ≤ x) ∧ (m = a ∨ m ∈ l).

Lemma clipped_by_nil a : clipped_by a [] a.
Proof. split; [lia|]. split; [by intros x ?%elem_of_nil|by left]. Qed.

Lemma clipped_by_cons a x l m :
  clipped_by (Z.min a x) l m → clipped_by a (x :: l) m.
Proof.
  intros (Ha & Hl & Hm). split; [lia|]. split.
  - intros y [->|Hy]%elem_of_cons; [lia|by apply Hl].
  - destruct Hm as [->|Hm].
    + destruct (Z.min_spec a x) as [[_ ->]|[_ ->]]; [by left|right; by left].
    + right. by right.
Qed.

Lemma process_inputs_spec ports ds i st :
  (length ds + i ≤ length ports)%nat →
  ∃ st' calls,
    process_inputs ports ds i st = Some st'
    ∧ ps_calls st' = ps_calls st ++ calls
    ∧ Forall is_connect calls
    ∧ (i ≠ 0%nat → clipped_by (ps_outsize st) (slot_size <$> ds) (ps_outsize st')).
Proof.
  revert i st. induction ds as [|d ds IH]; intros i st Hlen; simpl.
  - exists st, []. rewrite app_nil_r.
    split; [done|]. split; [done|]. split; [done|]. intros _. apply clipped_by_nil.
  - simpl in Hlen. destruct (ports !! i) as [gp|] eqn:Hgp.
    2:{ apply lookup_ge_None in Hgp. lia. }
    destruct (IH (S i) (process_input gp d i st)) as (st' & calls & -> & Hc & Hf & Hm);
      [lia|].
    exists st'. eexists. split; [done|]. split.
    { rewrite Hc. simpl. by rewrite <-app_assoc. }
    split.
    { apply Forall_app. split; [|done]. destruct (gp_desc gp); [|done].
      apply Forall_singleton. by eexists _, _, _. }
    intros Hi. specialize (Hm ltac:(lia)). simpl in Hm.
    destruct i; [done|]. simpl in Hm. by apply clipped_by_cons.
Qed.

Lemma process_outputs_spec ports dd i st :
  (length dd + i ≤ length ports)%nat →
  ∃ st' dd' calls,
    process_outputs ports dd i st = Some (st', dd')
    ∧ ps_calls st' = ps_calls st ++ calls
    ∧ clipped_by (ps_outsize st) (sd_maxsize <$> dd) (ps_outsize st')
    ∧ Forall2 (λ '(gp, d) ev,
                 match gp_desc gp with
                 | None => ∃ n, ev = EvMemset (sd_data d) n
                                ∧ ps_outsize st' ≤ n ≤ sd_maxsize d
                 | Some _ => ev = EvConnect (gp_hndl gp) (gp_port gp)
                                            (PData (sd_data d) 0)
                 end) (zip (drop i ports) dd) calls.
Proof.
  revert i st. induction dd as [|d dd IH]; intros i st Hlen; simpl.
  - exists st, [], []. rewrite app_nil_r, zip_with_nil_r.
    split; [done|]. split; [done|]. split; [apply clipped_by_nil|constructor].
  - simpl in Hlen. destruct (ports !! i) as [gp|] eqn:Hgp.
    2:{ apply lookup_ge_None in Hgp. lia. }
    destruct (IH (S i) (process_output gp d st).1) as (st' & dd' & calls & He & Hc & Hm & Hf);
      [lia|].
    unfold process_output in *. simpl in *. rewrite He.
    eexists st', _, _. split; [done|]. split.
    { rewrite Hc. by rewrite <-app_assoc. }
    split; [by apply clipped_by_cons|].
    erewrite drop_S by done. simpl.
    destruct (gp_desc gp) eqn:Hd; simpl; (constructor; [rewrite Hd|done]); [done|].
    eexists. split; [done|]. destruct Hm as (Hm & _). lia.
Qed.

Lemma process_inputs_first ports ds st :
  (length ds ≤ length ports)%nat →
  ps_outsize st = 0 →
  ∃ st' calls,
    process_inputs ports ds 0 st = Some st'
    ∧ ps_calls st' = ps_calls st ++ calls
    ∧ Forall is_connect calls
    ∧ (∀ x, x ∈ slot_size <$> ds → ps_outsize st' ≤ x)
    ∧ (ds ≠ [] → ps_outsize st' ∈ slot_size <$> ds)
    ∧ (ds = [] → ps_outsize st' = 0).
Proof.
  intros Hlen H0. destruct ds as [|d ds].
  - exists st, []. simpl. rewrite app_nil_r.
    split; [done|]. split; [done|]. split; [done|].
    split; [by intros x ?%elem_of_nil|]. done.
  - simpl in *. destruct (ports !! 0%nat) as [gp|] eqn:Hgp.
    2:{ apply lookup_ge_None in Hgp. lia. }
    destruct (process_inputs_spec ports ds 1 (process_input gp d 0 st))
      as (st' & calls & He & Hc & Hf & Hm); [lia|].
    specialize (Hm ltac:(lia)). destruct Hm as (Ha & Hl & Hm). simpl in *.
    exists st'. eexists. split; [done|]. split.
    { rewrite Hc. by rewrite <-app_assoc. }
    split.
    { apply Forall_app. split; [|done]. destruct (gp_desc gp); [|done].
      apply Forall_singleton. by eexists _, _, _. }
    fold (slot_size d) in *. split; [|split; [|done]].
    + intros x [->|Hx]%elem_of_cons; [done|by apply Hl].
    + intros _. destruct Hm as [->|Hm]; [by left|by right].
Qed.

(** C4. When dequeuing the input buffer or the output buffer returns
    none, the period makes no [run] and no [connect_port] call: its calls
    are the queueing back of whichever buffer was dequeued, to its own
    stream, and the trigger.  [capture_process] has no error result; the
    period is always completed. *)
Theorem capture_process_missing_buffer (g : graph) (b_in b_out : option pw_buffer) :
  b_in = None ∨ b_out = None →
  ∃ calls,
    capture_process g b_in b_out = Some calls
    ∧ (∀ h frames, EvRun h frames ∉ calls)
    ∧ (∀ h p ptr, EvConnect h p ptr ∉ calls)
    ∧ (∀ b, b_in = Some b → EvQueue Capture b ∈ calls)
    ∧ (∀ b, b_out = Some b → EvQueue Playback b ∈ calls).
Proof.
  intros Hnone. exists (process_done b_in b_out). split.
  { destruct Hnone as [-> | ->]; [done|by destruct b_in]. }
  unfold process_done. clear Hnone.
  destruct b_in as [bi|], b_out as [bo|]; simpl;
    (split; [|split; [|split]]);
    intros; simplify_eq; rewrite ?elem_of_cons, ?elem_of_nil;
    intuition congruence.
Qed.

Lemma capture_process_missing_buffer_witness :
  capture_process graph_a_to_b None (Some {| datas := [] |})
  = Some [EvQueue Playback {| datas := [] |}; EvTrigger Playback].
Proof.
  destruct (capture_process_missing_buffer graph_a_to_b None
              (Some {| datas := [] |})) as (calls & Hc & _).
  - by left.
  - rewrite Hc. by vm_compute in Hc.
Defined.




Example capture_process_frames :
  capture_process planned_a_to_b (Some buffer_in) (Some buffer_out)
  = Some [EvConnect (Some (Handle 0 0)) 1 (PData 4096 0);
          EvConnect (Some (Handle 1 0)) 0 (PData 8192 0);
          EvRun (Handle 0 0) 256; EvRun (Handle 1 0) 256;
          EvQueue Capture buffer_in;
          EvQueue Playback
            {| datas := [{| sd_data := 8192; sd_maxsize := 4096;
                            sd_chunk := {| chunk_offset := 0; chunk_size := 1024;
                                           chunk_stride := 4 |} |}] |};
          EvTrigger Playback].
Proof. reflexivity. Qed.

(** ** Control values *)

(** What [set_control_value] writes and where: the port that [find_port]
    resolves and the new value, the given one or the default. *)
Definition control_target (vis : nat) (g : graph) (nd : option nat)
           (name : string) (value : option float32) : option (port_ref * float32) :=
  q ← find_port_upto vis g nd name (Z.lor FC_PORT_INPUT FC_PORT_CONTROL);
  n ← g_node_list g !! pr_node q;
  pt ← node_control_port n !! pr_idx q;
  Some (q, match value with
           | Some v => v
           | None => default f32_zero (d_default_control (node_desc n) !! port_idx pt)
           end).

Definition control_data_at (g : graph) (q : port_ref) : option float32 :=
  port_control_data <$> control_port_at (g_node_list g) q.

Definition control_write (q : port_ref) (v : float32) (g : graph) : graph :=
  graph_set_nodes (upd_control_port (port_set_control_data v) q (g_node_list g)) g.

Lemma set_control_value_unfold vis g nd name value :
  set_control_value_upto vis g nd name value
  = match control_target vis g nd name value with
    | None => (0, g)
    | Some (q, new) =>
        (if f32_eqb (default f32_zero (control_data_at g q)) new then 0 else 1,
         control_write q new g)
    end.
Proof.
  unfold set_control_value_upto, control_target, control_data_at, control_port_at.
  destruct (find_port_upto _ _ _ _ _) as [q|]; [|done]. simpl.
  destruct (g_node_list g !! pr_node q) as [n|] eqn:Hn; [|done]. simpl.
  destruct (node_control_port n !! pr_idx q) as [pt|] eqn:Hpt; [|done]. simpl.
  rewrite Hn. simpl. by rewrite Hpt.
Qed.

Lemma control_target_valid vis g nd name value q v :
  control_target vis g nd name value = Some (q, v) →
  is_Some (control_data_at g q).
Proof.
  unfold control_target, control_data_at, control_port_at.
  destruct (find_port_upto _ _ _ _ _) as [q'|]; [|done]. simpl.
  destruct (g_node_list g !! pr_node q') as [n|] eqn:Hn; [|done]. simpl.
  destruct (node_control_port n !! pr_idx q') as [pt|] eqn:Hpt; [|done]. simpl.
  intros [= <- <-]. rewrite Hn. simpl. rewrite Hpt. by eexists.
Qed.

(** The part of a graph that [find_port] and the defaults depend on. *)
Definition port_static (pt : port) : nat * nat := (port_idx pt, port_p pt).

Definition node_static (n : node) :=
  (node_name n, node_desc n,
   port_static <$> node_input_port n, port_static <$> node_output_port n,
   port_static <$> node_control_port n, port_static <$> node_notify_port n).

Definition graph_static (g : graph) := node_static <$> g_node_list g.

Lemma find_node_from_static l1 l2 name k :
  node_static <$> l1 = node_static <$> l2 →
  find_node_from l1 name k = find_node_from l2 name k.
Proof.
  revert l2 k. induction l1 as [|n1 l1 IH]; intros [|n2 l2] k; simpl; try done.
  intros [= Hn _ _ _ _ _ Hl]. rewrite Hn. case_match; [done|]. by apply IH.
Qed.

Lemma find_port_scan_static d ps1 ps2 port_id port_name i :
  port_static <$> ps1 = port_static <$> ps2 →
  find_port_scan d ps1 port_id port_name i = find_port_scan d ps2 port_id port_name i.
Proof.
  revert ps2 i. induction ps1 as [|p1 ps1 IH]; intros [|p2 ps2] i; simpl; try done.
  intros [= _ Hp Hl]. rewrite Hp. case_match; [done|]. by apply IH.
Qed.

Lemma select_ports_static n1 n2 descriptor :
  node_static n1 = node_static n2 →
  match select_ports n1 descriptor, select_ports n2 descriptor with
  | Some ps1, Some ps2 => port_static <$> ps1 = port_static <$> ps2
  | None, None => True
  | _, _ => False
  end.
Proof.
  intros [= _ _ Hi Ho Hc Hn]. unfold select_ports.
  destruct (FC_IS_PORT_INPUT descriptor), (FC_IS_PORT_CONTROL descriptor),
           (FC_IS_PORT_OUTPUT descriptor); done.
Qed.

Lemma lookup_static g1 g2 k :
  graph_static g1 = graph_static g2 →
  match g_node_list g1 !! k, g_node_list g2 !! k with
  | Some n1, Some n2 => node_static n1 = node_static n2
  | None, None => True
  | _, _ => False
  end.
Proof.
  intros Hs. pose proof (f_equal (.!! k) Hs) as Hk. simpl in Hk.
  unfold graph_static in Hk. rewrite !list_lookup_fmap in Hk.
  destruct (g_node_list g1 !! k), (g_node_list g2 !! k); simpl in Hk; try done.
  by apply (inj Some).
Qed.

Lemma find_port_in_static g1 g2 nd port_name descriptor :
  graph_static g1 = graph_static g2 →
  find_port_in g1 nd port_name descriptor = find_port_in g2 nd port_name descriptor.
Proof.
  intros Hs. unfold find_port_in. destruct nd as [k|]; [|done].
  pose proof (lookup_static g1 g2 k Hs) as Hk.
  destruct (g_node_list g1 !! k) as [n1|], (g_node_list g2 !! k) as [n2|]; try done.
  pose proof (select_ports_static n1 n2 descriptor Hk) as Hp.
  assert (node_desc n1 = node_desc n2) as -> by (by injection Hk).
  destruct (select_ports n1 descriptor) as [ps1|],
           (select_ports n2 descriptor) as [ps2|]; try done.
  by rewrite (find_port_scan_static _ ps1 ps2).
Qed.

Lemma find_port_upto_static vis g1 g2 nd name descriptor :
  graph_static g1 = graph_static g2 →
  find_port_upto vis g1 nd name descriptor = find_port_upto vis g2 nd name descriptor.
Proof.
  intros Hs. unfold find_port_upto, find_node.
  destruct (split_colon name) as [[node_name port_name]|].
  - rewrite (find_node_from_static (take vis (g_node_list g1))
                                   (take vis (g_node_list g2))).
    + by apply find_port_in_static.
    + rewrite !fmap_take. by f_equal.
  - by apply find_port_in_static.
Qed.

Lemma control_target_static vis g1 g2 nd name value :
  graph_static g1 = graph_static g2 →
  control_target vis g1 nd name value = control_target vis g2 nd name value.
Proof.
  intros Hs. unfold control_target.
  rewrite (find_port_upto_static vis g1 g2) by done.
  destruct (find_port_upto vis g2 _ _ _) as [q|]; [|done]. simpl.
  pose proof (lookup_static g1 g2 (pr_node q) Hs) as Hk.
  destruct (g_node_list g1 !! pr_node q) as [n1|],
           (g_node_list g2 !! pr_node q) as [n2|]; try done. simpl.
  injection Hk as _ Hd _ _ Hc _.
  pose proof (f_equal (.!! pr_idx q) Hc) as Hq. simpl in Hq.
  rewrite !list_lookup_fmap in Hq.
  destruct (node_control_port n1 !! pr_idx q) as [p1|],
           (node_control_port n2 !! pr_idx q) as [p2|]; try done. simpl in *.
  injection Hq as Hi _. by rewrite Hd, Hi.
Qed.

Lemma control_write_static q v g :
  graph_static (control_write q v g) = graph_static g.
Proof.
  unfold graph_static, control_write, upd_control_port. simpl.
  rewrite (list_fmap_alter _ _ id), list_alter_id; [done..|].
  apply Forall_forall. intros n _. unfold node_static. simpl. do 2 f_equal.
  rewrite (list_fmap_alter _ _ id), list_alter_id; [done..|].
  apply Forall_forall. by intros pt _.
Qed.

Lemma graph_static_length g1 g2 :
  graph_static g1 = graph_static g2 →
  length (g_node_list g1) = length (g_node_list g2).
Proof.
  intros Hs. apply (f_equal length) in Hs. unfold graph_static in Hs.
  by rewrite !length_fmap in Hs.
Qed.

Lemma first_node_static g1 g2 :
  graph_static g1 = graph_static g2 → first_node g1 = first_node g2.
Proof.
  intros Hs%graph_static_length. unfold first_node.
  by destruct (g_node_list g1), (g_node_list g2).
Qed.

(** Reading a control value back after a write. *)
Lemma control_data_write q v r g :
  control_data_at (control_write q v g) r
  = if decide (r = q) then (λ _, v) <$> control_data_at g q
    else control_data_at g r.
Proof.
  unfold control_data_at, control_write. simpl. rewrite control_upd_control.
  case_decide; [|done]. by destruct (control_port_at (g_node_list g) q).
Qed.

(** A later write to the same port wins; writes to two ports commute;
    writing the value a port already holds changes nothing. *)
Lemma control_write_write q v v' g :
  control_write q v (control_write q v' g) = control_write q v g.
Proof.
  unfold control_write, upd_control_port. simpl. unfold graph_set_nodes. simpl.
  f_equal. rewrite list_alter_alter_eq. apply list_alter_ext; [|done].
  intros n _. simpl. unfold node_set_control_port. simpl. f_equal.
  rewrite list_alter_alter_eq. apply list_alter_ext; [|done]. by intros pt _.
Qed.

Lemma control_write_comm q q' v v' g :
  q ≠ q' →
  control_write q v (control_write q' v' g)
  = control_write q' v' (control_write q v g).
Proof.
  intros Hq. unfold control_write, upd_control_port. simpl.
  unfold graph_set_nodes. simpl. f_equal.
  destruct (decide (pr_node q = pr_node q')) as [Hn|Hn].
  - rewrite Hn, !list_alter_alter_eq. apply list_alter_ext; [|done].
    intros n _. simpl. unfold node_set_control_port. simpl. f_equal.
    apply list_alter_alter_ne. destruct q, q'; simpl in *; congruence.
  - by apply list_alter_alter_ne.
Qed.

Lemma alter_same {A} (f : A → A) (l : list A) i :
  (∀ x, l !! i = Some x → f x = x) → alter f i l = l.
Proof.
  intros Hf. rewrite <-(list_alter_id id l i) at 2 by done.
  by apply list_alter_ext.
Qed.

Lemma control_write_same q v g :
  control_data_at g q = Some v → control_write q v g = g.
Proof.
  intros Hq. unfold control_write, upd_control_port.
  rewrite alter_same; [by destruct g|].
  intros n Hn. rewrite alter_same; [by destruct n|].
  intros pt Hpt. unfold control_data_at, control_port_at in Hq.
  rewrite Hn in Hq. simpl in Hq. rewrite Hpt in Hq. injection Hq as <-.
  by destruct pt.
Qed.

(** The pairs the loop of [parse_params] hands to [set_control_value]. *)
Fixpoint pod_commands (items : list pod_value) : list (string * option float32) :=
  match items with
  | PodString name :: rest =>
      match rest with
      | PodFloat f :: rest' => (name, Some f) :: pod_commands rest'
      | PodDouble d :: rest' => (name, Some (f32_of_double d)) :: pod_commands rest'
      | PodInt i :: rest' => (name, Some (f32_of_int i)) :: pod_commands rest'
      | PodBool b :: rest' =>
          (name, Some (if b then f32_one else f32_zero)) :: pod_commands rest'
      | _ :: rest' => (name, None) :: pod_commands rest'
      | [] => [(name, None)]
      end
  | _ => []
  end.

Fixpoint run_commands (g : graph) (nd : option nat)
         (cmds : list (string * option float32)) (changed : Z) : Z * graph :=
  match cmds with
  | [] => (changed, g)
  | (name, value) :: rest =>
      let r := set_control_value g nd name value in
      run_commands (snd r) nd rest (changed + fst r)
  end.

Lemma parse_params_loop_commands g nd items changed :
  parse_params_loop g nd items changed
  = run_commands g nd (pod_commands items) changed.
Proof.
  remember (length items) as k eqn:Hk.
  revert g items changed Hk. induction k as [k IH] using lt_wf_ind.
  intros g [|[name| | | | |] [|v rest]] changed Hk; simpl; try done.
  destruct v; simpl; (eapply IH; [|reflexivity]); simpl in Hk; lia.
Qed.

(** The writes a list of pairs amounts to, and their effect. *)
Definition control_writes (g : graph) (nd : option nat)
           (cmds : list (string * option float32)) : list (port_ref * float32) :=
  omap (λ '(name, value),
          control_target (length (g_node_list g)) g nd name value) cmds.

Fixpoint apply_writes (ws : list (port_ref * float32)) (g : graph) (changed : Z)
  : Z * graph :=
  match ws with
  | [] => (changed, g)
  | (q, v) :: rest =>
      apply_writes rest (control_write q v g)
        (changed + if f32_eqb (default f32_zero (control_data_at g q)) v
                   then 0 else 1)
  end.

Lemma control_writes_static g1 g2 nd cmds :
  graph_static g1 = graph_static g2 →
  control_writes g1 nd cmds = control_writes g2 nd cmds.
Proof.
  intros Hs. unfold control_writes. rewrite (graph_static_length g1 g2) by done.
  induction cmds as [|[name value] cmds IH]; [done|].
  cbn. rewrite (control_target_static _ g1 g2) by done.
  destruct (control_target _ g2 nd name value); by rewrite IH.
Qed.

Lemma run_commands_writes g nd cmds changed :
  run_commands g nd cmds changed
  = apply_writes (control_writes g nd cmds) g changed.
Proof.
  revert g changed. induction cmds as [|[name value] cmds IH]; intros g changed; [done|].
  simpl. unfold set_control_value. rewrite set_control_value_unfold.
  unfold control_writes at 1. simpl.
  destruct (control_target _ g nd name value) as [[q v]|]; simpl.
  - rewrite IH. by rewrite (control_writes_static _ g) by apply control_write_static.
  - rewrite IH. by rewrite Z.add_0_r.
Qed.

(** The graph after a list of writes. *)
Definition writes (ws : list (port_ref * float32)) (g : graph) : graph :=
  foldl (λ g '(q, v), control_write q v g) g ws.

Lemma apply_writes_graph ws g changed :
  snd (apply_writes ws g changed) = writes ws g.
Proof.
  revert g changed. induction ws as [|[q v] ws IH]; intros g changed; [done|].
  simpl. apply IH.
Qed.

Lemma writes_static ws g : graph_static (writes ws g) = graph_static g.
Proof.
  revert g. induction ws as [|[q v] ws IH]; intros g; [done|].
  simpl. rewrite IH. apply control_write_static.
Qed.

(** A write before a list of writes is lost when the list writes the same
    port, and can be moved after the list when it does not. *)
Lemma writes_absorb ws q v g :
  writes ws (control_write q v g)
  = if decide (q ∈ ws.*1) then writes ws g else control_write q v (writes ws g).
Proof.
  revert g. induction ws as [|[q' v'] ws IH]; intros g; [done|].
  rewrite fmap_cons. simpl.
  - destruct (decide (q' = q)) as [->|Hq].
    + rewrite control_write_write. rewrite decide_True; [done|]. by left.
    + rewrite control_write_comm by done. rewrite IH.
      destruct (decide (q ∈ ws.*1)) as [Hin|Hin].
      * rewrite decide_True; [done|]. by right.
      * rewrite decide_False; [done|]. intros [?|?]%elem_of_cons; congruence.
Qed.

Lemma writes_idempotent ws g : writes ws (writes ws g) = writes ws g.
Proof.
  revert g. induction ws as [|[q v] ws IH]; intros g; [done|].
  simpl. rewrite writes_absorb. case_decide as Hq.
  - apply IH.
  - rewrite IH. pose proof (writes_absorb ws q v (control_write q v g)) as Ha.
    rewrite decide_False in Ha by done. rewrite <-Ha.
    by rewrite control_write_write.
Qed.

Lemma control_data_writes_other ws q g :
  q ∉ ws.*1 → control_data_at (writes ws g) q = control_data_at g q.
Proof.
  revert g. induction ws as [|[q' v'] ws IH]; intros g Hq; [done|].
  simpl. rewrite IH.
  - rewrite control_data_write. rewrite decide_False; [done|].
    intros ->. apply Hq. by left.
  - intros ?. apply Hq. by right.
Qed.

Lemma control_data_writes ws q v g :
  NoDup ws.*1 →
  (∀ r, r ∈ ws.*1 → is_Some (control_data_at g r)) →
  (q, v) ∈ ws →
  control_data_at (writes ws g) q = Some v.
Proof.
  revert g. induction ws as [|[q' v'] ws IH]; intros g Hnd Hval Hin.
  { by apply elem_of_nil in Hin. }
  simpl in *. apply NoDup_cons in Hnd as [Hq' Hnd].
  apply elem_of_cons in Hin as [[= -> ->]|Hin].
  - rewrite control_data_writes_other by done.
    rewrite control_data_write, decide_True by done.
    destruct (Hval q') as [x ->]; [by left|done].
  - apply IH; [done| |done]. intros r Hr. rewrite control_data_write.
    case_decide; [|apply Hval; by right].
    apply fmap_is_Some, Hval. by left.
Qed.

Lemma apply_writes_same ws g changed :
  (∀ q v, (q, v) ∈ ws → control_data_at g q = Some v ∧ f32_eqb v v = true) →
  apply_writes ws g changed = (changed, g).
Proof.
  revert changed. induction ws as [|[q v] ws IH]; intros changed Hs; [done|].
  simpl. destruct (Hs q v) as [Hq Hv]; [by left|].
  rewrite control_write_same by done. rewrite Hq. simpl. rewrite Hv, Z.add_0_r.
  apply IH. intros q' v' Hin. apply Hs. by right.
Qed.

Lemma control_writes_valid g nd cmds r :
  r ∈ (control_writes g nd cmds).*1 → is_Some (control_data_at g r).
Proof.
  unfold control_writes. intros ([q v] & -> & Hin)%list_elem_of_fmap.
  apply list_elem_of_omap in Hin as ([name value] & _ & Ht).
  by eapply control_target_valid.
Qed.

(** [parse_params] as the writes it performs. *)
Lemma parse_params_writes g items :
  parse_params g (PodStruct items)
  = apply_writes (control_writes g (first_node g) (pod_commands items)) g 0.
Proof.
  unfold parse_params. by rewrite parse_params_loop_commands, run_commands_writes.
Qed.

(** A value that [parse_params] reads as a number. *)
Definition pod_is_number (v : pod_value) : bool :=
  match v with
  | PodFloat _ | PodDouble _ | PodInt _ | PodBool _ => true
  | _ => false
  end.

(** The value [parse_params] hands to [set_control_value] for a pod. *)
Definition pod_value_float (v : pod_value) : option float32 :=
  match v with
  | PodFloat f => Some f
  | PodDouble d => Some (f32_of_double d)
  | PodInt i => Some (f32_of_int i)
  | PodBool b => Some (if b then f32_one else f32_zero)
  | _ => None
  end.

(** The items of a struct that holds the given pairs. *)
Definition pod_pairs (pairs : list (string * pod_value)) : list pod_value :=
  pairs ≫= λ p, [PodString p.1; p.2].

Lemma pod_commands_pairs pairs rest :
  pod_commands (pod_pairs pairs ++ rest)
  = ((λ p, (p.1, pod_value_float p.2)) <$> pairs) ++ pod_commands rest.
Proof.
  induction pairs as [|[name v] pairs IH]; [done|].
  unfold pod_pairs in *. rewrite bind_cons, fmap_cons. cbn [fst snd app].
  cbn [pod_commands]. rewrite IH. by destruct v.
Qed.

Lemma control_data_writes_Some ws g q :
  is_Some (control_data_at g q) → is_Some (control_data_at (writes ws g) q).
Proof.
  revert g. induction ws as [|[q' v'] ws IH]; intros g Hq; [done|].
  simpl. apply IH. rewrite control_data_write. case_decide; [|done].
  subst q'. by apply fmap_is_Some.
Qed.

Lemma control_writes_app g nd cmds1 cmds2 :
  control_writes g nd (cmds1 ++ cmds2)
  = control_writes g nd cmds1 ++ control_writes g nd cmds2.
Proof. apply omap_app. Qed.

Lemma writes_app ws1 ws2 g : writes (ws1 ++ ws2) g = writes ws2 (writes ws1 g).
Proof. apply foldl_app. Qed.

Lemma control_writes_find_port g nd cmds q :
  q ∈ (control_writes g nd cmds).*1 →
  ∃ name value, (name, value) ∈ cmds
    ∧ find_port g nd name (Z.lor FC_PORT_INPUT FC_PORT_CONTROL) = Some q.
Proof.
  unfold control_writes. intros ([q' v] & -> & Hin)%list_elem_of_fmap.
  apply list_elem_of_omap in Hin as ([name value] & Hin & Ht).
  exists name, value. split; [done|]. unfold control_target in Ht.
  unfold find_port. destruct (find_port_upto _ _ _ _ _) as [q''|]; [|done].
  simpl in Ht. destruct (g_node_list g !! pr_node q'') as [n|]; [|done].
  simpl in Ht. destruct (node_control_port n !! pr_idx q'') as [pt|]; [|done].
  simpl in Ht. by injection Ht as -> _.
Qed.

(** C9. In any update, a pair whose value is no float, double, int or
    bool (or whose value is missing, at the end of the struct) makes
    [parse_params] call [set_control_value] with a null value: the
    control port the name resolves to is set to
    [default_control[port->idx]] of its descriptor, whatever pairs come
    before it, and holds that value after the update unless a later
    pair of the same update names the same port. *)
Theorem parse_params_resets_to_default (g : graph)
        (before : list (string * pod_value)) (name : string)
        (rest : list pod_value) (q : port_ref) (n : node) (pt : port) :
  rest = []
  ∨ (∃ v after, rest = v :: after ∧ pod_is_number v = false
       ∧ ∀ name' value', (name', value') ∈ pod_commands after →
           find_port g (first_node g) name' (Z.lor FC_PORT_INPUT FC_PORT_CONTROL)
           ≠ Some q) →
  find_port g (first_node g) name (Z.lor FC_PORT_INPUT FC_PORT_CONTROL) = Some q →
  g_node_list g !! pr_node q = Some n →
  node_control_port n !! pr_idx q = Some pt →
  control_data_at
    (parse_params g (PodStruct (pod_pairs before ++ PodString name :: rest))).2 q
  = Some (default f32_zero (d_default_control (node_desc n) !! port_idx pt)).
Proof.
  intros Hrest Hq Hn Hpt.
  set (def := default f32_zero (d_default_control (node_desc n) !! port_idx pt)).
  rewrite parse_params_writes, apply_writes_graph, pod_commands_pairs.
  assert (∃ later,
            pod_commands (PodString name :: rest) = (name, None) :: later
            ∧ q ∉ (control_writes g (first_node g) later).*1) as (later & -> & Hlater).
  { destruct Hrest as [->|(v & after & -> & Hv & Hafter)].
    - exists []. split; [done|]. by intros ?%elem_of_nil.
    - exists (pod_commands after). split; [by destruct v|].
      intros (name' & value' & Hin & Hq')%control_writes_find_port.
      by apply (Hafter name' value'). }
  assert (control_target (length (g_node_list g)) g (first_node g) name None
          = Some (q, def)) as Ht.
  { unfold control_target. unfold find_port in Hq. rewrite Hq. simpl.
    rewrite Hn. simpl. by rewrite Hpt. }
  rewrite control_writes_app.
  assert (control_writes g (first_node g) ((name, None) :: later)
          = (q, def) :: control_writes g (first_node g) later) as ->.
  { unfold control_writes. cbn. by rewrite Ht. }
  rewrite writes_app. simpl.
  rewrite control_data_writes_other by done.
  rewrite control_data_write, decide_True by done.
  destruct (control_data_writes_Some
              (control_writes g (first_node g)
                 ((λ p, (p.1, pod_value_float p.2)) <$> before)) g q) as [x ->];
    [|done].
  unfold control_data_at, control_port_at. rewrite Hn. simpl. rewrite Hpt.
  by eexists.
Qed.

(** An update that sets the second gain, resets the first with a string
    for a value, and sets the second gain again. *)
Example params_gain_reset_between :
  ∀ name' value',
    (name', value') ∈ pod_commands [PodString "Gain 2"; PodInt 1] →
    find_port graph_mixer_gain_2 (first_node graph_mixer_gain_2) name'
              (Z.lor FC_PORT_INPUT FC_PORT_CONTROL) ≠ Some (PortRef 0 0).
Proof.
  intros name' value' Hin. simpl in Hin.
  apply list_elem_of_singleton in Hin. injection Hin as -> _.
  vm_compute. discriminate.
Qed.

Lemma parse_params_resets_to_default_witness :
  ∃ n pt,
    g_node_list graph_mixer_gain_2 !! 0%nat = Some n
    ∧ node_control_port n !! 0%nat = Some pt
    ∧ port_control_data pt = f32_of_int 2
    ∧ control_data_at
        (parse_params graph_mixer_gain_2
           (PodStruct (pod_pairs [("Gain 2", PodInt 3)]
                       ++ PodString "mixer:Gain 1"
                          :: [PodString "loud"; PodString "Gain 2"; PodInt 1]))).2
        (PortRef 0 0)
      = Some (default f32_zero (d_default_control (node_desc n) !! port_idx pt)).
Proof.
  eexists _, _. split; [reflexivity|]. split; [reflexivity|].
  split; [reflexivity|].
  apply (parse_params_resets_to_default graph_mixer_gain_2
           [("Gain 2", PodInt 3)] "mixer:Gain 1"
           [PodString "loud"; PodString "Gain 2"; PodInt 1] (PortRef 0 0)).
  - right. exists (PodString "loud"), [PodString "Gain 2"; PodInt 1].
    split; [reflexivity|]. split; [reflexivity|]. exact params_gain_reset_between.
  - reflexivity.
  - reflexivity.
  - reflexivity.
Defined.

Example parse_params_reset_value :
  parse_params graph_mixer_gain_2 params_gain_reset = (1, graph_mixer).
Proof. reflexivity. Qed.

(** C8 as stated fails: two pairs that name the same control, applied a
    second time, are again counted as two changes. *)
Lemma parse_params_twice_reports_changes :
  (parse_params graph_mixer params_gain_twice).1 = 2
  ∧ (parse_params (parse_params graph_mixer params_gain_twice).2
                  params_gain_twice).1 = 2.
Proof. by vm_compute. Qed.

(** C8, amended. Applying the same parameter update twice leaves the
    graph, hence every [control_data] and the parameter snapshot, as it
    was after the first application; the second application reports zero
    changes when no two pairs resolve to the same control port and no
    written value is a NaN. *)
Theorem parse_params_idempotent (g : graph) (pod : spa_pod) :
  let r1 := parse_params g pod in
  let r2 := parse_params r1.2 pod in
  r2.2 = r1.2
  ∧ (∀ q, control_data_at r2.2 q = control_data_at r1.2 q)
  ∧ get_props_param r2.2 = get_props_param r1.2
  ∧ (∀ items,
       pod = PodStruct items →
       let ws := control_writes g (first_node g) (pod_commands items) in
       NoDup ws.*1 →
       (∀ v, v ∈ ws.*2 → f32_eqb v v = true) →
       r2.1 = 0).
Proof.
  intros r1 r2.
  assert (r2.2 = r1.2 ∧
          (∀ items, pod = PodStruct items →
             let ws := control_writes g (first_node g) (pod_commands items) in
             NoDup ws.*1 → (∀ v, v ∈ ws.*2 → f32_eqb v v = true) → r2.1 = 0))
    as [Heq Hzero].
  { subst r1 r2. destruct pod as [items|]; [|by split].
    rewrite (parse_params_writes g). rewrite apply_writes_graph.
    set (ws := control_writes g (first_node g) (pod_commands items)).
    rewrite parse_params_writes.
    rewrite (first_node_static _ g) by apply writes_static.
    rewrite (control_writes_static _ g) by apply writes_static. fold ws.
    split.
    - rewrite apply_writes_graph. apply writes_idempotent.
    - intros items' [= <-] ws' Hnd Hnan. subst ws'. fold ws in Hnd, Hnan.
      rewrite apply_writes_same; [done|].
      intros q v Hin. split.
      + apply control_data_writes; [done| |done].
        intros r Hr. by eapply control_writes_valid.
      + apply Hnan. apply list_elem_of_fmap. by exists (q, v). }
  split; [done|]. split; [by rewrite Heq|]. split; [by rewrite Heq|done].
Qed.

Lemma parse_params_idempotent_witness :
  (parse_params (parse_params graph_mixer_gain_2 params_gain_reset).2
                params_gain_reset).1 = 0.
Proof.
  eapply (parse_params_idempotent graph_mixer_gain_2 params_gain_reset).
  - reflexivity.
  - vm_compute. apply NoDup_cons. split; [by intros ?%elem_of_nil|apply NoDup_nil_2].
  - vm_compute. intros v Hv. apply list_elem_of_singleton in Hv. by subst v.
Defined.

(** ** Paths and cycles of links *)

(** A path along one or more links, from node to node. *)
Inductive link_path (ls : list link) : nat → nat → Prop :=
| lp_one l :
    l ∈ ls → link_path ls (pr_node (l_output l)) (pr_node (l_input l))
| lp_step l w :
    l ∈ ls → link_path ls (pr_node (l_input l)) w →
    link_path ls (pr_node (l_output l)) w.

Definition has_cycle (ls : list link) : Prop := ∃ u, link_path ls u u.

Section stuck.
Context (ls : list link) (N : nat) (Stuck : nat → Prop).
Context (Hbound : ∀ v, Stuck v → (v < N)%nat).
Context (Hpred : ∀ v, Stuck v →
                      ∃ l, l ∈ ls ∧ pr_node (l_input l) = v
                           ∧ Stuck (pr_node (l_output l))).

(** A chain of stuck nodes, each linked to the next. *)
Inductive stuck_chain : list nat → Prop :=
| sc_one v : Stuck v → stuck_chain [v]
| sc_cons l c :
    l ∈ ls → Stuck (pr_node (l_output l)) →
    stuck_chain (pr_node (l_input l) :: c) →
    stuck_chain (pr_node (l_output l) :: pr_node (l_input l) :: c).

Lemma stuck_chain_long v n :
  Stuck v → ∃ c, stuck_chain c ∧ length c = S n.
Proof.
  intros Hv. induction n as [|n (c & Hc & Hlen)].
  - exists [v]. split; [by constructor|done].
  - destruct Hc as [w Hw|l c Hl Hu Hc].
    + destruct (Hpred w Hw) as (l & Hl & <- & Hu).
      eexists. split; [apply (sc_cons l []); [done..|by constructor]|].
      simpl in *. lia.
    + destruct (Hpred _ Hu) as (l' & Hl' & Heq & Hu').
      exists (pr_node (l_output l') :: pr_node (l_output l)
                :: pr_node (l_input l) :: c). split.
      * rewrite <-Heq. apply sc_cons; [done..|]. rewrite Heq. by apply sc_cons.
      * simpl in *. lia.
Qed.

Lemma stuck_chain_bound c : stuck_chain c → Forall (λ v, (v < N)%nat) c.
Proof.
  induction 1 as [v Hv|l c Hl Hu Hc IH].
  - apply Forall_singleton. by apply Hbound.
  - apply Forall_cons. split; [by apply Hbound|done].
Qed.

Lemma stuck_chain_path u c y :
  stuck_chain (u :: c) → y ∈ c → link_path ls u y.
Proof.
  revert u. induction c as [|w c IH]; intros u Hc Hy.
  { by apply elem_of_nil in Hy. }
  inversion Hc as [|l c' Hl Hu Hc' [Hu' Hw']]; subst.
  apply elem_of_cons in Hy as [->|Hy].
  - by apply lp_one.
  - apply lp_step; [done|]. by apply IH.
Qed.

Lemma stuck_chain_suffix c1 c2 :
  stuck_chain (c1 ++ c2) → c2 ≠ [] → stuck_chain c2.
Proof.
  induction c1 as [|a c1 IH]; intros Hc Hne; [done|].
  apply IH; [|done]. simpl in Hc.
  inversion Hc as [v Hv Heq|l c' Hl Hu Hc' Heq]; subst.
  - destruct c1, c2; simplify_eq.
  - done.
Qed.

Lemma repeated_element (c : list nat) :
  ¬ NoDup c → ∃ x c1 c2 c3, c = c1 ++ x :: c2 ++ x :: c3.
Proof.
  induction c as [|a c IH]; intros Hnd.
  - destruct Hnd. constructor.
  - destruct (decide (a ∈ c)) as [Hin|Hin].
    + apply list_elem_of_split in Hin as (c2 & c3 & ->). by exists a, [], c2, c3.
    + destruct IH as (x & c1 & c2 & c3 & ->).
      { intros Hc. apply Hnd. by constructor. }
      by exists x, (a :: c1), c2, c3.
Qed.

(** Nodes that all wait for another waiting node wait in a circle. *)
Lemma stuck_cycle v : Stuck v → has_cycle ls.
Proof.
  intros Hv. destruct (stuck_chain_long v N Hv) as (c & Hc & Hlen).
  destruct (repeated_element c) as (x & c1 & c2 & c3 & ->).
  - intros Hnd. pose proof (stuck_chain_bound c Hc) as Hb.
    assert (c ⊆+ seq 0 N) as Hsub.
    { apply NoDup_submseteq; [done|]. intros y Hy. apply elem_of_seq.
      rewrite Forall_forall in Hb. specialize (Hb y Hy). lia. }
    apply submseteq_length in Hsub. rewrite length_seq in Hsub. lia.
  - exists x. apply (stuck_chain_path x (c2 ++ x :: c3)).
    + by apply (stuck_chain_suffix c1).
    + apply elem_of_app. right. by left.
Qed.
End stuck.

(** ** The ordering loop on counters and marks *)

Definition dec_n_deps (d : Z) : Z := wrap32 (d - 1).

(** The [n_deps] of all nodes after the decrements for the links [ls]. *)
Definition dec_deps (ls : list link) (D : list Z) : list Z :=
  foldl (λ D l, alter dec_n_deps (pr_node (l_input l)) D) D ls.

Lemma iter_dec_n_deps c X :
  Nat.iter c dec_n_deps (wrap32 X) = wrap32 (X - Z.of_nat c).
Proof.
  induction c as [|c IH]; simpl.
  - f_equal. lia.
  - rewrite IH. unfold dec_n_deps. rewrite wrap32_pred. f_equal. lia.
Qed.

Lemma dec_deps_lookup ls D v :
  dec_deps ls D !! v
  = Nat.iter (length (filter (λ l, pr_node (l_input l) = v) ls)) dec_n_deps
      <$> D !! v.
Proof.
  revert D. induction ls as [|l ls IH]; intros D.
  - simpl. by destruct (D !! v).
  - simpl. rewrite IH, filter_cons. case_decide as Hv.
    + rewrite Hv, list_lookup_alter_eq. destruct (D !! v); [|done]. simpl.
      f_equal. by rewrite <-Nat.iter_succ_r.
    + by rewrite list_lookup_alter_ne.
Qed.

Lemma dec_deps_length ls D : length (dec_deps ls D) = length D.
Proof.
  revert D. induction ls as [|l ls IH]; intros D; [done|].
  simpl. by rewrite IH, length_alter.
Qed.

Lemma length_filter_split {A} (P Q R : A → Prop)
      `{!∀ x, Decision (P x)} `{!∀ x, Decision (Q x)} `{!∀ x, Decision (R x)}
      (l : list A) :
  (∀ x, P x ↔ Q x ∨ R x) → (∀ x, Q x → R x → False) →
  length (filter P l) = (length (filter Q l) + length (filter R l))%nat.
Proof.
  intros Hiff Hdis. induction l as [|x l IH]; [done|].
  rewrite !filter_cons.
  destruct (decide (P x)) as [Hp|Hp], (decide (Q x)) as [Hq|Hq],
           (decide (R x)) as [Hr|Hr]; simpl; rewrite ?IH; try lia.
  - destruct (Hdis x Hq Hr).
  - apply Hiff in Hp as [?|?]; done.
  - destruct Hp. apply Hiff. by left.
  - destruct Hp. apply Hiff. by left.
  - destruct Hp. apply Hiff. by right.
Qed.

(** The links into [v] whose source has not been visited yet. *)
Definition waiting (ord : list nat) (v : nat) (ls : list link) : list link :=
  filter (λ l, pr_node (l_input l) = v ∧ pr_node (l_output l) ∉ ord) ls.

(** The state of the loop after the nodes [ord] were visited, in this
    order: [V] marks exactly them, [D] counts for every node the links
    that wait for an unvisited source, and the source of every link into
    a visited node was visited before it. *)
Record order_inv (ls : list link) (N : nat) (D : list Z) (V : list bool)
       (ord : list nat) : Prop := {
  oi_len : length D = N;
  oi_vis : ∀ k, (k < N)%nat → V !! k = Some (bool_decide (k ∈ ord));
  oi_deps : ∀ v, (v < N)%nat →
    D !! v = Some (wrap32 (Z.of_nat (length (waiting ord v ls))));
  oi_nodup : NoDup ord;
  oi_bound : ∀ k, k ∈ ord → (k < N)%nat;
  oi_before : ∀ l o1 o2, l ∈ ls →
    ord = o1 ++ pr_node (l_input l) :: o2 → pr_node (l_output l) ∈ o1
}.

Section order_step.
Context (ls : list link) (N : nat).
Context (Hls : Z.of_nat (length ls) < 2 ^ 32).

Lemma waiting_zero ord v :
  wrap32 (Z.of_nat (length (waiting ord v ls))) = 0 → waiting ord v ls = [].
Proof.
  intros Hw. apply length_zero_iff_nil.
  unfold waiting in *. rewrite length_filter_bound in Hw by done. lia.
Qed.

Lemma order_inv_start D V :
  length D = N →
  (∀ v, (v < N)%nat →
        D !! v = Some (wrap32 (Z.of_nat (length (links_into v ls))))) →
  (∀ k, (k < N)%nat → V !! k = Some false) →
  order_inv ls N D V [].
Proof.
  intros Hlen HD HV. split; try done.
  - intros v Hv. rewrite HD by done. do 4 f_equal. unfold waiting, links_into.
    apply list_filter_iff. intros l. split; [|by intros [? _]].
    intros ?. split; [done|]. by intros ?%elem_of_nil.
  - constructor.
  - by intros k ?%elem_of_nil.
  - intros l o1 o2 _ Heq. by destruct o1.
Qed.

Lemma order_inv_step D V ord k outl :
  order_inv ls N D V ord →
  (k < N)%nat → D !! k = Some 0 → V !! k = Some false →
  (∀ v, length (filter (λ l, pr_node (l_input l) = v) outl)
        = length (filter (λ l, pr_node (l_output l) = k
                               ∧ pr_node (l_input l) = v) ls)) →
  order_inv ls N (dec_deps outl D) (alter (λ _, true) k V) (ord ++ [k]).
Proof.
  intros [Hlen Hvis Hdeps Hnd Hbound Hbefore] Hk HDk HVk Hout.
  assert (k ∉ ord) as Hnew.
  { rewrite Hvis in HVk by done. injection HVk as HVk.
    by apply bool_decide_eq_false in HVk. }
  assert (waiting ord k ls = []) as Hready.
  { apply waiting_zero. rewrite Hdeps in HDk by done. by injection HDk. }
  split.
  - by rewrite dec_deps_length.
  - intros j Hj. destruct (decide (j = k)) as [->|Hjk].
    + rewrite list_lookup_alter_eq, HVk. simpl. f_equal. symmetry.
      apply bool_decide_eq_true. apply elem_of_app. right. by left.
    + rewrite list_lookup_alter_ne by done. rewrite Hvis by done. f_equal.
      apply bool_decide_ext. rewrite elem_of_app, list_elem_of_singleton. tauto.
  - intros v Hv. rewrite dec_deps_lookup, Hdeps by done. simpl.
    rewrite iter_dec_n_deps, Hout. do 2 f_equal. unfold waiting.
    rewrite (length_filter_split
               (λ l, pr_node (l_input l) = v ∧ pr_node (l_output l) ∉ ord)
               (λ l, pr_node (l_input l) = v ∧ pr_node (l_output l) ∉ ord ++ [k])
               (λ l, pr_node (l_output l) = k ∧ pr_node (l_input l) = v)); [lia| |].
    + intros l. rewrite elem_of_app, list_elem_of_singleton.
      destruct (decide (pr_node (l_output l) = k)) as [->|?]; tauto.
    + intros l [_ Hn] [Hkk _]. apply Hn. apply elem_of_app. right.
      by apply list_elem_of_singleton.
  - apply NoDup_app. split; [done|]. split; [|apply NoDup_singleton].
    intros x Hx ->%list_elem_of_singleton. done.
  - intros j [?| ->%list_elem_of_singleton]%elem_of_app; auto.
  - intros l o1 o2 Hl Heq. destruct o2 as [|x o2 _] using rev_ind.
    + apply app_inj_tail in Heq as [Ho Hkl]. subst o1.
      destruct (decide (pr_node (l_output l) ∈ ord)) as [|Hn]; [done|].
      assert (l ∈ waiting ord k ls) as Hw
        by (by apply list_elem_of_filter).
      rewrite Hready in Hw. by apply elem_of_nil in Hw.
    + rewrite app_comm_cons, app_assoc in Heq.
      apply app_inj_tail in Heq as [-> _]. by eapply Hbefore.
Qed.

(** When the loop stops, a node left unvisited lies behind a cycle. *)
Lemma order_inv_stuck D V ord v :
  order_inv ls N D V ord →
  (∀ l, l ∈ ls → (pr_node (l_output l) < N)%nat) →
  (∀ k, (k < N)%nat → ¬ (D !! k = Some 0 ∧ V !! k = Some false)) →
  (v < N)%nat → v ∉ ord → has_cycle ls.
Proof.
  intros [Hlen Hvis Hdeps Hnd Hbound Hbefore] Hval Hstop Hv Hnv.
  apply (stuck_cycle ls N (λ v, (v < N)%nat ∧ v ∉ ord)) with v; [tauto| |done].
  intros w [Hw Hnw].
  destruct (waiting ord w ls) as [|l wl] eqn:Hwait.
  - destruct (Hstop w Hw). split.
    + rewrite Hdeps by done. by rewrite Hwait.
    + rewrite Hvis by done. f_equal. by apply bool_decide_eq_false.
  - assert (l ∈ waiting ord w ls) as Hl by (rewrite Hwait; by left).
    apply list_elem_of_filter in Hl as [[Hin Hout] Hl].
    exists l. split; [done|]. split; [done|]. split; [by apply Hval|done].
Qed.

Lemma order_inv_all D V ord :
  order_inv ls N D V ord → (N ≤ length ord)%nat →
  ∀ k, (k < N)%nat → k ∈ ord.
Proof.
  intros Hinv Hlen k Hk.
  assert (ord ⊆+ seq 0 N) as Hsub.
  { apply NoDup_submseteq; [apply (oi_nodup _ _ _ _ _ Hinv)|].
    intros x Hx. apply elem_of_seq. apply (oi_bound _ _ _ _ _ Hinv) in Hx. lia. }
  apply submseteq_length_Permutation in Hsub; [|by rewrite length_seq].
  rewrite Hsub. apply elem_of_seq. lia.
Qed.
End order_step.

(** ** What the planner reads and writes, field by field *)

Definition deps_of (g : graph) : list Z := node_n_deps <$> g_node_list g.
Definition vis_of (g : graph) : list bool := node_visited <$> g_node_list g.
Definition hndl_of (g : graph) : list (list handle) := node_hndl <$> g_node_list g.

(** The descriptor and the link lists of the output ports of a node. *)
Definition node_outs (n : node) : descriptor * list (list link) :=
  (node_desc n, port_link_list <$> node_output_port n).

Definition outs_of (g : graph) : list (descriptor * list (list link)) :=
  node_outs <$> g_node_list g.

(** The links of an output port, none if there is no such port. *)
Definition port_links (g : graph) (q : port_ref) : list link :=
  default [] (port_link_list <$> output_port_at (g_node_list g) q).

Lemma fmap_alter_same {A B} (f : A → B) (h : A → A) (l : list A) i :
  (∀ x, f (h x) = f x) → f <$> alter h i l = f <$> l.
Proof.
  intros Hf. rewrite (list_fmap_alter _ _ id), list_alter_id; [done..|].
  apply Forall_forall. intros x _. apply Hf.
Qed.

Lemma fmap_alter_field {A B} (f : A → B) (h : A → A) (h' : B → B) (l : list A) i :
  (∀ x, f (h x) = h' (f x)) → f <$> alter h i l = alter h' i (f <$> l).
Proof.
  intros Hf. apply list_fmap_alter. apply Forall_forall. intros x _. apply Hf.
Qed.

Lemma node_outs_upd_output f q nodes :
  (∀ pt, port_link_list (f pt) = port_link_list pt) →
  node_outs <$> upd_output_port f q nodes = node_outs <$> nodes.
Proof.
  intros Hf. apply fmap_alter_same. intros n. unfold node_outs. simpl.
  f_equal. by apply fmap_alter_same.
Qed.

Lemma port_links_outs g1 g2 q :
  outs_of g1 = outs_of g2 → port_links g1 q = port_links g2 q.
Proof.
  intros Hs. unfold port_links, output_port_at.
  pose proof (f_equal (.!! pr_node q) Hs) as Hk. unfold outs_of in Hk.
  rewrite !list_lookup_fmap in Hk.
  destruct (g_node_list g1 !! pr_node q) as [n1|],
           (g_node_list g2 !! pr_node q) as [n2|]; try done.
  simpl in *. injection Hk as _ Hl.
  pose proof (f_equal (.!! pr_idx q) Hl) as Hi. rewrite !list_lookup_fmap in Hi.
  by destruct (node_output_port n1 !! pr_idx q),
              (node_output_port n2 !! pr_idx q); simplify_eq.
Qed.

(** [find_next_node] *)

Lemma find_next_node_from_Some nodes k0 k :
  find_next_node_from nodes k0 = Some k →
  ∃ j n, k = (k0 + j)%nat ∧ nodes !! j = Some n
         ∧ node_n_deps n = 0 ∧ node_visited n = false.
Proof.
  revert k0. induction nodes as [|n nodes IH]; intros k0; simpl; [done|].
  destruct (Z.eqb_spec (node_n_deps n) 0) as [Hd|Hd];
    destruct (node_visited n) eqn:Hv; simpl.
  all: try (intros (j & n' & -> & Hj & H')%IH; exists (S j), n';
            split; [lia|done]).
  intros [= <-]. exists 0%nat, n. split; [lia|done].
Qed.

Lemma find_next_node_from_None nodes k0 j n :
  find_next_node_from nodes k0 = None →
  nodes !! j = Some n → ¬ (node_n_deps n = 0 ∧ node_visited n = false).
Proof.
  revert k0 j. induction nodes as [|n' nodes IH]; intros k0 j; simpl; [done|].
  destruct (Z.eqb_spec (node_n_deps n') 0) as [Hd|Hd];
    destruct (node_visited n') eqn:Hv; simpl; try done.
  all: intros Hnone; destruct j as [|j]; simpl;
    [intros [= <-]; intros [? ?]; congruence|by eapply IH].
Qed.

Lemma find_next_node_Some g k g' :
  find_next_node g = Some (k, g') →
  deps_of g !! k = Some 0 ∧ vis_of g !! k = Some false
  ∧ g' = graph_set_nodes (alter (node_set_visited true) k (g_node_list g)) g.
Proof.
  unfold find_next_node.
  destruct (find_next_node_from (g_node_list g) 0) as [k'|] eqn:Hf; [|done].
  intros [= <- <-]. apply find_next_node_from_Some in Hf as (j & n & -> & Hj & Hd & Hv).
  unfold deps_of, vis_of. rewrite !list_lookup_fmap. simpl. rewrite Hj. simpl.
  by rewrite Hd, Hv.
Qed.

Lemma find_next_node_None g k :
  find_next_node g = None →
  ¬ (deps_of g !! k = Some 0 ∧ vis_of g !! k = Some false).
Proof.
  unfold find_next_node.
  destruct (find_next_node_from (g_node_list g) 0) as [k'|] eqn:Hf; [done|].
  intros _. unfold deps_of, vis_of. rewrite !list_lookup_fmap.
  destruct (g_node_list g !! k) as [n|] eqn:Hn; simpl; [|by intros [? _]].
  intros [[= Hd] [= Hv]]. by eapply find_next_node_from_None.
Qed.

(** [setup_input_port] and [setup_output_port] *)

Definition alloc_always (env : plugin_env) : Prop :=
  ∀ q i, env_alloc env q i = true.

Lemma connect_output_Some env q p ins audio :
  alloc_always env → (connect_output env q p ins audio).1.1 = true.
Proof.
  intros Ha. revert audio. induction ins as [|[i h] ins IH]; intros audio; simpl.
  - done.
  - rewrite Ha. destruct (mjoin (audio !! i)) as [data|].
    + specialize (IH (<[i:=Some data]> audio)).
      by destruct (connect_output env q p ins _) as [[ok a] e].
    + specialize (IH (<[i:=Some (PAudio q i)]> audio)).
      by destruct (connect_output env q p ins _) as [[ok a] e].
Qed.

(** The fields of the graph the ordering loop never writes: the links,
    the link lists of the output ports and the handles of the nodes. *)
Definition plan_static (g : graph) :=
  (g_link_list g, outs_of g, hndl_of g).

Lemma setup_input_port_fields g q :
  g_node_list (setup_input_port g q) = g_node_list g
  ∧ g_link_list (setup_input_port g q) = g_link_list g
  ∧ g_hndl (setup_input_port g q) = g_hndl g.
Proof.
  unfold setup_input_port.
  destruct (g_node_list g !! pr_node q); [|done].
  by destruct (input_port_at (g_node_list g) q).
Qed.

Lemma setup_input_ports_fields k idxs g :
  let g' := foldl (λ g i, setup_input_port g (PortRef k i)) g idxs in
  g_node_list g' = g_node_list g
  ∧ g_link_list g' = g_link_list g
  ∧ g_hndl g' = g_hndl g.
Proof.
  revert g. induction idxs as [|i idxs IH]; intros g; [done|].
  simpl. destruct (IH (setup_input_port g (PortRef k i))) as (-> & -> & ->).
  apply setup_input_port_fields.
Qed.

Lemma output_step_fields F k a q nodes :
  let nodes' := upd_n_deps F k (upd_output_port (port_set_audio_data a) q nodes) in
  node_outs <$> nodes' = node_outs <$> nodes
  ∧ node_hndl <$> nodes' = node_hndl <$> nodes
  ∧ node_visited <$> nodes' = node_visited <$> nodes
  ∧ node_n_deps <$> nodes' = alter F k (node_n_deps <$> nodes).
Proof.
  unfold upd_n_deps. repeat split.
  - rewrite (fmap_alter_same node_outs) by done. by apply node_outs_upd_output.
  - rewrite (fmap_alter_same node_hndl) by done. by apply fmap_alter_same.
  - rewrite (fmap_alter_same node_visited) by done. by apply fmap_alter_same.
  - rewrite (fmap_alter_field node_n_deps _ F) by done. f_equal.
    by apply fmap_alter_same.
Qed.

Lemma setup_output_links_spec env q ls g :
  alloc_always env →
  is_Some (output_port_at (g_node_list g) q) →
  let g' := (setup_output_links env q ls g).2 in
  plan_static g' = plan_static g
  ∧ vis_of g' = vis_of g
  ∧ deps_of g' = dec_deps ls (deps_of g)
  ∧ g_hndl g' = g_hndl g.
Proof.
  intros Ha. revert g. induction ls as [|l ls IH]; intros g Hq; [done|].
  simpl. destruct Hq as [pt Hpt]. rewrite Hpt.
  destruct (g_node_list g !! pr_node q) as [n|] eqn:Hn.
  2:{ unfold output_port_at in Hpt. by rewrite Hn in Hpt. }
  pose proof (connect_output_Some env q (port_p pt) (instances n)
                (port_audio_data pt) Ha) as Hok.
  destruct (connect_output env q (port_p pt) (instances n) (port_audio_data pt))
    as [[ok audio] evs]. simpl in Hok. subst ok.
  set (g1 := graph_log evs _).
  destruct (IH g1) as (Hs & Hv & Hd & Hh).
  { subst g1. simpl. rewrite output_upd_n_deps, output_upd_output.
    rewrite decide_True by done. rewrite Hpt. by eexists. }
  rewrite Hs, Hv, Hd, Hh. subst g1.
  destruct (output_step_fields (λ d, wrap32 (d - 1)) (pr_node (l_input l))
              audio q (g_node_list g)) as (Ho & Hh' & Hv' & Hd').
  unfold plan_static, outs_of, hndl_of, vis_of, deps_of. simpl.
  by rewrite Ho, Hh', Hv', Hd'.
Qed.

Lemma setup_output_port_spec env g q :
  alloc_always env →
  let g' := (setup_output_port env g q).2 in
  plan_static g' = plan_static g
  ∧ vis_of g' = vis_of g
  ∧ deps_of g' = dec_deps (port_links g q) (deps_of g)
  ∧ g_hndl g' = g_hndl g.
Proof.
  intros Ha. unfold setup_output_port, port_links.
  destruct (output_port_at (g_node_list g) q) as [pt|] eqn:Hpt; [|done].
  apply setup_output_links_spec; [done|]. rewrite Hpt. by eexists.
Qed.

Lemma dec_deps_app l1 l2 D : dec_deps (l1 ++ l2) D = dec_deps l2 (dec_deps l1 D).
Proof. unfold dec_deps. by rewrite foldl_app. Qed.

Lemma setup_output_ports_spec env k idxs g :
  alloc_always env →
  let g' := foldl (λ g i, (setup_output_port env g (PortRef k i)).2) g idxs in
  plan_static g' = plan_static g
  ∧ vis_of g' = vis_of g
  ∧ deps_of g' = dec_deps (idxs ≫= λ i, port_links g (PortRef k i)) (deps_of g)
  ∧ g_hndl g' = g_hndl g.
Proof.
  intros Ha. revert g. induction idxs as [|i idxs IH]; intros g; [done|].
  simpl. destruct (setup_output_port_spec env g (PortRef k i) Ha) as (Hs & Hv & Hd & Hh).
  destruct (IH (setup_output_port env g (PortRef k i)).2) as (Hs' & Hv' & Hd' & Hh').
  rewrite Hs', Hv', Hd', Hh', Hs, Hv, Hd, Hh, dec_deps_app.
  split; [done|]. split; [done|]. split; [|done].
  assert (idxs ≫= (λ i0, port_links (setup_output_port env g (PortRef k i)).2
                                    (PortRef k i0))
          = idxs ≫= (λ i0, port_links g (PortRef k i0))) as ->; [|done].
  apply list_bind_ext; [|done].
  intros i'. apply port_links_outs. by injection Hs.
Qed.

(** [order_node] *)

Definition out_links (g : graph) (k : nat) (n : node) : list link :=
  seq 0 (d_n_output (node_desc n)) ≫= λ i, port_links g (PortRef k i).

Definition hndl_entries (n_hndl : Z) (n : node) : list graph_hndl :=
  (λ h, {| gh_desc := node_desc n; gh_hndl := h |})
    <$> take (Z.to_nat n_hndl) (node_hndl n).

Lemma order_node_spec env n_hndl k g n :
  alloc_always env →
  g_node_list g !! k = Some n →
  let g' := order_node env n_hndl k g in
  plan_static g' = plan_static g
  ∧ vis_of g' = vis_of g
  ∧ deps_of g' = dec_deps (out_links g k n) (deps_of g)
  ∧ g_hndl g' = g_hndl g ++ hndl_entries n_hndl n.
Proof.
  intros Ha Hn. unfold order_node. rewrite Hn. simpl.
  set (g1 := foldl (λ g i, setup_input_port g (PortRef k i)) g _).
  destruct (setup_input_ports_fields k (seq 0 (d_n_input (node_desc n))) g)
    as (Hnodes & Hlinks & Hh). fold g1 in Hnodes, Hlinks, Hh.
  set (g2 := graph_set_hndl _ g1).
  destruct (setup_output_ports_spec env k (seq 0 (d_n_output (node_desc n))) g2 Ha)
    as (Hs & Hv & Hd & Hh').
  set (g3 := foldl _ g2 _) in *.
  assert (g_node_list g2 = g_node_list g) as Hn2 by done.
  assert (g_link_list g2 = g_link_list g) as Hl2 by done.
  unfold plan_static, outs_of, hndl_of, vis_of, deps_of, out_links, port_links in *.
  simpl. rewrite Hn2, Hl2 in *. rewrite Hs, Hv, Hd, Hh'.
  subst g2. simpl. by rewrite Hh.
Qed.

(** The links on the output ports of a node are the links that leave it. *)
Lemma filter_iff_elem {A} (P Q : A → Prop)
      `{!∀ x, Decision (P x)} `{!∀ x, Decision (Q x)} (l : list A) :
  (∀ x, x ∈ l → P x ↔ Q x) → filter P l = filter Q l.
Proof.
  induction l as [|x l IH]; intros Hl; [done|].
  rewrite !filter_cons. rewrite IH by (intros y Hy; apply Hl; by right).
  destruct (decide (P x)) as [Hp|Hp], (decide (Q x)) as [Hq|Hq]; try done.
  - destruct Hq. apply Hl; [by left|done].
  - destruct Hp. apply Hl; [by left|done].
Qed.

Lemma out_links_count_upto (P : link → Prop) `{!∀ l, Decision (P l)} ls k m :
  length (filter P (seq 0 m ≫= λ i, links_at_output (PortRef k i) ls))
  = length (filter (λ l, P l ∧ pr_node (l_output l) = k
                         ∧ (pr_idx (l_output l) < m)%nat) ls).
Proof.
  induction m as [|m IH].
  - simpl. symmetry. apply length_zero_iff_nil, filter_nil_Forall.
    intros l _ (_ & _ & ?). lia.
  - rewrite seq_S, bind_app, filter_app, length_app, IH, bind_singleton. simpl.
    unfold links_at_output. rewrite list_filter_filter.
    symmetry. apply length_filter_split.
    + intros l. destruct (l_output l) as [w j] eqn:Hw. simpl. split.
      * intros (Hp & -> & Hj). destruct (decide (j = m)) as [->|?].
        -- right. done.
        -- left. repeat split; [done|lia].
      * intros [(Hp & -> & Hj)|(Hp & [= -> ->])]; repeat split; auto with lia.
    + intros l (_ & _ & Hj) (_ & Heq). rewrite Heq in Hj. simpl in Hj. lia.
Qed.

Lemma out_links_count ls k m v :
  (∀ l, l ∈ ls → pr_node (l_output l) = k → (pr_idx (l_output l) < m)%nat) →
  length (filter (λ l, pr_node (l_input l) = v)
                 (seq 0 m ≫= λ i, links_at_output (PortRef k i) ls))
  = length (filter (λ l, pr_node (l_output l) = k ∧ pr_node (l_input l) = v) ls).
Proof.
  intros Hm. rewrite out_links_count_upto. f_equal. apply filter_iff_elem.
  intros l Hl. specialize (Hm l Hl). tauto.
Qed.

(** ** The ordering loop on the graph *)

(** What the loop needs from the builder: the link lists of the output
    ports are the links of the graph sorted by port, every link leaves
    an output port the descriptor counts, and the counters cannot wrap. *)
Definition links_ok (g : graph) : Prop :=
  (∀ q, port_links g q = links_at_output q (g_link_list g))
  ∧ (∀ l, l ∈ g_link_list g →
          ∃ n, g_node_list g !! pr_node (l_output l) = Some n
               ∧ (pr_idx (l_output l) < d_n_output (node_desc n))%nat)
  ∧ Z.of_nat (length (g_link_list g)) < 2 ^ 32.

Definition out_links_at (g : graph) (k : nat) : list link :=
  default [] (out_links g k <$> g_node_list g !! k).

Definition entries_at (n_hndl : Z) (g : graph) (k : nat) : list graph_hndl :=
  default [] (hndl_entries n_hndl <$> g_node_list g !! k).

Lemma plan_static_lookup g1 g2 k :
  plan_static g1 = plan_static g2 →
  match g_node_list g1 !! k, g_node_list g2 !! k with
  | Some n1, Some n2 => node_desc n1 = node_desc n2 ∧ node_hndl n1 = node_hndl n2
  | None, None => True
  | _, _ => False
  end.
Proof.
  intros [= _ Ho Hh].
  pose proof (f_equal (.!! k) Ho) as Hok. pose proof (f_equal (.!! k) Hh) as Hhk.
  unfold outs_of in Hok. unfold hndl_of in Hhk.
  rewrite !list_lookup_fmap in Hok. rewrite !list_lookup_fmap in Hhk.
  destruct (g_node_list g1 !! k), (g_node_list g2 !! k); simplify_eq/=; done.
Qed.

Lemma plan_static_length g1 g2 :
  plan_static g1 = plan_static g2 →
  length (g_node_list g1) = length (g_node_list g2).
Proof.
  intros [= _ _ Hh]. apply (f_equal length) in Hh. unfold hndl_of in Hh.
  by rewrite !length_fmap in Hh.
Qed.

Lemma outs_of_lookup g1 g2 k :
  outs_of g1 = outs_of g2 →
  match g_node_list g1 !! k, g_node_list g2 !! k with
  | Some n1, Some n2 => node_desc n1 = node_desc n2
  | None, None => True
  | _, _ => False
  end.
Proof.
  intros Ho. pose proof (f_equal (.!! k) Ho) as Hok.
  unfold outs_of in Hok. rewrite !list_lookup_fmap in Hok.
  destruct (g_node_list g1 !! k), (g_node_list g2 !! k); simplify_eq/=; done.
Qed.

Lemma links_ok_outs g1 g2 :
  g_link_list g1 = g_link_list g2 → outs_of g1 = outs_of g2 →
  links_ok g1 → links_ok g2.
Proof.
  intros Hls Ho (Hp & Hv & Hl).
  split; [|split].
  - intros q. rewrite <-Hls, <-Hp. symmetry. by apply port_links_outs.
  - intros l Hin. rewrite <-Hls in Hin. destruct (Hv l Hin) as (n & Hn & Hi).
    pose proof (outs_of_lookup g1 g2 (pr_node (l_output l)) Ho) as Hk.
    rewrite Hn in Hk. destruct (g_node_list g2 !! pr_node (l_output l)) as [n2|]; [|done].
    exists n2. split; [done|]. by rewrite <-Hk.
  - by rewrite <-Hls.
Qed.

Lemma links_ok_static g1 g2 :
  plan_static g1 = plan_static g2 → links_ok g1 → links_ok g2.
Proof. intros [= Hls Ho _]. by apply links_ok_outs. Qed.

Lemma out_links_at_static g1 g2 k :
  plan_static g1 = plan_static g2 → out_links_at g1 k = out_links_at g2 k.
Proof.
  intros Hs. unfold out_links_at.
  pose proof (plan_static_lookup g1 g2 k Hs) as Hk.
  destruct (g_node_list g1 !! k) as [n1|], (g_node_list g2 !! k) as [n2|]; try done.
  simpl. unfold out_links. destruct Hk as [-> _].
  apply list_bind_ext; [|done]. intros i. apply port_links_outs. by injection Hs.
Qed.

Lemma entries_at_static n_hndl g1 g2 k :
  plan_static g1 = plan_static g2 → entries_at n_hndl g1 k = entries_at n_hndl g2 k.
Proof.
  intros Hs. unfold entries_at.
  pose proof (plan_static_lookup g1 g2 k Hs) as Hk.
  destruct (g_node_list g1 !! k) as [n1|], (g_node_list g2 !! k) as [n2|]; try done.
  simpl. unfold hndl_entries. by destruct Hk as [-> ->].
Qed.

Lemma out_links_at_count g k v :
  links_ok g →
  length (filter (λ l, pr_node (l_input l) = v) (out_links_at g k))
  = length (filter (λ l, pr_node (l_output l) = k ∧ pr_node (l_input l) = v)
                   (g_link_list g)).
Proof.
  intros (Hp & Hv & _). unfold out_links_at.
  destruct (g_node_list g !! k) as [n|] eqn:Hn; simpl.
  - unfold out_links.
    rewrite (list_bind_ext _ (λ i, links_at_output (PortRef k i) (g_link_list g))
                           _ (seq 0 (d_n_output (node_desc n)))); [|done..].
    apply out_links_count. intros l Hl Hk. destruct (Hv l Hl) as (n' & Hn' & Hi).
    rewrite Hk, Hn in Hn'. by injection Hn' as <-.
  - symmetry. apply length_zero_iff_nil, filter_nil_Forall.
    intros l Hl [Hk _]. destruct (Hv l Hl) as (n' & Hn' & _). congruence.
Qed.

(** Marking a node visited. *)
Lemma mark_visited_fields g k :
  let g' := graph_set_nodes (alter (node_set_visited true) k (g_node_list g)) g in
  plan_static g' = plan_static g
  ∧ vis_of g' = alter (λ _, true) k (vis_of g)
  ∧ deps_of g' = deps_of g
  ∧ g_hndl g' = g_hndl g.
Proof.
  unfold plan_static, outs_of, hndl_of, vis_of, deps_of. simpl.
  rewrite (fmap_alter_same node_outs), (fmap_alter_same node_hndl),
          (fmap_alter_same node_n_deps) by done.
  by rewrite (fmap_alter_field node_visited _ (λ _, true)).
Qed.

Lemma find_next_node_all_visited g ord :
  order_inv (g_link_list g) (length (g_node_list g)) (deps_of g) (vis_of g) ord →
  (length (g_node_list g) ≤ length ord)%nat →
  find_next_node g = None.
Proof.
  intros Hinv Hlen. destruct (find_next_node g) as [[k g']|] eqn:Hf; [|done].
  apply find_next_node_Some in Hf as (_ & Hv & _).
  assert (k < length (g_node_list g))%nat as Hk.
  { apply lookup_lt_Some in Hv. unfold vis_of in Hv. by rewrite length_fmap in Hv. }
  rewrite (oi_vis _ _ _ _ _ Hinv) in Hv by done.
  injection Hv as Hv. apply bool_decide_eq_false in Hv.
  destruct Hv. by eapply order_inv_all.
Qed.

(** The loop keeps its invariant and ends at the [break]: with as much
    fuel as there are unvisited nodes, [find_next_node] finds no node in
    the final graph. *)
Lemma order_nodes_inv env n_hndl fuel g ord :
  alloc_always env →
  links_ok g →
  order_inv (g_link_list g) (length (g_node_list g)) (deps_of g) (vis_of g) ord →
  g_hndl g = ord ≫= entries_at n_hndl g →
  (length (g_node_list g) - length ord ≤ fuel)%nat →
  let g' := order_nodes env n_hndl fuel g in
  ∃ ord',
    plan_static g' = plan_static g
    ∧ order_inv (g_link_list g) (length (g_node_list g)) (deps_of g') (vis_of g') ord'
    ∧ g_hndl g' = ord' ≫= entries_at n_hndl g
    ∧ find_next_node g' = None.
Proof.
  intros Ha. revert g ord. induction fuel as [|fuel IH]; intros g ord Hok Hinv Hh Hfuel.
  - simpl. exists ord. split; [done|]. split; [done|]. split; [done|].
    apply (find_next_node_all_visited g ord); [done|lia].
  - simpl. destruct (find_next_node g) as [[k g1]|] eqn:Hf.
    2:{ exists ord. split; [done|]. split; [done|]. by split. }
    apply find_next_node_Some in Hf as (Hdk & Hvk & ->).
    set (g1 := graph_set_nodes _ g).
    destruct (mark_visited_fields g k) as (Hs1 & Hv1 & Hd1 & Hh1). fold g1 in Hs1, Hv1, Hd1, Hh1.
    assert (k < length (g_node_list g))%nat as Hk.
    { apply lookup_lt_Some in Hvk. unfold vis_of in Hvk. by rewrite length_fmap in Hvk. }
    destruct (g_node_list g1 !! k) as [n1|] eqn:Hn1.
    2:{ apply lookup_ge_None in Hn1. rewrite (plan_static_length g1 g) in Hn1 by done. lia. }
    destruct (order_node_spec env n_hndl k g1 n1 Ha Hn1) as (Hs2 & Hv2 & Hd2 & Hh2).
    set (g2 := order_node env n_hndl k g1) in *.
    assert (plan_static g2 = plan_static g) as Hs by (by rewrite Hs2).
    pose proof Hs as [= Hls _ _].
    pose proof (plan_static_length g2 g Hs) as Hlen.
    assert (out_links g1 k n1 = out_links_at g k) as Hout.
    { rewrite <-(out_links_at_static g1 g) by done. unfold out_links_at. by rewrite Hn1. }
    assert (hndl_entries n_hndl n1 = entries_at n_hndl g k) as Hent.
    { rewrite <-(entries_at_static n_hndl g1 g) by done. unfold entries_at. by rewrite Hn1. }
    destruct (IH g2 (ord ++ [k])) as (ord' & Hs' & Hinv' & Hh' & Hnone).
    + by apply (links_ok_static g).
    + rewrite Hls, Hlen, Hd2, Hv2, Hd1, Hv1, Hout.
      apply order_inv_step; try done; [apply Hok|].
      intros v. by apply out_links_at_count.
    + rewrite Hh2, Hh1, Hh, Hent, bind_app, bind_singleton.
      f_equal; [|by apply entries_at_static].
      apply list_bind_ext; [|done]. intros j. symmetry. by apply entries_at_static.
    + rewrite Hlen, length_app. simpl. lia.
    + exists ord'. rewrite Hs', Hs. rewrite Hls, Hlen in Hinv'.
      split; [done|]. split; [done|]. split; [|done].
      rewrite Hh'. apply list_bind_ext; [|done]. intros j. by apply entries_at_static.
Qed.

(** ** From the builder to the planner *)

(** A node the planner has not touched yet. *)
Definition node_unplanned (n : node) : Prop :=
  node_visited n = false ∧ node_hndl n = []
  ∧ length (node_output_port n) = d_n_output (node_desc n).

Lemma new_node_unplanned name d : node_unplanned (new_node name d).
Proof.
  split; [done|]. split; [done|]. simpl. by rewrite length_imap.
Qed.

Lemma unplanned_upd_input f q nodes :
  Forall node_unplanned nodes → Forall node_unplanned (upd_input_port f q nodes).
Proof. intros H. apply Forall_alter; [done|]. by intros n _ (? & ? & ?). Qed.

Lemma unplanned_upd_output f q nodes :
  Forall node_unplanned nodes → Forall node_unplanned (upd_output_port f q nodes).
Proof.
  intros H. apply Forall_alter; [done|]. intros n _ (? & ? & ?).
  split; [done|]. split; [done|]. simpl. by rewrite length_alter.
Qed.

Lemma unplanned_upd_control f q nodes :
  Forall node_unplanned nodes → Forall node_unplanned (upd_control_port f q nodes).
Proof. intros H. apply Forall_alter; [done|]. by intros n _ (? & ? & ?). Qed.

Lemma unplanned_upd_n_deps F k nodes :
  Forall node_unplanned nodes → Forall node_unplanned (upd_n_deps F k nodes).
Proof. intros H. apply Forall_alter; [done|]. by intros n _ (? & ? & ?). Qed.

Lemma unplanned_set_control_value vis g nd name value :
  Forall node_unplanned (g_node_list g) →
  Forall node_unplanned (g_node_list (set_control_value_upto vis g nd name value).2).
Proof.
  intros H. rewrite set_control_value_unfold.
  destruct (control_target _ _ _ _ _) as [[q v]|]; [|done].
  by apply unplanned_upd_control.
Qed.

Lemma unplanned_parse_control vis nd control g :
  Forall node_unplanned (g_node_list g) →
  Forall node_unplanned (g_node_list (parse_control vis g nd control)).
Proof.
  revert g. induction control as [|[key [fl|]] control IH]; intros g Hg; simpl;
    [done| |by apply IH].
  apply IH. by apply unplanned_set_control_value.
Qed.

Lemma parse_link_cases alloc_ok g json :
  (parse_link alloc_ok g json).2 = g
  ∨ ∃ o i, (parse_link alloc_ok g json).2 = link_ports g o i.
Proof.
  unfold parse_link. destruct (g_node_list g); [by left|].
  destruct (parse_link_keys json "" "") as [[output input]|]; [|by left].
  destruct (find_port g (first_node g) output FC_PORT_OUTPUT) as [o|]; [|by left].
  destruct (find_port g (last_node g) input FC_PORT_INPUT) as [i|]; [|by left].
  destruct (input_port_at _ i) as [pt|]; [|by left].
  destruct (0 <? port_n_links pt); [by left|].
  destruct alloc_ok; [|by left]. right. by exists o, i.
Qed.

Lemma builder_state_unplanned g :
  builder_state g → Forall node_unplanned (g_node_list g).
Proof.
  induction 1 as [|g name d control _ IH|g alloc_ok json _ IH|g l _ IH Hl].
  - constructor.
  - unfold load_node. simpl.
    assert (Forall node_unplanned (g_node_list g ++ [new_node name d])) as Hn.
    { apply Forall_app. split; [done|]. apply Forall_singleton, new_node_unplanned. }
    destruct control; [by apply unplanned_parse_control|done].
  - destruct (parse_link_cases alloc_ok g json) as [->|(o & i & ->)]; [done|].
    by apply unplanned_upd_n_deps, unplanned_upd_input, unplanned_upd_output.
  - unfold link_free. simpl.
    by apply unplanned_upd_output, unplanned_upd_n_deps, unplanned_upd_input.
Qed.

Lemma builder_links_ok g :
  builder_state g → Z.of_nat (length (g_link_list g)) < 2 ^ 32 → links_ok g.
Proof.
  intros Hs Hlen. pose proof (builder_state_inv g Hs) as Hinv.
  pose proof (builder_state_unplanned g Hs) as Hun.
  split; [|split; [|done]].
  - intros q. unfold port_links.
    destruct (output_port_at (g_node_list g) q) as [pt|] eqn:Hq; simpl.
    + by destruct (bi_output _ Hinv _ _ Hq) as [-> _].
    + symmetry. apply filter_nil_Forall. intros l [Hl _]%(bi_valid _ Hinv) Heq.
      rewrite Heq, Hq in Hl. by destruct Hl.
  - intros l [[pt Hl] _]%(bi_valid _ Hinv). unfold output_port_at in Hl.
    destruct (g_node_list g !! pr_node (l_output l)) as [n|] eqn:Hn; [|done].
    exists n. split; [done|]. simpl in Hl. apply lookup_lt_Some in Hl.
    rewrite Forall_forall in Hun.
    destruct (Hun n) as (_ & _ & <-); [by eapply list_elem_of_lookup_2|done].
Qed.

Lemma builder_order_start g :
  builder_state g → Z.of_nat (length (g_link_list g)) < 2 ^ 32 →
  order_inv (g_link_list g) (length (g_node_list g)) (deps_of g) (vis_of g) [].
Proof.
  intros Hs Hlen. pose proof (builder_state_inv g Hs) as Hinv.
  pose proof (builder_state_unplanned g Hs) as Hun.
  apply order_inv_start.
  - unfold deps_of. by rewrite length_fmap.
  - intros v Hv. destruct (lookup_lt_is_Some_2 (g_node_list g) v Hv) as [n Hn].
    unfold deps_of. rewrite list_lookup_fmap, Hn. simpl. f_equal.
    apply (bi_deps _ Hinv). unfold n_deps_at. by rewrite Hn.
  - intros k Hk. destruct (lookup_lt_is_Some_2 (g_node_list g) k Hk) as [n Hn].
    unfold vis_of. rewrite list_lookup_fmap, Hn. simpl. f_equal.
    rewrite Forall_forall in Hun.
    by destruct (Hun n) as (-> & _); [by eapply list_elem_of_lookup_2|].
Qed.

(** ** Instantiation and external binding *)

Lemma try_fold_preserve {A} (f : A → graph → res * graph) (P : graph → Prop) l g :
  (∀ a g, P g → P (f a g).2) → P g → P (try_fold f l g).2.
Proof.
  intros Hf. revert g. induction l as [|a l IH]; intros g Hg; [done|].
  simpl. specialize (Hf a g Hg). destruct (f a g) as [[|e] g1]; [|done].
  by apply IH.
Qed.

Lemma try_fold_ok_ind {A} (f : A → graph → res * graph)
      (R : list A → graph → Prop) l g g' :
  R [] g →
  (∀ done a rest g1 g2,
     l = done ++ a :: rest → R done g1 → f a g1 = (Ok, g2) → R (done ++ [a]) g2) →
  try_fold f l g = (Ok, g') → R l g'.
Proof.
  intros H0 Hstep.
  assert (∀ rest done g1, l = done ++ rest → R done g1 →
                          try_fold f rest g1 = (Ok, g') → R l g') as Hgen.
  { induction rest as [|a rest IH]; intros done g1 Hl Hd; simpl.
    - intros [= <-]. by rewrite Hl, app_nil_r.
    - destruct (f a g1) as [[|e] g2] eqn:Hf; [|done].
      apply (IH (done ++ [a])); [by rewrite <-app_assoc|]. by eapply Hstep. }
  by apply (Hgen l []).
Qed.

(** The fields of the graph that instantiation and binding leave alone. *)
Definition topo_static (g : graph) :=
  (g_link_list g, outs_of g, deps_of g, vis_of g).

Lemma instantiate_one_fields env k i g g' :
  instantiate_one env (k, i) g = (Ok, g') →
  topo_static g' = topo_static g
  ∧ hndl_of g' = alter (λ hs, hs ++ [Handle k i]) k (hndl_of g).
Proof.
  unfold instantiate_one. destruct (g_node_list g !! k) as [n|] eqn:Hn.
  - destruct (env_instantiate env k i); [done|]. intros [= <-].
    unfold topo_static, outs_of, deps_of, vis_of, hndl_of. simpl.
    rewrite (fmap_alter_same node_outs), (fmap_alter_same node_n_deps),
            (fmap_alter_same node_visited) by done.
    by rewrite (fmap_alter_field node_hndl _ (λ hs, hs ++ [Handle k i])).
  - intros [= <-]. split; [done|]. unfold hndl_of.
    rewrite alter_same; [done|]. intros hs Hhs.
    by rewrite list_lookup_fmap, Hn in Hhs.
Qed.

Lemma instantiate_node_fields env n_hndl k g g' :
  instantiate_node env n_hndl k g = (Ok, g') →
  topo_static g' = topo_static g
  ∧ hndl_of g'
    = alter (λ hs, hs ++ (Handle k <$> seq 0 (Z.to_nat n_hndl))) k (hndl_of g).
Proof.
  unfold instantiate_node.
  apply (try_fold_ok_ind _
           (λ done g1, topo_static g1 = topo_static g
                       ∧ hndl_of g1 = alter (λ hs, hs ++ (Handle k <$> done)) k
                                            (hndl_of g))).
  - split; [done|]. symmetry. apply list_alter_id. intros hs. apply app_nil_r.
  - intros done a rest g1 g2 _ [Ht Hh] [Ht' Hh']%instantiate_one_fields.
    split; [by rewrite Ht'|]. rewrite Hh', Hh, list_alter_alter_eq.
    apply list_alter_ext; [|done]. intros hs _. simpl.
    by rewrite fmap_app, app_assoc.
Qed.

Lemma instantiate_nodes_fields env n_hndl g g' :
  instantiate_nodes env n_hndl g = (Ok, g') →
  Forall (λ hs, hs = []) (hndl_of g) →
  topo_static g' = topo_static g
  ∧ ∀ k, (k < length (g_node_list g))%nat →
         hndl_of g' !! k = Some (Handle k <$> seq 0 (Z.to_nat n_hndl)).
Proof.
  intros Hi Hnil. unfold instantiate_nodes in Hi.
  pose proof (try_fold_ok_ind (instantiate_node env n_hndl)
    (λ done g1, topo_static g1 = topo_static g
       ∧ ∀ k, (k < length (g_node_list g))%nat →
              hndl_of g1 !! k
              = Some (if decide (k ∈ done)
                      then Handle k <$> seq 0 (Z.to_nat n_hndl) else []))
    (seq 0 (length (g_node_list g))) g g') as Hind.
  simpl in Hind. destruct Hind as [Ht Hh]; [| |done|].
  - split; [done|]. intros k Hk.
    assert (is_Some (hndl_of g !! k)) as [hs Hhs].
    { apply lookup_lt_is_Some. unfold hndl_of. by rewrite length_fmap. }
    rewrite Hhs. f_equal. rewrite Forall_forall in Hnil.
    apply Hnil. by eapply list_elem_of_lookup_2.
  - intros done a rest g1 g2 Hseq [Ht Hh] [Ht' Hh']%instantiate_node_fields.
    split; [by rewrite Ht'|]. intros k Hk. rewrite Hh'.
    assert (a ∉ done) as Hnew.
    { pose proof (NoDup_seq 0 (length (g_node_list g))) as Hnd.
      rewrite Hseq in Hnd. apply NoDup_app in Hnd as (_ & Hnd & _).
      intros Ha. apply (Hnd a Ha). by left. }
    destruct (decide (k = a)) as [->|Hka].
    + rewrite list_lookup_alter_eq, Hh by done. simpl.
      rewrite decide_False by done. rewrite decide_True; [done|].
      apply elem_of_app. right. by left.
    + rewrite list_lookup_alter_ne, Hh by done. f_equal.
      destruct (decide (k ∈ done)) as [Hd|Hd].
      * rewrite decide_True; [done|]. apply elem_of_app. by left.
      * rewrite decide_False; [done|].
        intros [?|?%list_elem_of_singleton]%elem_of_app; done.
  - split; [done|]. intros k Hk. rewrite Hh by done.
    rewrite decide_True; [done|]. apply elem_of_seq. lia.
Qed.

Definition bind_static (g : graph) := (topo_static g, hndl_of g).

Lemma bind_static_upd_input f q g :
  bind_static (graph_set_nodes (upd_input_port f q (g_node_list g)) g)
  = bind_static g.
Proof.
  unfold bind_static, topo_static, outs_of, deps_of, vis_of, hndl_of,
         upd_input_port. simpl.
  by rewrite (fmap_alter_same node_outs), (fmap_alter_same node_n_deps),
             (fmap_alter_same node_visited), (fmap_alter_same node_hndl).
Qed.

Lemma bind_static_upd_output f q g :
  (∀ pt, port_link_list (f pt) = port_link_list pt) →
  bind_static (graph_set_nodes (upd_output_port f q (g_node_list g)) g)
  = bind_static g.
Proof.
  intros Hf.
  unfold bind_static, topo_static, outs_of, deps_of, vis_of, hndl_of. simpl.
  rewrite node_outs_upd_output by done. unfold upd_output_port.
  by rewrite (fmap_alter_same node_n_deps),
             (fmap_alter_same node_visited), (fmap_alter_same node_hndl).
Qed.

Lemma bind_input_fields i v g :
  bind_static (bind_input i v g).2 = bind_static g.
Proof.
  unfold bind_input. destruct (spa_streq v "null"); [done|].
  destruct (find_port _ _ _ _) as [q|]; [|done].
  destruct (g_node_list g !! pr_node q) as [n|]; [|done].
  destruct (input_port_at _ q) as [pt|]; [|done].
  destruct (_ && _); [done|]. destruct (0 <? _); [done|].
  apply (bind_static_upd_input _ q g).
Qed.

Lemma bind_output_fields i v g :
  bind_static (bind_output i v g).2 = bind_static g.
Proof.
  unfold bind_output. destruct (spa_streq v "null"); [done|].
  destruct (find_port _ _ _ _) as [q|]; [|done].
  destruct (g_node_list g !! pr_node q) as [n|]; [|done].
  destruct (output_port_at _ q) as [pt|]; [|done].
  destruct (_ && _); [done|]. destruct (0 <? _); [done|].
  by apply (bind_static_upd_output _ q g).
Qed.

Lemma bind_round_fields inputs outputs i g :
  bind_static (bind_round inputs outputs i g).2 = bind_static g.
Proof.
  unfold bind_round.
  assert (∀ g, bind_static
                 (match outputs with
                  | None => (Ok, bind_default_outputs i g)
                  | Some a => try_fold (bind_output i) (json_strings a) g
                  end).2 = bind_static g) as Hout.
  { intros g0. destruct outputs as [a|]; simpl.
    - apply (try_fold_preserve _ (λ g1, bind_static g1 = bind_static g0)); [|done].
      intros v g1 <-. apply bind_output_fields.
    - unfold bind_default_outputs. by destruct (_ ≫= _). }
  destruct inputs as [a|].
  - pose proof (try_fold_preserve (bind_input i)
                  (λ g1, bind_static g1 = bind_static g) (json_strings a) g) as Hin.
    destruct (try_fold (bind_input i) (json_strings a) g) as [[|e] g1]; simpl in *.
    + rewrite Hout. apply Hin; [|done]. intros v g2 <-. apply bind_input_fields.
    + apply Hin; [|done]. intros v g2 <-. apply bind_input_fields.
  - rewrite Hout. unfold bind_default_inputs. by destruct (_ ≫= _).
Qed.

Lemma bind_ports_fields n_hndl inputs outputs g :
  bind_static (bind_ports n_hndl inputs outputs g).2 = bind_static g.
Proof.
  unfold bind_ports.
  apply (try_fold_preserve _ (λ g1, bind_static g1 = bind_static g)); [|done].
  intros i g1 <-. apply bind_round_fields.
Qed.

(** A loop that stops with an error stops at an element that gives it. *)
Lemma try_fold_Err {A} (f : A → graph → res * graph) l g e g' :
  try_fold f l g = (Err e, g') → ∃ a g1, a ∈ l ∧ (f a g1).1 = Err e.
Proof.
  revert g. induction l as [|a l IH]; intros g; simpl; [done|].
  destruct (f a g) as [[|e1] g1] eqn:Hf.
  - intros (a' & g2 & Ha & He)%IH. exists a', g2. split; [by right|done].
  - intros [= -> ->]. exists a, g. split; [by left|]. by rewrite Hf.
Qed.

Lemma instantiate_nodes_Err env n_hndl g e g' :
  instantiate_nodes env n_hndl g = (Err e, g') →
  ∃ k i, env_instantiate env k i = Some e.
Proof.
  unfold instantiate_nodes, instantiate_node.
  intros (k & g1 & _ & Hk)%try_fold_Err.
  destruct (try_fold _ _ g1) as [r g2] eqn:Hf. simpl in Hk. subst r.
  apply try_fold_Err in Hf as (i & g3 & _ & Hi). exists k, i.
  unfold instantiate_one in Hi. destruct (g_node_list g3 !! k); [|done].
  destruct (env_instantiate env k i); [|done]. simpl in Hi. congruence.
Qed.

(** [setup_graph] has gone through its three steps that can fail, and
    left the graph that the ordering loop makes. *)
Definition setup_steps (env : plugin_env) (im : impl)
           (inputs outputs : option (list jvalue)) (im' : impl) : Prop :=
  ∃ capture playback n_hndl g1 g2,
    setup_dimensions (capture_info_channels im) (playback_info_channels im)
                     (graph_dims (impl_graph im) inputs outputs).1
                     (graph_dims (impl_graph im) inputs outputs).2
    = (Ok, capture, playback, n_hndl)
    ∧ instantiate_nodes env n_hndl (impl_graph im) = (Ok, g1)
    ∧ bind_ports n_hndl inputs outputs (graph_set_output [] (graph_set_input [] g1))
      = (Ok, g2)
    ∧ impl_graph im'
      = order_nodes env n_hndl (length (g_node_list g2))
          (graph_set_control_port [] (graph_set_hndl [] g2)).

(** The ordering loop has no error exit: after the three steps
    [setup_graph] returns success. *)
Lemma setup_steps_Ok env im inputs outputs capture playback n_hndl g1 g2 :
  setup_dimensions (capture_info_channels im) (playback_info_channels im)
                   (graph_dims (impl_graph im) inputs outputs).1
                   (graph_dims (impl_graph im) inputs outputs).2
  = (Ok, capture, playback, n_hndl) →
  instantiate_nodes env n_hndl (impl_graph im) = (Ok, g1) →
  bind_ports n_hndl inputs outputs (graph_set_output [] (graph_set_input [] g1))
  = (Ok, g2) →
  (setup_graph env im inputs outputs).1 = Ok
  ∧ setup_steps env im inputs outputs (setup_graph env im inputs outputs).2.
Proof.
  intros Hdim Hinst Hbind. unfold setup_steps, setup_graph.
  destruct (graph_dims _ _ _) as [n_input n_output].
  simpl in *. rewrite Hdim, Hinst, Hbind. split; [done|].
  exists capture, playback, n_hndl, g1, g2. done.
Qed.


(** When a failed [instantiate] leaves a positive errno, [setup_graph]
    returns success only after the three steps. *)
Lemma setup_graph_Ok env im inputs outputs im' :
  errno_reported env →
  setup_graph env im inputs outputs = (Ok, im') →
  setup_steps env im inputs outputs im'.
Proof.
  intros Herr. unfold setup_steps, setup_graph.
  destruct (graph_dims _ _ _) as [n_input n_output]. simpl.
  destruct (setup_dimensions _ _ _ _) as [[[[|e] capture] playback] n_hndl];
    [|done].
  destruct (instantiate_nodes env n_hndl (impl_graph im)) as [[|e] g1] eqn:Hi.
  - destruct (bind_ports _ _ _ _) as [[|e] g2] eqn:Hb; [|done].
    intros [= <-]. by exists capture, playback, n_hndl, g1, g2.
  - apply instantiate_nodes_Err in Hi as (k & i & Hki).
    rewrite (Herr k i e Hki). done.
Qed.

(** ** The plan of a successful [setup_graph] *)

Lemma topo_static_length g1 g2 :
  topo_static g1 = topo_static g2 →
  length (g_node_list g1) = length (g_node_list g2).
Proof.
  intros [= _ _ _ Hv]. apply (f_equal length) in Hv. unfold vis_of in Hv.
  by rewrite !length_fmap in Hv.
Qed.

(** After a successful [setup_graph] on a graph of the builder: the nodes
    [ord] were visited in this order, [graph->hndl] lists their instances
    block by block, every node has the instances [0 .. n), and the loop
    has come to its end. *)
Lemma setup_graph_plan env im inputs outputs im' :
  builder_state (impl_graph im) →
  Z.of_nat (length (g_link_list (impl_graph im))) < 2 ^ 32 →
  alloc_always env →
  setup_steps env im inputs outputs im' →
  let g := impl_graph im in
  let g' := impl_graph im' in
  ∃ (n : nat) (ord : list nat),
    g_link_list g' = g_link_list g
    ∧ length (g_node_list g') = length (g_node_list g)
    ∧ (∀ k, (k < length (g_node_list g))%nat →
            hndl_of g' !! k = Some (Handle k <$> seq 0 n))
    ∧ order_inv (g_link_list g) (length (g_node_list g))
                (deps_of g') (vis_of g') ord
    ∧ g_hndl g' = ord ≫= entries_at (Z.of_nat n) g'
    ∧ find_next_node g' = None.
Proof.
  intros Hs Hlen Ha Hsetup g g'.
  destruct Hsetup as (capture & playback & n_hndl & g1 & g2 & _ & Hi & Hb & Hg').
  fold g' in Hg'. fold g in Hi.
  pose proof (builder_state_unplanned g Hs) as Hun.
  destruct (instantiate_nodes_fields env n_hndl g g1 Hi) as [Ht1 Hh1].
  { unfold hndl_of. apply Forall_fmap. eapply Forall_impl; [exact Hun|].
    by intros n0 (_ & ? & _). }
  pose proof (bind_ports_fields n_hndl inputs outputs
                (graph_set_output [] (graph_set_input [] g1))) as Hb2.
  rewrite Hb in Hb2. simpl in Hb2.
  set (g3 := graph_set_control_port [] (graph_set_hndl [] g2)) in *.
  assert (topo_static g3 = topo_static g ∧ hndl_of g3 = hndl_of g1) as [Ht3 Hh3].
  { unfold bind_static in Hb2. apply pair_equal_spec in Hb2 as [Ht Hh].
    split; [by rewrite <-Ht1|done]. }
  assert (g_link_list g3 = g_link_list g) as Hls by (by injection Ht3).
  assert (outs_of g3 = outs_of g) as Ho by (by injection Ht3).
  assert (deps_of g3 = deps_of g) as Hd by (by injection Ht3).
  assert (vis_of g3 = vis_of g) as Hv by (by injection Ht3).
  pose proof (topo_static_length g3 g Ht3) as HN.
  assert (length (g_node_list g2) = length (g_node_list g)) as HN2 by done.
  destruct (order_nodes_inv env n_hndl (length (g_node_list g2)) g3 []) as
    (ord & Hs' & Hinv & Hh & Hnone); try done.
  { apply (links_ok_outs g); [done..|]. by apply builder_links_ok. }
  { rewrite Hls, HN, Hd, Hv. by apply builder_order_start. }
  { rewrite HN, HN2. simpl. lia. }
  rewrite <-Hg' in Hs', Hinv, Hh, Hnone.
  exists (Z.to_nat n_hndl), ord.
  pose proof Hs' as [= Hls' _ Hh'].
  split; [by rewrite Hls'|]. split; [by rewrite (plan_static_length g' g3)|].
  split; [intros k Hk; rewrite Hh', Hh3; by apply Hh1|].
  split; [by rewrite <-Hls, <-HN|]. split; [|done].
  rewrite Hh. apply list_bind_ext; [|done]. intros k.
  rewrite (entries_at_static _ g' g3 k Hs'). unfold entries_at.
  destruct (g_node_list g3 !! k); [|done]. simpl.
  unfold hndl_entries. by rewrite Nat2Z.id.
Qed.

Lemma entries_at_handles n g k nk :
  g_node_list g !! k = Some nk →
  node_hndl nk = Handle k <$> seq 0 n →
  entries_at (Z.of_nat n) g k
  = (λ i, {| gh_desc := node_desc nk; gh_hndl := Handle k i |}) <$> seq 0 n.
Proof.
  intros Hk Hh. unfold entries_at, hndl_entries. rewrite Hk. simpl.
  rewrite Hh, Nat2Z.id, take_ge by (by rewrite length_fmap, length_seq).
  by rewrite <-list_fmap_compose.
Qed.

Lemma plan_node_handles n g k nk :
  hndl_of g !! k = Some (Handle k <$> seq 0 n) →
  g_node_list g !! k = Some nk →
  node_hndl nk = Handle k <$> seq 0 n.
Proof.
  unfold hndl_of. rewrite list_lookup_fmap. intros Hh Hk.
  rewrite Hk in Hh. by injection Hh.
Qed.




Lemma graph_a_to_b_acyclic : ¬ has_cycle (g_link_list graph_a_to_b).
Proof.
  assert (∀ w, ¬ link_path (g_link_list graph_a_to_b) 1 w) as Hno.
  { intros w Hp. inversion Hp as [l Hl Ho|l w' Hl _ Ho]; subst;
      apply list_elem_of_singleton in Hl; by subst l. }
  intros [u Hp]. inversion Hp as [l Hl Ho Hi|l w' Hl Hp' Ho]; subst;
    apply list_elem_of_singleton in Hl; subst l.
  - simpl in *. congruence.
  - by apply (Hno _ Hp').
Qed.


Example setup_graph_a_to_b_Ok :
  setup_graph env_ok (impl_of graph_a_to_b 1 1) None None
  = (Ok, (setup_graph env_ok (impl_of graph_a_to_b 1 1) None None).2).
Proof. vm_compute. reflexivity. Qed.


(** ** Cycles and the ordering loop *)

(** Along a path that ends in a visited node, the start was visited
    before the end. *)
Lemma order_inv_path ls N D V ord u w :
  order_inv ls N D V ord → link_path ls u w →
  ∀ o1 o2, ord = o1 ++ w :: o2 → u ∈ o1.
Proof.
  intros Hinv Hp. induction Hp as [l Hl|l w Hl Hp IH]; intros o1 o2 Hord.
  - by apply (oi_before _ _ _ _ _ Hinv l o1 o2).
  - pose proof (IH o1 o2 Hord) as Hin.
    apply list_elem_of_split in Hin as (p1 & p2 & Ho1).
    rewrite Ho1, <-app_assoc in Hord. simpl in Hord.
    pose proof (oi_before _ _ _ _ _ Hinv l p1 _ Hl Hord) as Hout.
    rewrite Ho1. apply elem_of_app. by left.
Qed.

(** A node on a cycle is never visited. *)
Lemma order_inv_cycle ls N D V ord u :
  order_inv ls N D V ord → link_path ls u u → u ∉ ord.
Proof.
  intros Hinv Hp Hu. apply list_elem_of_split in Hu as (o1 & o2 & Hord).
  pose proof (order_inv_path _ _ _ _ _ _ _ Hinv Hp o1 o2 Hord) as Hin.
  pose proof (oi_nodup _ _ _ _ _ Hinv) as Hnd. rewrite Hord in Hnd.
  apply NoDup_app in Hnd as (_ & Hdis & _).
  apply (Hdis u Hin). by left.
Qed.

(** The three steps that can fail; the loop after them cannot. *)
Lemma setup_graph_phases env im inputs outputs capture playback n_hndl g1 g2 :
  setup_dimensions (capture_info_channels im) (playback_info_channels im)
                   (graph_dims (impl_graph im) inputs outputs).1
                   (graph_dims (impl_graph im) inputs outputs).2
  = (Ok, capture, playback, n_hndl) →
  instantiate_nodes env n_hndl (impl_graph im) = (Ok, g1) →
  bind_ports n_hndl inputs outputs (graph_set_output [] (graph_set_input [] g1))
  = (Ok, g2) →
  (setup_graph env im inputs outputs).1 = Ok.
Proof.
  intros Hdim Hinst Hbind.
  by destruct (setup_steps_Ok env im inputs outputs capture playback n_hndl
                 g1 g2 Hdim Hinst Hbind).
Qed.

(** C1 does not hold as stated: the links of [graph_cycle] form a cycle,
    yet [setup_graph] returns success; the plan it leaves is empty. *)
Lemma setup_graph_accepts_cycle :
  has_cycle (g_link_list graph_cycle)
  ∧ (setup_graph env_ok (impl_of graph_cycle 1 1) None None).1 = Ok
  ∧ g_hndl (impl_graph (setup_graph env_ok (impl_of graph_cycle 1 1)
                                     None None).2) = [].
Proof.
  split; [|split; vm_compute; reflexivity].
  exists 0%nat.
  apply (lp_step _ (Link (PortRef 0 0) (PortRef 1 0))); [vm_compute; by left|].
  apply (lp_one _ (Link (PortRef 1 0) (PortRef 0 0))).
  vm_compute. right. by left.
Qed.

(** C1 (amended). The ordering loop has no error exit: once the channel
    counts, the instances and the port binding are in order,
    [setup_graph] on a graph of the builder returns success, whatever its
    links.  When every scratch buffer is allocated, the loop stops when
    [find_next_node] finds nothing; a node it left unvisited lies behind
    a cycle of links, a node on a cycle is always left unvisited, and an
    unvisited node has no entry in [graph->hndl]. *)
Theorem setup_graph_cycle_unvisited (env : plugin_env) (im : impl)
        (inputs outputs : option (list jvalue))
        (capture playback n_hndl : Z) (g1 g2 : graph) :
  builder_state (impl_graph im) →
  Z.of_nat (length (g_link_list (impl_graph im))) < 2 ^ 32 →
  setup_dimensions (capture_info_channels im) (playback_info_channels im)
                   (graph_dims (impl_graph im) inputs outputs).1
                   (graph_dims (impl_graph im) inputs outputs).2
  = (Ok, capture, playback, n_hndl) →
  instantiate_nodes env n_hndl (impl_graph im) = (Ok, g1) →
  bind_ports n_hndl inputs outputs (graph_set_output [] (graph_set_input [] g1))
  = (Ok, g2) →
  ∃ im',
    setup_graph env im inputs outputs = (Ok, im')
    ∧ (alloc_always env →
       find_next_node (impl_graph im') = None
       ∧ ∀ k nk, g_node_list (impl_graph im') !! k = Some nk →
           (node_visited nk = false → has_cycle (g_link_list (impl_graph im)))
           ∧ (link_path (g_link_list (impl_graph im)) k k →
              node_visited nk = false)
           ∧ (node_visited nk = false →
              ∀ gh i, gh ∈ g_hndl (impl_graph im') → gh_hndl gh ≠ Handle k i)).
Proof.
  intros Hs Hlen Hdim Hinst Hbind.
  destruct (setup_steps_Ok env im inputs outputs capture playback
              n_hndl g1 g2 Hdim Hinst Hbind) as [Hok Hsteps].
  destruct (setup_graph env im inputs outputs) as [r im'] eqn:Hsetup.
  simpl in Hok, Hsteps. subst r. exists im'. split; [done|]. intros Ha.
  destruct (setup_graph_plan env im inputs outputs im' Hs Hlen Ha Hsteps)
    as (n & ord & Hls & HN & Hh & Hinv & Hhndl & Hnone).
  split; [done|]. intros k nk Hk.
  pose proof (builder_state_inv _ Hs) as Hb.
  assert (k < length (g_node_list (impl_graph im)))%nat as Hlt.
  { rewrite <-HN. by eapply lookup_lt_Some. }
  assert (node_visited nk = bool_decide (k ∈ ord)) as Hvis.
  { pose proof (oi_vis _ _ _ _ _ Hinv k Hlt) as Hv. unfold vis_of in Hv.
    rewrite list_lookup_fmap, Hk in Hv. by injection Hv. }
  rewrite Hvis. split; [|split].
  - intros Hn%bool_decide_eq_false.
    eapply (order_inv_stuck _ _ _ _ ord k Hinv); [| |done|done].
    + intros l' [Hl' _]%(bi_valid _ Hb).
      by apply (port_at_Some_lt node_output_port) in Hl'.
    + intros k' _. by apply find_next_node_None.
  - intros Hp. apply bool_decide_eq_false. by eapply order_inv_cycle.
  - intros Hn%bool_decide_eq_false gh i Hgh Heq.
    rewrite Hhndl in Hgh. apply list_elem_of_bind in Hgh as (k' & Hgh & Hk').
    pose proof (oi_bound _ _ _ _ _ Hinv k' Hk') as Hlt'.
    destruct (lookup_lt_is_Some_2 (g_node_list (impl_graph im')) k')
      as [nk' Hnk']; [lia|].
    rewrite (entries_at_handles n _ k' nk') in Hgh;
      [|done|by apply (plan_node_handles n _ k' nk' (Hh k' Hlt'))].
    apply list_elem_of_fmap in Hgh as (i' & -> & _).
    simpl in Heq. injection Heq as -> _. done.
Qed.

Lemma setup_graph_cycle_unvisited_witness :
  ∃ im',
    setup_graph env_ok (impl_of graph_cycle 1 1) None None = (Ok, im')
    ∧ find_next_node (impl_graph im') = None
    ∧ ∀ k nk, g_node_list (impl_graph im') !! k = Some nk →
        (node_visited nk = false
         → has_cycle (g_link_list (impl_graph (impl_of graph_cycle 1 1))))
        ∧ (link_path (g_link_list (impl_graph (impl_of graph_cycle 1 1))) k k
           → node_visited nk = false)
        ∧ (node_visited nk = false →
           ∀ gh i, gh ∈ g_hndl (impl_graph im') → gh_hndl gh ≠ Handle k i).
Proof.
  destruct (setup_graph_cycle_unvisited env_ok (impl_of graph_cycle 1 1) None None
           1 1 1
           (instantiate_nodes env_ok 1 graph_cycle).2
           (bind_ports 1 None None
              (graph_set_output []
                 (graph_set_input []
                    (instantiate_nodes env_ok 1 graph_cycle).2))).2)
    as (im' & Hok & Hplan).
  - apply bs_parse_link, bs_parse_link, bs_load_node, bs_load_node, bs_empty.
  - vm_compute. reflexivity.
  - vm_compute. reflexivity.
  - vm_compute. reflexivity.
  - vm_compute. reflexivity.
  - exists im'. split; [exact Hok|]. apply Hplan. intros q i. reflexivity.
Defined.

(** * Further properties *)

(** ** Links of the builder: no duplicates, and [link_free] undoes
    [parse_link] *)

Lemma single_input_NoDup (ls : list link) :
  (∀ q, (length (links_at_input q ls) ≤ 1)%nat) → NoDup (l_input <$> ls).
Proof.
  induction ls as [|x ls IH]; intros Hs; [constructor|].
  rewrite fmap_cons. apply NoDup_cons. split.
  - intros (y & Hy & Hin)%list_elem_of_fmap.
    specialize (Hs (l_input x)). unfold links_at_input in Hs.
    rewrite filter_cons_True in Hs by done. simpl in Hs.
    assert (y ∈ filter (λ l, l_input l = l_input x) ls) as Hf
      by (by apply list_elem_of_filter).
    destruct (filter _ ls); [by apply elem_of_nil in Hf|simpl in Hs; lia].
  - apply IH. intros q. specialize (Hs q). unfold links_at_input in *.
    rewrite filter_cons in Hs. case_decide; simpl in Hs; lia.
Qed.

Lemma remove_link_snoc l ls : l ∉ ls → remove_link l (ls ++ [l]) = ls.
Proof.
  induction ls as [|x ls IH]; intros Hl; simpl.
  - by rewrite decide_True.
  - rewrite decide_False.
    + f_equal. apply IH. intros ?. apply Hl. by right.
    + intros ->. apply Hl. by left.
Qed.

Lemma port_del_add_link l pt :
  l ∉ port_link_list pt → 0 ≤ port_n_links pt < 2 ^ 32 →
  port_del_link l (port_add_link l pt) = pt.
Proof.
  intros Hl Hn. unfold port_del_link, port_add_link, port_set_links. simpl.
  rewrite remove_link_snoc by done.
  rewrite wrap32_pred. replace (port_n_links pt + 1 - 1) with (port_n_links pt) by lia.
  rewrite wrap32_small by done. by destruct pt.
Qed.

Lemma wrap32_range a : 0 ≤ wrap32 a < 2 ^ 32.
Proof. unfold wrap32. apply Z.mod_pos_bound. lia. Qed.

Lemma alter_commute {A} (f g : A → A) a b (l : list A) :
  (∀ x, f (g x) = g (f x)) → alter f a (alter g b l) = alter g b (alter f a l).
Proof.
  intros Hfg. destruct (decide (a = b)) as [->|Hab].
  - rewrite !list_alter_alter_eq. apply list_alter_ext; [|done].
    intros x _. apply Hfg.
  - by apply list_alter_alter_ne.
Qed.

(** Updates of different fields of the nodes commute; two updates of one
    port are one update; an update that changes nothing can go. *)
Lemma upd_output_input f g q r nodes :
  upd_output_port f q (upd_input_port g r nodes)
  = upd_input_port g r (upd_output_port f q nodes).
Proof. by apply alter_commute. Qed.

Lemma upd_output_n_deps f F q k nodes :
  upd_output_port f q (upd_n_deps F k nodes)
  = upd_n_deps F k (upd_output_port f q nodes).
Proof. by apply alter_commute. Qed.

Lemma upd_input_n_deps f F q k nodes :
  upd_input_port f q (upd_n_deps F k nodes)
  = upd_n_deps F k (upd_input_port f q nodes).
Proof. by apply alter_commute. Qed.

Lemma upd_input_same f g q nodes pt :
  input_port_at nodes q = Some pt → f (g pt) = pt →
  upd_input_port f q (upd_input_port g q nodes) = nodes.
Proof.
  intros Hq Hf. unfold upd_input_port, input_port_at in *.
  rewrite list_alter_alter_eq. apply alter_same. intros n Hn.
  rewrite Hn in Hq. simpl in *. rewrite list_alter_alter_eq.
  rewrite alter_same; [by destruct n|].
  intros x Hx. rewrite Hq in Hx. by injection Hx as <-.
Qed.

Lemma upd_output_same f g q nodes pt :
  output_port_at nodes q = Some pt → f (g pt) = pt →
  upd_output_port f q (upd_output_port g q nodes) = nodes.
Proof.
  intros Hq Hf. unfold upd_output_port, output_port_at in *.
  rewrite list_alter_alter_eq. apply alter_same. intros n Hn.
  rewrite Hn in Hq. simpl in *. rewrite list_alter_alter_eq.
  rewrite alter_same; [by destruct n|].
  intros x Hx. rewrite Hq in Hx. by injection Hx as <-.
Qed.

Lemma upd_n_deps_same F G k nodes :
  (∀ d, n_deps_at nodes k = Some d → F (G d) = d) →
  upd_n_deps F k (upd_n_deps G k nodes) = nodes.
Proof.
  intros Hd. unfold upd_n_deps, n_deps_at in *.
  rewrite list_alter_alter_eq. apply alter_same. intros n Hn.
  rewrite Hn in Hd. simpl in *. rewrite Hd by done. by destruct n.
Qed.

Lemma link_free_link_ports g o i pti :
  builder_inv g →
  is_Some (output_port_at (g_node_list g) o) →
  input_port_at (g_node_list g) i = Some pti →
  (0 <? port_n_links pti) = false →
  link_free (Link o i) (link_ports g o i) = g.
Proof.
  intros [Hval Hout Hin Hsingle Hctl Hdeps] [pto Ho] Hi Hn.
  destruct (Hin i pti Hi) as [Hil Hic]. destruct (Hout o pto Ho) as [Hol Hoc].
  assert (links_at_input i (g_link_list g) = []) as Hnil.
  { specialize (Hsingle i). apply Z.ltb_ge in Hn. rewrite Hic in Hn.
    destruct (links_at_input i (g_link_list g)) as [|x [|y r]]; [done| |simpl in *; lia].
    by vm_compute in Hn. }
  assert (Link o i ∉ g_link_list g) as Hnew.
  { intros Hl. assert (Link o i ∈ links_at_input i (g_link_list g)) as Hf
      by (by apply list_elem_of_filter).
    rewrite Hnil in Hf. by apply elem_of_nil in Hf. }
  assert (port_del_link (Link o i) (port_add_link (Link o i) pti) = pti) as Hpi.
  { apply port_del_add_link; [|rewrite Hic; apply wrap32_range].
    rewrite Hil, Hnil. apply not_elem_of_nil. }
  assert (port_del_link (Link o i) (port_add_link (Link o i) pto) = pto) as Hpo.
  { apply port_del_add_link; [|rewrite Hoc; apply wrap32_range].
    rewrite Hol. by intros [_ ?]%list_elem_of_filter. }
  unfold link_free, link_ports. simpl. rewrite remove_link_snoc by done.
  rewrite upd_output_n_deps, upd_output_input, upd_output_n_deps, upd_output_input.
  rewrite (upd_output_same _ _ o _ pto) by done.
  rewrite upd_input_n_deps, (upd_input_same _ _ i _ pti) by done.
  rewrite upd_n_deps_same; [by destruct g|].
  intros d Hd%Hdeps. rewrite wrap32_pred.
  replace (d + 1 - 1) with d by lia. rewrite Hd. unfold wrap32. by rewrite Zmod_mod.
Qed.

(** X1. In every graph of the builder the links are pairwise distinct,
    and no two of them end in the same input port: a link is known by
    its two ends. *)
Theorem builder_links_distinct (g : graph) :
  builder_state g →
  NoDup (g_link_list g)
  ∧ ∀ l l', l ∈ g_link_list g → l' ∈ g_link_list g →
            l_input l = l_input l' → l = l'.
Proof.
  intros Hg%builder_state_inv.
  pose proof (single_input_NoDup _ (bi_single _ Hg)) as Hnd.
  split; [by eapply NoDup_fmap_1|].
  intros l l' Hl Hl' Heq.
  apply list_elem_of_lookup in Hl as [a Ha]. apply list_elem_of_lookup in Hl' as [b Hb].
  assert (a = b) as ->; [|congruence].
  apply (NoDup_lookup _ a b (l_input l) Hnd);
    rewrite list_lookup_fmap; [by rewrite Ha|by rewrite Hb, Heq].
Qed.

Lemma builder_links_distinct_witness :
  NoDup (g_link_list graph_cycle).
Proof.
  apply (builder_links_distinct graph_cycle).
  apply bs_parse_link, bs_parse_link, bs_load_node, bs_load_node, bs_empty.
Defined.

(** X2. [link_free] undoes [parse_link]: after a successful [parse_link]
    on a graph of the builder the new link is the last of the list, and
    freeing it gives back the graph as it was, counters included. *)
Theorem link_free_parse_link (alloc_ok : bool) (g g' : graph)
        (json : list (string * jvalue)) :
  builder_state g →
  parse_link alloc_ok g json = (Ok, g') →
  ∃ l, g_link_list g' = g_link_list g ++ [l] ∧ link_free l g' = g.
Proof.
  intros Hg%builder_state_inv. unfold parse_link.
  destruct (g_node_list g) as [|n0 ns] eqn:Hnl; [done|]. rewrite <-Hnl.
  destruct (parse_link_keys json "" "") as [[output input]|]; [|done].
  destruct (find_port g (first_node g) output FC_PORT_OUTPUT) as [o|] eqn:Ho; [|done].
  destruct (find_port g (last_node g) input FC_PORT_INPUT) as [i|]; [|done].
  destruct (input_port_at _ i) as [pt|] eqn:Hi; [|done].
  destruct (0 <? port_n_links pt) eqn:Hn; [done|].
  destruct alloc_ok; [|done]. intros [= <-].
  exists (Link o i). split; [done|].
  apply find_port_output in Ho. by eapply link_free_link_ports.
Qed.

Lemma link_free_parse_link_witness :
  ∃ l, g_link_list graph_a_to_b = g_link_list graph_a_b ++ [l]
       ∧ link_free l graph_a_to_b = graph_a_b.
Proof.
  apply (link_free_parse_link true graph_a_b graph_a_to_b
           (link_json "a:Out" "b:In")).
  - apply bs_load_node, bs_load_node, bs_empty.
  - reflexivity.
Defined.

(** ** Teardown *)

Lemma free_links_builder_state fuel g :
  builder_state g → builder_state (free_links fuel g).
Proof.
  revert g. induction fuel as [|fuel IH]; intros g Hg; [done|].
  simpl. destruct (g_link_list g) as [|l ls] eqn:Hls; [done|].
  apply IH, bs_link_free; [done|]. rewrite Hls. by left.
Qed.

Lemma free_links_empty fuel g :
  (length (g_link_list g) ≤ fuel)%nat → g_link_list (free_links fuel g) = [].
Proof.
  revert g. induction fuel as [|fuel IH]; intros g Hlen; simpl.
  - destruct (g_link_list g); [done|simpl in Hlen; lia].
  - destruct (g_link_list g) as [|l ls] eqn:Hls; [done|].
    apply IH. unfold link_free. simpl. rewrite Hls. simpl.
    rewrite decide_True by done. simpl in Hlen. lia.
Qed.

(** What [link_free] leaves alone in the nodes. *)
Definition node_plugin (n : node) := (node_name n, node_desc n, node_hndl n).

Lemma link_free_plugin l g :
  node_plugin <$> g_node_list (link_free l g) = node_plugin <$> g_node_list g
  ∧ g_calls (link_free l g) = g_calls g.
Proof.
  unfold link_free, upd_output_port, upd_input_port, upd_n_deps. simpl.
  by rewrite !(fmap_alter_same node_plugin).
Qed.

Lemma free_links_plugin fuel g :
  node_plugin <$> g_node_list (free_links fuel g) = node_plugin <$> g_node_list g
  ∧ g_calls (free_links fuel g) = g_calls g.
Proof.
  revert g. induction fuel as [|fuel IH]; intros g; [done|].
  simpl. destruct (g_link_list g) as [|l ls]; [done|].
  destruct (IH (link_free l g)) as [-> ->]. apply link_free_plugin.
Qed.

(** X3. Freeing the links one by one, as [graph_free] does, empties the
    link list of a graph of the builder and brings every counter back to
    zero: no node has a dependency left and no port a link. *)
Theorem free_links_counters (g : graph) :
  builder_state g →
  let g' := free_links (length (g_link_list g)) g in
  g_link_list g' = []
  ∧ length (g_node_list g') = length (g_node_list g)
  ∧ ∀ k n, g_node_list g' !! k = Some n →
      node_n_deps n = 0
      ∧ ∀ pt, pt ∈ node_input_port n ++ node_output_port n
                   ++ node_control_port n ++ node_notify_port n →
              port_n_links pt = 0 ∧ port_link_list pt = [].
Proof.
  intros Hg g'.
  pose proof (free_links_empty (length (g_link_list g)) g (le_n _)) as Hnil.
  fold g' in Hnil.
  pose proof (builder_state_inv _ (free_links_builder_state
                                     (length (g_link_list g)) g Hg)) as Hinv.
  fold g' in Hinv. destruct Hinv as [_ Hout Hin _ Hctl Hdeps].
  rewrite Hnil in Hout, Hin, Hdeps.
  split; [done|]. split.
  { destruct (free_links_plugin (length (g_link_list g)) g) as [Hp _].
    fold g' in Hp. apply (f_equal length) in Hp. by rewrite !length_fmap in Hp. }
  intros k n Hn. split.
  - apply (Hdeps k). unfold n_deps_at. by rewrite Hn.
  - intros pt Hpt. rewrite !elem_of_app in Hpt.
    destruct Hpt as [Hpt|[Hpt|[Hpt|Hpt]]];
      apply list_elem_of_lookup in Hpt as [j Hj].
    + destruct (Hin (PortRef k j) pt) as [-> ->]; [|done].
      unfold input_port_at. simpl. by rewrite Hn.
    + destruct (Hout (PortRef k j) pt) as [-> ->]; [|done].
      unfold output_port_at. simpl. by rewrite Hn.
    + destruct (Hctl (PortRef k j) pt) as [-> ->]; [|done]. left.
      unfold control_port_at. simpl. by rewrite Hn.
    + destruct (Hctl (PortRef k j) pt) as [-> ->]; [|done]. right.
      unfold notify_port_at. simpl. by rewrite Hn.
Qed.

Lemma free_links_counters_witness :
  g_link_list (free_links (length (g_link_list graph_cycle)) graph_cycle) = [].
Proof.
  apply (free_links_counters graph_cycle).
  apply bs_parse_link, bs_parse_link, bs_load_node, bs_load_node, bs_empty.
Defined.

Lemma free_nodes_spec fuel g :
  (length (g_node_list g) ≤ fuel)%nat →
  g_node_list (free_nodes fuel g) = []
  ∧ g_link_list (free_nodes fuel g) = g_link_list g
  ∧ g_calls (free_nodes fuel g)
    = g_calls g ++ (n ← g_node_list g; node_free_calls n).
Proof.
  revert g. induction fuel as [|fuel IH]; intros g Hlen; simpl.
  - destruct (g_node_list g); [|simpl in Hlen; lia]. by rewrite app_nil_r.
  - destruct (g_node_list g) as [|n ns] eqn:Hns; [by rewrite Hns, app_nil_r|].
    unfold node_free. rewrite Hns. simpl.
    destruct (IH (graph_log (node_free_calls n) (graph_set_nodes ns g)))
      as (-> & -> & ->); [simpl in *; lia|].
    simpl. by rewrite <-app_assoc.
Qed.

Lemma node_free_calls_plugin n1 n2 :
  node_plugin n1 = node_plugin n2 → node_free_calls n1 = node_free_calls n2.
Proof. intros [= _ Hd Hh]. unfold node_free_calls. by rewrite Hd, Hh. Qed.

Lemma node_free_calls_bind (l1 l2 : list node) :
  node_plugin <$> l1 = node_plugin <$> l2 →
  l1 ≫= node_free_calls = l2 ≫= node_free_calls.
Proof.
  revert l2. induction l1 as [|n1 l1 IH]; intros [|n2 l2]; try done.
  rewrite !fmap_cons. intros [= Hn1 Hd Hh Hr].
  rewrite !bind_cons. f_equal; [|by apply IH].
  apply node_free_calls_plugin. unfold node_plugin. congruence.
Qed.

Lemma graph_free_calls (g : graph) :
  g_calls (graph_free g) = g_calls g ++ (g_node_list g ≫= node_free_calls).
Proof.
  unfold graph_free.
  set (g1 := free_links (length (g_link_list g)) g).
  destruct (free_nodes_spec (length (g_node_list g1)) g1 (le_n _)) as (_ & _ & Hc).
  destruct (free_links_plugin (length (g_link_list g)) g) as [Hp Hc1]. fold g1 in Hp, Hc1.
  rewrite Hc, Hc1. f_equal. by apply node_free_calls_bind.
Qed.

(** X4. [graph_free] comes to an end with no link and no node left, and
    its plugin calls are, node by node in list order, one [cleanup] for
    every instance a node still holds, each after a [deactivate] where
    the plugin has that hook. *)
Theorem graph_free_empty (g : graph) :
  g_link_list (graph_free g) = []
  ∧ g_node_list (graph_free g) = []
  ∧ g_calls (graph_free g)
    = g_calls g ++ (n ← g_node_list g;
                    h ← node_hndl n;
                    (if fc_deactivate (d_desc (node_desc n))
                     then [EvDeactivate h] else []) ++ [EvCleanup h]).
Proof.
  split; [|split].
  - unfold graph_free.
    set (g1 := free_links (length (g_link_list g)) g).
    destruct (free_nodes_spec (length (g_node_list g1)) g1 (le_n _)) as (_ & -> & _).
    by apply free_links_empty.
  - unfold graph_free.
    set (g1 := free_links (length (g_link_list g)) g).
    by destruct (free_nodes_spec (length (g_node_list g1)) g1 (le_n _)) as (-> & _).
  - apply graph_free_calls.
Qed.

(** ** The port arrays of a descriptor *)

Lemma ports_where_shift (sel : Z → bool) (ports : list fc_port) (k : nat) :
  omap (λ '(p, fp), if sel (fp_flags fp) then Some p else None)
       (imap (λ (p : nat) (fp : fc_port), ((k + p)%nat, fp)) ports)
  = (λ p, (k + p)%nat) <$> ports_where sel ports.
Proof.
  unfold ports_where. revert k. induction ports as [|x l IH]; intros k; [done|].
  rewrite !imap_cons. cbn [omap list_omap].
  rewrite (imap_ext _ (λ p fp, ((S k + p)%nat, fp)) l) by (intros; simpl; f_equal; lia).
  rewrite (imap_ext ((λ p fp, (p, fp)) ∘ S) (λ p fp, ((1 + p)%nat, fp)) l) by done.
  rewrite (IH (S k)), (IH 1%nat).
  destruct (sel (fp_flags x)); rewrite ?fmap_cons, <-list_fmap_compose.
  - f_equal; try lia. apply list_fmap_ext. intros ? p ?. simpl. lia.
  - apply list_fmap_ext. intros ? p ?. simpl. lia.
Qed.

Lemma ports_where_cons sel fp ports :
  ports_where sel (fp :: ports)
  = (if sel (fp_flags fp) then [0%nat] else []) ++ (S <$> ports_where sel ports).
Proof.
  unfold ports_where at 1. rewrite imap_cons. cbn [omap list_omap].
  rewrite (imap_ext ((λ p fp0, (p, fp0)) ∘ S) (λ p fp0, ((1 + p)%nat, fp0)) ports) by done.
  rewrite ports_where_shift. by destruct (sel (fp_flags fp)).
Qed.

Lemma elem_of_ports_where sel ports p :
  p ∈ ports_where sel ports
  ↔ ∃ fp, ports !! p = Some fp ∧ sel (fp_flags fp) = true.
Proof.
  revert p. induction ports as [|x l IH]; intros p.
  - split; [by intros ?%elem_of_nil|by intros (? & ? & _)].
  - rewrite ports_where_cons, elem_of_app, list_elem_of_fmap. split.
    + intros [Hp|(q & -> & Hq)].
      * destruct (sel (fp_flags x)) eqn:Hx; [|by apply elem_of_nil in Hp].
        apply list_elem_of_singleton in Hp as ->. by exists x.
      * apply IH in Hq as (fp & Hfp & Hs). by exists fp.
    + intros (fp & Hfp & Hs). destruct p as [|p]; simpl in Hfp.
      * injection Hfp as ->. left. rewrite Hs. by left.
      * right. exists p. split; [done|]. apply IH. by exists fp.
Qed.

(** The arrays are filled in the order of the port numbers. *)
Definition increasing (l : list nat) : Prop :=
  ∀ i j a b, (i < j)%nat → l !! i = Some a → l !! j = Some b → (a < b)%nat.

Lemma ports_where_increasing sel ports : increasing (ports_where sel ports).
Proof.
  induction ports as [|x l IH]; [by intros i j a b _ ?|].
  rewrite ports_where_cons. intros i j a b Hij Ha Hb.
  destruct (sel (fp_flags x)); simpl in *.
  - destruct j as [|j]; [lia|]. simpl in Hb. rewrite list_lookup_fmap in Hb.
    destruct (ports_where sel l !! j) as [b'|] eqn:Hb'; [|done].
    injection Hb as <-. destruct i as [|i]; simpl in Ha.
    + injection Ha as <-. lia.
    + rewrite list_lookup_fmap in Ha.
      destruct (ports_where sel l !! i) as [a'|] eqn:Ha'; [|done].
      injection Ha as <-. assert (a' < b')%nat; [|lia].
      apply (IH i j); [lia|done..].
  - rewrite list_lookup_fmap in Ha, Hb.
    destruct (ports_where sel l !! i) as [a'|] eqn:Ha'; [|done].
    destruct (ports_where sel l !! j) as [b'|] eqn:Hb'; [|done].
    injection Ha as <-. injection Hb as <-.
    assert (a' < b')%nat; [|lia]. by apply (IH i j).
Qed.

(** X5. [descriptor_load] sorts the ports of a plugin by their flags:
    a port number is in [input], [output], [control] or [notify] exactly
    when the port is an audio input, an audio output, a control input or
    a control output (an audio port is never taken for a control port,
    nor an input for an output), each array is in the order of the port
    numbers, and [default_control] holds the default of each control.
    It fails, with [ENOTSUP], exactly when the plugin has no audio
    port. *)
Theorem descriptor_load_classifies (d : fc_descriptor) :
  let flags_at p := fp_flags <$> fc_ports d !! p in
  match descriptor_load d with
  | (Ok, Some desc) =>
      d_desc desc = d
      ∧ (∀ p, p ∈ d_input desc ↔
              ∃ f, flags_at p = Some f
                   ∧ FC_IS_PORT_AUDIO f = true ∧ FC_IS_PORT_INPUT f = true)
      ∧ (∀ p, p ∈ d_output desc ↔
              ∃ f, flags_at p = Some f
                   ∧ FC_IS_PORT_AUDIO f = true ∧ FC_IS_PORT_INPUT f = false
                   ∧ FC_IS_PORT_OUTPUT f = true)
      ∧ (∀ p, p ∈ d_control desc ↔
              ∃ f, flags_at p = Some f
                   ∧ FC_IS_PORT_AUDIO f = false ∧ FC_IS_PORT_CONTROL f = true
                   ∧ FC_IS_PORT_INPUT f = true)
      ∧ (∀ p, p ∈ d_notify desc ↔
              ∃ f, flags_at p = Some f
                   ∧ FC_IS_PORT_AUDIO f = false ∧ FC_IS_PORT_CONTROL f = true
                   ∧ FC_IS_PORT_INPUT f = false ∧ FC_IS_PORT_OUTPUT f = true)
      ∧ increasing (d_input desc) ∧ increasing (d_output desc)
      ∧ increasing (d_control desc) ∧ increasing (d_notify desc)
      ∧ d_default_control desc
        = (λ p, default f32_zero (fp_def <$> fc_ports d !! p)) <$> d_control desc
      ∧ (d_input desc ≠ [] ∨ d_output desc ≠ [])
  | (r, _) =>
      r = Err ENOTSUP
      ∧ ∀ p f, flags_at p = Some f → FC_IS_PORT_AUDIO f = true →
               FC_IS_PORT_INPUT f = false ∧ FC_IS_PORT_OUTPUT f = false
  end.
Proof.
  intros flags_at. unfold descriptor_load.
  assert (∀ sel p, p ∈ ports_where sel (fc_ports d)
                   ↔ ∃ f, flags_at p = Some f ∧ sel f = true) as Hel.
  { intros sel p. rewrite elem_of_ports_where. unfold flags_at. split.
    - intros (fp & -> & Hs). by exists (fp_flags fp).
    - intros (f & Hf & Hs). destruct (fc_ports d !! p) as [fp|]; [|done].
      injection Hf as <-. by exists fp. }
  destruct ((length (ports_where is_audio_in (fc_ports d)) =? 0)%nat
            && (length (ports_where is_audio_out (fc_ports d)) =? 0)%nat) eqn:Hz.
  - split; [done|]. intros p f Hf Ha.
    apply andb_prop in Hz as [Hi%Nat.eqb_eq%length_zero_iff_nil
                                Ho%Nat.eqb_eq%length_zero_iff_nil].
    destruct (FC_IS_PORT_INPUT f) eqn:Hin.
    + assert (p ∈ ports_where is_audio_in (fc_ports d)) as Hp.
      { apply Hel. exists f. split; [done|]. unfold is_audio_in. by rewrite Ha, Hin. }
      rewrite Hi in Hp. by apply elem_of_nil in Hp.
    + split; [done|]. destruct (FC_IS_PORT_OUTPUT f) eqn:Hout; [|done].
      assert (p ∈ ports_where is_audio_out (fc_ports d)) as Hp.
      { apply Hel. exists f. split; [done|]. unfold is_audio_out.
        by rewrite Ha, Hin, Hout. }
      rewrite Ho in Hp. by apply elem_of_nil in Hp.
  - simpl. split; [done|].
    split. { intros p. rewrite Hel. unfold is_audio_in.
             setoid_rewrite andb_true_iff. done. }
    split. { intros p. rewrite Hel. unfold is_audio_out.
             setoid_rewrite andb_true_iff. setoid_rewrite andb_true_iff.
             setoid_rewrite negb_true_iff.
             split; intros (f & Hf & H); exists f; (split; [done|tauto]). }
    split. { intros p. rewrite Hel. unfold is_control_in.
             setoid_rewrite andb_true_iff. setoid_rewrite andb_true_iff.
             setoid_rewrite negb_true_iff.
             split; intros (f & Hf & H); exists f; (split; [done|tauto]). }
    split. { intros p. rewrite Hel. unfold is_control_out.
             do 3 setoid_rewrite andb_true_iff.
             setoid_rewrite negb_true_iff.
             split; intros (f & Hf & H); exists f; (split; [done|tauto]). }
    do 4 (split; [apply ports_where_increasing|]).
    split; [done|].
    apply andb_false_iff in Hz as [Hz|Hz]; apply Nat.eqb_neq in Hz;
      [left|right]; intros Hnil; by rewrite Hnil in Hz.
Qed.

(** ** What [find_port] finds *)

(** The test of the loop of [find_port] for the port [pt] at position
    [i]: the index asked for, or the name. *)
Definition port_id_of (port_name : string) : Z :=
  default SPA_ID_INVALID (spa_atou32 port_name).

Definition port_matches (d : descriptor) (port_name : string) (i : nat)
           (pt : port) : Prop :=
  Z.of_nat i = port_id_of port_name
  ∨ port_name_of d (port_p pt) = Some port_name.

Lemma find_port_scan_spec d ports port_name i0 i :
  find_port_scan d ports (port_id_of port_name) port_name i0 = Some i
  ↔ ∃ j pt, i = (i0 + j)%nat ∧ ports !! j = Some pt
            ∧ port_matches d port_name (i0 + j) pt
            ∧ ∀ j' pt', (j' < j)%nat → ports !! j' = Some pt' →
                        ¬ port_matches d port_name (i0 + j') pt'.
Proof.
  revert i0. induction ports as [|pt ports IH]; intros i0; simpl.
  { split; [done|]. by intros (j & pt & _ & ? & _). }
  assert (((Z.of_nat i0 =? port_id_of port_name)
           || match port_name_of d (port_p pt) with
              | Some nm => spa_streq nm port_name
              | None => false
              end) = true ↔ port_matches d port_name i0 pt) as Hm.
  { unfold port_matches, spa_streq. rewrite orb_true_iff, Z.eqb_eq.
    destruct (port_name_of d (port_p pt)) as [nm|].
    - rewrite String.eqb_eq. split; (intros [?|?]; [by left|right; congruence]).
    - split; (intros [?|?]; [by left|done]). }
  destruct (_ || _) eqn:Hb.
  - apply proj1 in Hm. specialize (Hm eq_refl). split.
    + intros [= <-]. exists 0%nat, pt. rewrite Nat.add_0_r.
      split; [done|]. split; [done|]. split; [done|]. intros j' pt' Hj. lia.
    + intros (j & pt' & -> & Hj & Hmj & Hfirst). destruct j as [|j].
      * by rewrite Nat.add_0_r.
      * destruct (Hfirst 0%nat pt); [lia|done|]. by rewrite Nat.add_0_r.
  - assert (¬ port_matches d port_name i0 pt) as Hno.
    { intros H%Hm. done. }
    rewrite IH. split.
    + intros (j & pt' & -> & Hj & Hmj & Hfirst). exists (S j), pt'.
      replace (i0 + S j)%nat with (S i0 + j)%nat by lia.
      split; [done|]. split; [done|]. split; [done|].
      intros [|j'] pt'' Hlt Hj'; simpl in Hj'.
      * injection Hj' as <-. by rewrite Nat.add_0_r.
      * replace (i0 + S j')%nat with (S i0 + j')%nat by lia.
        apply (Hfirst j' pt''); [lia|done].
    + intros (j & pt' & -> & Hj & Hmj & Hfirst). destruct j as [|j].
      * simpl in Hj. injection Hj as <-. by rewrite Nat.add_0_r in Hmj.
      * exists j, pt'. replace (S i0 + j)%nat with (i0 + S j)%nat by lia.
        split; [done|]. split; [done|]. split; [done|].
        intros j' pt'' Hlt Hj'.
        replace (S i0 + j')%nat with (i0 + S j')%nat by lia.
        apply (Hfirst (S j') pt''); [lia|done].
Qed.

Lemma find_node_from_spec nodes name k0 k :
  find_node_from nodes name k0 = Some k
  ↔ ∃ j n, k = (k0 + j)%nat ∧ nodes !! j = Some n ∧ node_name n = name
           ∧ ∀ j' n', (j' < j)%nat → nodes !! j' = Some n' → node_name n' ≠ name.
Proof.
  revert k0. induction nodes as [|n nodes IH]; intros k0; simpl.
  { split; [done|]. by intros (j & n & _ & ? & _). }
  unfold spa_streq. destruct (String.eqb_spec (node_name n) name) as [Heq|Hne].
  - split.
    + intros [= <-]. exists 0%nat, n. rewrite Nat.add_0_r.
      split; [done|]. split; [done|]. split; [done|]. intros j' n' Hj. lia.
    + intros (j & n' & -> & Hj & Hn & Hfirst). destruct j as [|j].
      * by rewrite Nat.add_0_r.
      * by destruct (Hfirst 0%nat n); [lia|done|].
  - rewrite IH. split.
    + intros (j & n' & -> & Hj & Hn & Hfirst). exists (S j), n'.
      split; [lia|]. split; [done|]. split; [done|].
      intros [|j'] n'' Hlt Hj'; simpl in Hj'; [by injection Hj' as <-|].
      apply (Hfirst j' n''); [lia|done].
    + intros (j & n' & -> & Hj & Hn & Hfirst). destruct j as [|j].
      * simpl in Hj. by injection Hj as <-.
      * exists j, n'. split; [lia|]. split; [done|]. split; [done|].
        intros j' n'' Hlt Hj'. apply (Hfirst (S j') n''); [lia|done].
Qed.

Lemma find_port_in_spec g nd port_name descriptor q :
  find_port_in g nd port_name descriptor = Some q
  ↔ ∃ n ports pt,
      nd = Some (pr_node q)
      ∧ g_node_list g !! pr_node q = Some n
      ∧ select_ports n descriptor = Some ports
      ∧ ports !! pr_idx q = Some pt
      ∧ port_matches (node_desc n) port_name (pr_idx q) pt
      ∧ ∀ j pt', (j < pr_idx q)%nat → ports !! j = Some pt' →
                 ¬ port_matches (node_desc n) port_name j pt'.
Proof.
  unfold find_port_in. destruct nd as [k|].
  2:{ split; [done|]. by intros (? & ? & ? & ? & _). }
  destruct (g_node_list g !! k) as [n|] eqn:Hn.
  2:{ split; [done|]. intros (n & ports & pt & [= ->] & Hn' & _). congruence. }
  destruct (select_ports n descriptor) as [ports|] eqn:Hp.
  2:{ split; [done|]. intros (n' & ports & pt & [= ->] & Hn' & Hp' & _). congruence. }
  assert (match spa_atou32 port_name with
          | Some v => v
          | None => SPA_ID_INVALID
          end = port_id_of port_name) as ->
    by (unfold port_id_of; by destruct (spa_atou32 port_name)).
  split.
  - destruct (find_port_scan _ _ _ _ _) as [i|] eqn:Hs; [|done].
    intros [= <-]. simpl.
    apply find_port_scan_spec in Hs as (j & pt & -> & Hj & Hm & Hfirst).
    exists n, ports, pt. simpl in *. by repeat (split; [done|]).
  - intros (n' & ports' & pt & [= ->] & Hn' & Hp' & Hj & Hm & Hfirst).
    rewrite Hn in Hn'. injection Hn' as <-. rewrite Hp in Hp'. injection Hp' as <-.
    assert (find_port_scan (node_desc n) ports (port_id_of port_name) port_name 0
            = Some (pr_idx q)) as ->; [|by destruct q].
    apply find_port_scan_spec. exists (pr_idx q), pt. by repeat (split; [done|]).
Qed.

(** X6. [find_port] returns an existing port of the array that the
    direction and kind select, in the node named before the colon (the
    first node of that name) or else in the default node; the port is the
    first of the array whose position is the number given, or whose
    plugin port has the name given. *)
Theorem find_port_first_match (g : graph) (nd : option nat) (name : string)
        (descriptor : Z) (q : port_ref) :
  find_port g nd name descriptor = Some q →
  ∃ n ports pt port_name,
    g_node_list g !! pr_node q = Some n
    ∧ select_ports n descriptor = Some ports
    ∧ ports !! pr_idx q = Some pt
    ∧ match split_colon name with
      | Some (node_name', port_name') =>
          port_name = port_name' ∧ node_name n = node_name'
          ∧ ∀ k n', (k < pr_node q)%nat → g_node_list g !! k = Some n' →
                    node_name n' ≠ node_name'
      | None => port_name = name ∧ nd = Some (pr_node q)
      end
    ∧ port_matches (node_desc n) port_name (pr_idx q) pt
    ∧ ∀ j pt', (j < pr_idx q)%nat → ports !! j = Some pt' →
               ¬ port_matches (node_desc n) port_name j pt'.
Proof.
  unfold find_port, find_port_upto, find_node.
  rewrite firstn_all.
  destruct (split_colon name) as [[node_name' port_name']|].
  - intros (n & ports & pt & Hnd & Hn & Hp & Hj & Hm & Hfirst)%find_port_in_spec.
    exists n, ports, pt, port_name'. repeat (split; [done|]).
    split; [|by split].
    apply find_node_from_spec in Hnd as (j & n' & Hk & Hj' & Hname & Hfirst').
    simpl in Hk. subst j. rewrite Hn in Hj'. injection Hj' as <-. by split.
  - intros (n & ports & pt & Hnd & Hn & Hp & Hj & Hm & Hfirst)%find_port_in_spec.
    exists n, ports, pt, name. by repeat (split; [done|]).
Qed.

Lemma find_port_first_match_witness :
  ∃ n ports pt port_name,
    g_node_list graph_a_b !! 1%nat = Some n
    ∧ select_ports n FC_PORT_INPUT = Some ports
    ∧ ports !! 0%nat = Some pt
    ∧ (port_name = "In" ∧ node_name n = "b"
       ∧ ∀ k n', (k < 1)%nat → g_node_list graph_a_b !! k = Some n' →
                 node_name n' ≠ "b")
    ∧ port_matches (node_desc n) port_name 0 pt
    ∧ ∀ j pt', (j < 0)%nat → ports !! j = Some pt' →
               ¬ port_matches (node_desc n) port_name j pt'.
Proof.
  apply (find_port_first_match graph_a_b (Some 0%nat) "b:In" FC_PORT_INPUT
           (PortRef 1 0)).
  reflexivity.
Defined.

(** ** The names of the parameter snapshot resolve to their ports *)

Lemma split_colon_append nm pn :
  split_colon nm = None → split_colon (nm +:+ ":" +:+ pn) = Some (nm, pn).
Proof.
  induction nm as [|c nm IH]; simpl; [done|].
  destruct (Ascii.eqb c ":"); [done|].
  destruct (split_colon nm) as [[a b]|] eqn:Hs; [done|].
  intros _. by rewrite IH.
Qed.

(** A string that fits the buffer is not cut. *)
Lemma substring_fits (n : nat) (s : string) :
  (String.length s ≤ n)%nat → String.substring 0 n s = s.
Proof.
  revert n. induction s as [|c s IH]; intros [|n] Hs; simpl in *; try done; try lia.
  f_equal. apply IH. lia.
Qed.

Lemma string_length_app (s1 s2 : string) :
  String.length (s1 +:+ s2) = (String.length s1 + String.length s2)%nat.
Proof. induction s1 as [|c s1 IH]; simpl; [done|]. by rewrite IH. Qed.

(** The name of a control port as [get_props_param] prints it, before
    the cut. *)
Definition full_name (n : node) (fp : fc_port) : string :=
  match node_name n with
  | EmptyString => fp_name fp
  | nm => nm +:+ ":" +:+ fp_name fp
  end.

Lemma full_name_fits n fp :
  (String.length (node_name n) + 1 + String.length (fp_name fp) < 512)%nat →
  String.substring 0 511 (full_name n fp) = full_name n fp.
Proof.
  intros Hlen. apply substring_fits. unfold full_name.
  destruct (node_name n) as [|c nm]; [simpl in *; lia|].
  rewrite !string_length_app. simpl in *. lia.
Qed.

(** X7. The name that [get_props_param] publishes for a control port
    leads [find_port], and so [set_control_value] and [parse_params],
    back to that port, provided that the name fits the 512 bytes of the
    buffer it is printed to, that the node can be found by its name (no
    colon in it and no node of the same name before it; a node without a
    name must be the first node, and its port name must have no colon),
    and that no earlier control port of the node answers to the port
    name, by its name or by its position. *)
Theorem props_entry_name_resolves (g : graph) (q : port_ref) (n : node)
        (pt : port) (fp : fc_port) :
  g_node_list g !! pr_node q = Some n →
  node_control_port n !! pr_idx q = Some pt →
  fc_ports (d_desc (node_desc n)) !! port_p pt = Some fp →
  (String.length (node_name n) + 1 + String.length (fp_name fp) < 512)%nat →
  (if decide (node_name n = "")
   then pr_node q = 0%nat ∧ split_colon (fp_name fp) = None
   else split_colon (node_name n) = None
        ∧ ∀ k n', (k < pr_node q)%nat → g_node_list g !! k = Some n' →
                  node_name n' ≠ node_name n) →
  (∀ j pt', (j < pr_idx q)%nat → node_control_port n !! j = Some pt' →
            ¬ port_matches (node_desc n) (fp_name fp) j pt') →
  ∃ name v,
    props_entry g q = Some (name, v)
    ∧ find_port g (first_node g) name (Z.lor FC_PORT_INPUT FC_PORT_CONTROL)
      = Some q.
Proof.
  intros Hn Hpt Hfp Hlen Hnode Hfirst.
  unfold props_entry. rewrite Hn. simpl. rewrite Hpt. simpl. rewrite Hfp.
  cbn [mbind option_bind]. fold (full_name n fp).
  rewrite (full_name_fits n fp Hlen). unfold full_name.
  eexists _, _. split; [done|].
  assert (find_port_in g (Some (pr_node q)) (fp_name fp)
            (Z.lor FC_PORT_INPUT FC_PORT_CONTROL) = Some q) as Hin.
  { apply find_port_in_spec. exists n, (node_control_port n), pt.
    repeat (split; [done|]). split; [|done].
    right. unfold port_name_of. by rewrite Hfp. }
  unfold find_port, find_port_upto.
  destruct (decide (node_name n = "")) as [Hname|Hname].
  - destruct Hnode as [Hq Hcol]. rewrite Hname. rewrite Hcol.
    unfold first_node. rewrite Hq in Hn, Hin.
    by destruct (g_node_list g).
  - destruct Hnode as [Hcol Hnodes].
    assert (find_node (length (g_node_list g)) g (node_name n)
            = Some (pr_node q)) as Hfind.
    { unfold find_node. rewrite firstn_all. apply find_node_from_spec.
      exists (pr_node q), n. by repeat (split; [done|]). }
    destruct (node_name n) as [|c nm] eqn:Hnm; [done|].
    rewrite split_colon_append by done. by rewrite Hfind.
Qed.

Lemma props_entry_name_resolves_witness :
  ∃ name v,
    props_entry graph_mixer (PortRef 0 1) = Some (name, v)
    ∧ find_port graph_mixer (first_node graph_mixer) name
                (Z.lor FC_PORT_INPUT FC_PORT_CONTROL)
      = Some (PortRef 0 1).
Proof.
  eapply (props_entry_name_resolves graph_mixer (PortRef 0 1)).
  - reflexivity.
  - reflexivity.
  - reflexivity.
  - vm_compute. lia.
  - simpl. split; [reflexivity|]. intros k n' Hk. simpl in Hk. lia.
  - intros j pt' Hj Hpt'. simpl in Hj.
    assert (j = 0%nat) as -> by lia. simpl in Hpt'. injection Hpt' as <-.
    intros [H|H]; vm_compute in H; discriminate H.
Defined.

(** ** What a parameter update can change *)

(** [n'] is [n] but for the values of its controls. *)
Definition port_same_but_value (pt pt' : port) : Prop :=
  port_set_control_data (port_control_data pt) pt' = pt.

Definition node_same_but_controls (n n' : node) : Prop :=
  node_set_control_port (node_control_port n) n' = n
  ∧ Forall2 port_same_but_value (node_control_port n) (node_control_port n').

Definition same_but_controls (g g' : graph) : Prop :=
  graph_set_nodes (g_node_list g) g' = g
  ∧ Forall2 node_same_but_controls (g_node_list g) (g_node_list g').

Lemma port_same_but_value_refl pt : port_same_but_value pt pt.
Proof. by destruct pt. Qed.

Lemma node_same_but_controls_refl n : node_same_but_controls n n.
Proof.
  split; [by destruct n|]. apply Forall2_same_length_lookup_2; [done|].
  intros i x y Hx Hy. rewrite Hx in Hy. injection Hy as <-.
  apply port_same_but_value_refl.
Qed.

Lemma same_but_controls_refl g : same_but_controls g g.
Proof.
  split; [by destruct g|]. apply Forall2_same_length_lookup_2; [done|].
  intros i x y Hx Hy. rewrite Hx in Hy. injection Hy as <-.
  apply node_same_but_controls_refl.
Qed.

Lemma port_same_but_value_set pt pt' v :
  port_same_but_value pt pt' → port_same_but_value pt (port_set_control_data v pt').
Proof. unfold port_same_but_value. by destruct pt'. Qed.

Lemma Forall2_alter_r_weak {A B} (R : A → B → Prop) (f : B → B) l k i :
  Forall2 R l k → (∀ x y, R x y → R x (f y)) → Forall2 R l (alter f i k).
Proof.
  intros H Hf. revert i. induction H as [|x y l k Hxy H IH]; intros i; [constructor|].
  destruct i as [|i]; cbn; constructor; auto; apply IH.
Qed.

Lemma same_but_controls_write g g' q v :
  same_but_controls g g' → same_but_controls g (control_write q v g').
Proof.
  intros [Hg Hn]. split; [by destruct g'|]. simpl. unfold upd_control_port.
  apply Forall2_alter_r_weak; [done|].
  intros n n' [Hn1 Hn2]. split; [by destruct n'|]. simpl.
  apply Forall2_alter_r_weak; [done|]. intros pt pt'. apply port_same_but_value_set.
Qed.

Lemma same_but_controls_writes g g' ws :
  same_but_controls g g' → same_but_controls g (writes ws g').
Proof.
  revert g'. induction ws as [|[q v] ws IH]; intros g' H; [done|].
  simpl. by apply IH, same_but_controls_write.
Qed.

(** X8. A parameter update writes [control_data] and nothing else: after
    [parse_params] the graph has the same links, plan arrays and call
    log, and the same nodes with the same ports, but for the values of
    control ports. *)
Theorem parse_params_only_control_data (g : graph) (pod : spa_pod) :
  let g' := (parse_params g pod).2 in
  graph_set_nodes (g_node_list g) g' = g
  ∧ Forall2 (λ n n',
       node_set_control_port (node_control_port n) n' = n
       ∧ Forall2 (λ pt pt', port_set_control_data (port_control_data pt) pt' = pt)
                 (node_control_port n) (node_control_port n'))
      (g_node_list g) (g_node_list g').
Proof.
  intros g'. subst g'. destruct pod as [items|]; [|apply same_but_controls_refl].
  rewrite parse_params_writes, apply_writes_graph.
  apply same_but_controls_writes, same_but_controls_refl.
Qed.

(** ** Updates that report no change *)

(** [a == b] holds for two zeros of any sign, and otherwise only for a
    value that is not a NaN and itself. *)
Definition is_zero (x : float32) : Prop := ∃ s, x = S754_zero s.

Lemma f32_eqb_true x y :
  f32_eqb x y = true → x = y ∨ (is_zero x ∧ is_zero y).
Proof.
  unfold f32_eqb, SFeqb.
  destruct x as [sx|sx| |sx mx ex], y as [sy|sy| |sy my ey]; simpl; try done;
    try (destruct sx; done); try (destruct sy; done).
  - intros _. right. split; by eexists.
  - destruct sx, sy; try done; by left.
  - destruct sx, sy; try done.
    + destruct (Z.compare_spec ex ey) as [->|?|?]; try done.
      destruct (Pos.compare_cont Eq mx my) eqn:Hc; try done.
      apply Pos.compare_eq in Hc as ->. by left.
    + destruct (Z.compare_spec ex ey) as [->|?|?]; try done.
      destruct (Pos.compare_cont Eq mx my) eqn:Hc; try done.
      apply Pos.compare_eq in Hc as ->. by left.
Qed.

(** The same value, but for the sign of a zero. *)
Definition same_value (a b : option float32) : Prop :=
  a = b ∨ ∃ x y, a = Some x ∧ b = Some y ∧ is_zero x ∧ is_zero y.

Lemma same_value_trans a b c : same_value a b → same_value b c → same_value a c.
Proof.
  intros [->|(x & y & -> & -> & Hx & Hy)] [<-|(x' & y' & Hb & -> & Hx' & Hy')].
  - by left.
  - right. by exists x', y'.
  - right. by exists x, y.
  - right. by exists x, y'.
Qed.

Lemma apply_writes_ge ws g changed :
  changed ≤ (apply_writes ws g changed).1.
Proof.
  revert g changed. induction ws as [|[q v] ws IH]; intros g changed; simpl; [lia|].
  etrans; [|apply IH]. destruct (f32_eqb _ _); lia.
Qed.

Lemma apply_writes_le ws g changed :
  (apply_writes ws g changed).1 ≤ changed + Z.of_nat (length ws).
Proof.
  revert g changed. induction ws as [|[q v] ws IH]; intros g changed; simpl; [lia|].
  etrans; [apply IH|]. destruct (f32_eqb _ _); lia.
Qed.

Lemma apply_writes_unchanged ws g changed r :
  (apply_writes ws g changed).1 = changed →
  same_value (control_data_at g r) (control_data_at (apply_writes ws g changed).2 r).
Proof.
  revert g changed. induction ws as [|[q v] ws IH]; intros g changed; simpl.
  { intros _. by left. }
  intros Hc.
  pose proof (apply_writes_ge ws (control_write q v g)
                (changed + if f32_eqb (default f32_zero (control_data_at g q)) v
                           then 0 else 1)) as Hge.
  destruct (f32_eqb (default f32_zero (control_data_at g q)) v) eqn:Heq; [|lia].
  rewrite Z.add_0_r in *. eapply same_value_trans; [|by apply IH].
  rewrite control_data_write. case_decide as Hr; [|by left]. subst r.
  destruct (control_data_at g q) as [old|]; [|by left]. simpl in *.
  apply f32_eqb_true in Heq as [->|[Hx Hy]]; [by left|].
  right. by exists old, v.
Qed.

Lemma omap_length_le {A B} (f : A → option B) (l : list A) :
  (length (omap f l) ≤ length l)%nat.
Proof.
  induction l as [|x l IH]; [done|]. cbn. destruct (f x); simpl; lia.
Qed.

Lemma pod_commands_length items :
  (length (pod_commands items) ≤ length items)%nat.
Proof.
  remember (length items) as k eqn:Hk.
  revert items Hk. induction k as [k IH] using lt_wf_ind.
  intros [|[name| | | | |] [|v rest]] Hk; simpl in *; try lia.
  assert (length (pod_commands rest) ≤ length rest)%nat
    by (eapply IH; [|reflexivity]; lia).
  destruct v; simpl; lia.
Qed.

(** X9. [parse_params] counts between zero and as many changes as the
    update has names.  When it counts none, every control value is what
    it was, but possibly for the sign of a zero: the comparison
    [old == port->control_data] does not tell [-0.0] from [0.0]. *)
Theorem parse_params_no_change (g : graph) (pod : spa_pod) :
  0 ≤ (parse_params g pod).1
  ∧ (∀ items, pod = PodStruct items →
              (parse_params g pod).1 ≤ Z.of_nat (length items))
  ∧ ((parse_params g pod).1 = 0 →
     ∀ q, control_data_at (parse_params g pod).2 q = control_data_at g q
          ∨ ∃ x y, control_data_at g q = Some x
                   ∧ control_data_at (parse_params g pod).2 q = Some y
                   ∧ is_zero x ∧ is_zero y).
Proof.
  destruct pod as [items|].
  2:{ split; [done|]. split; [done|]. intros _ q. by left. }
  rewrite parse_params_writes.
  set (ws := control_writes g (first_node g) (pod_commands items)).
  split; [apply apply_writes_ge|]. split.
  - intros items' [= <-]. etrans; [apply apply_writes_le|].
    unfold ws, control_writes. pose proof (omap_length_le
      (λ '(name, value), control_target (length (g_node_list g)) g (first_node g)
                           name value) (pod_commands items)).
    pose proof (pod_commands_length items). lia.
  - intros H0 q. destruct (apply_writes_unchanged ws g 0 q H0) as [->|H]; [by left|].
    by right.
Qed.

(** ** The executor and the bounds of the port arrays *)

Lemma process_inputs_None ports ds i st :
  (i ≤ length ports)%nat → (length ports < length ds + i)%nat →
  process_inputs ports ds i st = None.
Proof.
  revert i st. induction ds as [|d ds IH]; intros i st Hi Hlen; simpl in *; [lia|].
  destruct (ports !! i) as [gp|] eqn:Hgp; [|done].
  apply lookup_lt_Some in Hgp. apply IH; lia.
Qed.

Lemma process_outputs_None ports dd i st :
  (i ≤ length ports)%nat → (length ports < length dd + i)%nat →
  process_outputs ports dd i st = None.
Proof.
  revert i st. induction dd as [|d dd IH]; intros i st Hi Hlen; simpl in *; [lia|].
  destruct (ports !! i) as [gp|] eqn:Hgp; [|done].
  apply lookup_lt_Some in Hgp. unfold process_output.
  rewrite IH; [done|lia..].
Qed.

Lemma capture_process_Some_planes (g : graph) (bi bo : pw_buffer) :
  is_Some (capture_process g (Some bi) (Some bo)) →
  (length (datas bi) ≤ length (g_input g))%nat
  ∧ (length (datas bo) ≤ length (g_output g))%nat.
Proof.
  unfold capture_process. intros [calls Hc].
  destruct (decide (length (datas bi) ≤ length (g_input g))%nat) as [Hi|Hi].
  - split; [done|].
    destruct (decide (length (datas bo) ≤ length (g_output g))%nat) as [Ho|Ho];
      [done|].
    destruct (process_inputs _ _ _ _) as [st|]; [|done]. simpl in Hc.
    rewrite process_outputs_None in Hc; [done|lia..].
  - rewrite process_inputs_None in Hc; [done|lia..].
Qed.

Lemma capture_process_planes_Some (g : graph) (bi bo : pw_buffer) :
  (length (datas bi) ≤ length (g_input g))%nat →
  (length (datas bo) ≤ length (g_output g))%nat →
  is_Some (capture_process g (Some bi) (Some bo)).
Proof.
  unfold capture_process. intros Hi Ho.
  destruct (process_inputs_first (g_input g) (datas bi)
              {| ps_outsize := 0; ps_stride := 0; ps_calls := [] |} Hi eq_refl)
    as (st & in_calls & -> & _).
  destruct (process_outputs_spec (g_output g) (datas bo) 0 st)
    as (st' & dd' & out_calls & He & _); [lia|].
  simpl in *. rewrite He. simpl. by eexists.
Qed.

(** ** The chunks of the playback buffer *)

Definition chunk_of (outsize stride : Z) (d d' : spa_data) : Prop :=
  sd_data d' = sd_data d ∧ sd_maxsize d' = sd_maxsize d
  ∧ chunk_offset (sd_chunk d') = 0
  ∧ chunk_stride (sd_chunk d') = stride
  ∧ outsize ≤ chunk_size (sd_chunk d') ≤ sd_maxsize d.

Lemma process_outputs_chunks ports dd i st st' dd' :
  process_outputs ports dd i st = Some (st', dd') →
  ps_outsize st' ≤ ps_outsize st
  ∧ Forall2 (chunk_of (ps_outsize st') (ps_stride st)) dd dd'
  ∧ (∀ d', d' ∈ dd' → chunk_size (sd_chunk d') ≤ ps_outsize st)
  ∧ (∀ j k a b, (j ≤ k)%nat → dd' !! j = Some a → dd' !! k = Some b →
                chunk_size (sd_chunk b) ≤ chunk_size (sd_chunk a))
  ∧ (∀ d', last dd' = Some d' → chunk_size (sd_chunk d') = ps_outsize st').
Proof.
  revert i st st' dd'. induction dd as [|d dd IH]; intros i st st' dd'; simpl.
  { intros [= <- <-]. split; [lia|]. split; [constructor|].
    split; [by intros ? ?%elem_of_nil|]. split; [by intros ?????|done]. }
  destruct (ports !! i) as [gp|]; [|done]. unfold process_output.
  destruct (process_outputs ports dd (S i) _) as [[st'' rest']|] eqn:Hrest; [|done].
  intros [= <- <-]. pose proof (IH _ _ _ _ Hrest) as (Hle & Hf & Hub & Hmono & Hlast).
  simpl in *. split; [lia|]. split.
  { constructor; [|done]. unfold chunk_of. simpl. repeat (split; [done|]). lia. }
  split.
  { intros d' [->|Hd']%elem_of_cons; simpl; [lia|]. specialize (Hub d' Hd'). lia. }
  split.
  { intros [|j] [|k] a b Hjk Ha Hb; simpl in *.
    - injection Ha as <-. injection Hb as <-. lia.
    - injection Ha as <-. simpl.
      apply (Hub b). by eapply list_elem_of_lookup_2.
    - lia.
    - apply (Hmono j k); [lia|done..]. }
  intros d'. destruct rest' as [|r rest''].
  - simpl. intros [= <-]. simpl.
    apply Forall2_nil_inv_r in Hf as ->. simpl in Hrest. by injection Hrest as <-.
  - rewrite last_cons_cons. apply Hlast.
Qed.

Lemma process_inputs_stride ports ds i st st' :
  process_inputs ports ds i st = Some st' →
  ps_stride st'
  = foldl (λ a d, Z.max a (chunk_stride (sd_chunk d))) (ps_stride st) ds.
Proof.
  revert i st. induction ds as [|d ds IH]; intros i st; simpl.
  - by intros [= <-].
  - destruct (ports !! i) as [gp|]; [|done]. intros H%IH. by rewrite H.
Qed.

(** The three parts of a period in which both buffers were there. *)
Lemma capture_process_Some g bi bo calls :
  capture_process g (Some bi) (Some bo) = Some calls →
  ∃ st st' dd',
    process_inputs (g_input g) (datas bi) 0
      {| ps_outsize := 0; ps_stride := 0; ps_calls := [] |} = Some st
    ∧ process_outputs (g_output g) (datas bo) 0 st = Some (st', dd')
    ∧ calls = ps_calls st' ++ run_handles (g_hndl g) (ps_outsize st')
              ++ [EvQueue Capture bi; EvQueue Playback {| datas := dd' |};
                  EvTrigger Playback].
Proof.
  unfold capture_process.
  destruct (process_inputs _ _ _ _) as [st|]; [|done]. simpl.
  destruct (process_outputs _ _ _ _) as [[st' dd']|] eqn:Ho; [|done]. simpl.
  intros [= <-]. by exists st, st', dd'.
Qed.

(** X11. The playback buffer that a period queues has, plane by plane,
    the data pointer and [maxsize] of the buffer dequeued; every chunk
    has offset 0, the largest stride of the capture chunks (at least 0)
    and a size no larger than the plane; the sizes do not grow from one
    plane to the next, and the size of the last plane is the byte count
    the instances were run with, so that an earlier plane can announce
    more bytes than were produced. *)
Theorem capture_process_output_chunks (g : graph) (bi bo : pw_buffer)
        (calls : list event) :
  capture_process g (Some bi) (Some bo) = Some calls →
  ∃ outsize dd' plugin_calls,
    calls = plugin_calls
            ++ ((λ h, EvRun (gh_hndl h) (outsize / sizeof_float)) <$> g_hndl g)
            ++ [EvQueue Capture bi; EvQueue Playback {| datas := dd' |};
                EvTrigger Playback]
    ∧ Forall2 (λ d d',
         sd_data d' = sd_data d ∧ sd_maxsize d' = sd_maxsize d
         ∧ chunk_offset (sd_chunk d') = 0
         ∧ chunk_stride (sd_chunk d')
           = foldl (λ a ds, Z.max a (chunk_stride (sd_chunk ds))) 0 (datas bi)
         ∧ outsize ≤ chunk_size (sd_chunk d') ≤ sd_maxsize d)
        (datas bo) dd'
    ∧ (∀ j k a b, (j ≤ k)%nat → dd' !! j = Some a → dd' !! k = Some b →
                  chunk_size (sd_chunk b) ≤ chunk_size (sd_chunk a))
    ∧ (∀ d', last dd' = Some d' → chunk_size (sd_chunk d') = outsize).
Proof.
  intros (st & st' & dd' & Hi & Ho & ->)%capture_process_Some.
  apply process_inputs_stride in Hi. simpl in Hi.
  apply process_outputs_chunks in Ho as (_ & Hf & _ & Hmono & Hlast).
  exists (ps_outsize st'), dd', (ps_calls st'). split; [done|].
  split; [|done]. rewrite <-Hi. apply Hf.
Qed.

Lemma capture_process_output_chunks_witness :
  ∃ outsize dd' plugin_calls,
    [EvConnect (Some (Handle 0 0)) 1 (PData 4096 0);
     EvConnect (Some (Handle 1 0)) 0 (PData 8192 0);
     EvRun (Handle 0 0) 256; EvRun (Handle 1 0) 256;
     EvQueue Capture buffer_in;
     EvQueue Playback
       {| datas := [{| sd_data := 8192; sd_maxsize := 4096;
                       sd_chunk := {| chunk_offset := 0; chunk_size := 1024;
                                      chunk_stride := 4 |} |}] |};
     EvTrigger Playback]
    = plugin_calls
      ++ ((λ h, EvRun (gh_hndl h) (outsize / sizeof_float))
            <$> g_hndl planned_a_to_b)
      ++ [EvQueue Capture buffer_in; EvQueue Playback {| datas := dd' |};
          EvTrigger Playback]
    ∧ (∀ d', last dd' = Some d' → chunk_size (sd_chunk d') = outsize).
Proof.
  destruct (capture_process_output_chunks planned_a_to_b buffer_in buffer_out
              _ capture_process_frames)
    as (outsize & dd' & plugin_calls & Hc & _ & _ & Hlast).
  by exists outsize, dd', plugin_calls.
Defined.

(** X12. The frame count of a period fits every plane: the bytes of
    [frames] floats, read from the clipped offset of a capture plane or
    written from the start of a playback plane, end inside that plane
    (for a byte count that is not negative). *)
Theorem capture_process_frames_fit (g : graph) (bi bo : pw_buffer)
        (calls : list event) (h : handle) (frames : Z) :
  capture_process g (Some bi) (Some bo) = Some calls →
  EvRun h frames ∈ calls →
  (∀ ds, ds ∈ datas bi → 0 ≤ slot_size ds) →
  (∀ dd, dd ∈ datas bo → 0 ≤ sd_maxsize dd) →
  0 ≤ frames
  ∧ (∀ ds, ds ∈ datas bi →
       Z.min (chunk_offset (sd_chunk ds)) (sd_maxsize ds) + sizeof_float * frames
       ≤ sd_maxsize ds)
  ∧ (∀ dd, dd ∈ datas bo → sizeof_float * frames ≤ sd_maxsize dd).
Proof.
  intros Hc Hrun Hin Hout.
  pose proof (capture_process_Some_planes g bi bo) as Hb.
  rewrite Hc in Hb. destruct Hb as [Hbi Hbo]; [by eexists|].
  unfold capture_process in Hc.
  destruct (process_inputs_first (g_input g) (datas bi)
              {| ps_outsize := 0; ps_stride := 0; ps_calls := [] |} Hbi eq_refl)
    as (st & in_calls & Hi & Hci & Hconn & Hle & Hne & Hnil).
  destruct (process_outputs_spec (g_output g) (datas bo) 0 st)
    as (st' & dd' & out_calls & He & Hco & (Hm1 & Hm2 & Hm3) & Hf); [lia|].
  rewrite Hi in Hc. simpl in Hc. rewrite He in Hc. simpl in Hc.
  injection Hc as <-. rewrite Hco, Hci in Hrun. simpl in Hrun.
  assert (frames = ps_outsize st' / sizeof_float) as ->.
  { rewrite !elem_of_app in Hrun. destruct Hrun as [[Hr|Hr]|[Hr|Hr]].
    - rewrite Forall_forall in Hconn. destruct (Hconn _ Hr) as (x & y & z & Heq). done.
    - apply list_elem_of_lookup in Hr as [j Hj].
      destruct (Forall2_lookup_r _ _ _ _ _ Hf Hj) as ([gp d] & _ & Hev).
      destruct (gp_desc gp); [done|]. destruct Hev as (x & Heq & _). done.
    - unfold run_handles in Hr. apply list_elem_of_fmap in Hr as (gh & [= _ ->] & _).
      done.
    - unfold process_done in Hr. simpl in Hr.
      rewrite !elem_of_cons in Hr. destruct Hr as [?|[?|[?|?%elem_of_nil]]]; done. }
  assert (0 ≤ ps_outsize st') as Hpos.
  { assert (0 ≤ ps_outsize st) as Hst.
    { destruct (decide (datas bi = [])) as [Hd|Hd]; [by rewrite Hnil|].
      pose proof (Hne Hd) as Hx. apply list_elem_of_fmap in Hx as (x & Hx & Hxin).
      rewrite Hx. by apply Hin. }
    destruct Hm3 as [Heq|Hdd]; [by rewrite Heq|].
    apply list_elem_of_fmap in Hdd as (dd & Heq & Hdd). rewrite Heq. by apply Hout. }
  unfold sizeof_float in *.
  assert (0 ≤ ps_outsize st' / 4 ∧ 4 * (ps_outsize st' / 4) ≤ ps_outsize st') as [H0 H4].
  { split; [apply Z.div_pos; lia|apply Z.mul_div_le; lia]. }
  split; [done|]. split.
  - intros ds Hds.
    assert (ps_outsize st' ≤ slot_size ds) as Hs.
    { etrans; [apply Hm1|]. apply Hle. by apply list_elem_of_fmap_2. }
    unfold slot_size in Hs. lia.
  - intros dd Hdd.
    assert (ps_outsize st' ≤ sd_maxsize dd) by (apply Hm2; by apply list_elem_of_fmap_2).
    lia.
Qed.

Lemma capture_process_frames_fit_witness :
  0 ≤ 256
  ∧ (∀ ds, ds ∈ datas buffer_in →
       Z.min (chunk_offset (sd_chunk ds)) (sd_maxsize ds) + sizeof_float * 256
       ≤ sd_maxsize ds)
  ∧ (∀ dd, dd ∈ datas buffer_out → sizeof_float * 256 ≤ sd_maxsize dd).
Proof.
  apply (capture_process_frames_fit planned_a_to_b buffer_in buffer_out _
           (Handle 0 0) 256 capture_process_frames).
  - vm_compute. do 2 right. by left.
  - intros ds Hds. apply list_elem_of_singleton in Hds as ->. by vm_compute.
  - intros dd Hdd. apply list_elem_of_singleton in Hdd as ->. by vm_compute.
Defined.

(** ** The external ports of the plan *)

Lemma foldl_preserve {A} (f : graph → A → graph) (P : graph → Prop) l g :
  (∀ g a, P g → P (f g a)) → P g → P (foldl f g l).
Proof.
  intros Hf. revert g. induction l as [|a l IH]; intros g Hg; [done|].
  simpl. by apply IH, Hf.
Qed.

(** The arrays of the external ports. *)
Definition ext_of (g : graph) := (g_input g, g_output g).

Lemma setup_input_port_ext g q : ext_of (setup_input_port g q) = ext_of g.
Proof.
  unfold setup_input_port.
  destruct (g_node_list g !! pr_node q); [|done].
  by destruct (input_port_at (g_node_list g) q).
Qed.

Lemma setup_output_links_ext env q ls g :
  ext_of (setup_output_links env q ls g).2 = ext_of g.
Proof.
  revert g. induction ls as [|l ls IH]; intros g; [done|]. simpl.
  destruct (g_node_list g !! pr_node q) as [n|]; [|done].
  destruct (output_port_at (g_node_list g) q) as [pt|]; [|done].
  destruct (connect_output _ _ _ _ _) as [[[|] audio] evs]; [|done].
  by rewrite IH.
Qed.

Lemma setup_output_port_ext env g q :
  ext_of (setup_output_port env g q).2 = ext_of g.
Proof.
  unfold setup_output_port. destruct (output_port_at _ _); [|done].
  apply setup_output_links_ext.
Qed.

Lemma order_node_ext env n_hndl k g :
  ext_of (order_node env n_hndl k g) = ext_of g.
Proof.
  unfold order_node. destruct (g_node_list g !! k) as [n|]; [|done].
  cbv zeta. unfold ext_of at 1. simpl. fold (ext_of
    (foldl (λ g0 i, (setup_output_port env g0 (PortRef k i)).2)
       (graph_set_hndl
          (g_hndl (foldl (λ g0 i, setup_input_port g0 (PortRef k i)) g
                     (seq 0 (d_n_input (node_desc n))))
           ++ ((λ h, {| gh_desc := node_desc n; gh_hndl := h |})
                 <$> take (Z.to_nat n_hndl) (node_hndl n)))
          (foldl (λ g0 i, setup_input_port g0 (PortRef k i)) g
             (seq 0 (d_n_input (node_desc n)))))
       (seq 0 (d_n_output (node_desc n))))).
  apply (foldl_preserve _ (λ g', ext_of g' = ext_of g)).
  { intros g' i <-. apply setup_output_port_ext. }
  change (ext_of (foldl (λ g0 i, setup_input_port g0 (PortRef k i)) g
                    (seq 0 (d_n_input (node_desc n)))) = ext_of g).
  apply (foldl_preserve _ (λ g', ext_of g' = ext_of g)); [|done].
  intros g' i <-. apply setup_input_port_ext.
Qed.

Lemma order_nodes_ext env n_hndl fuel g :
  ext_of (order_nodes env n_hndl fuel g) = ext_of g.
Proof.
  revert g. induction fuel as [|fuel IH]; intros g; [done|]. simpl.
  unfold find_next_node. destruct (find_next_node_from _ _) as [k|]; [|done].
  by rewrite IH, order_node_ext.
Qed.

Lemma graph_dims_outs g1 g2 inputs outputs :
  outs_of g1 = outs_of g2 →
  graph_dims g1 inputs outputs = graph_dims g2 inputs outputs.
Proof.
  intros Ho. unfold graph_dims.
  assert (length (g_node_list g1) = length (g_node_list g2)) as Hlen.
  { apply (f_equal length) in Ho. unfold outs_of in Ho. by rewrite !length_fmap in Ho. }
  assert (∀ k, node_desc <$> g_node_list g1 !! k = node_desc <$> g_node_list g2 !! k)
    as Hd.
  { intros k. pose proof (outs_of_lookup g1 g2 k Ho) as Hk.
    destruct (g_node_list g1 !! k), (g_node_list g2 !! k); simpl; try done.
    by f_equal. }
  assert (first_node g1 = first_node g2) as Hf.
  { unfold first_node. by destruct (g_node_list g1), (g_node_list g2). }
  assert (last_node g1 = last_node g2) as Hl.
  { unfold last_node. rewrite Hlen. by destruct (g_node_list g1), (g_node_list g2). }
  rewrite Hf, Hl. f_equal.
  - destruct inputs; [done|]. destruct (first_node g2) as [k|]; [|done]. simpl.
    specialize (Hd k).
    destruct (g_node_list g1 !! k), (g_node_list g2 !! k); simpl in *; congruence.
  - destruct outputs; [done|]. destruct (last_node g2) as [k|]; [|done]. simpl.
    specialize (Hd k).
    destruct (g_node_list g1 !! k), (g_node_list g2 !! k); simpl in *; congruence.
Qed.

Lemma bind_static_outs g1 g2 : bind_static g1 = bind_static g2 → outs_of g1 = outs_of g2.
Proof. by intros [= _ Ho _ _ _]. Qed.

Lemma bind_input_length i v g g' :
  bind_input i v g = (Ok, g') →
  length (g_input g') = S (length (g_input g)) ∧ g_output g' = g_output g.
Proof.
  unfold bind_input. destruct (spa_streq v "null").
  { intros [= <-]. simpl. rewrite length_app. simpl. split; [lia|done]. }
  destruct (find_port _ _ _ _) as [q|]; [|done].
  destruct (g_node_list g !! pr_node q) as [n|]; [|done].
  destruct (input_port_at _ q) as [pt|]; [|done].
  destruct (_ && _); [done|]. destruct (0 <? _); [done|].
  intros [= <-]. simpl. rewrite length_app. simpl. split; [lia|done].
Qed.

Lemma bind_output_length i v g g' :
  bind_output i v g = (Ok, g') →
  length (g_output g') = S (length (g_output g)) ∧ g_input g' = g_input g.
Proof.
  unfold bind_output. destruct (spa_streq v "null").
  { intros [= <-]. simpl. rewrite length_app. simpl. split; [lia|done]. }
  destruct (find_port _ _ _ _) as [q|]; [|done].
  destruct (g_node_list g !! pr_node q) as [n|]; [|done].
  destruct (output_port_at _ q) as [pt|]; [|done].
  destruct (_ && _); [done|]. destruct (0 <? _); [done|].
  intros [= <-]. simpl. rewrite length_app. simpl. split; [lia|done].
Qed.

Lemma bind_round_length inputs outputs i g g' :
  bind_round inputs outputs i g = (Ok, g') →
  Z.of_nat (length (g_input g'))
  = Z.of_nat (length (g_input g)) + (graph_dims g inputs outputs).1
  ∧ Z.of_nat (length (g_output g'))
    = Z.of_nat (length (g_output g)) + (graph_dims g inputs outputs).2.
Proof.
  unfold bind_round.
  destruct (match inputs with
            | None => (Ok, bind_default_inputs i g)
            | Some a => try_fold (bind_input i) (json_strings a) g
            end) as [[|e] g1] eqn:Hin; [|done].
  intros Hout.
  assert (Z.of_nat (length (g_input g1))
          = Z.of_nat (length (g_input g)) + (graph_dims g inputs outputs).1
          ∧ g_output g1 = g_output g ∧ bind_static g1 = bind_static g)
    as (Hi1 & Ho1 & Hs1).
  { destruct inputs as [a|]; simpl.
    - pose proof (try_fold_preserve (bind_input i)
                    (λ g1, bind_static g1 = bind_static g) (json_strings a) g) as Hst.
      rewrite Hin in Hst. simpl in Hst.
      split; [|split; [|apply Hst; [|done]; intros v g2 <-; apply bind_input_fields]].
      + unfold count_array.
        enough (length (g_input g1) = length (g_input g) + length (json_strings a))%nat
          by lia.
        apply (try_fold_ok_ind (bind_input i)
                 (λ done g2, length (g_input g2)
                             = (length (g_input g) + length done)%nat)
                 (json_strings a) g g1); [simpl; lia| |done].
        intros done v rest g2 g3 _ Hd [Hl _]%bind_input_length.
        rewrite length_app. simpl. lia.
      + apply (try_fold_ok_ind (bind_input i)
                 (λ done g2, g_output g2 = g_output g)
                 (json_strings a) g g1); [done| |done].
        intros done v rest g2 g3 _ Hd [_ Hl]%bind_input_length. congruence.
    - injection Hin as <-. unfold bind_default_inputs.
      destruct (first_node g ≫= λ k, g_node_list g !! k) as [n|]; simpl.
      + rewrite length_app, length_fmap. unfold d_n_input.
        split; [lia|]. done.
      + split; [lia|done]. }
  pose proof (graph_dims_outs g1 g inputs outputs (bind_static_outs _ _ Hs1)) as Hd.
  assert (g_input g' = g_input g1
          ∧ Z.of_nat (length (g_output g'))
            = Z.of_nat (length (g_output g1)) + (graph_dims g1 inputs outputs).2)
    as [Hi2 Ho2].
  { destruct outputs as [a|]; simpl.
    - split.
      + apply (try_fold_ok_ind (bind_output i)
                 (λ done g2, g_input g2 = g_input g1)
                 (json_strings a) g1 g'); [done| |done].
        intros done v rest g2 g3 _ Hd' [_ Hl]%bind_output_length. congruence.
      + unfold count_array.
        enough (length (g_output g')
                = length (g_output g1) + length (json_strings a))%nat by lia.
        apply (try_fold_ok_ind (bind_output i)
                 (λ done g2, length (g_output g2)
                             = (length (g_output g1) + length done)%nat)
                 (json_strings a) g1 g'); [simpl; lia| |done].
        intros done v rest g2 g3 _ Hd' [Hl _]%bind_output_length.
        rewrite length_app. simpl. lia.
    - injection Hout as <-. unfold bind_default_outputs.
      destruct (last_node g1 ≫= λ k, g_node_list g1 !! k) as [n|]; simpl.
      + rewrite length_app, length_fmap. unfold d_n_output. split; [done|lia].
      + split; [done|lia]. }
  rewrite Hi2, Ho2, Ho1, Hd. by split.
Qed.

Lemma bind_ports_length n_hndl inputs outputs g g' :
  bind_ports n_hndl inputs outputs g = (Ok, g') →
  Z.of_nat (length (g_input g'))
  = Z.of_nat (length (g_input g))
    + Z.of_nat (Z.to_nat n_hndl) * (graph_dims g inputs outputs).1
  ∧ Z.of_nat (length (g_output g'))
    = Z.of_nat (length (g_output g))
      + Z.of_nat (Z.to_nat n_hndl) * (graph_dims g inputs outputs).2.
Proof.
  unfold bind_ports. intros H.
  apply (try_fold_ok_ind (bind_round inputs outputs)
           (λ done g1,
              bind_static g1 = bind_static g
              ∧ Z.of_nat (length (g_input g1))
                = Z.of_nat (length (g_input g))
                  + Z.of_nat (length done) * (graph_dims g inputs outputs).1
              ∧ Z.of_nat (length (g_output g1))
                = Z.of_nat (length (g_output g))
                  + Z.of_nat (length done) * (graph_dims g inputs outputs).2)
           (seq 0 (Z.to_nat n_hndl)) g g') in H.
  - rewrite length_seq in H. by destruct H as (_ & ? & ?).
  - simpl. split; [done|]. split; lia.
  - intros done i rest g1 g2 _ (Hs & Hi & Ho) Hr.
    pose proof (bind_round_fields inputs outputs i g1) as Hs2.
    rewrite Hr in Hs2. simpl in Hs2.
    apply bind_round_length in Hr as [Hi2 Ho2].
    rewrite (graph_dims_outs g1 g) in Hi2, Ho2 by (by apply bind_static_outs).
    split; [congruence|]. rewrite length_app. simpl length.
    rewrite Nat2Z.inj_add, !Z.mul_add_distr_r. simpl Z.of_nat. split; lia.
Qed.

Lemma instantiate_nodes_topo env n_hndl g g' :
  instantiate_nodes env n_hndl g = (Ok, g') → topo_static g' = topo_static g.
Proof.
  unfold instantiate_nodes.
  apply (try_fold_ok_ind _ (λ done g1, topo_static g1 = topo_static g)); [done|].
  intros done k rest g1 g2 _ Ht [Ht' _]%instantiate_node_fields. congruence.
Qed.

Lemma instantiate_nodes_ext env n_hndl g :
  ext_of (instantiate_nodes env n_hndl g).2 = ext_of g.
Proof.
  unfold instantiate_nodes.
  apply (try_fold_preserve _ (λ g1, ext_of g1 = ext_of g)); [|done].
  intros k g1 <-. unfold instantiate_node.
  apply (try_fold_preserve _ (λ g2, ext_of g2 = ext_of g1)); [|done].
  intros i g2 <-. unfold instantiate_one.
  destruct (g_node_list g2 !! k); [|done]. by destruct (env_instantiate env k i).
Qed.

(** The rate a plugin leaves in [impl->rate] becomes the rate of the two
    streams that had none. *)
Example setup_graph_suggested_rate :
  let r := setup_graph env_44100 (impl_of graph_mixer 2 1) None None in
  r.1 = Ok ∧ impl_rate r.2 = 44100
  ∧ capture_info_rate r.2 = 44100 ∧ playback_info_rate r.2 = 44100.
Proof. by vm_compute. Qed.

Example env_ok_errno : errno_reported env_ok.
Proof. intros k i e H. discriminate H. Qed.

(** X13. After a successful [setup_graph], with plugins whose
    [instantiate] leaves a positive errno when it fails, the graph has
    [n_hndl] times [n_input] input ports and [n_hndl] times [n_output]
    output ports, where [n_hndl] is the quotient of the capture channels
    by [n_input], at least 1 and at most [MAX_HNDL]; a period whose
    buffers have no more planes than that stays inside [graph->input]
    and [graph->output]. *)
Theorem setup_graph_external_ports (env : plugin_env) (im im' : impl)
        (inputs outputs : option (list jvalue)) :
  0 ≤ capture_info_channels im →
  errno_reported env →
  setup_graph env im inputs outputs = (Ok, im') →
  let n_input := (graph_dims (impl_graph im) inputs outputs).1 in
  let n_output := (graph_dims (impl_graph im) inputs outputs).2 in
  let n_hndl := Z.max 1 (capture_info_channels im' / n_input) in
  0 < n_input ∧ 0 < n_output ∧ n_hndl ≤ MAX_HNDL
  ∧ capture_info_channels im'
    = (if capture_info_channels im =? 0 then n_input
       else capture_info_channels im)
  ∧ Z.of_nat (length (g_input (impl_graph im'))) = n_hndl * n_input
  ∧ Z.of_nat (length (g_output (impl_graph im'))) = n_hndl * n_output
  ∧ ∀ bi bo,
      Z.of_nat (length (datas bi)) ≤ n_hndl * n_input →
      Z.of_nat (length (datas bo)) ≤ n_hndl * n_output →
      is_Some (capture_process (impl_graph im') (Some bi) (Some bo)).
Proof.
  intros Hcap Herr. unfold setup_graph.
  destruct (graph_dims (impl_graph im) inputs outputs) as [n_input n_output] eqn:Hdims.
  assert (0 ≤ n_input ∧ 0 ≤ n_output) as [Hin0 Hout0].
  { unfold graph_dims, count_array in Hdims. injection Hdims as <- <-. split.
    - destruct inputs; [lia|]. destruct (_ ≫= _); simpl; lia.
    - destruct outputs; [lia|]. destruct (_ ≫= _); simpl; lia. }
  destruct (setup_dimensions _ _ n_input n_output)
    as [[[[|e] capture] playback] n_hndl] eqn:Hd; [|done].
  destruct (instantiate_nodes env n_hndl (impl_graph im)) as [[|e] g1] eqn:Hi.
  2:{ apply instantiate_nodes_Err in Hi as (k & i & Hki).
      by rewrite (Herr k i e Hki). }
  destruct (bind_ports _ _ _ _) as [[|e] g2] eqn:Hb; [|done].
  intros [= <-]. unfold impl_update. cbn [impl_graph capture_info_channels fst snd].
  assert (n_input ≠ 0 ∧ n_output ≠ 0) as [Hin Hout].
  { unfold setup_dimensions in Hd.
    destruct (Z.eqb_spec n_input 0); [done|]. by destruct (Z.eqb_spec n_output 0). }
  rewrite setup_dimensions_spec in Hd by done. cbv zeta in Hd.
  case_decide as Hbad; [done|]. injection Hd as <- <- <-.
  unfold effective_channels in *.
  set (c := if capture_info_channels im =? 0 then n_input
            else capture_info_channels im) in *.
  assert (0 ≤ c) as Hc by (subst c; destruct (_ =? _); lia).
  assert (0 ≤ c / n_input) as Hq by (apply Z.div_pos; lia).
  set (n_hndl := if decide (c / n_input = 0) then 1 else c / n_input) in *.
  assert (n_hndl = Z.max 1 (c / n_input)) as Hn
    by (subst n_hndl; case_decide; lia).
  assert (0 ≤ n_hndl ≤ MAX_HNDL) as Hrange.
  { rewrite Hn. unfold MAX_HNDL in *. split; [lia|].
    apply Z.max_lub; [lia|]. apply Z.nlt_ge. intros ?. apply Hbad. by right. }
  apply bind_ports_length in Hb as [Hbi Hbo].
  rewrite Z2Nat.id in Hbi, Hbo by lia.
  assert (graph_dims (graph_set_output [] (graph_set_input [] g1)) inputs outputs
          = (n_input, n_output)) as Hd1.
  { rewrite <-Hdims. apply graph_dims_outs.
    apply instantiate_nodes_topo in Hi. by injection Hi. }
  rewrite Hd1 in Hbi, Hbo. simpl in Hbi, Hbo.
  pose proof (order_nodes_ext env n_hndl (length (g_node_list g2))
                (graph_set_control_port [] (graph_set_hndl [] g2))) as [= He1 He2].
  rewrite <-Hn. split; [lia|]. split; [lia|]. split; [lia|]. split; [done|].
  split; [by rewrite He1|]. split; [by rewrite He2|].
  intros bi bo Hlbi Hlbo.
  apply capture_process_planes_Some; [rewrite He1|rewrite He2]; lia.
Qed.

Lemma setup_graph_external_ports_witness :
  Z.of_nat (length (g_input planned_a_to_b)) = 1
  ∧ is_Some (capture_process planned_a_to_b (Some buffer_in) (Some buffer_out)).
Proof.
  destruct (setup_graph_external_ports env_ok (impl_of graph_a_to_b 1 1)
              (setup_graph env_ok (impl_of graph_a_to_b 1 1) None None).2
              None None)
    as (_ & _ & _ & _ & Hi & _ & Hp).
  - simpl. lia.
  - exact env_ok_errno.
  - exact setup_graph_a_to_b_Ok.
  - split; [exact Hi|]. apply Hp; vm_compute; discriminate.
Defined.

(** ** Every instance is cleaned up *)

(** The handles created and the handles cleaned up, as the log has them,
    and the handles the nodes hold. *)
Definition instantiated (calls : list event) : list handle :=
  omap (λ e, match e with EvInstantiate h => Some h | _ => None end) calls.

Definition cleaned (calls : list event) : list handle :=
  omap (λ e, match e with EvCleanup h => Some h | _ => None end) calls.

Definition live (g : graph) : list handle := mjoin (hndl_of g).

(** Every handle created is cleaned up or still held by its node. *)
Definition balanced (g : graph) : Prop :=
  instantiated (g_calls g) ≡ₚ cleaned (g_calls g) ++ live g.

(** An event that neither creates nor cleans up an instance. *)
Definition no_lifecycle (e : event) : Prop :=
  match e with EvInstantiate _ | EvCleanup _ => False | _ => True end.

Lemma instantiated_app l1 l2 :
  instantiated (l1 ++ l2) = instantiated l1 ++ instantiated l2.
Proof. apply omap_app. Qed.

Lemma cleaned_app l1 l2 : cleaned (l1 ++ l2) = cleaned l1 ++ cleaned l2.
Proof. apply omap_app. Qed.

Lemma no_lifecycle_nil l :
  Forall no_lifecycle l → instantiated l = [] ∧ cleaned l = [].
Proof.
  induction 1 as [|e l He _ [IH1 IH2]]; [done|].
  unfold instantiated, cleaned in *. cbn. rewrite IH1, IH2. by destruct e.
Qed.

Lemma lifecycle_log evs g :
  Forall no_lifecycle evs →
  instantiated (g_calls (graph_log evs g)) = instantiated (g_calls g)
  ∧ cleaned (g_calls (graph_log evs g)) = cleaned (g_calls g).
Proof.
  intros [H1 H2]%no_lifecycle_nil. simpl.
  by rewrite instantiated_app, cleaned_app, H1, H2, !app_nil_r.
Qed.

(** The part of a graph that [balanced] looks at. *)
Definition life_of (g : graph) :=
  (hndl_of g, instantiated (g_calls g), cleaned (g_calls g)).

Lemma balanced_life g1 g2 : life_of g1 = life_of g2 → balanced g1 → balanced g2.
Proof. unfold balanced, live. by intros [= -> -> ->]. Qed.

Lemma connect_output_events env q p ins audio :
  Forall no_lifecycle (connect_output env q p ins audio).2.
Proof.
  revert audio. induction ins as [|[i h] ins IH]; intros audio; simpl; [done|].
  destruct (match mjoin (audio !! i) with
            | Some data => Some data
            | None => if env_alloc env q i then Some (PAudio q i) else None
            end) as [data|]; [|done].
  specialize (IH (<[i:=Some data]> audio)).
  destruct (connect_output env q p ins _) as [[ok a] e]. simpl in *.
  by constructor.
Qed.

Lemma setup_input_port_life g q : life_of (setup_input_port g q) = life_of g.
Proof.
  unfold setup_input_port.
  destruct (g_node_list g !! pr_node q) as [n|]; [|done].
  destruct (input_port_at (g_node_list g) q) as [pt|]; [|done].
  unfold life_of.
  destruct (lifecycle_log
    (l ← port_link_list pt;
     '(i, h) ← instances n;
     [EvConnect (Some h) (port_p pt)
        (default PNull
           (output_port_at (g_node_list g) (l_output l)
              ≫= λ peer, mjoin (port_audio_data peer !! i)))]) g) as [-> ->]; [|done].
  apply Forall_forall. intros e (l & He & _)%list_elem_of_bind.
  apply list_elem_of_bind in He as ([i h] & He & _).
  apply list_elem_of_singleton in He as ->. done.
Qed.

Lemma setup_output_links_life env q ls g :
  life_of (setup_output_links env q ls g).2 = life_of g.
Proof.
  revert g. induction ls as [|l ls IH]; intros g; [done|]. simpl.
  destruct (g_node_list g !! pr_node q) as [n|]; [|done].
  destruct (output_port_at (g_node_list g) q) as [pt|]; [|done].
  pose proof (connect_output_events env q (port_p pt) (instances n)
                (port_audio_data pt)) as Hev.
  destruct (connect_output _ _ _ _ _) as [[[|] audio] evs]; simpl in Hev.
  - rewrite IH. unfold life_of.
    destruct (lifecycle_log evs (graph_set_nodes
         (upd_n_deps (λ d, wrap32 (d - 1)) (pr_node (l_input l))
            (upd_output_port (port_set_audio_data audio) q (g_node_list g))) g))
      as [-> ->]; [done|].
    unfold hndl_of, upd_n_deps, upd_output_port. simpl.
    by rewrite !(fmap_alter_same node_hndl).
  - cbn [snd]. unfold life_of.
    destruct (lifecycle_log evs (graph_set_nodes
         (upd_output_port (port_set_audio_data audio) q (g_node_list g)) g))
      as [-> ->]; [done|].
    unfold hndl_of, upd_output_port. simpl.
    by rewrite !(fmap_alter_same node_hndl).
Qed.

Lemma setup_output_port_life env g q :
  life_of (setup_output_port env g q).2 = life_of g.
Proof.
  unfold setup_output_port. destruct (output_port_at _ _); [|done].
  apply setup_output_links_life.
Qed.

Lemma order_node_life env n_hndl k g :
  life_of (order_node env n_hndl k g) = life_of g.
Proof.
  unfold order_node. destruct (g_node_list g !! k) as [n|]; [|done].
  cbv zeta.
  set (g1 := foldl (λ g0 i, setup_input_port g0 (PortRef k i)) g _).
  assert (life_of g1 = life_of g) as H1.
  { apply (foldl_preserve _ (λ g', life_of g' = life_of g)); [|done].
    intros g' i <-. apply setup_input_port_life. }
  set (g2 := graph_set_hndl _ g1).
  set (g3 := foldl (λ g0 i, (setup_output_port env g0 (PortRef k i)).2) g2 _).
  assert (life_of g3 = life_of g2) as H3.
  { apply (foldl_preserve _ (λ g', life_of g' = life_of g2)); [|done].
    intros g' i <-. apply setup_output_port_life. }
  transitivity (life_of g3); [done|]. by rewrite H3, <-H1.
Qed.

Lemma order_nodes_life env n_hndl fuel g :
  life_of (order_nodes env n_hndl fuel g) = life_of g.
Proof.
  revert g. induction fuel as [|fuel IH]; intros g; [done|]. simpl.
  unfold find_next_node. destruct (find_next_node_from _ _) as [k|]; [|done].
  rewrite IH, order_node_life. unfold life_of, hndl_of. simpl.
  by rewrite (fmap_alter_same node_hndl).
Qed.

Lemma mjoin_alter_snoc (hs : list (list handle)) k h :
  (k < length hs)%nat → mjoin (alter (λ l, l ++ [h]) k hs) ≡ₚ h :: mjoin hs.
Proof.
  revert k. induction hs as [|x hs IH]; intros k Hk; simpl in *; [lia|].
  destruct k as [|k]; cbn.
  - rewrite <-app_assoc. simpl. by rewrite <-Permutation_middle.
  - rewrite IH by lia. by rewrite Permutation_middle.
Qed.

Lemma instantiate_one_balanced env ki g :
  balanced g → balanced (instantiate_one env ki g).2.
Proof.
  destruct ki as [k i]. unfold instantiate_one.
  destruct (g_node_list g !! k) as [n|] eqn:Hn; [|done].
  destruct (env_instantiate env k i); [done|]. simpl.
  unfold balanced, live, hndl_of. intros Hb.
  cbn [g_calls g_node_list graph_log graph_set_nodes].
  rewrite (fmap_alter_field node_hndl _ (λ l, l ++ [Handle k i])) by done.
  rewrite mjoin_alter_snoc
    by (rewrite length_fmap; by eapply lookup_lt_Some).
  set (evs := _ ++ _ ++ _ ++ _ ++ _).
  destruct (no_lifecycle_nil evs) as [H1 H2].
  { subst evs. rewrite !Forall_app. repeat split.
    - apply Forall_fmap, Forall_forall. by intros.
    - apply Forall_fmap, Forall_forall. by intros.
    - apply Forall_forall. by intros e (j & pt & -> & _)%elem_of_lookup_imap.
    - apply Forall_forall. by intros e (j & pt & -> & _)%elem_of_lookup_imap.
    - destruct (fc_activate _); [|done]. by constructor. }
  rewrite !instantiated_app, !cleaned_app.
  change (instantiated (EvInstantiate (Handle k i) :: evs))
    with (Handle k i :: instantiated evs).
  change (cleaned (EvInstantiate (Handle k i) :: evs)) with (cleaned evs).
  rewrite H1, H2, !app_nil_r.
  rewrite Hb. rewrite <-Permutation_cons_append.
  by rewrite Permutation_middle.
Qed.

Lemma instantiate_nodes_balanced env n_hndl g :
  balanced g → balanced (instantiate_nodes env n_hndl g).2.
Proof.
  unfold instantiate_nodes. apply try_fold_preserve. intros k g1.
  unfold instantiate_node. apply try_fold_preserve. intros i g2.
  apply instantiate_one_balanced.
Qed.

Lemma bind_input_calls i v g : g_calls (bind_input i v g).2 = g_calls g.
Proof.
  unfold bind_input. destruct (spa_streq v "null"); [done|].
  destruct (find_port _ _ _ _) as [q|]; [|done].
  destruct (g_node_list g !! pr_node q) as [n|]; [|done].
  destruct (input_port_at _ q) as [pt|]; [|done].
  destruct (_ && _); [done|]. by destruct (0 <? _).
Qed.

Lemma bind_output_calls i v g : g_calls (bind_output i v g).2 = g_calls g.
Proof.
  unfold bind_output. destruct (spa_streq v "null"); [done|].
  destruct (find_port _ _ _ _) as [q|]; [|done].
  destruct (g_node_list g !! pr_node q) as [n|]; [|done].
  destruct (output_port_at _ q) as [pt|]; [|done].
  destruct (_ && _); [done|]. by destruct (0 <? _).
Qed.

Lemma bind_round_calls inputs outputs i g :
  g_calls (bind_round inputs outputs i g).2 = g_calls g.
Proof.
  unfold bind_round.
  assert (∀ g0, g_calls (match outputs with
                         | None => (Ok, bind_default_outputs i g0)
                         | Some a => try_fold (bind_output i) (json_strings a) g0
                         end).2 = g_calls g0) as Hout.
  { intros g0. destruct outputs as [a|]; simpl.
    - apply (try_fold_preserve _ (λ g1, g_calls g1 = g_calls g0)); [|done].
      intros v g1 <-. apply bind_output_calls.
    - unfold bind_default_outputs. by destruct (_ ≫= _). }
  destruct inputs as [a|].
  - pose proof (try_fold_preserve (bind_input i)
                  (λ g1, g_calls g1 = g_calls g) (json_strings a) g) as Hin.
    destruct (try_fold (bind_input i) (json_strings a) g) as [[|e] g1]; simpl in *.
    + rewrite Hout. apply Hin; [|done]. intros v g2 <-. apply bind_input_calls.
    + apply Hin; [|done]. intros v g2 <-. apply bind_input_calls.
  - rewrite Hout. unfold bind_default_inputs. by destruct (_ ≫= _).
Qed.

Lemma bind_ports_life n_hndl inputs outputs g :
  life_of (bind_ports n_hndl inputs outputs g).2 = life_of g.
Proof.
  unfold bind_ports.
  apply (try_fold_preserve _ (λ g1, life_of g1 = life_of g)); [|done].
  intros i g1 <-. unfold life_of. rewrite bind_round_calls.
  pose proof (bind_round_fields inputs outputs i g1) as [= _ _ _ _ ->]. done.
Qed.

Lemma omap_bind {A B C} (f : B → option C) (h : A → list B) (l : list A) :
  omap f (l ≫= h) = l ≫= (λ x, omap f (h x)).
Proof.
  induction l as [|x l IH]; [done|]. rewrite !bind_cons, omap_app. by rewrite IH.
Qed.

Lemma mjoin_fmap_bind {A B} (f : A → list B) (l : list A) : mjoin (f <$> l) = l ≫= f.
Proof.
  induction l as [|x l IH]; [done|]. rewrite fmap_cons, bind_cons. cbn. by f_equal.
Qed.

Lemma instantiated_cleanups hs : instantiated (EvCleanup <$> hs) = [].
Proof. induction hs as [|h hs IH]; [done|]. exact IH. Qed.

Lemma cleaned_cleanups hs : cleaned (EvCleanup <$> hs) = hs.
Proof.
  induction hs as [|h hs IH]; [done|].
  change (cleaned (EvCleanup <$> h :: hs)) with (h :: cleaned (EvCleanup <$> hs)).
  by rewrite IH.
Qed.

Lemma instantiated_bind_nil {A} (f : A → list event) (l : list A) :
  (∀ x, instantiated (f x) = []) → instantiated (l ≫= f) = [].
Proof.
  intros Hf. unfold instantiated. rewrite omap_bind.
  induction l as [|x l IH]; [done|]. rewrite bind_cons, IH, app_nil_r. apply Hf.
Qed.

Lemma cleaned_bind {A} (f : A → list event) (h : A → list handle) (l : list A) :
  (∀ x, cleaned (f x) = h x) → cleaned (l ≫= f) = l ≫= h.
Proof.
  intros Hf. unfold cleaned. rewrite omap_bind. apply list_bind_ext; [|done].
  intros x. apply Hf.
Qed.

(** The [error:] label of [setup_graph]. *)
Lemma cleanup_graph_balanced g :
  balanced g →
  balanced (cleanup_graph g)
  ∧ instantiated (g_calls (cleanup_graph g)) ≡ₚ cleaned (g_calls (cleanup_graph g))
  ∧ Forall (λ n, node_hndl n = []) (g_node_list (cleanup_graph g)).
Proof.
  intros Hb. unfold balanced, live, hndl_of in *. unfold cleanup_graph. simpl.
  rewrite instantiated_app, cleaned_app.
  rewrite instantiated_bind_nil by (intros n; apply instantiated_cleanups).
  rewrite (cleaned_bind _ node_hndl) by (intros n; apply cleaned_cleanups).
  rewrite <-mjoin_fmap_bind.
  rewrite app_nil_r, <-list_fmap_compose.
  assert (∀ l : list node, mjoin (node_hndl ∘ node_set_hndl [] <$> l) = []) as ->.
  { induction l as [|n l IH]; [done|]. rewrite fmap_cons. cbn. exact IH. }
  rewrite app_nil_r. split; [done|]. split; [done|].
  apply Forall_fmap, Forall_forall. by intros.
Qed.

Lemma graph_free_balanced g :
  balanced g →
  instantiated (g_calls (graph_free g)) ≡ₚ cleaned (g_calls (graph_free g)).
Proof.
  intros Hb. rewrite graph_free_calls. unfold node_free_calls.
  rewrite instantiated_app, cleaned_app.
  unfold balanced, live, hndl_of in Hb. rewrite mjoin_fmap_bind in Hb.
  set (f := λ n : node, h ← node_hndl n;
              (if fc_deactivate (d_desc (node_desc n)) then [EvDeactivate h] else [])
              ++ [EvCleanup h]).
  assert (∀ n, instantiated (f n) = [] ∧ cleaned (f n) = node_hndl n) as Hf.
  { intros n. unfold f. induction (node_hndl n) as [|h hs [IH1 IH2]]; [done|].
    rewrite bind_cons, instantiated_app, cleaned_app, IH1, IH2.
    by destruct (fc_deactivate _). }
  rewrite instantiated_bind_nil by (intros n; apply Hf).
  rewrite (cleaned_bind _ node_hndl) by (intros n; apply Hf).
  by rewrite app_nil_r.
Qed.

Lemma parse_control_calls vis g nd c :
  g_calls (parse_control vis g nd c) = g_calls g.
Proof.
  revert g. induction c as [|[key [fl|]] c IH]; intros g; simpl; [done| |by apply IH].
  rewrite IH, set_control_value_unfold.
  by destruct (control_target _ _ _ _ _) as [[q v]|].
Qed.

Lemma builder_state_calls g : builder_state g → g_calls g = [].
Proof.
  induction 1 as [|g name d control _ IH|g alloc_ok json _ IH|g l _ IH Hl].
  - done.
  - unfold load_node. simpl. destruct control as [c|]; [|done].
    by rewrite parse_control_calls.
  - by destruct (parse_link_cases alloc_ok g json) as [->|(o & i & ->)].
  - done.
Qed.

Lemma builder_state_balanced g : builder_state g → balanced g.
Proof.
  intros Hg. unfold balanced, live. rewrite (builder_state_calls g Hg).
  pose proof (builder_state_unplanned g Hg) as Hun. unfold hndl_of.
  assert (mjoin (node_hndl <$> g_node_list g) = []) as ->; [|done].
  induction Hun as [|n l (_ & Hh & _) _ IH]; [done|].
  rewrite fmap_cons. cbn. rewrite Hh. exact IH.
Qed.

Lemma setup_graph_balanced (env : plugin_env) (im : impl)
      (inputs outputs : option (list jvalue)) :
  balanced (impl_graph im) →
  let r := setup_graph env im inputs outputs in
  balanced (impl_graph r.2)
  ∧ (r.1 ≠ Ok →
     instantiated (g_calls (impl_graph r.2)) ≡ₚ cleaned (g_calls (impl_graph r.2))
     ∧ Forall (λ n, node_hndl n = []) (g_node_list (impl_graph r.2))).
Proof.
  intros Hg r. subst r. unfold setup_graph.
  destruct (graph_dims _ _ _) as [n_input n_output].
  destruct (setup_dimensions _ _ _ _) as [[[[|e] capture] playback] n_hndl].
  2:{ simpl. by destruct (cleanup_graph_balanced _ Hg) as (Hb & Hc & Hn). }
  pose proof (instantiate_nodes_balanced env n_hndl _ Hg) as H1.
  destruct (instantiate_nodes env n_hndl (impl_graph im)) as [[|e] g1].
  2:{ simpl in *. by destruct (cleanup_graph_balanced _ H1) as (Hb & Hc & Hn). }
  simpl in H1.
  assert (balanced (graph_set_output [] (graph_set_input [] g1))) as H1' by done.
  pose proof (bind_ports_life n_hndl inputs outputs
                (graph_set_output [] (graph_set_input [] g1))) as H2.
  destruct (bind_ports _ _ _ _) as [[|e] g2]; simpl in H2.
  2:{ simpl. apply (balanced_life _ g2) in H1'; [|done].
      by destruct (cleanup_graph_balanced _ H1') as (Hb & Hc & Hn). }
  simpl. split; [|done].
  apply (balanced_life g2); [|by apply (balanced_life _ g2) in H1'].
  symmetry. by rewrite order_nodes_life.
Qed.

(** X14. Whatever [setup_graph] returns on a graph of the builder, no
    instance is lost: when it fails, every instance it created has been
    cleaned up once and no node holds a handle; and after [graph_free],
    which the module runs when it is destroyed, the instances cleaned up
    are, one for one, the instances created. *)
Theorem setup_graph_cleans_up (env : plugin_env) (im : impl)
        (inputs outputs : option (list jvalue)) :
  builder_state (impl_graph im) →
  let r := setup_graph env im inputs outputs in
  let created calls :=
    omap (λ e, match e with EvInstantiate h => Some h | _ => None end) calls in
  let cleaned_up calls :=
    omap (λ e, match e with EvCleanup h => Some h | _ => None end) calls in
  (r.1 ≠ Ok →
   created (g_calls (impl_graph r.2)) ≡ₚ cleaned_up (g_calls (impl_graph r.2))
   ∧ ∀ n, n ∈ g_node_list (impl_graph r.2) → node_hndl n = [])
  ∧ created (g_calls (graph_free (impl_graph r.2)))
    ≡ₚ cleaned_up (g_calls (graph_free (impl_graph r.2))).
Proof.
  intros Hg%builder_state_balanced r created cleaned_up.
  change created with instantiated. change cleaned_up with cleaned.
  destruct (setup_graph_balanced env im inputs outputs Hg) as [Hb Hfail].
  fold r in Hb, Hfail. split.
  - intros Hr. destruct (Hfail Hr) as [Hp Hn]. split; [done|].
    by apply Forall_forall.
  - by apply graph_free_balanced.
Qed.

Lemma setup_graph_cleans_up_witness :
  let created calls :=
    omap (λ e, match e with EvInstantiate h => Some h | _ => None end) calls in
  let cleaned_up calls :=
    omap (λ e, match e with EvCleanup h => Some h | _ => None end) calls in
  created (g_calls (graph_free planned_a_to_b))
  ≡ₚ cleaned_up (g_calls (graph_free planned_a_to_b)).
Proof.
  apply (setup_graph_cleans_up env_ok (impl_of graph_a_to_b 1 1) None None).
  apply bs_parse_link, bs_load_node, bs_load_node, bs_empty.
Defined.

(** ** The plan lists every instance and every control *)

Lemma setup_input_port_ctl g q :
  g_control_port (setup_input_port g q) = g_control_port g.
Proof.
  unfold setup_input_port.
  destruct (g_node_list g !! pr_node q); [|done].
  by destruct (input_port_at (g_node_list g) q).
Qed.

Lemma setup_output_links_ctl env q ls g :
  g_control_port (setup_output_links env q ls g).2 = g_control_port g.
Proof.
  revert g. induction ls as [|l ls IH]; intros g; [done|]. simpl.
  destruct (g_node_list g !! pr_node q) as [n|]; [|done].
  destruct (output_port_at (g_node_list g) q) as [pt|]; [|done].
  destruct (connect_output _ _ _ _ _) as [[[|] audio] evs]; [|done].
  by rewrite IH.
Qed.

Lemma setup_output_port_ctl env g q :
  g_control_port (setup_output_port env g q).2 = g_control_port g.
Proof.
  unfold setup_output_port. destruct (output_port_at _ _); [|done].
  apply setup_output_links_ctl.
Qed.

(** The control ports of a node, as the loop collects them. *)
Definition node_controls (k : nat) (n : node) : list port_ref :=
  PortRef k <$> seq 0 (d_n_control (node_desc n)).

Definition controls_at (g : graph) (k : nat) : list port_ref :=
  default [] (node_controls k <$> g_node_list g !! k).

Lemma order_node_ctl env n_hndl k g n :
  g_node_list g !! k = Some n →
  g_control_port (order_node env n_hndl k g)
  = g_control_port g ++ node_controls k n.
Proof.
  intros Hn. unfold order_node. rewrite Hn. cbv zeta.
  set (g1 := foldl (λ g0 i, setup_input_port g0 (PortRef k i)) g _).
  assert (g_control_port g1 = g_control_port g) as H1.
  { apply (foldl_preserve _ (λ g', g_control_port g' = g_control_port g)); [|done].
    intros g' i <-. apply setup_input_port_ctl. }
  set (g2 := graph_set_hndl _ g1).
  set (g3 := foldl (λ g0 i, (setup_output_port env g0 (PortRef k i)).2) g2 _).
  assert (g_control_port g3 = g_control_port g2) as H3.
  { apply (foldl_preserve _ (λ g', g_control_port g' = g_control_port g2)); [|done].
    intros g' i <-. apply setup_output_port_ctl. }
  simpl. by rewrite H3, <-H1.
Qed.

Lemma controls_at_static g1 g2 k :
  plan_static g1 = plan_static g2 → controls_at g1 k = controls_at g2 k.
Proof.
  intros Hs. unfold controls_at.
  pose proof (plan_static_lookup g1 g2 k Hs) as Hk.
  destruct (g_node_list g1 !! k) as [n1|], (g_node_list g2 !! k) as [n2|]; try done.
  simpl. unfold node_controls. by destruct Hk as [-> _].
Qed.

(** The ordering loop once more, now with [graph->control_port]. *)
Lemma order_nodes_inv_ctl env n_hndl fuel g ord :
  alloc_always env →
  links_ok g →
  order_inv (g_link_list g) (length (g_node_list g)) (deps_of g) (vis_of g) ord →
  g_hndl g = ord ≫= entries_at n_hndl g →
  g_control_port g = ord ≫= controls_at g →
  (length (g_node_list g) - length ord ≤ fuel)%nat →
  let g' := order_nodes env n_hndl fuel g in
  ∃ ord',
    plan_static g' = plan_static g
    ∧ order_inv (g_link_list g) (length (g_node_list g)) (deps_of g') (vis_of g') ord'
    ∧ g_hndl g' = ord' ≫= entries_at n_hndl g
    ∧ g_control_port g' = ord' ≫= controls_at g
    ∧ find_next_node g' = None.
Proof.
  intros Ha. revert g ord.
  induction fuel as [|fuel IH]; intros g ord Hok Hinv Hh Hc Hfuel.
  - simpl. exists ord. do 4 (split; [done|]).
    apply (find_next_node_all_visited g ord); [done|lia].
  - simpl. destruct (find_next_node g) as [[k g1]|] eqn:Hf.
    2:{ exists ord. by do 4 (split; [done|]). }
    apply find_next_node_Some in Hf as (Hdk & Hvk & ->).
    set (g1 := graph_set_nodes _ g).
    destruct (mark_visited_fields g k) as (Hs1 & Hv1 & Hd1 & Hh1).
    fold g1 in Hs1, Hv1, Hd1, Hh1.
    assert (k < length (g_node_list g))%nat as Hk.
    { apply lookup_lt_Some in Hvk. unfold vis_of in Hvk. by rewrite length_fmap in Hvk. }
    destruct (g_node_list g1 !! k) as [n1|] eqn:Hn1.
    2:{ apply lookup_ge_None in Hn1.
        rewrite (plan_static_length g1 g) in Hn1 by done. lia. }
    destruct (order_node_spec env n_hndl k g1 n1 Ha Hn1) as (Hs2 & Hv2 & Hd2 & Hh2).
    pose proof (order_node_ctl env n_hndl k g1 n1 Hn1) as Hc2.
    set (g2 := order_node env n_hndl k g1) in *.
    assert (plan_static g2 = plan_static g) as Hs by (by rewrite Hs2).
    pose proof Hs as [= Hls _ _].
    pose proof (plan_static_length g2 g Hs) as Hlen.
    assert (out_links g1 k n1 = out_links_at g k) as Hout.
    { rewrite <-(out_links_at_static g1 g) by done. unfold out_links_at. by rewrite Hn1. }
    assert (hndl_entries n_hndl n1 = entries_at n_hndl g k) as Hent.
    { rewrite <-(entries_at_static n_hndl g1 g) by done. unfold entries_at. by rewrite Hn1. }
    assert (node_controls k n1 = controls_at g k) as Hctl.
    { rewrite <-(controls_at_static g1 g) by done. unfold controls_at. by rewrite Hn1. }
    destruct (IH g2 (ord ++ [k])) as (ord' & Hs' & Hinv' & Hh' & Hc' & Hnone).
    + by apply (links_ok_static g).
    + rewrite Hls, Hlen, Hd2, Hv2, Hd1, Hv1, Hout.
      apply order_inv_step; try done; [apply Hok|].
      intros v. by apply out_links_at_count.
    + rewrite Hh2, Hh1, Hh, Hent, bind_app, bind_singleton.
      f_equal; [|by apply entries_at_static].
      apply list_bind_ext; [|done]. intros j. symmetry. by apply entries_at_static.
    + rewrite Hc2. change (g_control_port g1) with (g_control_port g).
      rewrite Hc, Hctl, bind_app, bind_singleton.
      f_equal; [|by apply controls_at_static].
      apply list_bind_ext; [|done]. intros j. symmetry. by apply controls_at_static.
    + rewrite Hlen, length_app. simpl. lia.
    + exists ord'. rewrite Hs', Hs. rewrite Hls, Hlen in Hinv'.
      split; [done|]. split; [done|]. split; [|split; [|done]].
      * rewrite Hh'. apply list_bind_ext; [|done]. intros j. by apply entries_at_static.
      * rewrite Hc'. apply list_bind_ext; [|done]. intros j. by apply controls_at_static.
Qed.

Lemma instantiate_one_calls env k i g g' :
  instantiate_one env (k, i) g = (Ok, g') →
  (k < length (g_node_list g))%nat →
  length (g_node_list g') = length (g_node_list g)
  ∧ instantiated (g_calls g') = instantiated (g_calls g) ++ [Handle k i]
  ∧ cleaned (g_calls g') = cleaned (g_calls g).
Proof.
  unfold instantiate_one. intros H Hk.
  destruct (g_node_list g !! k) as [n|] eqn:Hn.
  2:{ apply lookup_ge_None in Hn. lia. }
  destruct (env_instantiate env k i); [done|]. injection H as <-.
  cbn [g_calls g_node_list graph_log graph_set_nodes].
  rewrite length_alter. split; [done|].
  set (evs := _ ++ _ ++ _ ++ _ ++ _).
  destruct (no_lifecycle_nil evs) as [H1 H2].
  { subst evs. rewrite !Forall_app. repeat split.
    - apply Forall_fmap, Forall_forall. by intros.
    - apply Forall_fmap, Forall_forall. by intros.
    - apply Forall_forall. by intros e (j & pt & -> & _)%elem_of_lookup_imap.
    - apply Forall_forall. by intros e (j & pt & -> & _)%elem_of_lookup_imap.
    - destruct (fc_activate _); [|done]. by constructor. }
  rewrite !instantiated_app, !cleaned_app.
  change (instantiated (EvInstantiate (Handle k i) :: evs))
    with (Handle k i :: instantiated evs).
  change (cleaned (EvInstantiate (Handle k i) :: evs)) with (cleaned evs).
  by rewrite H1, H2, !app_nil_r.
Qed.

Lemma instantiate_node_calls env n_hndl k g g' :
  instantiate_node env n_hndl k g = (Ok, g') →
  (k < length (g_node_list g))%nat →
  length (g_node_list g') = length (g_node_list g)
  ∧ instantiated (g_calls g')
    = instantiated (g_calls g) ++ (Handle k <$> seq 0 (Z.to_nat n_hndl))
  ∧ cleaned (g_calls g') = cleaned (g_calls g).
Proof.
  unfold instantiate_node. intros H Hk.
  apply (try_fold_ok_ind _
           (λ done g1,
              length (g_node_list g1) = length (g_node_list g)
              ∧ instantiated (g_calls g1)
                = instantiated (g_calls g) ++ (Handle k <$> done)
              ∧ cleaned (g_calls g1) = cleaned (g_calls g))) in H; [done| |].
  - by rewrite app_nil_r.
  - intros done i rest g1 g2 _ (Hl & Hi & Hc) Hone.
    apply instantiate_one_calls in Hone as (Hl2 & Hi2 & Hc2); [|lia].
    rewrite Hl2, Hi2, Hc2, Hi, Hc, fmap_app, <-app_assoc. done.
Qed.

Lemma instantiate_nodes_calls env n_hndl g g' :
  instantiate_nodes env n_hndl g = (Ok, g') →
  instantiated (g_calls g')
  = instantiated (g_calls g)
    ++ (k ← seq 0 (length (g_node_list g)); Handle k <$> seq 0 (Z.to_nat n_hndl))
  ∧ cleaned (g_calls g') = cleaned (g_calls g).
Proof.
  unfold instantiate_nodes. intros H.
  apply (try_fold_ok_ind _
           (λ done g1,
              length (g_node_list g1) = length (g_node_list g)
              ∧ instantiated (g_calls g1)
                = instantiated (g_calls g)
                  ++ (k ← done; Handle k <$> seq 0 (Z.to_nat n_hndl))
              ∧ cleaned (g_calls g1) = cleaned (g_calls g))) in H.
  - by destruct H as (_ & ? & ?).
  - by rewrite app_nil_r.
  - intros done k rest g1 g2 Hseq (Hl & Hi & Hc) Hnode.
    assert (k < length (g_node_list g))%nat as Hk.
    { assert (k ∈ seq 0 (length (g_node_list g))) as Hin.
      { rewrite Hseq. apply elem_of_app. right. by left. }
      apply elem_of_seq in Hin. lia. }
    apply instantiate_node_calls in Hnode as (Hl2 & Hi2 & Hc2); [|lia].
    rewrite Hl2, Hi2, Hc2, Hi, Hc, bind_app, bind_singleton, <-app_assoc. done.
Qed.

Lemma setup_graph_plan_ctl env im inputs outputs im' :
  builder_state (impl_graph im) →
  Z.of_nat (length (g_link_list (impl_graph im))) < 2 ^ 32 →
  alloc_always env →
  setup_steps env im inputs outputs im' →
  let g := impl_graph im in
  let g' := impl_graph im' in
  ∃ (n : nat) (ord : list nat),
    plan_static g' = (g_link_list g, outs_of g,
                      (λ k, Handle k <$> seq 0 n) <$> seq 0 (length (g_node_list g)))
    ∧ order_inv (g_link_list g) (length (g_node_list g))
                (deps_of g') (vis_of g') ord
    ∧ g_hndl g' = ord ≫= entries_at (Z.of_nat n) g'
    ∧ g_control_port g' = ord ≫= controls_at g'
    ∧ find_next_node g' = None
    ∧ life_of g' = (hndl_of g', (k ← seq 0 (length (g_node_list g));
                                 Handle k <$> seq 0 n), []).
Proof.
  intros Hs Hlen Ha Hsetup g g'.
  destruct Hsetup as (capture & playback & n_hndl & g1 & g2 & _ & Hi & Hb & Hg').
  fold g' in Hg'. fold g in Hi.
  pose proof (builder_state_unplanned g Hs) as Hun.
  destruct (instantiate_nodes_fields env n_hndl g g1 Hi) as [Ht1 Hh1].
  { unfold hndl_of. apply Forall_fmap. eapply Forall_impl; [exact Hun|].
    by intros n0 (_ & ? & _). }
  pose proof (bind_ports_fields n_hndl inputs outputs
                (graph_set_output [] (graph_set_input [] g1))) as Hb2.
  rewrite Hb in Hb2. simpl in Hb2.
  set (g3 := graph_set_control_port [] (graph_set_hndl [] g2)) in *.
  assert (topo_static g3 = topo_static g ∧ hndl_of g3 = hndl_of g1) as [Ht3 Hh3].
  { unfold bind_static in Hb2. apply pair_equal_spec in Hb2 as [Ht Hh].
    split; [by rewrite <-Ht1|done]. }
  assert (g_link_list g3 = g_link_list g) as Hls by (by injection Ht3).
  assert (outs_of g3 = outs_of g) as Ho by (by injection Ht3).
  assert (deps_of g3 = deps_of g) as Hd by (by injection Ht3).
  assert (vis_of g3 = vis_of g) as Hv by (by injection Ht3).
  pose proof (topo_static_length g3 g Ht3) as HN.
  assert (length (g_node_list g2) = length (g_node_list g)) as HN2 by done.
  destruct (order_nodes_inv_ctl env n_hndl (length (g_node_list g2)) g3 []) as
    (ord & Hs' & Hinv & Hh & Hc & Hnone); try done.
  { apply (links_ok_outs g); [done..|]. by apply builder_links_ok. }
  { rewrite Hls, HN, Hd, Hv. by apply builder_order_start. }
  { rewrite HN, HN2. simpl. lia. }
  rewrite <-Hg' in Hs', Hinv, Hh, Hc, Hnone.
  exists (Z.to_nat n_hndl), ord.
  assert (hndl_of g1 = (λ k, Handle k <$> seq 0 (Z.to_nat n_hndl))
                         <$> seq 0 (length (g_node_list g))) as Hhall.
  { apply list_eq. intros k. rewrite list_lookup_fmap.
    destruct (decide (k < length (g_node_list g))%nat) as [Hk|Hk].
    - rewrite Hh1 by done. by rewrite lookup_seq_lt.
    - rewrite lookup_seq_ge by lia. simpl. apply lookup_ge_None.
      unfold hndl_of. rewrite length_fmap.
      apply instantiate_nodes_topo, topo_static_length in Hi. lia. }
  pose proof Hs' as [= Hls' Ho' Hh'].
  split; [|split; [|split; [|split; [|split]]]].
  - unfold plan_static. f_equal; [f_equal|].
    + by transitivity (g_link_list g3).
    + by transitivity (outs_of g3).
    + transitivity (hndl_of g3); [done|]. by transitivity (hndl_of g1).
  - by rewrite <-Hls, <-HN.
  - rewrite Hh. apply list_bind_ext; [|done]. intros k.
    rewrite (entries_at_static _ g' g3 k Hs'). unfold entries_at.
    destruct (g_node_list g3 !! k); [|done]. simpl.
    unfold hndl_entries. by rewrite Nat2Z.id.
  - rewrite Hc. apply list_bind_ext; [|done]. intros k. symmetry.
    by apply controls_at_static.
  - done.
  - assert (life_of g' = life_of g1) as Hl.
    { rewrite Hg', order_nodes_life. transitivity (life_of g2); [done|].
      pose proof (bind_ports_life n_hndl inputs outputs
                    (graph_set_output [] (graph_set_input [] g1))) as Hl2.
      rewrite Hb in Hl2. exact Hl2. }
    injection Hl as Hh5 Hi5 Hc5. unfold life_of. rewrite Hi5, Hc5.
    destruct (instantiate_nodes_calls env n_hndl g g1 Hi) as [-> ->].
    by rewrite (builder_state_calls g Hs).
Qed.

(** An order that leaves no node out is a permutation of the node indices. *)
Lemma order_inv_complete ls N D V ord :
  order_inv ls N D V ord → (∀ k, (k < N)%nat → k ∈ ord) → ord ≡ₚ seq 0 N.
Proof.
  intros Hinv Hall. apply NoDup_Permutation.
  - by destruct Hinv.
  - apply NoDup_seq.
  - intros k. rewrite elem_of_seq. split.
    + intros Hk%(oi_bound _ _ _ _ _ Hinv). lia.
    + intros [_ Hk]. by apply Hall.
Qed.

Lemma setup_graph_plan_acyclic env im inputs outputs im' :
  builder_state (impl_graph im) →
  Z.of_nat (length (g_link_list (impl_graph im))) < 2 ^ 32 →
  alloc_always env →
  ¬ has_cycle (g_link_list (impl_graph im)) →
  setup_steps env im inputs outputs im' →
  let g := impl_graph im in
  let g' := impl_graph im' in
  ∃ (n : nat) (ord : list nat),
    ord ≡ₚ seq 0 (length (g_node_list g'))
    ∧ length (g_node_list g') = length (g_node_list g)
    ∧ outs_of g' = outs_of g
    ∧ (∀ k nk, g_node_list g' !! k = Some nk → node_hndl nk = Handle k <$> seq 0 n)
    ∧ g_hndl g' = ord ≫= entries_at (Z.of_nat n) g'
    ∧ g_control_port g' = ord ≫= controls_at g'
    ∧ instantiated (g_calls g')
      = (k ← seq 0 (length (g_node_list g')); Handle k <$> seq 0 n)
    ∧ cleaned (g_calls g') = [].
Proof.
  intros Hs Hlen Ha Hac Hsetup g g'.
  destruct (setup_graph_plan_ctl env im inputs outputs im' Hs Hlen Ha Hsetup)
    as (n & ord & Hp & Hinv & Hh & Hc & Hnone & Hl).
  fold g g' in Hp, Hinv, Hh, Hc, Hnone, Hl.
  pose proof Hp as [= Hls Ho Hhn].
  assert (length (g_node_list g') = length (g_node_list g)) as HN.
  { apply (f_equal length) in Ho. unfold outs_of in Ho.
    by rewrite !length_fmap in Ho. }
  pose proof (builder_state_inv _ Hs) as Hb.
  exists n, ord. split; [|split; [done|split; [done|split; [|split; [done|split; [done|split]]]]]].
  4: { by injection Hl. }
  3: { injection Hl as Hi5 Hc5. by rewrite HN. }
  - rewrite HN. apply (order_inv_complete _ _ _ _ _ Hinv). intros k Hk.
    destruct (decide (k ∈ ord)) as [|Hn]; [done|]. destruct Hac.
    eapply (order_inv_stuck _ _ _ _ ord k Hinv); [| |done|done].
    + intros l' [Hl' _]%(bi_valid _ Hb).
      by apply (port_at_Some_lt node_output_port) in Hl'.
    + intros k' _. by apply find_next_node_None.
  - intros k nk Hk. assert (hndl_of g' !! k = Some (node_hndl nk)) as Hk'.
    { unfold hndl_of. by rewrite list_lookup_fmap, Hk. }
    rewrite Hhn, list_lookup_fmap in Hk'.
    assert (k < length (g_node_list g))%nat as Hlt.
    { rewrite <-HN. by eapply lookup_lt_Some. }
    rewrite lookup_seq_lt in Hk' by done. simpl in Hk'. by injection Hk'.
Qed.

Lemma handles_bind_entries n g ks :
  (∀ k nk, g_node_list g !! k = Some nk → node_hndl nk = Handle k <$> seq 0 n) →
  (∀ k, k ∈ ks → (k < length (g_node_list g))%nat) →
  gh_hndl <$> (ks ≫= entries_at (Z.of_nat n) g)
  = ks ≫= (λ k, Handle k <$> seq 0 n).
Proof.
  intros Hh. induction ks as [|k ks IH]; intros Hks; [done|].
  rewrite !bind_cons, fmap_app, IH by (intros k' Hk'; apply Hks; by right).
  f_equal. destruct (lookup_lt_is_Some_2 (g_node_list g) k) as [nk Hk].
  { apply Hks. by left. }
  rewrite (entries_at_handles n g k nk Hk (Hh k nk Hk)).
  rewrite <-list_fmap_compose. by apply list_fmap_ext.
Qed.

Lemma handles_NoDup (n N : nat) :
  NoDup (k ← seq 0 N; Handle k <$> seq 0 n).
Proof.
  apply NoDup_bind.
  - intros k1 k2 h _ _ (i1 & -> & _)%list_elem_of_fmap (i2 & [= -> _] & _)%list_elem_of_fmap.
    done.
  - intros k _. apply NoDup_fmap_2; [|apply NoDup_seq]. by intros i1 i2 [= ->].
  - apply NoDup_seq.
Qed.

(** X15. When planning succeeds on a graph without a cycle, every
    scratch buffer being allocated and a failed [instantiate] leaving a
    positive errno, every node has the same number n of instances, the
    plan graph.hndl holds each instance (node k, instance i < n) exactly
    once, with the descriptor of its node, and these are exactly the
    instances created by the instantiate calls; no instance has been
    cleaned up. *)
Theorem setup_graph_plans_every_instance (env : plugin_env) (im im' : impl)
        (inputs outputs : option (list jvalue)) :
  builder_state (impl_graph im) →
  Z.of_nat (length (g_link_list (impl_graph im))) < 2 ^ 32 →
  alloc_always env →
  errno_reported env →
  ¬ has_cycle (g_link_list (impl_graph im)) →
  setup_graph env im inputs outputs = (Ok, im') →
  let g' := impl_graph im' in
  ∃ n : nat,
    (∀ k nk, g_node_list g' !! k = Some nk →
       node_hndl nk = Handle k <$> seq 0 n)
    ∧ NoDup (gh_hndl <$> g_hndl g')
    ∧ (∀ k i, Handle k i ∈ (gh_hndl <$> g_hndl g')
              ↔ (k < length (g_node_list g'))%nat ∧ (i < n)%nat)
    ∧ (∀ gh, gh ∈ g_hndl g' →
         ∃ nk, g_node_list g' !! h_node (gh_hndl gh) = Some nk
               ∧ gh_desc gh = node_desc nk)
    ∧ gh_hndl <$> g_hndl g'
      ≡ₚ omap (λ e, match e with EvInstantiate h => Some h | _ => None end)
              (g_calls g')
    ∧ omap (λ e, match e with EvCleanup h => Some h | _ => None end)
           (g_calls g') = [].
Proof.
  intros Hs Hlen Ha Herr Hac Hsetup g'.
  apply setup_graph_Ok in Hsetup; [|done].
  destruct (setup_graph_plan_acyclic env im inputs outputs im' Hs Hlen Ha Hac Hsetup)
    as (n & ord & Hord & HN & _ & Hhn & Hh & _ & Hi & Hc).
  fold g' in Hord, HN, Hhn, Hh, Hi, Hc.
  assert (∀ k, k ∈ ord → (k < length (g_node_list g'))%nat) as Hb.
  { intros k Hk. rewrite Hord in Hk. apply elem_of_seq in Hk. lia. }
  assert (gh_hndl <$> g_hndl g'
          ≡ₚ (k ← seq 0 (length (g_node_list g')); Handle k <$> seq 0 n)) as Hp.
  { rewrite Hh, (handles_bind_entries n g' ord Hhn Hb). by rewrite Hord. }
  exists n. split; [done|split; [|split; [|split; [|split]]]].
  - rewrite Hp. apply handles_NoDup.
  - intros k i. rewrite Hp, list_elem_of_bind. split.
    + intros (k' & (i' & [= -> ->] & Hi')%list_elem_of_fmap & Hk').
      apply elem_of_seq in Hi', Hk'. lia.
    + intros [Hk Hi']. exists k. split.
      * apply list_elem_of_fmap. exists i. split; [done|]. apply elem_of_seq. lia.
      * apply elem_of_seq. lia.
  - intros gh Hgh. rewrite Hh in Hgh.
    apply list_elem_of_bind in Hgh as (k & Hgh & Hk).
    destruct (lookup_lt_is_Some_2 (g_node_list g') k) as [nk Hnk]; [by apply Hb|].
    rewrite (entries_at_handles n g' k nk Hnk (Hhn k nk Hnk)) in Hgh.
    apply list_elem_of_fmap in Hgh as (i & -> & _). by exists nk.
  - rewrite Hp. unfold instantiated in Hi. by rewrite Hi.
  - exact Hc.
Qed.

Example graph_a_to_b_builder :
  builder_state (impl_graph (impl_of graph_a_to_b 1 1)).
Proof. apply bs_parse_link, bs_load_node, bs_load_node, bs_empty. Qed.

Example graph_a_to_b_short :
  Z.of_nat (length (g_link_list (impl_graph (impl_of graph_a_to_b 1 1)))) < 2 ^ 32.
Proof. vm_compute. reflexivity. Qed.

Example env_ok_alloc : alloc_always env_ok.
Proof. intros q i. reflexivity. Qed.

Lemma setup_graph_plans_every_instance_witness :
  let g' :=
    impl_graph (setup_graph env_ok (impl_of graph_a_to_b 1 1) None None).2 in
  ∃ n : nat,
    (∀ k nk, g_node_list g' !! k = Some nk →
       node_hndl nk = Handle k <$> seq 0 n)
    ∧ NoDup (gh_hndl <$> g_hndl g')
    ∧ (∀ k i, Handle k i ∈ (gh_hndl <$> g_hndl g')
              ↔ (k < length (g_node_list g'))%nat ∧ (i < n)%nat)
    ∧ (∀ gh, gh ∈ g_hndl g' →
         ∃ nk, g_node_list g' !! h_node (gh_hndl gh) = Some nk
               ∧ gh_desc gh = node_desc nk)
    ∧ gh_hndl <$> g_hndl g'
      ≡ₚ omap (λ e, match e with EvInstantiate h => Some h | _ => None end)
              (g_calls g')
    ∧ omap (λ e, match e with EvCleanup h => Some h | _ => None end)
           (g_calls g') = [].
Proof.
  exact (setup_graph_plans_every_instance env_ok (impl_of graph_a_to_b 1 1)
           (setup_graph env_ok (impl_of graph_a_to_b 1 1) None None).2 None None
           graph_a_to_b_builder graph_a_to_b_short env_ok_alloc env_ok_errno
           graph_a_to_b_acyclic setup_graph_a_to_b_Ok).
Defined.

Lemma elem_of_controls_at g k q :
  q ∈ controls_at g k
  ↔ pr_node q = k
    ∧ ∃ nk, g_node_list g !! k = Some nk
            ∧ (pr_idx q < d_n_control (node_desc nk))%nat.
Proof.
  unfold controls_at, node_controls.
  destruct (g_node_list g !! k) as [nk|]; simpl.
  - rewrite list_elem_of_fmap. split.
    + intros (j & -> & Hj%elem_of_seq). simpl. split; [done|].
      exists nk. split; [done|lia].
    + intros (<- & nk' & [= <-] & Hj). exists (pr_idx q). split; [by destruct q|].
      apply elem_of_seq. lia.
  - split; [by intros ?%elem_of_nil|]. by intros (_ & nk & ? & _).
Qed.

(** X16. After a successful planning in which every scratch buffer was
    allocated, with plugins whose [instantiate] leaves a positive errno
    when it fails, graph.control_port holds every control port of every
    node that the ordering loop visited, each exactly once, and no other
    port; when the links have no cycle every node was visited, so every
    control port of the graph is listed. *)
Theorem setup_graph_control_ports (env : plugin_env) (im im' : impl)
        (inputs outputs : option (list jvalue)) :
  builder_state (impl_graph im) →
  Z.of_nat (length (g_link_list (impl_graph im))) < 2 ^ 32 →
  alloc_always env →
  errno_reported env →
  setup_graph env im inputs outputs = (Ok, im') →
  let g' := impl_graph im' in
  NoDup (g_control_port g')
  ∧ (∀ q, q ∈ g_control_port g'
          ↔ ∃ nk, g_node_list g' !! pr_node q = Some nk
                  ∧ node_visited nk = true
                  ∧ (pr_idx q < d_n_control (node_desc nk))%nat)
  ∧ (¬ has_cycle (g_link_list (impl_graph im)) →
     ∀ nk, nk ∈ g_node_list g' → node_visited nk = true).
Proof.
  intros Hs Hlen Ha Herr Hsetup g'.
  apply setup_graph_Ok in Hsetup; [|done].
  destruct (setup_graph_plan_ctl env im inputs outputs im' Hs Hlen Ha Hsetup)
    as (n & ord & Hp & Hinv & _ & Hc & Hnone & _).
  fold g' in Hp, Hinv, Hc, Hnone.
  pose proof Hp as [= Hls Ho Hhn].
  assert (length (g_node_list g') = length (g_node_list (impl_graph im))) as HN.
  { apply (f_equal length) in Ho. unfold outs_of in Ho.
    by rewrite !length_fmap in Ho. }
  assert (∀ k nk, g_node_list g' !! k = Some nk →
                  node_visited nk = bool_decide (k ∈ ord)) as Hvis.
  { intros k nk Hk.
    assert (k < length (g_node_list (impl_graph im)))%nat as Hlt.
    { rewrite <-HN. by eapply lookup_lt_Some. }
    pose proof (oi_vis _ _ _ _ _ Hinv k Hlt) as Hv. unfold vis_of in Hv.
    rewrite list_lookup_fmap, Hk in Hv. by injection Hv. }
  split; [|split].
  - rewrite Hc. apply NoDup_bind.
    + by intros k1 k2 q _ _ [<- _]%elem_of_controls_at [<- _]%elem_of_controls_at.
    + intros k _. unfold controls_at, node_controls.
      destruct (g_node_list g' !! k); simpl; [|constructor].
      apply NoDup_fmap_2; [|apply NoDup_seq]. by intros j1 j2 [= ->].
    + by destruct Hinv.
  - intros q. rewrite Hc, list_elem_of_bind. split.
    + intros (k & (<- & nk & Hk & Hj)%elem_of_controls_at & Hord).
      exists nk. split; [done|split; [|done]].
      rewrite (Hvis _ _ Hk). by apply bool_decide_eq_true.
    + intros (nk & Hk & Hv & Hj). exists (pr_node q). split.
      * apply elem_of_controls_at. split; [done|]. by exists nk.
      * rewrite (Hvis _ _ Hk) in Hv. by apply bool_decide_eq_true in Hv.
  - intros Hac nk (k & Hk)%list_elem_of_lookup.
    rewrite (Hvis _ _ Hk). apply bool_decide_eq_true.
    destruct (decide (k ∈ ord)) as [|Hn]; [done|]. destruct Hac.
    pose proof (builder_state_inv _ Hs) as Hb.
    eapply (order_inv_stuck _ _ _ _ ord k Hinv); [| | |done].
    + intros l' [Hl' _]%(bi_valid _ Hb).
      by apply (port_at_Some_lt node_output_port) in Hl'.
    + intros k' _. by apply find_next_node_None.
    + rewrite <-HN. by eapply lookup_lt_Some.
Qed.

Example graph_mixer_builder : builder_state (impl_graph (impl_of graph_mixer 2 1)).
Proof. apply bs_load_node, bs_empty. Qed.

Example graph_mixer_short :
  Z.of_nat (length (g_link_list (impl_graph (impl_of graph_mixer 2 1)))) < 2 ^ 32.
Proof. vm_compute. reflexivity. Qed.

Example setup_graph_mixer_Ok :
  setup_graph env_ok (impl_of graph_mixer 2 1) None None
  = (Ok, (setup_graph env_ok (impl_of graph_mixer 2 1) None None).2).
Proof. vm_compute. reflexivity. Qed.

Lemma setup_graph_control_ports_witness :
  let g' :=
    impl_graph (setup_graph env_ok (impl_of graph_mixer 2 1) None None).2 in
  NoDup (g_control_port g')
  ∧ (∀ q, q ∈ g_control_port g'
          ↔ ∃ nk, g_node_list g' !! pr_node q = Some nk
                  ∧ node_visited nk = true
                  ∧ (pr_idx q < d_n_control (node_desc nk))%nat)
  ∧ (¬ has_cycle (g_link_list (impl_graph (impl_of graph_mixer 2 1))) →
     ∀ nk, nk ∈ g_node_list g' → node_visited nk = true).
Proof.
  exact (setup_graph_control_ports env_ok (impl_of graph_mixer 2 1)
           (setup_graph env_ok (impl_of graph_mixer 2 1) None None).2 None None
           graph_mixer_builder graph_mixer_short env_ok_alloc env_ok_errno
           setup_graph_mixer_Ok).
Defined.

(** ** Plugin calls are made on live instances *)

































(** ** The external ports point to live instances *)











(** ** The callbacks use live instances *)























Example life_a_to_b :
  (run_ops [OpProcess (Some buffer_in) (Some buffer_out);
            OpState PW_STREAM_STATE_PAUSED;
            OpProps [{| prop_is_params := true;
                        prop_value_pod := PodStruct [] |}]]
           planned_a_to_b
     ≫= λ g, replay [] (g_calls (graph_free g)))
  = Some [].
Proof. vm_compute. reflexivity. Qed.

(** A call on an instance after its [cleanup] does not replay. *)
Example replay_use_after_cleanup :
  replay [] [EvInstantiate (Handle 0 0); EvCleanup (Handle 0 0);
             EvRun (Handle 0 0) 256] = None.
Proof. reflexivity. Qed.

(** ** Restoring a parameter snapshot *)

Lemma params_items_commands snap items :
  params_items snap = Some items →
  Forall2 (λ e c, c.1 = e.1 ∧ is_Some c.2 ∧ c.2 = restored e.2)
          snap (pod_commands items).
Proof.
  revert items. induction snap as [|[name v] snap IH]; intros items; simpl.
  { intros [= <-]. constructor. }
  destruct (match v with
            | VBool b => Some (PodBool b)
            | VInt i => PodInt <$> i
            | VFloat f => Some (PodFloat f)
            end) as [pv|] eqn:Hpv; [|done]. simpl.
  destruct (params_items snap) as [rest|]; [|done]. simpl. intros [= <-].
  specialize (IH rest eq_refl).
  destruct v as [b|[i|]|f]; simpl in Hpv; try done; injection Hpv as <-; simpl;
    (constructor; [by eauto|done]).
Qed.

Lemma props_entry_target g q name v w :
  props_entry g q = Some (name, v) →
  find_port g (first_node g) name (Z.lor FC_PORT_INPUT FC_PORT_CONTROL) = Some q →
  control_target (length (g_node_list g)) g (first_node g) name (Some w)
  = Some (q, w).
Proof.
  intros He Hf. unfold control_target. unfold find_port in Hf. rewrite Hf. simpl.
  unfold props_entry in He.
  destruct (g_node_list g !! pr_node q) as [n|]; [|done]. simpl in *.
  by destruct (node_control_port n !! pr_idx q) as [pt|].
Qed.

Lemma snapshot_writes g qs snap cmds :
  Forall2 (λ q e, props_entry g q = Some e) qs snap →
  Forall2 (λ e c, c.1 = e.1 ∧ is_Some c.2 ∧ c.2 = restored e.2) snap cmds →
  (∀ q name v, q ∈ qs → props_entry g q = Some (name, v) →
     find_port g (first_node g) name (Z.lor FC_PORT_INPUT FC_PORT_CONTROL)
     = Some q) →
  Forall2 (λ q w, w.1 = q) qs (control_writes g (first_node g) cmds)
  ∧ Forall2 (λ e w, restored e.2 = Some w.2) snap
            (control_writes g (first_node g) cmds).
Proof.
  intros Hq. revert cmds. induction Hq as [|q [name v] qs snap He _ IH];
    intros cmds Hc Hres.
  { apply Forall2_nil_inv_l in Hc as ->. by split; constructor. }
  apply Forall2_cons_inv_l in Hc as ([cname cv] & cmds' & (Hn & [w Hw] & Hr) & Hc & ->).
  simpl in *. subst cname cv. unfold control_writes. cbn.
  rewrite (props_entry_target g q name v w He) by (eapply Hres; [by left|done]).
  destruct (IH cmds' Hc) as [H1 H2].
  { intros q' name' v' Hin. apply Hres. by right. }
  split; constructor; done.
Qed.

Lemma props_entry_float g q name f :
  props_entry g q = Some (name, VFloat f) → control_data_at g q = Some f.
Proof.
  unfold props_entry, control_data_at, control_port_at.
  destruct (g_node_list g !! pr_node q) as [n|]; [|done]. simpl.
  destruct (node_control_port n !! pr_idx q) as [pt|]; [|done]. simpl.
  destruct (fc_ports _ !! port_p pt) as [fp|]; [|done]. simpl.
  destruct (negb (Z.land (fp_hint fp) FC_HINT_BOOLEAN =? 0)); [done|].
  destruct (negb (Z.land (fp_hint fp) FC_HINT_INTEGER =? 0)); [done|].
  by intros [= _ <-].
Qed.

(** X19. Feeding the struct that [get_props_param] publishes back to
    [parse_params] reaches every control port through its own entry:
    when the control ports of the plan are distinct and every published
    name (cut to the 511 characters that fit the buffer) leads
    [find_port] back to its port, each control ends up with
    the value read back from its entry (1 or 0 for a boolean control, the
    truncated value for an integer control, the value itself for a float
    control).  If all the values are floats and none is a NaN, the update
    counts no change and leaves the graph as it is. *)
Theorem params_snapshot_restore (g : graph) (snap : list (string * prop_value))
        (items : list pod_value) :
  NoDup (g_control_port g) →
  get_props_param g = Some snap →
  params_items snap = Some items →
  (∀ q name v, q ∈ g_control_port g → props_entry g q = Some (name, v) →
     find_port g (first_node g) name (Z.lor FC_PORT_INPUT FC_PORT_CONTROL)
     = Some q) →
  let r := parse_params g (PodStruct items) in
  (∀ k q name v, g_control_port g !! k = Some q → snap !! k = Some (name, v) →
     control_data_at r.2 q = restored v)
  ∧ ((∀ name v, (name, v) ∈ snap → ∃ f, v = VFloat f ∧ f32_eqb f f = true) →
     r = (0, g)).
Proof.
  intros Hnd Hsnap Hitems Hres r. subst r.
  apply mapM_Some_1 in Hsnap.
  pose proof (params_items_commands snap items Hitems) as Hcmds.
  destruct (snapshot_writes g _ snap _ Hsnap Hcmds Hres) as [Hq Hv].
  rewrite parse_params_writes.
  set (ws := control_writes g (first_node g) (pod_commands items)) in *.
  assert (ws.*1 = g_control_port g) as Hfst.
  { clear -Hq. induction Hq as [|q [q' w] qs ws' Hw _ IH]; [done|].
    rewrite fmap_cons, IH. simpl in Hw. by rewrite Hw. }
  split.
  - intros k q name v Hk Hs. rewrite apply_writes_graph.
    destruct (Forall2_lookup_l _ _ _ _ _ Hv Hs) as ([q' w] & Hw & Hr).
    destruct (Forall2_lookup_l _ _ _ _ _ Hq Hk) as ([q'' w'] & Hw' & Hqq).
    rewrite Hw in Hw'. injection Hw' as <- <-. simpl in *. subst q'.
    rewrite Hr. apply control_data_writes.
    + by rewrite Hfst.
    + intros r Hin. by eapply control_writes_valid.
    + by eapply list_elem_of_lookup_2.
  - intros Hfl. apply apply_writes_same. intros q w Hin.
    apply list_elem_of_lookup in Hin as [k Hk].
    destruct (Forall2_lookup_r _ _ _ _ _ Hv Hk) as ([name v] & Hs & Hr).
    destruct (Forall2_lookup_r _ _ _ _ _ Hq Hk) as (q' & Hk' & Hqq).
    simpl in *. subst q'.
    destruct (Hfl name v) as (f & -> & Hnan); [by eapply list_elem_of_lookup_2|].
    simpl in Hr. injection Hr as <-.
    destruct (Forall2_lookup_l _ _ _ _ _ Hsnap Hk') as (e & Hs' & He).
    rewrite Hs in Hs'. injection Hs' as <-.
    split; [by eapply props_entry_float|done].
Qed.

Example planned_mixer_controls :
  g_control_port planned_mixer = [PortRef 0 0; PortRef 0 1].
Proof. vm_compute. reflexivity. Qed.

Example planned_mixer_NoDup : NoDup (g_control_port planned_mixer).
Proof.
  rewrite planned_mixer_controls. apply NoDup_cons. split.
  - by intros [=]%list_elem_of_singleton.
  - apply NoDup_singleton.
Qed.

Example planned_mixer_snapshot : get_props_param planned_mixer = Some mixer_snapshot.
Proof. vm_compute. reflexivity. Qed.

Example mixer_snapshot_items :
  params_items mixer_snapshot
  = Some [PodString "mixer:Gain 1"; PodFloat f32_one;
          PodString "mixer:Gain 2"; PodFloat f32_one].
Proof. reflexivity. Qed.

Example planned_mixer_resolves q name v :
  q ∈ g_control_port planned_mixer →
  props_entry planned_mixer q = Some (name, v) →
  find_port planned_mixer (first_node planned_mixer) name
            (Z.lor FC_PORT_INPUT FC_PORT_CONTROL) = Some q.
Proof.
  rewrite planned_mixer_controls. intros Hq He.
  apply elem_of_cons in Hq as [->|Hq].
  - vm_compute in He. injection He as <- _. vm_compute. reflexivity.
  - apply list_elem_of_singleton in Hq as ->.
    vm_compute in He. injection He as <- _. vm_compute. reflexivity.
Qed.

Lemma params_snapshot_restore_witness :
  parse_params planned_mixer
    (PodStruct [PodString "mixer:Gain 1"; PodFloat f32_one;
                PodString "mixer:Gain 2"; PodFloat f32_one])
  = (0, planned_mixer).
Proof.
  apply (params_snapshot_restore planned_mixer mixer_snapshot _
           planned_mixer_NoDup planned_mixer_snapshot mixer_snapshot_items
           planned_mixer_resolves).
  intros name v Hin. apply elem_of_cons in Hin as [[= -> ->]|Hin].
  - by exists f32_one.
  - apply list_elem_of_singleton in Hin as [= -> ->]. by exists f32_one.
Defined.

(** ** The plugin registry *)






Section registry.
Import Registry.














End registry.

Section registry_inv.
Import Registry.
Context (ld : loader).

Definition plugin_held (p : plugin) : list (string * string * string) :=
  d ← pl_descriptor_list p;
  replicate (Z.to_nat (dr_ref d)) (pl_type p, pl_path p, dr_label d).


(** A descriptor of the list: it has a reference, and it is what its
    plugin makes under its label. *)
Definition loaded_ok (p : plugin) (d : loaded) : Prop :=
  1 ≤ dr_ref d
  ∧ ∃ fd, pl_plugin p (dr_label d) = Some fd
          ∧ port_arrays fd = (Ok, Some (dr_desc d)).











End registry_inv.

Section registry_steps.
Import Registry.
Context (ld : loader).
Hypothesis Halloc : ∀ k, ld_plugin_alloc ld k = true.


Lemma plugin_held_descs p ds :
  plugin_held (plugin_set_descriptor_list ds p)
  = ds ≫= λ d, replicate (Z.to_nat (dr_ref d)) (pl_type p, pl_path p, dr_label d).
Proof. done. Qed.









Lemma loaded_ok_plugin p p' d :
  pl_plugin p' = pl_plugin p → loaded_ok p d → loaded_ok p' d.
Proof. unfold loaded_ok. by intros ->. Qed.












End registry_steps.

Section registry_life.
Import Registry.
Context (ld : loader).
Hypothesis Halloc : ∀ k, ld_plugin_alloc ld k = true.



End registry_life.


(** When the [calloc] of [plugin_load] fails the plugin that was just
    opened is lost: it is not in the list and nothing frees it. *)
Example plugin_load_no_memory_leaks :
  Registry.descriptor_load ld_no_memory "builtin" "builtin" "copy"
                           Registry.empty_registry
  = Some (inl ENOMEM,
          {| Registry.plugin_list := [];
             Registry.reg_calls := [Registry.EvPluginOpen "builtin" "builtin"] |}).
Proof. reflexivity. Qed.




(** The counts along the way: two nodes of ["copy"] share one descriptor
    with two references, and the plugin has one reference for each of
    its two descriptors. *)
Example registry_counts :
  (λ '(refs, r),
     (refs,
      (λ p, (Registry.pl_ref p,
             (λ d, (Registry.dr_label d, Registry.dr_ref d))
               <$> Registry.pl_descriptor_list p))
        <$> Registry.plugin_list r))
    <$> Registry.load_all ld_builtin
          [("builtin", "builtin", "copy"); ("builtin", "builtin", "mixer");
           ("builtin", "builtin", "copy")] Registry.empty_registry
  = Some ([("builtin", "builtin", "copy"); ("builtin", "builtin", "mixer");
           ("builtin", "builtin", "copy")],
          [(2, [("copy", 2); ("mixer", 1)])]).
Proof. vm_compute. reflexivity. Qed.

(** ** The controls of a node object *)

(** What an entry of a [control] object writes, in a graph [g] with [vis]
    nodes in its list and the node [nd] under construction. *)
Definition entry_target (vis : nat) (g : graph) (nd : nat)
           (e : string * option float32) : option (port_ref * float32) :=
  e.2 ≫= λ v, control_target vis g (Some nd) e.1 (Some v).

Lemma entry_targets_static vis g1 g2 nd
      (control : list (string * option float32)) :
  graph_static g1 = graph_static g2 →
  omap (entry_target vis g1 nd) control = omap (entry_target vis g2 nd) control.
Proof.
  intros Hs. induction control as [|e control IH]; [done|].
  assert (entry_target vis g1 nd e = entry_target vis g2 nd e) as He.
  { destruct e as [key [fl|]]; [|done]. unfold entry_target. simpl.
    by rewrite (control_target_static vis g1 g2). }
  cbn. by rewrite He, IH.
Qed.

Lemma parse_control_writes vis g nd control :
  parse_control vis g nd control
  = writes (omap (entry_target vis g nd) control) g.
Proof.
  revert g. induction control as [|[key [fl|]] control IH]; intros g; [done|..].
  - cbn [parse_control]. rewrite set_control_value_unfold, IH.
    assert (entry_target vis g nd (key, Some fl)
            = control_target vis g (Some nd) key (Some fl)) as He by done.
    assert (∀ l, omap (entry_target vis g nd) ((key, Some fl) :: l)
                 = match entry_target vis g nd (key, Some fl) with
                   | Some y => y :: omap (entry_target vis g nd) l
                   | None => omap (entry_target vis g nd) l
                   end) as -> by (intros l; cbn; by destruct (entry_target _ _ _ _)).
    rewrite He.
    destruct (control_target vis g (Some nd) key (Some fl)) as [[q v]|] eqn:Ht.
    + cbn [snd]. rewrite (entry_targets_static vis _ g) by apply control_write_static.
      done.
    + done.
  - cbn. apply IH.
Qed.

(** A node after a list of writes: only the writes to that node count. *)
Lemma control_write_node q v g1 g2 i :
  g_node_list g1 !! i = g_node_list g2 !! i →
  g_node_list (control_write q v g1) !! i
  = if decide (pr_node q = i)
    then g_node_list (control_write q v g2) !! i
    else g_node_list g2 !! i.
Proof.
  intros Hi. unfold control_write, upd_control_port. simpl.
  case_decide as Hq.
  - subst i. by rewrite !list_lookup_alter_eq, Hi.
  - by rewrite list_lookup_alter_ne.
Qed.

Lemma writes_node_local ws g1 g2 i :
  g_node_list g1 !! i = g_node_list g2 !! i →
  g_node_list (writes ws g1) !! i = g_node_list (writes ws g2) !! i.
Proof.
  revert g1 g2. induction ws as [|[q v] ws IH]; intros g1 g2 Hi; [done|].
  simpl. apply IH. rewrite (control_write_node q v g1 g2) by done.
  case_decide as Hq; [done|]. symmetry.
  rewrite (control_write_node q v g2 g2) by done. by rewrite decide_False.
Qed.

Lemma writes_node ws g i :
  g_node_list (writes ws g) !! i
  = g_node_list
      (writes (filter (λ w : port_ref * float32, pr_node w.1 = i) ws) g) !! i.
Proof.
  revert g. induction ws as [|[q v] ws IH]; intros g; [done|].
  simpl. destruct (decide (pr_node q = i)) as [Hq|Hq].
  - rewrite filter_cons_True by done. simpl. apply IH.
  - rewrite filter_cons_False by done. rewrite IH.
    apply writes_node_local.
    rewrite (control_write_node q v g g) by done. by rewrite decide_False.
Qed.

(** Where an entry writes: a key with a colon in a node of the list, a
    key without one in the node under construction. *)
Lemma entry_target_node vis g nd e q v :
  entry_target vis g nd e = Some (q, v) →
  match split_colon e.1 with
  | Some _ => (pr_node q < vis)%nat
  | None => pr_node q = nd
  end.
Proof.
  destruct e as [key [fl|]]; [|done]. unfold entry_target, control_target. simpl.
  destruct (find_port_upto vis g (Some nd) key _) as [q'|] eqn:Hf; [|done]. simpl.
  destruct (g_node_list g !! pr_node q') as [n|]; [|done]. simpl.
  destruct (node_control_port n !! pr_idx q') as [pt|]; [|done]. simpl.
  intros [= -> _]. unfold find_port_upto in Hf.
  destruct (split_colon key) as [[node_name port_name]|].
  - apply find_port_in_spec in Hf as (n' & ports & pt' & Hnd & _).
    unfold find_node in Hnd.
    apply find_node_from_spec in Hnd as (j & n'' & -> & Hj & _). simpl.
    apply lookup_lt_Some in Hj. rewrite length_take in Hj. lia.
  - apply find_port_in_spec in Hf as (n' & ports & pt' & [= <-] & _). done.
Qed.

Lemma filter_targets {A} (T : A → option (port_ref * float32)) (P : nat → Prop)
      (Q : A → Prop) `{!∀ i, Decision (P i)} `{!∀ e, Decision (Q e)}
      (control : list A) :
  (∀ e q v, T e = Some (q, v) → ¬ Q e → ¬ P (pr_node q)) →
  filter (λ w : port_ref * float32, P (pr_node w.1)) (omap T control)
  = filter (λ w : port_ref * float32, P (pr_node w.1)) (omap T (filter Q control)).
Proof.
  intros HT. induction control as [|e control IH]; [done|].
  destruct (decide (Q e)) as [He|He].
  - rewrite (filter_cons_True Q) by done. cbn.
    destruct (T e) as [[q v]|]; [|done].
    destruct (decide (P (pr_node q))) as [Hp|Hp].
    + rewrite !(filter_cons_True (λ w, P (pr_node w.1))) by done. by rewrite IH.
    + by rewrite !(filter_cons_False (λ w, P (pr_node w.1))) by done.
  - rewrite (filter_cons_False Q) by done. cbn.
    destruct (T e) as [[q v]|] eqn:Hte; [|done].
    rewrite (filter_cons_False (λ w, P (pr_node w.1))); [done|].
    simpl. by eapply HT.
Qed.

Lemma filter_targets_nil {A} (T : A → option (port_ref * float32)) (P : nat → Prop)
      `{!∀ i, Decision (P i)} (control : list A) :
  (∀ e q v, e ∈ control → T e = Some (q, v) → ¬ P (pr_node q)) →
  filter (λ w : port_ref * float32, P (pr_node w.1)) (omap T control) = [].
Proof.
  intros HT. induction control as [|e control IH]; [done|]. cbn.
  destruct (T e) as [[q v]|] eqn:Hte.
  - rewrite filter_cons_False by (simpl; eapply HT; [by left|done]).
    apply IH. intros e' q' v' Hin. apply HT. by right.
  - apply IH. intros e' q' v' Hin. apply HT. by right.
Qed.

(** X22. The [control] object of a node object, as [load_node] applies it
    while the node is not yet in the list: a key without a colon sets a
    control of the new node and of no other node; a key with a colon
    sets a control of a node loaded before and never one of the new
    node, also when the name before the colon is the new node's own. *)
Theorem load_node_control_scope (g : graph) (name : string) (d : descriptor)
        (control : list (string * option float32)) :
  let k := length (g_node_list g) in
  let plain := filter (λ e, split_colon e.1 = None) control in
  let qualified := filter (λ e, is_Some (split_colon e.1)) control in
  let nodes c := g_node_list (load_node g name d (Some c)).2 in
  nodes control !! k = nodes plain !! k
  ∧ take k (nodes control) = take k (nodes qualified)
  ∧ take k (nodes plain) = g_node_list g
  ∧ nodes qualified !! k = Some (new_node name d).
Proof.
  intros k plain qualified nodes. subst nodes. unfold load_node. simpl.
  fold k. set (g1 := graph_set_nodes (g_node_list g ++ [new_node name d]) g).
  rewrite !parse_control_writes.
  set (T := entry_target k g1 k).
  assert (∀ e q v, T e = Some (q, v) →
            match split_colon e.1 with
            | Some _ => (pr_node q < k)%nat
            | None => pr_node q = k
            end) as HT by (intros e q v; apply entry_target_node).
  assert (∀ i, (i < k)%nat → g_node_list g1 !! i = g_node_list g !! i) as Hold.
  { intros i Hi. subst g1. simpl. by rewrite lookup_app_l. }
  assert (g_node_list g1 !! k = Some (new_node name d)) as Hnew.
  { subst g1. simpl. by rewrite list_lookup_middle. }
  assert (∀ ws, length (g_node_list (writes ws g1)) = S k) as Hlen.
  { intros ws. rewrite (graph_static_length _ _ (writes_static ws g1)).
    subst g1. simpl. rewrite length_app. simpl. lia. }
  split; [|split; [|split]].
  - rewrite (writes_node _ g1 k), (writes_node (omap T plain) g1 k).
    pose proof (filter_targets T (λ i, i = k)
                  (λ e, split_colon e.1 = None) control) as Hf.
    cbv beta in Hf. rewrite Hf; [done|].
    intros e q v Ht Hq. specialize (HT e q v Ht).
    destruct (split_colon e.1); [lia|done].
  - apply list_eq. intros i. destruct (decide (i < k)%nat) as [Hi|Hi].
    + rewrite !lookup_take_lt by done.
      rewrite (writes_node _ g1 i), (writes_node (omap T qualified) g1 i).
      pose proof (filter_targets T (λ j, j = i)
                    (λ e, is_Some (split_colon e.1)) control) as Hf.
      cbv beta in Hf. rewrite Hf; [done|].
      intros e q v Ht Hq. specialize (HT e q v Ht).
      destruct (split_colon e.1); [|lia]. destruct Hq. by eexists.
    + rewrite !lookup_take_ge by lia. done.
  - apply list_eq. intros i. destruct (decide (i < k)%nat) as [Hi|Hi].
    + rewrite lookup_take_lt by done. rewrite writes_node.
      pose proof (filter_targets_nil T (λ j, j = i) plain) as Hf.
      cbv beta in Hf. rewrite Hf.
      * simpl. by apply Hold.
      * intros e q v [He _]%list_elem_of_filter Ht. specialize (HT e q v Ht).
        rewrite He in HT. lia.
    + rewrite lookup_take_ge by lia. symmetry. apply lookup_ge_None. fold k. lia.
  - rewrite writes_node.
    pose proof (filter_targets_nil T (λ j, j = k) qualified) as Hf.
    cbv beta in Hf. rewrite Hf.
    + simpl. done.
    + intros e q v [He _]%list_elem_of_filter Ht. specialize (HT e q v Ht).
      destruct (split_colon e.1); [lia|]. by destruct He.
Qed.

(** A [control] object of ["b"] that names ["b:Gain 1"] changes nothing,
    and one that names ["a:Gain 1"] changes the node ["a"]. *)
Example load_node_own_name :
  (load_node graph_mixer "b" mixer_desc
             (Some [("b:Gain 1", Some f32_zero)])).2
  = (load_node graph_mixer "b" mixer_desc None).2
  ∧ control_data_at
      (load_node graph_mixer "b" mixer_desc
                 (Some [("mixer:Gain 1", Some f32_zero)])).2 (PortRef 0 0)
    = Some f32_zero.
Proof. split; vm_compute; reflexivity. Qed.

(** ** An external port is listed once *)

(** The entries of an [inputs] or [outputs] list that name a port. *)
Definition named (names : list string) : list string :=
  filter (λ v, spa_streq v "null" = false) names.

(** A port that passes the two [-EBUSY] checks of round 0. *)
Definition free_port (pt : port) : Prop :=
  port_external pt = SPA_ID_INVALID ∧ port_n_links pt ≤ 0.

Lemma find_port_static g1 g2 nd name descriptor :
  graph_static g1 = graph_static g2 →
  find_port g1 nd name descriptor = find_port g2 nd name descriptor.
Proof.
  intros Hs. unfold find_port. rewrite (graph_static_length g1 g2) by done.
  by apply find_port_upto_static.
Qed.

Lemma last_node_static g1 g2 :
  graph_static g1 = graph_static g2 → last_node g1 = last_node g2.
Proof.
  intros Hs%graph_static_length. unfold last_node. rewrite Hs.
  by destruct (g_node_list g1), (g_node_list g2).
Qed.

Lemma upd_input_external_static x q g :
  graph_static (graph_set_nodes
                  (upd_input_port (port_set_external x) q (g_node_list g)) g)
  = graph_static g.
Proof.
  unfold graph_static, upd_input_port. simpl.
  apply fmap_alter_same. intros n. unfold node_static. simpl. do 4 f_equal.
  by apply fmap_alter_same.
Qed.

Lemma upd_output_external_static x q g :
  graph_static (graph_set_nodes
                  (upd_output_port (port_set_external x) q (g_node_list g)) g)
  = graph_static g.
Proof.
  unfold graph_static, upd_output_port. simpl.
  apply fmap_alter_same. intros n. unfold node_static. simpl. do 3 f_equal.
  by apply fmap_alter_same.
Qed.

(** The audio ports as the builder left them: instantiation sets handles
    only. *)
Definition same_audio_ports (g g' : graph) : Prop :=
  graph_static g' = graph_static g
  ∧ (∀ q, input_port_at (g_node_list g') q = input_port_at (g_node_list g) q)
  ∧ (∀ q, output_port_at (g_node_list g') q = output_port_at (g_node_list g) q).

Lemma instantiate_one_ports env ki g g0 :
  same_audio_ports g0 g → same_audio_ports g0 (instantiate_one env ki g).2.
Proof.
  intros (Hs & Hi & Ho). destruct ki as [k i]. unfold instantiate_one.
  destruct (g_node_list g !! k) as [n|]; [|done].
  destruct (env_instantiate env k i); [done|]. cbn [snd].
  unfold same_audio_ports. cbn [g_node_list graph_log graph_set_nodes].
  split; [|split].
  - rewrite <-Hs. unfold graph_static. cbn [g_node_list graph_log graph_set_nodes].
    by apply fmap_alter_same.
  - intros q. rewrite <-Hi. unfold input_port_at.
    by apply (port_frame _ _ _ node_input_port).
  - intros q. rewrite <-Ho. unfold output_port_at.
    by apply (port_frame _ _ _ node_output_port).
Qed.

Lemma instantiate_nodes_ports env n_hndl g :
  same_audio_ports g (instantiate_nodes env n_hndl g).2.
Proof.
  unfold instantiate_nodes.
  apply (try_fold_preserve _ (same_audio_ports g)); [|done].
  intros k g1 Hg1. unfold instantiate_node.
  apply (try_fold_preserve _ (same_audio_ports g)); [|done].
  intros i g2 Hg2. by apply (instantiate_one_ports env (k, i)).
Qed.

(** One entry of the [inputs] list in round 0. *)
Lemma bind_input_step v g g' :
  bind_input 0 v g = (Ok, g') →
  graph_static g' = graph_static g
  ∧ g_output g' = g_output g
  ∧ (∀ r, output_port_at (g_node_list g') r = output_port_at (g_node_list g) r)
  ∧ length (g_input g') = S (length (g_input g))
  ∧ if spa_streq v "null" then g_node_list g' = g_node_list g
    else ∃ q pt,
        find_port g (first_node g) v FC_PORT_INPUT = Some q
        ∧ input_port_at (g_node_list g) q = Some pt ∧ free_port pt
        ∧ g_node_list g'
          = upd_input_port (port_set_external (graph_n_input g)) q (g_node_list g).
Proof.
  unfold bind_input. destruct (spa_streq v "null").
  - intros [= <-]. simpl. rewrite length_app. simpl.
    repeat split; try done. lia.
  - destruct (find_port g (first_node g) v FC_PORT_INPUT) as [q|]; [|done].
    destruct (g_node_list g !! pr_node q) as [n|]; [|done].
    destruct (input_port_at (g_node_list g) q) as [pt|] eqn:Hpt; [|done].
    cbn [Nat.eqb andb].
    destruct (Z.eqb_spec (port_external pt) SPA_ID_INVALID) as [He|He]; [|done].
    cbn [negb]. destruct (Z.ltb_spec 0 (port_n_links pt)) as [Hn|Hn]; [done|].
    intros [= <-]. split; [apply upd_input_external_static|].
    cbn [g_output g_input g_node_list graph_set_input graph_set_nodes].
    split; [done|]. split; [intros r; by autorewrite with port_rw|].
    split; [rewrite length_app; simpl; lia|].
    exists q, pt. by repeat split.
Qed.

Lemma bind_output_step v g g' :
  bind_output 0 v g = (Ok, g') →
  graph_static g' = graph_static g
  ∧ length (g_output g') = S (length (g_output g))
  ∧ if spa_streq v "null" then g_node_list g' = g_node_list g
    else ∃ q pt,
        find_port g (last_node g) v FC_PORT_OUTPUT = Some q
        ∧ output_port_at (g_node_list g) q = Some pt ∧ free_port pt
        ∧ g_node_list g'
          = upd_output_port (port_set_external (graph_n_output g)) q (g_node_list g).
Proof.
  unfold bind_output. destruct (spa_streq v "null").
  - intros [= <-]. simpl. rewrite length_app. simpl.
    repeat split; try done. lia.
  - destruct (find_port g (last_node g) v FC_PORT_OUTPUT) as [q|]; [|done].
    destruct (g_node_list g !! pr_node q) as [n|]; [|done].
    destruct (output_port_at (g_node_list g) q) as [pt|] eqn:Hpt; [|done].
    cbn [Nat.eqb andb].
    destruct (Z.eqb_spec (port_external pt) SPA_ID_INVALID) as [He|He]; [|done].
    cbn [negb]. destruct (Z.ltb_spec 0 (port_n_links pt)) as [Hn|Hn]; [done|].
    intros [= <-]. split; [apply upd_output_external_static|].
    cbn [g_output g_input g_node_list graph_set_output graph_set_nodes].
    split; [rewrite length_app; simpl; lia|].
    exists q, pt. by repeat split.
Qed.

(** The names of a list, once round 0 has gone through, denote ports
    that were free and differ from each other: a port bound to a slot
    has its slot number in [external], which is not [SPA_ID_INVALID]. *)
Lemma bind_inputs_exclusive names g g' :
  try_fold (bind_input 0) names g = (Ok, g') →
  Z.of_nat (length (g_input g) + length names) ≤ SPA_ID_INVALID →
  NoDup ((λ v, find_port g (first_node g) v FC_PORT_INPUT) <$> named names)
  ∧ Forall (λ v, ∃ q pt, find_port g (first_node g) v FC_PORT_INPUT = Some q
                         ∧ input_port_at (g_node_list g) q = Some pt
                         ∧ free_port pt)
           (named names).
Proof.
  revert g. induction names as [|v names IH]; intros g Hf Hlen.
  { split; constructor. }
  simpl in Hf. destruct (bind_input 0 v g) as [[|e] g1] eqn:Hb; [|done].
  apply bind_input_step in Hb as (Hs & _ & _ & Hl & Hv).
  destruct (IH g1 Hf) as [Hnd Hall].
  { rewrite Hl. simpl in Hlen. lia. }
  assert (∀ v', find_port g1 (first_node g1) v' FC_PORT_INPUT
                = find_port g (first_node g) v' FC_PORT_INPUT) as Hfp.
  { intros v'. rewrite (first_node_static g1 g) by done.
    by apply find_port_static. }
  rewrite (list_fmap_ext _ (λ v, find_port g (first_node g) v FC_PORT_INPUT))
    in Hnd by (intros; apply Hfp).
  unfold named in *. destruct (spa_streq v "null") eqn:Hnull.
  - rewrite filter_cons_False by (by rewrite Hnull). split; [done|].
    eapply Forall_impl; [exact Hall|]. intros v' (q & pt & Hq & Hpt & Hfree).
    exists q, pt. by rewrite <-Hfp, <-Hv.
  - rewrite filter_cons_True by done.
    destruct Hv as (q & pt & Hq & Hpt & Hfree & Hnodes).
    assert (∀ pt', input_port_at (g_node_list g1) q = Some pt' → ¬ free_port pt')
      as Hused.
    { intros pt'. rewrite Hnodes, input_upd_input, decide_True, Hpt by done.
      intros [= <-] [He _]. simpl in He. unfold graph_n_input, SPA_ID_INVALID in *.
      simpl in Hlen. lia. }
    rewrite Forall_forall in Hall. split.
    + rewrite fmap_cons. apply NoDup_cons. split; [|done].
      rewrite Hq. intros (v' & Hv' & Hin)%list_elem_of_fmap.
      destruct (Hall v' Hin) as (q' & pt' & Hq' & Hpt' & Hfree').
      rewrite Hfp, <-Hv' in Hq'. injection Hq' as <-. by apply (Hused pt').
    + apply Forall_cons. split; [by exists q, pt|].
      apply Forall_forall. intros v' Hin.
      destruct (Hall v' Hin) as (q' & pt' & Hq' & Hpt' & Hfree').
      exists q', pt'. rewrite <-Hfp. split; [done|]. split; [|done].
      rewrite Hnodes, input_upd_input in Hpt'. case_decide as Hqq; [|done].
      subst q'. exfalso. apply (Hused pt'); [|done].
      by rewrite Hnodes, input_upd_input, decide_True.
Qed.

Lemma bind_outputs_exclusive names g g' :
  try_fold (bind_output 0) names g = (Ok, g') →
  Z.of_nat (length (g_output g) + length names) ≤ SPA_ID_INVALID →
  NoDup ((λ v, find_port g (last_node g) v FC_PORT_OUTPUT) <$> named names)
  ∧ Forall (λ v, ∃ q pt, find_port g (last_node g) v FC_PORT_OUTPUT = Some q
                         ∧ output_port_at (g_node_list g) q = Some pt
                         ∧ free_port pt)
           (named names).
Proof.
  revert g. induction names as [|v names IH]; intros g Hf Hlen.
  { split; constructor. }
  simpl in Hf. destruct (bind_output 0 v g) as [[|e] g1] eqn:Hb; [|done].
  apply bind_output_step in Hb as (Hs & Hl & Hv).
  destruct (IH g1 Hf) as [Hnd Hall].
  { rewrite Hl. simpl in Hlen. lia. }
  assert (∀ v', find_port g1 (last_node g1) v' FC_PORT_OUTPUT
                = find_port g (last_node g) v' FC_PORT_OUTPUT) as Hfp.
  { intros v'. rewrite (last_node_static g1 g) by done.
    by apply find_port_static. }
  rewrite (list_fmap_ext _ (λ v, find_port g (last_node g) v FC_PORT_OUTPUT))
    in Hnd by (intros; apply Hfp).
  unfold named in *. destruct (spa_streq v "null") eqn:Hnull.
  - rewrite filter_cons_False by (by rewrite Hnull). split; [done|].
    eapply Forall_impl; [exact Hall|]. intros v' (q & pt & Hq & Hpt & Hfree).
    exists q, pt. by rewrite <-Hfp, <-Hv.
  - rewrite filter_cons_True by done.
    destruct Hv as (q & pt & Hq & Hpt & Hfree & Hnodes).
    assert (∀ pt', output_port_at (g_node_list g1) q = Some pt' → ¬ free_port pt')
      as Hused.
    { intros pt'. rewrite Hnodes, output_upd_output, decide_True, Hpt by done.
      intros [= <-] [He _]. simpl in He. unfold graph_n_output, SPA_ID_INVALID in *.
      simpl in Hlen. lia. }
    rewrite Forall_forall in Hall. split.
    + rewrite fmap_cons. apply NoDup_cons. split; [|done].
      rewrite Hq. intros (v' & Hv' & Hin)%list_elem_of_fmap.
      destruct (Hall v' Hin) as (q' & pt' & Hq' & Hpt' & Hfree').
      rewrite Hfp, <-Hv' in Hq'. injection Hq' as <-. by apply (Hused pt').
    + apply Forall_cons. split; [by exists q, pt|].
      apply Forall_forall. intros v' Hin.
      destruct (Hall v' Hin) as (q' & pt' & Hq' & Hpt' & Hfree').
      exists q', pt'. rewrite <-Hfp. split; [done|]. split; [|done].
      rewrite Hnodes, output_upd_output in Hpt'. case_decide as Hqq; [|done].
      subst q'. exfalso. apply (Hused pt'); [|done].
      by rewrite Hnodes, output_upd_output, decide_True.
Qed.

(** Round 0 of [bind_ports]. *)
Lemma bind_ports_round0 n_hndl inputs outputs g g' :
  0 < n_hndl →
  bind_ports n_hndl inputs outputs g = (Ok, g') →
  ∃ gi go,
    match inputs with
    | None => (Ok, bind_default_inputs 0 g)
    | Some a => try_fold (bind_input 0) (json_strings a) g
    end = (Ok, gi)
    ∧ match outputs with
      | None => (Ok, bind_default_outputs 0 gi)
      | Some a => try_fold (bind_output 0) (json_strings a) gi
      end = (Ok, go).
Proof.
  intros Hn. unfold bind_ports.
  destruct (Z.to_nat n_hndl) as [|m] eqn:Hm; [lia|].
  cbn [seq try_fold].
  destruct (bind_round inputs outputs 0 g) as [[|e] go] eqn:Hr; [|done].
  intros _. unfold bind_round in Hr.
  destruct (match inputs with
            | None => (Ok, bind_default_inputs 0 g)
            | Some a => try_fold (bind_input 0) (json_strings a) g
            end) as [[|e] gi] eqn:Hin; [|done].
  by exists gi, go.
Qed.

Lemma bind_input_outputs i v g :
  graph_static (bind_input i v g).2 = graph_static g
  ∧ g_output (bind_input i v g).2 = g_output g
  ∧ ∀ r, output_port_at (g_node_list (bind_input i v g).2) r
         = output_port_at (g_node_list g) r.
Proof.
  unfold bind_input. destruct (spa_streq v "null"); [done|].
  destruct (find_port g (first_node g) v FC_PORT_INPUT) as [q|]; [|done].
  destruct (g_node_list g !! pr_node q) as [n|]; [|done].
  destruct (input_port_at (g_node_list g) q) as [pt|]; [|done].
  destruct (_ && _); [done|]. destruct (0 <? port_n_links pt); [done|].
  cbn [snd]. split; [apply upd_input_external_static|]. split; [done|].
  intros r. cbn [g_node_list graph_set_input graph_set_nodes].
  by autorewrite with port_rw.
Qed.

Lemma round0_inputs_outputs inputs g gi :
  match inputs with
  | None => (Ok, bind_default_inputs 0 g)
  | Some a => try_fold (bind_input 0) (json_strings a) g
  end = (Ok, gi) →
  graph_static gi = graph_static g
  ∧ g_output gi = g_output g
  ∧ ∀ r, output_port_at (g_node_list gi) r = output_port_at (g_node_list g) r.
Proof.
  destruct inputs as [a|].
  - intros Hf.
    pose proof (try_fold_preserve (bind_input 0)
      (λ g1, graph_static g1 = graph_static g ∧ g_output g1 = g_output g
             ∧ ∀ r, output_port_at (g_node_list g1) r
                    = output_port_at (g_node_list g) r)
      (json_strings a) g) as Hp.
    rewrite Hf in Hp. apply Hp; [|done].
    intros v g1 (Hs & Ho & Hr).
    destruct (bind_input_outputs 0 v g1) as (Hs' & Ho' & Hr').
    split; [congruence|]. split; [congruence|]. intros r. by rewrite Hr'.
  - intros [= <-]. unfold bind_default_inputs.
    by destruct (first_node g ≫= λ k, g_node_list g !! k).
Qed.

Lemma setup_dimensions_rounds capture playback n_input n_output c p n_hndl :
  0 ≤ capture → 0 ≤ n_input →
  setup_dimensions capture playback n_input n_output = (Ok, c, p, n_hndl) →
  0 < n_hndl.
Proof.
  intros Hcap Hin Hd.
  assert (n_input ≠ 0 ∧ n_output ≠ 0) as [Hi Ho].
  { unfold setup_dimensions in Hd.
    destruct (Z.eqb_spec n_input 0); [done|]. by destruct (Z.eqb_spec n_output 0). }
  rewrite setup_dimensions_spec in Hd by done. cbv zeta in Hd.
  case_decide as Hbad; [done|]. injection Hd as <- <- <-.
  assert (0 ≤ effective_channels capture n_input / n_input).
  { apply Z.div_pos; [|lia]. unfold effective_channels. destruct (_ =? _); lia. }
  case_decide; lia.
Qed.

(** X23. When [setup_graph] succeeds with a list of [inputs] (or of
    [outputs]), with plugins whose [instantiate] leaves a positive errno
    when it fails, the entries of the list other than ["null"] denote
    ports of the graph that differ from each other, and no link ends at
    (or starts from) any of them. *)
Theorem setup_graph_ports_exclusive (env : plugin_env) (im im' : impl)
        (inputs outputs : option (list jvalue)) :
  builder_state (impl_graph im) →
  Z.of_nat (length (g_link_list (impl_graph im))) < 2 ^ 32 →
  0 ≤ capture_info_channels im →
  errno_reported env →
  (graph_dims (impl_graph im) inputs outputs).1 ≤ SPA_ID_INVALID →
  (graph_dims (impl_graph im) inputs outputs).2 ≤ SPA_ID_INVALID →
  setup_graph env im inputs outputs = (Ok, im') →
  let g := impl_graph im in
  (∀ a, inputs = Some a →
     NoDup ((λ v, find_port g (first_node g) v FC_PORT_INPUT)
              <$> named (json_strings a))
     ∧ Forall (λ v, ∃ q, find_port g (first_node g) v FC_PORT_INPUT = Some q
                         ∧ links_at_input q (g_link_list g) = [])
              (named (json_strings a)))
  ∧ (∀ a, outputs = Some a →
     NoDup ((λ v, find_port g (last_node g) v FC_PORT_OUTPUT)
              <$> named (json_strings a))
     ∧ Forall (λ v, ∃ q, find_port g (last_node g) v FC_PORT_OUTPUT = Some q
                         ∧ links_at_output q (g_link_list g) = [])
              (named (json_strings a))).
Proof.
  intros Hb Hshort Hcap Herr Hdi Hdo Hsetup g.
  pose proof (builder_state_inv _ Hb) as Hinv. fold g in Hinv.
  apply setup_graph_Ok in Hsetup
    as (capture & playback & n_hndl & g1 & g2 & Hd & Hi & Hbind & _); [|done].
  fold g in Hd, Hi, Hdi, Hdo.
  assert (0 < n_hndl) as Hn.
  { apply setup_dimensions_rounds in Hd; [done..|].
    unfold graph_dims, count_array. simpl.
    destruct inputs; [lia|]. destruct (_ ≫= _); simpl; lia. }
  apply bind_ports_round0 in Hbind as (gi & go & Hin & Hout); [|done].
  pose proof (instantiate_nodes_ports env n_hndl g) as (Hs1 & Hi1 & Ho1).
  rewrite Hi in Hs1, Hi1, Ho1. cbn [snd] in Hs1, Hi1, Ho1.
  set (g0 := graph_set_output [] (graph_set_input [] g1)) in *.
  assert (graph_static g0 = graph_static g) as Hs0 by exact Hs1.
  split.
  - intros a ->. apply bind_inputs_exclusive in Hin as [Hnd Hall].
    2:{ unfold graph_dims, count_array in Hdi. simpl in Hdi. simpl. lia. }
    assert (∀ v, find_port g0 (first_node g0) v FC_PORT_INPUT
                 = find_port g (first_node g) v FC_PORT_INPUT) as Hfp.
    { intros v. rewrite (first_node_static g0 g) by done.
      by apply find_port_static. }
    rewrite (list_fmap_ext _ (λ v, find_port g (first_node g) v FC_PORT_INPUT))
      in Hnd by (intros; apply Hfp).
    split; [done|]. eapply Forall_impl; [exact Hall|].
    intros v (q & pt & Hq & Hpt & _ & Hfree). exists q. rewrite <-Hfp.
    split; [done|].
    change (g_node_list g0) with (g_node_list g1) in Hpt. rewrite Hi1 in Hpt.
    destruct (bi_input _ Hinv q pt Hpt) as [_ Hcount].
    pose proof (bi_single _ Hinv q) as Hone.
    destruct (links_at_input q (g_link_list g)) as [|l [|l' ls]]; [done| |].
    + rewrite Hcount in Hfree. by vm_compute in Hfree.
    + simpl in Hone. lia.
  - intros a ->.
    apply round0_inputs_outputs in Hin as (Hsi & Hoi & Hpi).
    apply bind_outputs_exclusive in Hout as [Hnd Hall].
    2:{ unfold graph_dims, count_array in Hdo. simpl in Hdo.
        rewrite Hoi. simpl. lia. }
    assert (∀ v, find_port gi (last_node gi) v FC_PORT_OUTPUT
                 = find_port g (last_node g) v FC_PORT_OUTPUT) as Hfp.
    { intros v. rewrite (last_node_static gi g) by congruence.
      apply find_port_static. congruence. }
    rewrite (list_fmap_ext _ (λ v, find_port g (last_node g) v FC_PORT_OUTPUT))
      in Hnd by (intros; apply Hfp).
    split; [done|]. eapply Forall_impl; [exact Hall|].
    intros v (q & pt & Hq & Hpt & _ & Hfree). exists q. rewrite <-Hfp.
    split; [done|].
    rewrite Hpi in Hpt.
    change (g_node_list g0) with (g_node_list g1) in Hpt. rewrite Ho1 in Hpt.
    destruct (bi_output _ Hinv q pt Hpt) as [_ Hcount].
    unfold links_at_output in *.
    rewrite Hcount, length_filter_bound in Hfree by done.
    destruct (filter _ (g_link_list g)); [done|]. simpl in Hfree. lia.
Qed.

Example graph_mixer_dims_in :
  (graph_dims (impl_graph (impl_of graph_mixer 2 1))
              (Some [JStr "In 2"; JStr "In 1"]) (Some [JStr "Out"])).1
  ≤ SPA_ID_INVALID.
Proof. vm_compute. discriminate. Qed.

Example graph_mixer_dims_out :
  (graph_dims (impl_graph (impl_of graph_mixer 2 1))
              (Some [JStr "In 2"; JStr "In 1"]) (Some [JStr "Out"])).2
  ≤ SPA_ID_INVALID.
Proof. vm_compute. discriminate. Qed.

Example graph_mixer_capture : 0 ≤ capture_info_channels (impl_of graph_mixer 2 1).
Proof. vm_compute. discriminate. Qed.

Example setup_graph_mixer_listed_Ok :
  setup_graph env_ok (impl_of graph_mixer 2 1)
              (Some [JStr "In 2"; JStr "In 1"]) (Some [JStr "Out"])
  = (Ok, (setup_graph env_ok (impl_of graph_mixer 2 1)
                      (Some [JStr "In 2"; JStr "In 1"]) (Some [JStr "Out"])).2).
Proof. vm_compute. reflexivity. Qed.

Lemma setup_graph_ports_exclusive_witness :
  NoDup ((λ v, find_port graph_mixer (first_node graph_mixer) v FC_PORT_INPUT)
           <$> named ["In 2"; "In 1"])
  ∧ Forall (λ v, ∃ q, find_port graph_mixer (last_node graph_mixer) v
                                FC_PORT_OUTPUT = Some q
                      ∧ links_at_output q (g_link_list graph_mixer) = [])
           (named ["Out"]).
Proof.
  destruct (setup_graph_ports_exclusive env_ok (impl_of graph_mixer 2 1)
              (setup_graph env_ok (impl_of graph_mixer 2 1)
                           (Some [JStr "In 2"; JStr "In 1"]) (Some [JStr "Out"])).2
              (Some [JStr "In 2"; JStr "In 1"]) (Some [JStr "Out"])
              graph_mixer_builder graph_mixer_short graph_mixer_capture
              env_ok_errno graph_mixer_dims_in graph_mixer_dims_out
              setup_graph_mixer_listed_Ok) as [Hi Ho].
  split.
  - exact (proj1 (Hi _ eq_refl)).
  - exact (proj2 (Ho _ eq_refl)).
Defined.

(** The same input listed twice, and an input that a link ends at. *)
Example setup_graph_input_twice :
  (setup_graph env_ok (impl_of graph_mixer 2 1)
               (Some [JStr "In 1"; JStr "In 1"]) None).1 = Err EBUSY.
Proof. vm_compute. reflexivity. Qed.

Example setup_graph_input_linked :
  (setup_graph env_ok (impl_of graph_a_to_b 1 1)
               (Some [JStr "b:In"]) None).1 = Err EBUSY.
Proof. vm_compute. reflexivity. Qed.
